(** * Janet [src/core/string.c]: exact search (KMP) and Lua-style matching

    A shallow embedding of the two search engines of Janet's string
    library, and the properties their specification states about them.

    Conventions of the embedding.
    - A byte is a [Z] in [0, 255]; a byte view ([JanetByteView]) is a
      [list Z] whose [len] is its length.
    - [int32_t] offsets and lengths are [Z]. An offset the code computes
      is [-1], or lies between 0 and the length of a view or the start
      offset it was given, so no 32-bit operation on offsets wraps; the
      length of the string [replace] and [replace-all] build is checked
      against [INT32_MAX] where the code computes it; the [size_t] and
      [unsigned char] arithmetic of the matcher has its wrap-around
      written out.
    - The bytes of a Janet string are followed by a 0 that is not counted
      in its length ([janet_string_begin], [janet_string]); the pattern of
      the exact search is such a string, and [pat[patlen]] reads that 0.
    - A C pointer into a view is the [Z] offset from the start of the view;
      [NULL] is [None].
    - [janet_panic] unwinds to the caller of the C function: a computation
      returns an [outcome], [Panic e] carrying the error.
    - Loops are recursive functions on a fuel argument; [OutOfFuel] is
      returned when the fuel runs out and is proved unreachable for the
      fuel the entry points supply. *)

From Stdlib Require Import String Ascii ZArith List Lia Bool Sorted.
Import ListNotations.
Local Open Scope Z_scope.

(** ** Bytes and views *)

Definition len (l : list Z) : Z := Z.of_nat (length l).

Definition byte_of_ascii (c : ascii) : Z := Z.of_nat (nat_of_ascii c).

Definition bytes_of_string (s : string) : list Z :=
  map byte_of_ascii (list_ascii_of_string s).

(** [memcpy]-style slice: [n] bytes of [l] from offset [a]. *)
Definition slice (l : list Z) (a n : Z) : list Z :=
  firstn (Z.to_nat n) (skipn (Z.to_nat a) l).

(** ** Errors and outcomes *)

Inductive janet_error : Type :=
| expected_non_negative_start_index
| pattern_too_complex
| malformed_pattern_ends_with_esc
| malformed_pattern_missing_bracket
| malformed_pattern_missing_arguments_to_b
| missing_bracket_after_f
| invalid_capture_index (l : Z)
| invalid_pattern_capture
| too_many_captures
| unfinished_capture
| matchdepth_error.

(** The text each error is raised with. [janet_panic] hands its text on
    as it is, two ['%'] where the source writes two; [janet_panicf]
    formats the text of [invalid_capture_index], whose [%d] is the carried
    index. *)
Definition message (e : janet_error) : string :=
  match e with
  | expected_non_negative_start_index => "expected non-negative start index"
  | pattern_too_complex => "pattern too complex"
  | malformed_pattern_ends_with_esc => "malformed pattern (ends with '%%')"
  | malformed_pattern_missing_bracket => "malformed pattern (missing ']')"
  | malformed_pattern_missing_arguments_to_b =>
      "malformed pattern (missing arguments to '%%b')"
  | missing_bracket_after_f => "missing '[' after '%%f' in pattern"
  | invalid_capture_index _ => "invalid capture index %"
  | invalid_pattern_capture => "invalid pattern capture"
  | too_many_captures => "too many captures"
  | unfinished_capture => "unfinished capture"
  | matchdepth_error => "matchdepth error"
  end.

(** [Fault] is a read or write outside a view, a string or a table, or an
    [int32_t] result that does not fit: undefined behaviour in C, which
    the model stops at. *)
Inductive outcome (A : Type) : Type :=
| Ret (a : A)
| Panic (e : janet_error)
| Fault
| OutOfFuel.

Arguments Ret {A} a.
Arguments Panic {A} e.
Arguments Fault {A}.
Arguments OutOfFuel {A}.

Definition bind {A B : Type} (m : outcome A) (k : A -> outcome B) : outcome B :=
  match m with
  | Ret a => k a
  | Panic e => Panic e
  | Fault => Fault
  | OutOfFuel => OutOfFuel
  end.

Notation "x <- m ;; k" := (bind m (fun x => k))
  (at level 61, m at next level, right associativity).

(** Values handed back to the caller. *)
#[warnings="-register-all"]
Inductive Janet : Type :=
| janet_wrap_nil
| janet_wrap_integer (z : Z)
| janet_wrap_number (z : Z)
| janet_wrap_string (b : list Z)
| janet_wrap_array (l : list Janet).

(** Checked read of [l[i]]. *)
Definition get (l : list Z) (i : Z) : outcome Z :=
  if i <? 0 then Fault
  else match nth_error l (Z.to_nat i) with
       | Some v => Ret v
       | None => Fault
       end.

(** Unchecked read, [0] outside the list. *)
Definition rd (l : list Z) (i : Z) : Z := nth (Z.to_nat i) l 0.

Fixpoint upd {A : Type} (l : list A) (n : nat) (v : A) : list A :=
  match l, n with
  | [], _ => []
  | _ :: t, O => v :: t
  | h :: t, S n' => h :: upd t n' v
  end.

(** Checked write [l[i] = v]. *)
Definition set (l : list Z) (i v : Z) : outcome (list Z) :=
  if (0 <=? i) && (i <? len l) then Ret (upd l (Z.to_nat i) v) else Fault.

(** ** 32-bit lengths *)

Definition INT32_MAX : Z := 2 ^ 31 - 1.
Definition INT32_MIN : Z := - 2 ^ 31.

Definition int32 (z : Z) : bool := (INT32_MIN <=? z) && (z <=? INT32_MAX).

(** An [int32_t] result [z] computed from the [int32_t] values [operands]
    does not fit: signed overflow. The lengths of byte views are
    [int32_t] values; on a list longer than [INT32_MAX], which no view
    holds, the model computes in [Z]. *)
Definition int32_overflow (operands : list Z) (z : Z) : bool :=
  forallb int32 operands && negb (int32 z).

(** ** Knuth Morris Pratt *)

Record kmp_state : Type := {
  i : Z;
  j : Z;
  textlen : Z;
  patlen : Z;
  lookup : list Z;
  text : list Z;
  pat : list Z
}.

(** [while (j && pat[j] != pat[i]) j = lookup[j - 1];] *)
Fixpoint kmp_init_fallback (fuel : nat) (pat lookup : list Z) (i j : Z)
  : outcome Z :=
  match fuel with
  | O => OutOfFuel
  | S fuel' =>
      if j =? 0 then Ret j
      else
        pj <- get pat j;;
        pi <- get pat i;;
        if pj =? pi then Ret j
        else
          l <- get lookup (j - 1);;
          kmp_init_fallback fuel' pat lookup i l
  end.

(** [for (i = 1, j = 0; i < patlen; i++) { ...; lookup[i] = j; }] *)
Fixpoint kmp_init_loop (fuel : nat) (pat : list Z) (patlen : Z)
    (lookup : list Z) (i j : Z) : outcome (list Z) :=
  match fuel with
  | O => OutOfFuel
  | S fuel' =>
      if i <? patlen then
        j1 <- kmp_init_fallback (S (Z.to_nat j)) pat lookup i j;;
        pj <- get pat j1;;
        pi <- get pat i;;
        let j2 := if pj =? pi then j1 + 1 else j1 in
        lookup' <- set lookup i j2;;
        kmp_init_loop fuel' pat patlen lookup' (i + 1) j2
      else Ret lookup
  end.

(** [calloc] gives a zeroed table; allocation failure is outside the model. *)
Definition kmp_init (text : list Z) (textlen : Z) (pat : list Z) (patlen : Z)
  : outcome kmp_state :=
  let lookup0 := repeat 0 (Z.to_nat patlen) in
  lookup' <- kmp_init_loop (S (Z.to_nat patlen)) pat patlen lookup0 1 0;;
  Ret {| i := 0; j := 0; textlen := textlen; patlen := patlen;
         lookup := lookup'; text := text; pat := pat |}.

Definition set_cursor (s : kmp_state) (i' j' : Z) : kmp_state :=
  {| i := i'; j := j'; textlen := textlen s; patlen := patlen s;
     lookup := lookup s; text := text s; pat := pat s |}.

Definition kmp_seti (state : kmp_state) (i' : Z) : kmp_state :=
  set_cursor state i' 0.

(** [pat[j]]: the bytes of the pattern, a Janet string, and the 0 that
    [janet_string_begin] and [janet_string] put after them. *)
Definition get_pat (pat : list Z) (j : Z) : outcome Z := get (pat ++ [0]) j.

(** The [while (i < textlen)] loop of [kmp_next] on the locals [i], [j].
    The result is the returned offset ([-1] when the text is exhausted) and
    the state, which is written only on a hit. *)
Fixpoint kmp_next_loop (fuel : nat) (state : kmp_state) (i j : Z)
  : outcome (Z * kmp_state) :=
  match fuel with
  | O => OutOfFuel
  | S fuel' =>
      if i <? textlen state then
        ti <- get (text state) i;;
        pj <- get_pat (pat state) j;;
        if ti =? pj then
          if j =? patlen state - 1 then
            l <- get (lookup state) j;;
            Ret (i - j, set_cursor state (i + 1) l)
          else kmp_next_loop fuel' state (i + 1) (j + 1)
        else
          if 0 <? j then
            l <- get (lookup state) (j - 1);;
            kmp_next_loop fuel' state i l
          else kmp_next_loop fuel' state (i + 1) j
      else Ret (-1, state)
  end.

(** Each iteration lowers [2 * (textlen - i) + j]. *)
Definition kmp_next_fuel (state : kmp_state) : nat :=
  S (Z.to_nat (2 * (textlen state - i state) + j state)).

Definition kmp_next (state : kmp_state) : outcome (Z * kmp_state) :=
  kmp_next_loop (kmp_next_fuel state) state (i state) (j state).

(** [findsetup]: [start] is [None] when the optional argument is absent. *)
Definition findsetup (pat text : list Z) (start : option Z)
  : outcome kmp_state :=
  start' <- match start with
            | None => Ret 0
            | Some n =>
                if n <? 0 then Panic expected_non_negative_start_index
                else Ret n
            end;;
  s <- kmp_init text (len text) pat (len pat);;
  Ret (set_cursor s start' (j s)).

Definition cfun_string_find (patt str : list Z) (start : option Z)
  : outcome Janet :=
  state <- findsetup patt str start;;
  r <- kmp_next state;;
  let result := fst r in
  Ret (if result <? 0 then janet_wrap_nil else janet_wrap_integer result).

(** [while ((result = kmp_next(&state)) >= 0) janet_array_push(...)] *)
Fixpoint findall_loop (fuel : nat) (state : kmp_state) (array : list Janet)
  : outcome (list Janet) :=
  match fuel with
  | O => OutOfFuel
  | S fuel' =>
      r <- kmp_next state;;
      let (result, state') := r in
      if result >=? 0 then
        findall_loop fuel' state' (array ++ [janet_wrap_integer result])
      else Ret array
  end.

(** Every hit moves the cursor forward, so there are at most [textlen]. *)
Definition cfun_string_findall (patt str : list Z) (start : option Z)
  : outcome Janet :=
  state <- findsetup patt str start;;
  array <- findall_loop (S (length str)) state [];;
  Ret (janet_wrap_array array).

Record replace_state : Type := {
  kmp : kmp_state;
  subst : list Z;
  substlen : Z
}.

Definition replacesetup (pat subst text : list Z) (start : option Z)
  : outcome replace_state :=
  start' <- match start with
            | None => Ret 0
            | Some n =>
                if n <? 0 then Panic expected_non_negative_start_index
                else Ret n
            end;;
  k <- kmp_init text (len text) pat (len pat);;
  Ret {| kmp := set_cursor k start' (j k); subst := subst;
         substlen := len subst |}.

Definition cfun_string_replace (patt sub str : list Z) (start : option Z)
  : outcome Janet :=
  s <- replacesetup patt sub str start;;
  r <- kmp_next (kmp s);;
  let result := fst r in
  let k := kmp s in
  if result <? 0 then Ret (janet_wrap_string (slice (text k) 0 (textlen k)))
  else if int32_overflow [textlen k; patlen k; substlen s]
            (textlen k - patlen k + substlen s)
  then Fault
  else
    Ret (janet_wrap_string
           (slice (text k) 0 result
            ++ slice (subst s) 0 (substlen s)
            ++ slice (text k) (result + patlen k)
                 (textlen k - result - patlen k))).

(** The loop of [cfun_string_replaceall]; [b] is the output buffer. *)
Fixpoint replaceall_loop (fuel : nat) (s : replace_state) (k : kmp_state)
    (b : list Z) (lastindex : Z) : outcome (list Z * Z) :=
  match fuel with
  | O => OutOfFuel
  | S fuel' =>
      r <- kmp_next k;;
      let (result, k') := r in
      if result >=? 0 then
        let b1 := b ++ slice (text k') lastindex (result - lastindex) in
        let b2 := b1 ++ slice (subst s) 0 (substlen s) in
        let lastindex' := result + patlen k' in
        replaceall_loop fuel' s (kmp_seti k' lastindex') b2 lastindex'
      else Ret (b, lastindex)
  end.

(** Modelled from the spec: [janet_buffer_push_bytes] and the [count] of a
    [JanetBuffer] are in buffer.c and janet.h, which are not under src/.
    The bytes pushed accumulate in the buffer ("accumulates into an output
    buffer"), and "an oversized result fails the call": [janet_string]
    takes the count as an [int32_t], so a buffer of more than [INT32_MAX]
    bytes gives no string, and the model stops there. [operands] are the
    [int32_t] lengths the count is made of. *)
Definition buffer_string (operands : list Z) (b : list Z) : outcome Janet :=
  if int32_overflow operands (len b) then Fault
  else Ret (janet_wrap_string b).

Definition cfun_string_replaceall (patt sub str : list Z) (start : option Z)
  : outcome Janet :=
  s <- replacesetup patt sub str start;;
  r <- replaceall_loop (S (length str)) s (kmp s) [] 0;;
  let (b, lastindex) := r in
  let k := kmp s in
  buffer_string [textlen k; patlen k; substlen s]
    (b ++ slice (text k) lastindex (textlen k - lastindex)).

(** ** Lua-style pattern matching (adapted from lua/lstrlib.c) *)

Definition CAP_UNFINISHED : Z := -1.
Definition CAP_POSITION : Z := -2.
Definition MAXCAPTURES : Z := 256.
Definition MAXCCALLS : Z := 200.

(** A character constant. *)
Definition ch (c : ascii) : Z := byte_of_ascii c.

Definition CHAR_ESC : Z := ch "%".

(** [<ctype.h>] in the "C" locale, on an [unsigned char] value. *)
Definition isupper (c : Z) : bool := (65 <=? c) && (c <=? 90).
Definition islower (c : Z) : bool := (97 <=? c) && (c <=? 122).
Definition isalpha (c : Z) : bool := isupper c || islower c.
Definition isdigit (c : Z) : bool := (48 <=? c) && (c <=? 57).
Definition isalnum (c : Z) : bool := isalpha c || isdigit c.
Definition isxdigit (c : Z) : bool :=
  isdigit c || ((65 <=? c) && (c <=? 70)) || ((97 <=? c) && (c <=? 102)).
Definition isspace (c : Z) : bool := (c =? 32) || ((9 <=? c) && (c <=? 13)).
Definition iscntrl (c : Z) : bool := ((0 <=? c) && (c <=? 31)) || (c =? 127).
Definition isgraph (c : Z) : bool := (33 <=? c) && (c <=? 126).
Definition ispunct (c : Z) : bool := isgraph c && negb (isalnum c).
Definition tolower (c : Z) : Z := if isupper c then c + 32 else c.

(** One entry of [ms->capture]: [init] (an offset into the subject) and
    [len]. *)
Record capture_t : Type := { init : Z; clen : Z }.

Record MatchState : Type := {
  src_init : Z;
  src_end : Z;
  p_end : Z;
  matchdepth : Z;
  level : Z;                 (* unsigned char *)
  capture : list capture_t   (* MAXCAPTURES entries *)
}.

Definition set_matchdepth (ms : MatchState) (d : Z) : MatchState :=
  {| src_init := src_init ms; src_end := src_end ms; p_end := p_end ms;
     matchdepth := d; level := level ms; capture := capture ms |}.

(** A store into the [unsigned char] field [level]. *)
Definition set_level (ms : MatchState) (l : Z) : MatchState :=
  {| src_init := src_init ms; src_end := src_end ms; p_end := p_end ms;
     matchdepth := matchdepth ms; level := l mod 256;
     capture := capture ms |}.

Definition set_capture (ms : MatchState) (l : Z) (c : capture_t) : MatchState :=
  {| src_init := src_init ms; src_end := src_end ms; p_end := p_end ms;
     matchdepth := matchdepth ms; level := level ms;
     capture := upd (capture ms) (Z.to_nat l) c |}.

Definition get_capture (ms : MatchState) (l : Z) : capture_t :=
  nth (Z.to_nat l) (capture ms) {| init := 0; clen := 0 |}.

(** The result of a match: the end of the match ([None] for [NULL]) and
    the state it leaves. *)
Definition match_result : Type := (option Z * MatchState)%type.

Definition match_class (c cl : Z) : bool :=
  let lcl := tolower cl in
  let answer (res : bool) := if islower cl then res else negb res in
  if lcl =? ch "a" then answer (isalpha c)
  else if lcl =? ch "c" then answer (iscntrl c)
  else if lcl =? ch "d" then answer (isdigit c)
  else if lcl =? ch "g" then answer (isgraph c)
  else if lcl =? ch "l" then answer (islower c)
  else if lcl =? ch "p" then answer (ispunct c)
  else if lcl =? ch "s" then answer (isspace c)
  else if lcl =? ch "u" then answer (isupper c)
  else if lcl =? ch "w" then answer (isalnum c)
  else if lcl =? ch "x" then answer (isxdigit c)
  else if lcl =? ch "z" then answer (c =? 0)
  else cl =? c.

Section Engine.
(** The bytes [s] and [p] point into. Either is followed by a ['\0'], as
    the comments on [src_end] and [p_end] say: a read at the end offset
    gives 0. *)
Variable subject : list Z.
Variable pattern : list Z.

Definition check_capture (ms : MatchState) (l : Z) : outcome Z :=
  let l := l - ch "1" in
  if (l <? 0) || (l >=? level ms)
     || (clen (get_capture ms l) =? CAP_UNFINISHED)
  then Panic (invalid_capture_index (l + 1))
  else Ret l.

(** [for (level--; level >= 0; level--)] with [n] entries left to look
    at. *)
Fixpoint capture_to_close_loop (ms : MatchState) (n : nat) : outcome Z :=
  match n with
  | O => Panic invalid_pattern_capture
  | S n' =>
      if clen (get_capture ms (Z.of_nat n')) =? CAP_UNFINISHED
      then Ret (Z.of_nat n')
      else capture_to_close_loop ms n'
  end.

Definition capture_to_close (ms : MatchState) : outcome Z :=
  capture_to_close_loop ms (Z.to_nat (level ms)).

(** The [do ... while] loop of [classend], which looks for the closing
    bracket. *)
Fixpoint classend_loop (fuel : nat) (ms : MatchState) (p : Z) : outcome Z :=
  match fuel with
  | O => OutOfFuel
  | S fuel' =>
      if p =? p_end ms then Panic malformed_pattern_missing_bracket
      else
        let c := rd pattern p in
        let p := p + 1 in
        let p := if (c =? CHAR_ESC) && (p <? p_end ms) then p + 1 else p in
        if negb (rd pattern p =? ch "]") then classend_loop fuel' ms p
        else Ret (p + 1)
  end.

Definition classend (ms : MatchState) (p : Z) : outcome Z :=
  let c := rd pattern p in
  let p := p + 1 in
  if c =? CHAR_ESC then
    if p =? p_end ms then Panic malformed_pattern_ends_with_esc
    else Ret (p + 1)
  else if c =? ch "[" then
    let p := if rd pattern p =? ch "^" then p + 1 else p in
    classend_loop (S (Z.to_nat (p_end ms - p))) ms p
  else Ret p.

(** [while (++p < ec)] of [matchbracketclass]; [p] is the value before
    the increment. *)
Fixpoint matchbracketclass_loop (fuel : nat) (c p ec : Z) (sig : bool)
  : outcome bool :=
  match fuel with
  | O => OutOfFuel
  | S fuel' =>
      let p := p + 1 in
      if p <? ec then
        if rd pattern p =? CHAR_ESC then
          let p := p + 1 in
          if match_class c (rd pattern p) then Ret sig
          else matchbracketclass_loop fuel' c p ec sig
        else if (rd pattern (p + 1) =? ch "-") && (p + 2 <? ec) then
          let p := p + 2 in
          if (rd pattern (p - 2) <=? c) && (c <=? rd pattern p) then Ret sig
          else matchbracketclass_loop fuel' c p ec sig
        else if rd pattern p =? c then Ret sig
        else matchbracketclass_loop fuel' c p ec sig
      else Ret (negb sig)
  end.

Definition matchbracketclass (c p ec : Z) : outcome bool :=
  let (sig, p) :=
    if rd pattern (p + 1) =? ch "^" then (false, p + 1) else (true, p) in
  matchbracketclass_loop (S (Z.to_nat (ec - p))) c p ec sig.

Definition singlematch (ms : MatchState) (s p ep : Z) : outcome bool :=
  if s >=? src_end ms then Ret false
  else
    let c := rd subject s in
    let pc := rd pattern p in
    if pc =? ch "." then Ret true
    else if pc =? CHAR_ESC then Ret (match_class c (rd pattern (p + 1)))
    else if pc =? ch "[" then matchbracketclass c p (ep - 1)
    else Ret (pc =? c).

(** [while (++s < ms->src_end)] of [matchbalance]; [s] is the value
    before the increment. *)
Fixpoint matchbalance_loop (fuel : nat) (ms : MatchState) (s b e cont : Z)
  : outcome (option Z) :=
  match fuel with
  | O => OutOfFuel
  | S fuel' =>
      let s := s + 1 in
      if s <? src_end ms then
        if rd subject s =? e then
          let cont := cont - 1 in
          if cont =? 0 then Ret (Some (s + 1))
          else matchbalance_loop fuel' ms s b e cont
        else if rd subject s =? b then
          matchbalance_loop fuel' ms s b e (cont + 1)
        else matchbalance_loop fuel' ms s b e cont
      else Ret None
  end.

Definition matchbalance (ms : MatchState) (s p : Z) : outcome (option Z) :=
  if p >=? p_end ms - 1 then Panic malformed_pattern_missing_arguments_to_b
  else if negb (rd subject s =? rd pattern p) then Ret None
  else
    let b := rd pattern p in
    let e := rd pattern (p + 1) in
    matchbalance_loop (S (Z.to_nat (src_end ms - s))) ms s b e 1.

(** [(size_t) len]. *)
Definition to_size_t (z : Z) : Z := z mod 2 ^ 64.

Definition match_capture (ms : MatchState) (s l : Z) : outcome (option Z) :=
  l <- check_capture ms l;;
  let len := to_size_t (clen (get_capture ms l)) in
  if to_size_t (src_end ms - s) >=? len then
    if list_eq_dec Z.eq_dec
         (slice subject (init (get_capture ms l)) len) (slice subject s len)
    then Ret (Some (s + len))
    else Ret None
  else Ret None.

(** The functions below call [match] back; [rec] stands for that call. *)
Section OpenRecursion.
Variable rec : MatchState -> Z -> Z -> outcome match_result.

(** [while (singlematch(ms, s + i, p, ep)) i++;] *)
Fixpoint max_expand_count (fuel : nat) (ms : MatchState) (s p ep i : Z)
  : outcome Z :=
  match fuel with
  | O => OutOfFuel
  | S fuel' =>
      m <- singlematch ms (s + i) p ep;;
      if m then max_expand_count fuel' ms s p ep (i + 1) else Ret i
  end.

(** [while (i >= 0) { ...; i--; }] with [i = n - 1]. *)
Fixpoint max_expand_try (n : nat) (ms : MatchState) (s ep : Z)
  : outcome match_result :=
  match n with
  | O => Ret (None, ms)
  | S n' =>
      r <- rec ms (s + Z.of_nat n') (ep + 1);;
      match r with
      | (Some res, ms') => Ret (Some res, ms')
      | (None, ms') => max_expand_try n' ms' s ep
      end
  end.

Definition max_expand (ms : MatchState) (s p ep : Z)
  : outcome match_result :=
  i <- max_expand_count (S (Z.to_nat (src_end ms - s))) ms s p ep 0;;
  max_expand_try (Z.to_nat (i + 1)) ms s ep.

(** [for (;;)] of [min_expand]. *)
Fixpoint min_expand_loop (fuel : nat) (ms : MatchState) (s p ep : Z)
  : outcome match_result :=
  match fuel with
  | O => OutOfFuel
  | S fuel' =>
      r <- rec ms s (ep + 1);;
      match r with
      | (Some res, ms') => Ret (Some res, ms')
      | (None, ms') =>
          m <- singlematch ms' s p ep;;
          if m then min_expand_loop fuel' ms' (s + 1) p ep
          else Ret (None, ms')
      end
  end.

Definition min_expand (ms : MatchState) (s p ep : Z)
  : outcome match_result :=
  min_expand_loop (S (S (Z.to_nat (src_end ms - s)))) ms s p ep.

Definition start_capture (ms : MatchState) (s p what : Z)
  : outcome match_result :=
  let level0 := level ms in
  if level0 >=? MAXCAPTURES then Panic too_many_captures
  else
    let ms := set_capture ms level0 {| init := s; clen := what |} in
    let ms := set_level ms (level0 + 1) in
    r <- rec ms s p;;
    match r with
    | (None, ms') => Ret (None, set_level ms' (level ms' - 1))
    | (Some res, ms') => Ret (Some res, ms')
    end.

Definition end_capture (ms : MatchState) (s p : Z)
  : outcome match_result :=
  l <- capture_to_close ms;;
  let ci := init (get_capture ms l) in
  let ms := set_capture ms l {| init := ci; clen := s - ci |} in
  r <- rec ms s p;;
  match r with
  | (None, ms') =>
      Ret (None,
           set_capture ms' l
             {| init := init (get_capture ms' l); clen := CAP_UNFINISHED |})
  | (Some res, ms') => Ret (Some res, ms')
  end.

(** The body of [match] from the label [init] on; every [goto init] is
    one more turn of the loop. *)
Fixpoint match_body (fuel : nat) (ms : MatchState) (s p : Z)
  : outcome match_result :=
  match fuel with
  | O => OutOfFuel
  | S fuel' =>
      if negb (p =? p_end ms) then
        let c := rd pattern p in
        let c1 := rd pattern (p + 1) in
        if c =? ch "(" then
          if c1 =? ch ")" then start_capture ms s (p + 2) CAP_POSITION
          else start_capture ms s (p + 1) CAP_UNFINISHED
        else if c =? ch ")" then end_capture ms s (p + 1)
        else if (c =? ch "$") && (p + 1 =? p_end ms) then
          Ret (if s =? src_end ms then Some s else None, ms)
        else if (c =? CHAR_ESC) && (c1 =? ch "b") then
          r <- matchbalance ms s (p + 2);;
          match r with
          | Some s' => match_body fuel' ms s' (p + 4)
          | None => Ret (None, ms)
          end
        else if (c =? CHAR_ESC) && (c1 =? ch "f") then
          let p := p + 2 in
          if negb (rd pattern p =? ch "[") then Panic missing_bracket_after_f
          else
            ep <- classend ms p;;
            let previous :=
              if s =? src_init ms then 0 else rd subject (s - 1) in
            m1 <- matchbracketclass previous p (ep - 1);;
            if m1 then Ret (None, ms)
            else
              m2 <- matchbracketclass (rd subject s) p (ep - 1);;
              if m2 then match_body fuel' ms s ep
              else Ret (None, ms)
        else if (c =? CHAR_ESC) && isdigit c1 then
          r <- match_capture ms s c1;;
          match r with
          | Some s' => match_body fuel' ms s' (p + 2)
          | None => Ret (None, ms)
          end
        else
          ep <- classend ms p;;
          m <- singlematch ms s p ep;;
          let e := rd pattern ep in
          if negb m then
            if (e =? ch "*") || (e =? ch "?") || (e =? ch "-")
            then match_body fuel' ms s (ep + 1)
            else Ret (None, ms)
          else if e =? ch "?" then
            r <- rec ms (s + 1) (ep + 1);;
            match r with
            | (Some res, ms') => Ret (Some res, ms')
            | (None, ms') => match_body fuel' ms' s (ep + 1)
            end
          else if e =? ch "+" then max_expand ms (s + 1) p ep
          else if e =? ch "*" then max_expand ms s p ep
          else if e =? ch "-" then min_expand ms s p ep
          else match_body fuel' ms (s + 1) ep
      else Ret (Some s, ms)
  end.
End OpenRecursion.

(** [match]: [d] bounds the nesting of calls, which [matchdepth] keeps
    below [MAXCCALLS]. *)
Fixpoint match_ (d : nat) (ms : MatchState) (s p : Z)
  : outcome match_result :=
  match d with
  | O => OutOfFuel
  | S d' =>
      if matchdepth ms =? 0 then Panic pattern_too_complex
      else
        let ms := set_matchdepth ms (matchdepth ms - 1) in
        r <- match_body (match_ d') (S (Z.to_nat (p_end ms - p))) ms s p;;
        let (res, ms') := r in
        Ret (res, set_matchdepth ms' (matchdepth ms' + 1))
  end.

Definition push_onecapture (ms : MatchState) (i s e : Z)
    (captures : list Janet) : outcome (list Janet) :=
  if i >=? level ms then
    if i =? 0 then Ret (captures ++ [janet_wrap_string (slice subject s (e - s))])
    else Panic (invalid_capture_index (i + 1))
  else
    let l := clen (get_capture ms i) in
    if l =? CAP_UNFINISHED then Panic unfinished_capture
    else if l =? CAP_POSITION then
      Ret (captures
             ++ [janet_wrap_number (init (get_capture ms i) - src_init ms + 1)])
    else
      Ret (captures
             ++ [janet_wrap_string (slice subject (init (get_capture ms i)) l)]).

(** [for (i = 0; i < nlevels; i++)] with [n] levels left. *)
Fixpoint push_captures_loop (n : nat) (ms : MatchState) (i s e : Z)
    (captures : list Janet) : outcome (list Janet) :=
  match n with
  | O => Ret captures
  | S n' =>
      captures' <- push_onecapture ms i s e captures;;
      push_captures_loop n' ms (i + 1) s e captures'
  end.

Definition push_captures (ms : MatchState) (s e : Z) (captures : list Janet)
  : outcome (list Janet) :=
  let nlevels := if level ms =? 0 then 1 else level ms in
  push_captures_loop (Z.to_nat nlevels) ms 0 s e captures.

(** [MatchState ms;] is not initialised; no entry of [capture] is read
    before it is written. *)
Definition prepstate (ls lp : Z) (p : Z) : MatchState :=
  {| src_init := 0; src_end := ls; p_end := p + lp;
     matchdepth := MAXCCALLS; level := 0;
     capture := repeat {| init := 0; clen := 0 |} (Z.to_nat MAXCAPTURES) |}.

Definition reprepstate (ms : MatchState) : outcome MatchState :=
  let ms := set_level ms 0 in
  if negb (matchdepth ms =? MAXCCALLS) then Panic matchdepth_error
  else Ret ms.

(** The [do ... while (s1++ < ms.src_end && !anchor)] loop of
    [cfun_str_match]. *)
Fixpoint str_match_loop (fuel : nat) (ms : MatchState) (s1 p : Z)
    (anchor : bool) : outcome Janet :=
  match fuel with
  | O => OutOfFuel
  | S fuel' =>
      ms <- reprepstate ms;;
      r <- match_ (S (Z.to_nat MAXCCALLS)) ms s1 p;;
      match r with
      | (Some res, ms') =>
          captures <- push_captures ms' s1 res [];;
          Ret (janet_wrap_array captures)
      | (None, ms') =>
          if (s1 <? src_end ms') && negb anchor
          then str_match_loop fuel' ms' (s1 + 1) p anchor
          else Ret janet_wrap_nil
      end
  end.
End Engine.

(** [(int) len] and [(size_t) pos]: conversions to 32-bit signed and to
    64-bit unsigned. *)
Definition to_int (z : Z) : Z := (z + 2 ^ 31) mod 2 ^ 32 - 2 ^ 31.

Definition posrelatI (pos len : Z) : Z :=
  if pos >? 0 then to_size_t pos
  else if pos =? 0 then 1
  else if pos <? - to_int len then 1
  else to_size_t (len + to_size_t pos + 1).

(** [cfun_str_match]: [str] is the subject ([argv[0]]), [pattern] the
    pattern string ([argv[1]]), [start] the optional third argument. *)
Definition str_match_init (ls : Z) (start : option Z) : Z :=
  match start with
  | None => 0
  | Some n => to_size_t (posrelatI n ls - 1)
  end.

Definition cfun_str_match (str pattern : list Z) (start : option Z)
  : outcome Janet :=
  let ls := len str in
  let lp := len pattern in
  let init := str_match_init ls start in
  if init >? ls then Ret janet_wrap_nil
  else
    let s1 := init in
    let anchor := rd pattern 0 =? ch "^" in
    let p := if anchor then 1 else 0 in
    let lp := if anchor then lp - 1 else lp in
    let ms := prepstate ls lp p in
    str_match_loop str pattern (S (Z.to_nat (ls - s1))) ms s1 p anchor.

(** ** The other functions of the string library

    The functions of [string.c] beside the two search engines: string
    comparison, the byte utilities, [split], [check-set] and [join].
    Reads and writes are checked as in the exact search, a [Fault] being
    an access outside a view or a buffer. *)

(** Checked read and write of an array of any item type. *)
Definition load {A : Type} (l : list A) (i : Z) : outcome A :=
  if i <? 0 then Fault
  else match nth_error l (Z.to_nat i) with
       | Some v => Ret v
       | None => Fault
       end.

Definition store {A : Type} (l : list A) (i : Z) (v : A) : outcome (list A) :=
  if (0 <=? i) && (i <? Z.of_nat (length l)) then Ret (upd l (Z.to_nat i) v)
  else Fault.

(** [memcpy(dst + d, src + s, n)]: the [n] bytes of [src] from offset [s]
    written over [dst] from offset [d]. The count is a [size_t]: a negative
    [n] is a count no buffer holds. *)
Definition memcpy (dst : list Z) (d : Z) (src : list Z) (s n : Z)
  : outcome (list Z) :=
  if (0 <=? n) && (0 <=? d) && (d + n <=? len dst)
     && (0 <=? s) && (s + n <=? len src)
  then Ret (firstn (Z.to_nat d) dst ++ slice src s n
            ++ skipn (Z.to_nat (d + n)) dst)
  else Fault.

(** [janet_string_begin]: the [length] bytes of a new string, not yet
    written (the terminating 0 that follows them is left out). *)
Definition janet_string_begin (length : Z) : list Z :=
  repeat 0 (Z.to_nat length).

(** [janet_string(buf + a, n)]: a new string that holds [n] bytes of the
    view [buf] from offset [a]. *)
Definition janet_string (buf : list Z) (a n : Z) : outcome (list Z) :=
  memcpy (janet_string_begin n) 0 buf a n.

(** [janet_tuple_begin]: the items of a new tuple, not yet written. *)
Definition janet_tuple_begin (length : Z) : list Janet :=
  repeat janet_wrap_nil (Z.to_nat length).

(** *** Comparison *)

(** A string as [janet_string_equalconst] sees it: the address of its
    bytes, and the hash and the bytes its head holds (the length is that
    of [data]). *)
Record JanetStringHead : Type := {
  address : Z;
  hash : Z;
  data : list Z
}.

Section Memcmp.
(** [memcmp] of the C library, on the first [n] bytes of two views. *)
Variable memcmp : list Z -> list Z -> Z -> Z.

Definition janet_string_compare (lhs rhs : list Z) : Z :=
  let xlen := len lhs in
  let ylen := len rhs in
  let len := if xlen >? ylen then ylen else xlen in
  let res := memcmp lhs rhs len in
  if negb (res =? 0) then res
  else if xlen =? ylen then 0
  else if xlen <? ylen then -1 else 1.

(** [rhs] is a piece of memory: its address and the bytes there. *)
Definition janet_string_equalconst (lhs : JanetStringHead)
    (rhs_address : Z) (rhs : list Z) (rlen rhash : Z) : Z :=
  let lhash := hash lhs in
  let llen := len (data lhs) in
  if address lhs =? rhs_address then 1
  else if negb (lhash =? rhash) || negb (llen =? rlen) then 0
  else if memcmp (data lhs) rhs rlen =? 0 then 1 else 0.

Definition janet_string_equal (lhs rhs : JanetStringHead) : Z :=
  janet_string_equalconst lhs (address rhs) (data rhs)
    (len (data rhs)) (hash rhs).
End Memcmp.

(** *** Byte utilities *)

(** The panics of these functions. *)
Inductive string_panic : Type :=
| expected_non_negative_number_of_repetitions
| result_string_is_too_long
| result_string_too_long
| item_of_parts_is_not_a_byte_sequence (i : Z) (item : Janet).

(** The text each is raised with ([%d] is the carried index, [%v] the
    carried item). *)
Definition panic_message (e : string_panic) : string :=
  match e with
  | expected_non_negative_number_of_repetitions =>
      "expected non-negative number of repetitions"
  | result_string_is_too_long => "result string is too long"
  | result_string_too_long => "result string too long"
  | item_of_parts_is_not_a_byte_sequence _ _ =>
      "item %d of parts is not a byte sequence, got %v"
  end.

(** What such a function hands back: the panic it raised, or its value. *)
Definition reply : Type := (string_panic + Janet)%type.

(** [for (uint8_t *p = newbuf; p < end; p += view.len)]; [p] and [end] are
    offsets into [newbuf]. *)
Fixpoint repeat_loop (fuel : nat) (view newbuf : list Z) (p end_ : Z)
  : outcome (list Z) :=
  match fuel with
  | O => OutOfFuel
  | S fuel' =>
      if p <? end_ then
        newbuf' <- memcpy newbuf p view 0 (len view);;
        repeat_loop fuel' view newbuf' (p + len view) end_
      else Ret newbuf
  end.

(** [mulres] is a 64-bit product of two 32-bit values. *)
Definition cfun_string_repeat (view : list Z) (rep : Z) : outcome reply :=
  if rep <? 0 then Ret (inl expected_non_negative_number_of_repetitions)
  else if rep =? 0 then Ret (inr (janet_wrap_string []))
  else
    let mulres := rep * len view in
    if mulres >? INT32_MAX then Ret (inl result_string_is_too_long)
    else
      newbuf <- repeat_loop (S (Z.to_nat rep)) view
                  (janet_string_begin mulres) 0 mulres;;
      Ret (inr (janet_wrap_string newbuf)).

(** [for (i = 0; i < view.len; i++)] with [n] bytes left. *)
Fixpoint bytes_loop (n : nat) (view : list Z) (tup : list Janet) (i : Z)
  : outcome (list Janet) :=
  match n with
  | O => Ret tup
  | S n' =>
      c <- get view i;;
      tup' <- store tup i (janet_wrap_integer c);;
      bytes_loop n' view tup' (i + 1)
  end.

(** The result is the items of the tuple that is returned. *)
Definition cfun_string_bytes (view : list Z) : outcome (list Janet) :=
  bytes_loop (length view) view (janet_tuple_begin (len view)) 0.

(** [for (i = 0; i < argc; i++)] with [n] arguments left; [argv] holds the
    integers [janet_getinteger] reads. *)
Fixpoint frombytes_loop (n : nat) (argv buf : list Z) (i : Z)
  : outcome (list Z) :=
  match n with
  | O => Ret buf
  | S n' =>
      c <- get argv i;;
      buf' <- set buf i (Z.land c 255);;
      frombytes_loop n' argv buf' (i + 1)
  end.

Definition cfun_string_frombytes (argv : list Z) : outcome Janet :=
  buf <- frombytes_loop (length argv) argv (janet_string_begin (len argv)) 0;;
  Ret (janet_wrap_string buf).

(** The stores below are into a [uint8_t]. *)
Fixpoint asciilower_loop (n : nat) (view buf : list Z) (i : Z)
  : outcome (list Z) :=
  match n with
  | O => Ret buf
  | S n' =>
      c <- get view i;;
      buf' <- (if (c >=? 65) && (c <=? 90) then set buf i ((c + 32) mod 256)
               else set buf i c);;
      asciilower_loop n' view buf' (i + 1)
  end.

Definition cfun_string_asciilower (view : list Z) : outcome Janet :=
  buf <- asciilower_loop (length view) view (janet_string_begin (len view)) 0;;
  Ret (janet_wrap_string buf).

Fixpoint asciiupper_loop (n : nat) (view buf : list Z) (i : Z)
  : outcome (list Z) :=
  match n with
  | O => Ret buf
  | S n' =>
      c <- get view i;;
      buf' <- (if (c >=? 97) && (c <=? 122) then set buf i ((c - 32) mod 256)
               else set buf i c);;
      asciiupper_loop n' view buf' (i + 1)
  end.

Definition cfun_string_asciiupper (view : list Z) : outcome Janet :=
  buf <- asciiupper_loop (length view) view (janet_string_begin (len view)) 0;;
  Ret (janet_wrap_string buf).

(** [for (i = 0, j = view.len - 1; i < view.len; i++, j--)] with [n] bytes
    left. *)
Fixpoint reverse_loop (n : nat) (view buf : list Z) (i j : Z)
  : outcome (list Z) :=
  match n with
  | O => Ret buf
  | S n' =>
      c <- get view j;;
      buf' <- set buf i c;;
      reverse_loop n' view buf' (i + 1) (j - 1)
  end.

Definition cfun_string_reverse (view : list Z) : outcome Janet :=
  buf <- reverse_loop (length view) view (janet_string_begin (len view))
           0 (len view - 1);;
  Ret (janet_wrap_string buf).

(** *** [split] *)

(** [while ((result = kmp_next(&state)) >= 0 && limit--)]. The cursor is
    left where [kmp_next] put it. [limit--] on the least [int32_t] is an
    overflow. The result is the array and [lastindex]. *)
Fixpoint split_loop (fuel : nat) (state : kmp_state) (array : list Janet)
    (limit lastindex : Z) : outcome (list Janet * Z) :=
  match fuel with
  | O => OutOfFuel
  | S fuel' =>
      r <- kmp_next state;;
      let (result, state') := r in
      if result >=? 0 then
        if limit =? INT32_MIN then Fault
        else if negb (limit =? 0) then
          piece <- janet_string (text state') lastindex (result - lastindex);;
          split_loop fuel' state' (array ++ [janet_wrap_string piece])
            (limit - 1) (result + patlen state')
        else Ret (array, lastindex)
      else Ret (array, lastindex)
  end.

(** [opt] is the optional arguments: none, the start offset, or the start
    offset and the limit. *)
Definition cfun_string_split (delim str : list Z)
    (opt : option (Z * option Z)) : outcome Janet :=
  let limit := match opt with
               | Some (_, Some l) => l
               | _ => -1
               end in
  state <- findsetup delim str (option_map fst opt);;
  r <- split_loop (S (length str)) state [] limit 0;;
  let (array, lastindex) := r in
  piece <- janet_string (text state) lastindex (textlen state - lastindex);;
  Ret (janet_wrap_array (array ++ [janet_wrap_string piece])).

(** *** [check-set] *)

(** [for (i = 0; i < set.len; i++)] with [n] bytes left; [bitset] is eight
    [uint32_t]. *)
Fixpoint checkset_populate (n : nat) (cset bitset : list Z) (i : Z)
  : outcome (list Z) :=
  match n with
  | O => Ret bitset
  | S n' =>
      c <- get cset i;;
      let index := Z.shiftr c 5 in
      let mask := Z.shiftl 1 (Z.land c 7) in
      w <- get bitset index;;
      bitset' <- set bitset index (Z.lor w mask);;
      checkset_populate n' cset bitset' (i + 1)
  end.

(** [for (int i = 0; i < 8; i++) bitset[i] = ~bitset[i];] with [n] words
    left. *)
Fixpoint checkset_invert (n : nat) (bitset : list Z) (i : Z)
  : outcome (list Z) :=
  match n with
  | O => Ret bitset
  | S n' =>
      w <- get bitset i;;
      bitset' <- set bitset i (Z.lnot w mod 2 ^ 32);;
      checkset_invert n' bitset' (i + 1)
  end.

(** [for (i = 0; i < str.len; i++)] with [n] bytes left. *)
Fixpoint checkset_check (n : nat) (str bitset : list Z) (i : Z)
  : outcome bool :=
  match n with
  | O => Ret true
  | S n' =>
      c <- get str i;;
      let index := Z.shiftr c 5 in
      let mask := Z.shiftl 1 (Z.land c 7) in
      w <- get bitset index;;
      if Z.land w mask =? 0 then Ret false
      else checkset_check n' str bitset (i + 1)
  end.

(** [invert] is the optional third argument. The result is [true] for
    [janet_wrap_true()] and [false] for [janet_wrap_false()]. *)
Definition cfun_string_checkset (cset str : list Z) (invert : option bool)
  : outcome bool :=
  let bitset := [0; 0; 0; 0; 0; 0; 0; 0] in
  bitset <- checkset_populate (length cset) cset bitset 0;;
  bitset <- match invert with
            | Some true => checkset_invert 8 bitset 0
            | _ => Ret bitset
            end;;
  checkset_check (length str) str bitset 0.

(** *** [join] *)

(** [janet_bytes_view], on the values of the model: a string is a byte
    sequence. *)
Definition janet_bytes_view (x : Janet) : option (list Z) :=
  match x with
  | janet_wrap_string b => Some b
  | _ => None
  end.

(** The first loop, which checks the items and adds up the length, with
    [n] items left; [finallen] is 64 bits wide. *)
Fixpoint join_check (n : nat) (parts : list Janet) (joiner_len : Z)
    (i finallen : Z) : outcome (string_panic + Z) :=
  match n with
  | O => Ret (inr finallen)
  | S n' =>
      item <- load parts i;;
      match janet_bytes_view item with
      | None => Ret (inl (item_of_parts_is_not_a_byte_sequence i item))
      | Some chunk =>
          let finallen :=
            if negb (i =? 0) then finallen + joiner_len else finallen in
          let finallen := finallen + len chunk in
          if finallen >? INT32_MAX then Ret (inl result_string_too_long)
          else join_check n' parts joiner_len (i + 1) finallen
      end
  end.

(** The second loop, which fills the string, with [n] items left; [out] is
    an offset into [buf]. *)
Fixpoint join_fill (n : nat) (parts : list Janet) (joiner buf : list Z)
    (i out : Z) : outcome (list Z) :=
  match n with
  | O => Ret buf
  | S n' =>
      r <- (if negb (i =? 0) then
              buf' <- memcpy buf out joiner 0 (len joiner);;
              Ret (buf', out + len joiner)
            else Ret (buf, out));;
      let (buf1, out1) := r in
      item <- load parts i;;
      let chunk := match janet_bytes_view item with
                   | Some c => c
                   | None => []
                   end in
      buf2 <- memcpy buf1 out1 chunk 0 (len chunk);;
      join_fill n' parts joiner buf2 (i + 1) (out1 + len chunk)
  end.

(** [parts] is the items of the array or tuple; an absent [joiner] is the
    empty one. *)
Definition cfun_string_join (parts : list Janet) (joiner : option (list Z))
  : outcome reply :=
  let joiner := match joiner with
                | Some b => b
                | None => []
                end in
  r <- join_check (length parts) parts (len joiner) 0 0;;
  match r with
  | inl e => Ret (inl e)
  | inr finallen =>
      buf <- join_fill (length parts) parts joiner
               (janet_string_begin finallen) 0 0;;
      Ret (inr (janet_wrap_string buf))
  end.

(** ** Specification vocabulary for the exact search *)

(** [P] occurs in [T] at offset [o]: the bytes [T[o .. o+len P)] are [P]. *)
Definition occurs_at (P T : list Z) (o : Z) : Prop :=
  0 <= o /\ o + len P <= len T /\ slice T o (len P) = P.

Definition occurs_atb (P T : list Z) (o : Z) : bool :=
  (0 <=? o) && (o + len P <=? len T)
  && (if list_eq_dec Z.eq_dec (slice T o (len P)) P then true else false).

(** The offsets [lo, lo+1, ..., lo+n-1]. *)
Definition Zrange (lo : Z) (n : nat) : list Z :=
  map (fun k => lo + Z.of_nat k) (seq 0 n).

(** Every offset at or after [s] where [P] occurs, in increasing order. *)
Definition all_occurrences (P T : list Z) (s : Z) : list Z :=
  filter (occurs_atb P T) (Zrange s (Z.to_nat (len T - s + 1))).

(** [o] is the leftmost occurrence of [P] in [T] at or after [s]. *)
Definition leftmost_from (P T : list Z) (s o : Z) : Prop :=
  s <= o /\ occurs_at P T o /\ forall o', s <= o' < o -> ~ occurs_at P T o'.

(** The occurrences a left-to-right scan meets when it resumes just after
    the end of each one: the non-overlapping occurrences from [s]. *)
Inductive nonoverlapping (P T : list Z) : Z -> list Z -> Prop :=
| nonoverlapping_nil s :
    (forall o, s <= o -> ~ occurs_at P T o) ->
    nonoverlapping P T s []
| nonoverlapping_cons s o rest :
    leftmost_from P T s o ->
    nonoverlapping P T (o + len P) rest ->
    nonoverlapping P T s (o :: rest).

(** [T] from offset [last] on, with the span of length [m] at each offset
    of [occs] replaced by [S] and everything else copied. *)
Fixpoint splice (T S : list Z) (m : Z) (last : Z) (occs : list Z) : list Z :=
  match occs with
  | [] => slice T last (len T - last)
  | o :: rest => slice T last (o - last) ++ S ++ splice T S m (o + m) rest
  end.

(** [b] is a proper border of the prefix of [P] of length [L]. *)
Definition border (P : list Z) (L b : Z) : Prop :=
  0 <= b < L /\ L <= len P /\
  forall x, 0 <= x < b -> rd P x = rd P (L - b + x).

Definition maxborder (P : list Z) (L b : Z) : Prop :=
  border P L b /\ forall b', border P L b' -> b' <= b.

(** The failure table: entry [k] is the longest proper border of
    [P[0..=k]]. *)
Definition table_ok (P lookup : list Z) : Prop :=
  len lookup = len P /\
  forall k, 0 <= k < len P -> maxborder P (k + 1) (rd lookup k).

(** [T[o .. e)] is a prefix of [P]. *)
Definition pmatch (P T : list Z) (o e : Z) : Prop :=
  0 <= o <= e /\ e <= len T /\ e - o <= len P /\
  forall x, 0 <= x < e - o -> rd T (o + x) = rd P x.

(** Cursor invariant of a scan that has reported every occurrence before
    [lo]. *)
Definition cursor_inv (P T : list Z) (lo ci cj : Z) : Prop :=
  0 <= cj < len P /\ lo <= ci - cj /\ 0 <= lo /\
  pmatch P T (ci - cj) ci /\
  forall o, lo <= o < ci - cj ->
    ~ occurs_at P T o /\ ~ pmatch P T o (ci + 1).

Definition state_ok (P T : list Z) (st : kmp_state) : Prop :=
  text st = T /\ pat st = P /\ textlen st = len T /\ patlen st = len P /\
  table_ok P (lookup st).

(** The table is right below [k0]. *)
Definition table_upto (P lookup : list Z) (k0 : Z) : Prop :=
  len lookup = len P /\
  forall k, 0 <= k < k0 -> k < len P -> maxborder P (k + 1) (rd lookup k).

(** What the fall-back loop of [kmp_init] keeps: [cj] is a border of
    [P[0..ci)], and no longer border extends by [P[ci]]. *)
Definition fallback_inv (P : list Z) (ci cj : Z) : Prop :=
  border P ci cj /\
  forall b, border P ci b -> cj < b -> rd P b <> rd P ci.

(** What the specification says of [replace], at one input. *)
Definition replace_claim (P S T : list Z) (s : Z) : Prop :=
  ((forall o, s <= o -> ~ occurs_at P T o) ->
   cfun_string_replace P S T (Some s) = Ret (janet_wrap_string T))
  /\
  (forall o, leftmost_from P T s o ->
   cfun_string_replace P S T (Some s) =
     Ret (janet_wrap_string
            (slice T 0 o ++ S ++ slice T (o + len P) (len T - o - len P)))).

(** What the specification says of [replace-all], at one input. *)
Definition replace_all_claim (P S T : list Z) (s : Z) : Prop :=
  exists occs result,
    nonoverlapping P T s occs /\
    cfun_string_replaceall P S T (Some s) = Ret (janet_wrap_string result) /\
    result = splice T S (len P) 0 occs /\
    len result = len T - len occs * len P + len occs * len S.

(** ** Specification vocabulary for the pattern matcher *)

(** The fields a call of [match] hands back as it found them. *)
Definition same_frame (ms ms' : MatchState) : Prop :=
  src_init ms' = src_init ms /\ src_end ms' = src_end ms /\
  p_end ms' = p_end ms /\ matchdepth ms' = matchdepth ms /\
  length (capture ms') = length (capture ms).

(** The capture count and the state of every live capture are the same. *)
Definition same_captures (ms ms' : MatchState) : Prop :=
  level ms' = level ms /\
  forall l, 0 <= l < level ms -> get_capture ms' l = get_capture ms l.

(** [level] plus the remaining depth stays within [n]: [level] cannot wrap
    around its [unsigned char] before the depth budget is spent. *)
Definition in_budget (ms : MatchState) (n : Z) : Prop :=
  0 <= level ms /\ 0 <= matchdepth ms /\ level ms + matchdepth ms <= n.

(** What a call of [match] guarantees when it returns. *)
Definition match_post (rec : MatchState -> Z -> Z -> outcome match_result)
  : Prop :=
  forall ms s p res ms',
    rec ms s p = Ret (res, ms') ->
    same_frame ms ms' /\
    (in_budget ms 255 -> res = None -> same_captures ms ms').

(** Two states a call of [match] cannot tell apart: they differ at most
    in the entries of [capture] at or above [level]. *)
Definition state_equiv (ms1 ms2 : MatchState) : Prop :=
  same_frame ms1 ms2 /\ same_captures ms1 ms2.

Definition result_equiv (o1 o2 : outcome match_result) : Prop :=
  match o1, o2 with
  | Ret (r1, m1), Ret (r2, m2) => r1 = r2 /\ state_equiv m1 m2
  | Panic e1, Panic e2 => e1 = e2
  | Fault, Fault => True
  | OutOfFuel, OutOfFuel => True
  | _, _ => False
  end.

Definition match_indep (rec : MatchState -> Z -> Z -> outcome match_result)
  : Prop :=
  forall ms1 ms2 s p,
    state_equiv ms1 ms2 -> in_budget ms1 255 ->
    result_equiv (rec ms1 s p) (rec ms2 s p).

(** One attempt of [cfun_str_match] at offset [k], from the state
    [prepstate] and [reprepstate] set up. *)
Definition attempt (subject pattern : list Z) (ls lp p k : Z)
  : outcome match_result :=
  match_ subject pattern (S (Z.to_nat MAXCCALLS)) (prepstate ls lp p) k p.

(** What [cfun_str_match] answers when an attempt ends. *)
Definition answer (subject : list Z) (k : Z) (r : outcome match_result)
  : outcome Janet :=
  r' <- r;;
  match r' with
  | (Some e, ms') =>
      captures <- push_captures subject ms' k e [];;
      Ret (janet_wrap_array captures)
  | (None, _) => Ret janet_wrap_nil
  end.

(** The computation does not raise "matchdepth error". *)
Definition no_depth_error {A : Type} (m : outcome A) : Prop :=
  m <> Panic matchdepth_error.

(** The computation does not run out of fuel. *)
Definition has_fuel {A : Type} (m : outcome A) : Prop := m <> OutOfFuel.

(** A pattern position: between the start and [p_end], the end of the
    pattern's bytes. *)
Definition in_pattern (pattern : list Z) (ms : MatchState) (p : Z) : Prop :=
  p_end ms = len pattern /\ 0 <= p <= p_end ms.

(** What a call of [match] needs in order to return: a budget of at most
    [D] left, and a pattern position. *)
Definition rec_total (pattern : list Z)
    (rec : MatchState -> Z -> Z -> outcome match_result) (D : Z) : Prop :=
  forall ms s p,
    0 <= matchdepth ms <= D -> in_pattern pattern ms p -> has_fuel (rec ms s p).

(** ** Specification vocabulary for the other functions *)

(** Every item is the value of a byte. *)
Definition is_bytes (l : list Z) : Prop := Forall (fun c => 0 <= c < 256) l.

(** The difference of the bytes at the first of the first [n] positions
    where [a] and [b] differ, [0] when there is none. *)
Fixpoint first_difference (a b : list Z) (n : nat) : Z :=
  match n, a, b with
  | S n', x :: a', y :: b' =>
      if x =? y then first_difference a' b' n' else x - y
  | _, _, _ => 0
  end.

(** What the C standard says of [memcmp]: the sign of its result is the
    sign of the difference of the first pair of bytes that differ. *)
Definition memcmp_spec (memcmp : list Z -> list Z -> Z -> Z) : Prop :=
  forall a b n, 0 <= n <= len a -> n <= len b ->
    Z.sgn (memcmp a b n) = Z.sgn (first_difference a b (Z.to_nat n)).

(** A [memcmp] that returns that difference. *)
Definition memcmp_difference (a b : list Z) (n : Z) : Z :=
  first_difference a b (Z.to_nat n).

(** [a] comes before [b] in the lexicographic order of the bytes: at the
    first position where they differ [a] has the lesser byte, or [a] ends
    there and [b] does not. *)
Fixpoint lex_lt (a b : list Z) : Prop :=
  match a, b with
  | _, [] => False
  | [], _ :: _ => True
  | x :: a', y :: b' => x < y \/ (x = y /\ lex_lt a' b')
  end.

(** The case conversions of ASCII. *)
Definition ascii_lower (c : Z) : Z :=
  if (65 <=? c) && (c <=? 90) then c + 32 else c.

Definition ascii_upper (c : Z) : Z :=
  if (97 <=? c) && (c <=? 122) then c - 32 else c.

(** The parts with [sep] between each two of them. *)
Fixpoint intercalate (sep : list Z) (parts : list (list Z)) : list Z :=
  match parts with
  | [] => []
  | x :: rest =>
      match rest with
      | [] => x
      | _ :: _ => x ++ sep ++ intercalate sep rest
      end
  end.

(** The separator [join] is given: the empty one when it is absent. *)
Definition joiner_bytes (joiner : option (list Z)) : list Z :=
  match joiner with
  | Some b => b
  | None => []
  end.

(** The segments of [T] from offset [last] on that the spans of length
    [m] at the offsets [occs] leave. *)
Fixpoint pieces (T : list Z) (m last : Z) (occs : list Z) : list (list Z) :=
  match occs with
  | [] => [slice T last (len T - last)]
  | o :: rest => slice T last (o - last) :: pieces T m (o + m) rest
  end.

(** No two occurrences of [P] in [T] from offset [s] on overlap. *)
Definition no_overlap (P T : list Z) (s : Z) : Prop :=
  forall o o', s <= o -> o < o' -> occurs_at P T o -> occurs_at P T o' ->
    o + len P <= o'.

(** The occurrences a split count of [limit] lets through: all of them
    when it is negative. *)
Definition limited (limit : Z) (occs : list Z) : list Z :=
  if limit <? 0 then occs else firstn (Z.to_nat limit) occs.

(** The limit of a call of [split]: [-1] when the argument is absent. *)
Definition split_limit (olimit : option Z) : Z :=
  match olimit with
  | Some l => l
  | None => -1
  end.


(** What [check-set] compares of two bytes: the three high bits and the
    three low bits. *)
Definition same_bit (c s : Z) : bool :=
  (Z.shiftr c 5 =? Z.shiftr s 5) && (Z.land c 7 =? Z.land s 7).

(** Some byte of [cset] has the bit of [c]. *)
Definition bit_in (c : Z) (cset : list Z) : bool := existsb (same_bit c) cset.

(** The bit of [c] is set in [bitset]. *)
Definition member (bitset : list Z) (c : Z) : bool :=
  Z.testbit (rd bitset (Z.shiftr c 5)) (Z.land c 7).

(** The set is inverted: the optional argument of [check-set] is given and
    true. *)
Definition inverted (invert : option bool) : bool :=
  match invert with
  | Some true => true
  | _ => false
  end.

(** *** Patterns without magic characters *)

(** A byte that stands for itself wherever it is in a pattern. *)
Definition plain (c : Z) : bool :=
  negb ((c =? ch "^") || (c =? ch "$") || (c =? ch "*") || (c =? ch "+")
        || (c =? ch "?") || (c =? ch ".") || (c =? ch "(") || (c =? ch ")")
        || (c =? ch "[") || (c =? ch "%") || (c =? ch "-")).

Definition plain_pattern (p : list Z) : Prop :=
  Forall (fun c => plain c = true) p.

(** The [n] bytes of [pattern] from [p] on are the bytes of [subject] from
    [s] on, all of them before [src_end]. *)
Fixpoint literal_at (subject pattern : list Z) (src_end : Z) (n : nat)
    (s p : Z) : bool :=
  match n with
  | O => true
  | S n' =>
      (s <? src_end) && (rd pattern p =? rd subject s)
      && literal_at subject pattern src_end n' (s + 1) (p + 1)
  end.

(** *** What a pattern can be laid over *)

(** The fields of the state that say where the subject and the pattern
    begin and end are the same. *)
Definition same_extent (ms ms' : MatchState) : Prop :=
  src_init ms' = src_init ms /\ src_end ms' = src_end ms /\
  p_end ms' = p_end ms.

(** What [match] finds at a pattern position: one of the cases of its
    [switch], in the order it tests them. *)
Inductive item : Type :=
| i_position
| i_open
| i_close
| i_end
| i_balance
| i_frontier
| i_backref
| i_single.

Definition item_at (pattern : list Z) (pe p : Z) : item :=
  let c := rd pattern p in
  let c1 := rd pattern (p + 1) in
  if c =? ch "(" then if c1 =? ch ")" then i_position else i_open
  else if c =? ch ")" then i_close
  else if (c =? ch "$") && (p + 1 =? pe) then i_end
  else if (c =? CHAR_ESC) && (c1 =? ch "b") then i_balance
  else if (c =? CHAR_ESC) && (c1 =? ch "f") then i_frontier
  else if (c =? CHAR_ESC) && isdigit c1 then i_backref
  else i_single.

(** The suffix of a single-character item, read at the end of the item. *)
Inductive quantifier : Type :=
| q_one
| q_optional
| q_plus
| q_star
| q_minus.

Definition quantifier_at (pattern : list Z) (ep : Z) : quantifier :=
  let e := rd pattern ep in
  if e =? ch "?" then q_optional
  else if e =? ch "+" then q_plus
  else if e =? ch "*" then q_star
  else if e =? ch "-" then q_minus
  else q_one.

(** The numbers of repetitions a suffix allows. *)
Definition allowed (q : quantifier) (n : Z) : Prop :=
  0 <= n /\
  match q with
  | q_one => n = 1
  | q_optional => n <= 1
  | q_plus => 1 <= n
  | q_star | q_minus => True
  end.

(** Where the pattern goes on after an item that ends at [ep]. *)
Definition after (q : quantifier) (ep : Z) : Z :=
  match q with
  | q_one => ep
  | _ => ep + 1
  end.

(** The pattern has no back-reference: no ['%'] is followed by a
    digit. *)
Definition no_backref (pattern : list Z) : Prop :=
  forall p, 0 <= p -> rd pattern p = CHAR_ESC ->
    isdigit (rd pattern (p + 1)) = false.

Section Layout.
Variables subject pattern : list Z.
Variable ms0 : MatchState.

(** The byte before [s], 0 at the start of the subject. *)
Definition previous (s : Z) : Z :=
  if s =? src_init ms0 then 0 else rd subject (s - 1).

(** The single-character item at [p], which ends at [ep], matches each
    of the [n] bytes from [s] on. *)
Definition run (s p ep n : Z) : Prop :=
  forall k, 0 <= k < n ->
    singlematch subject pattern ms0 (s + k) p ep = Ret true.

(** [lays p s e]: the pattern from position [p] on can be laid over the
    bytes of the subject from [s] to [e], item after item, each
    single-character item repeated as often as its suffix allows. *)
Inductive lays : Z -> Z -> Z -> Prop :=
| lays_done s : lays (p_end ms0) s s
| lays_position p s e :
    p <> p_end ms0 -> item_at pattern (p_end ms0) p = i_position ->
    lays (p + 2) s e -> lays p s e
| lays_open p s e :
    p <> p_end ms0 -> item_at pattern (p_end ms0) p = i_open ->
    lays (p + 1) s e -> lays p s e
| lays_close p s e :
    p <> p_end ms0 -> item_at pattern (p_end ms0) p = i_close ->
    lays (p + 1) s e -> lays p s e
| lays_end p s :
    p <> p_end ms0 -> item_at pattern (p_end ms0) p = i_end ->
    s = src_end ms0 -> lays p s s
| lays_balance p s s' e :
    p <> p_end ms0 -> item_at pattern (p_end ms0) p = i_balance ->
    matchbalance subject pattern ms0 s (p + 2) = Ret (Some s') ->
    lays (p + 4) s' e -> lays p s e
| lays_frontier p ep s e :
    p <> p_end ms0 -> item_at pattern (p_end ms0) p = i_frontier ->
    rd pattern (p + 2) = ch "[" ->
    classend pattern ms0 (p + 2) = Ret ep ->
    matchbracketclass pattern (previous s) (p + 2) (ep - 1) = Ret false ->
    matchbracketclass pattern (rd subject s) (p + 2) (ep - 1) = Ret true ->
    lays ep s e -> lays p s e
| lays_items p ep n s e :
    p <> p_end ms0 -> item_at pattern (p_end ms0) p = i_single ->
    classend pattern ms0 p = Ret ep ->
    allowed (quantifier_at pattern ep) n ->
    run s p ep n ->
    lays (after (quantifier_at pattern ep) ep) (s + n) e ->
    lays p s e.

(** What an answer of [match] says about the layouts of the pattern. *)
Definition outcome_ok (res : option Z) (p s : Z) : Prop :=
  match res with
  | Some e => lays p s e
  | None => forall e, ~ lays p s e
  end.

(** A call of [match] that returns is right about them. *)
(** The repetitions of an item from [s] on, each followed by the rest
    of the pattern at [q]. *)
Definition repeats_ok (res : option Z) (s p ep q : Z) : Prop :=
  match res with
  | Some e => exists n, 0 <= n /\ run s p ep n /\ lays q (s + n) e
  | None => forall n e, 0 <= n -> run s p ep n -> ~ lays q (s + n) e
  end.

Definition match_exact (rec : MatchState -> Z -> Z -> outcome match_result)
  : Prop :=
  forall ms s p res ms',
    same_extent ms0 ms -> rec ms s p = Ret (res, ms') ->
    same_extent ms0 ms' /\ outcome_ok res p s.
End Layout.

(** A check of [no_backref] that can be run. *)
Fixpoint no_backref_b (pattern : list Z) : bool :=
  match pattern with
  | [] => true
  | c :: rest =>
      (negb (c =? CHAR_ESC) || negb (isdigit (hd 0 rest)))
      && no_backref_b rest
  end.

(** No byte of the pattern is an opening parenthesis: the pattern opens
    no capture. *)
Definition no_captures (pattern : list Z) : Prop := ~ In (ch "(") pattern.

(** A call that leaves the number of open captures as it found it. *)
Definition keeps_level (rec : MatchState -> Z -> Z -> outcome match_result)
  : Prop :=
  forall ms s p res ms', rec ms s p = Ret (res, ms') -> level ms' = level ms.

(** The pattern of [match], without its anchor, can be laid over the bytes
    of the subject from [k] up to [e]. *)
Definition layout (subject pattern : list Z) (k e : Z) : Prop :=
  lays subject pattern (prepstate (len subject) (len pattern) 0)
    (if rd pattern 0 =? ch "^" then 1 else 0) k e.

(** The offsets at which [match] may begin a match. *)
Definition tried (subject pattern : list Z) (start : option Z) (k : Z)
  : Prop :=
  str_match_init (len subject) start <= k <= len subject
  /\ (rd pattern 0 = ch "^" -> k = str_match_init (len subject) start).

(** ** Sets

    What stands between the brackets of a set: single bytes, ranges and
    classes. *)
Inductive set_item : Type :=
| set_byte (b : Z)
| set_range (lo hi : Z)
| set_class (cl : Z).

(** The bytes of the pattern that write an item. *)
Definition item_bytes (i : set_item) : list Z :=
  match i with
  | set_byte b => [b]
  | set_range lo hi => [lo; ch "-"; hi]
  | set_class cl => [CHAR_ESC; cl]
  end.

Definition set_bytes (items : list set_item) : list Z :=
  concat (map item_bytes items).

(** The byte [c] is one the item stands for. *)
Definition in_item (c : Z) (i : set_item) : bool :=
  match i with
  | set_byte b => b =? c
  | set_range lo hi => (lo <=? c) && (c <=? hi)
  | set_class cl => match_class c cl
  end.

(** The bytes of the items read back as these items: a single byte or the
    low end of a range is not ['%'], and a single byte is not followed by
    a ['-'] that has a byte of the set after it. *)
Fixpoint set_ok (items : list set_item) : Prop :=
  match items with
  | [] => True
  | set_byte b :: rest =>
      b <> CHAR_ESC
      /\ (2 <= len (set_bytes rest) -> hd 0 (set_bytes rest) <> ch "-")
      /\ set_ok rest
  | set_range lo _ :: rest => lo <> CHAR_ESC /\ set_ok rest
  | set_class _ :: rest => set_ok rest
  end.

(** The first closing bracket after the bytes of the items is the one that
    closes the set: there is an item, no item but the first begins with a
    closing bracket, and no range ends with one or with ['%']. *)
Definition range_closed (i : set_item) : Prop :=
  match i with
  | set_range _ hi => hi <> ch "]" /\ hi <> CHAR_ESC
  | _ => True
  end.

Definition set_closed (items : list set_item) : Prop :=
  items <> []
  /\ Forall range_closed items
  /\ Forall (fun i => hd 0 (item_bytes i) <> ch "]") (tl items).

(** The bytes of a set in a pattern, brackets included. *)
Definition set_pattern (negated : bool) (items : list set_item) : list Z :=
  ch "[" :: (if negated then [ch "^"] else []) ++ set_bytes items ++ [ch "]"].

(** * The model on the examples of the specification *)

Example ex_find_all_no_hit :
  cfun_string_findall (bytes_of_string "abc") (bytes_of_string "ababab") None
  = Ret (janet_wrap_array []).
Proof. reflexivity. Qed.

Example ex_find_from_start_offset :
  cfun_string_find (bytes_of_string "ab") (bytes_of_string "aabab") (Some 2)
  = Ret (janet_wrap_integer 3).
Proof. reflexivity. Qed.

Example ex_find_negative_start :
  cfun_string_find (bytes_of_string "ab") (bytes_of_string "aabab") (Some (-1))
  = Panic expected_non_negative_start_index.
Proof. reflexivity. Qed.

Example ex_replace_first :
  cfun_string_replace (bytes_of_string "an") (bytes_of_string "X")
    (bytes_of_string "banana") None
  = Ret (janet_wrap_string (bytes_of_string "bXana")).
Proof. reflexivity. Qed.

Example ex_replace_all_overlap :
  cfun_string_replaceall (bytes_of_string "aba") (bytes_of_string "-")
    (bytes_of_string "ababa") None
  = Ret (janet_wrap_string (bytes_of_string "-ba")).
Proof. reflexivity. Qed.

Example ex_failure_table :
  kmp_init [] 0 (bytes_of_string "abacabab") 8
  = Ret {| i := 0; j := 0; textlen := 0; patlen := 8;
           lookup := [0; 0; 1; 0; 1; 2; 3; 2];
           text := []; pat := bytes_of_string "abacabab" |}.
Proof. reflexivity. Qed.

Example ex_match_two_captures :
  cfun_str_match (bytes_of_string "12-34") (bytes_of_string "(%d+)-(%d+)") None
  = Ret (janet_wrap_array
           [janet_wrap_string (bytes_of_string "12");
            janet_wrap_string (bytes_of_string "34")]).
Proof. vm_compute. reflexivity. Qed.

Example ex_match_balanced :
  cfun_str_match (bytes_of_string "(a(b)c)rest") (bytes_of_string "%b()") None
  = Ret (janet_wrap_array [janet_wrap_string (bytes_of_string "(a(b)c)")]).
Proof. vm_compute. reflexivity. Qed.

Example ex_match_literal :
  cfun_str_match (bytes_of_string "hello world") (bytes_of_string "o w") None
  = Ret (janet_wrap_array [janet_wrap_string (bytes_of_string "o w")]).
Proof. vm_compute. reflexivity. Qed.

Example ex_match_position_captures :
  cfun_str_match (bytes_of_string "hello world") (bytes_of_string "()o()") None
  = Ret (janet_wrap_array [janet_wrap_number 5; janet_wrap_number 6]).
Proof. vm_compute. reflexivity. Qed.

Example ex_match_anchor :
  cfun_str_match (bytes_of_string "hello world") (bytes_of_string "^o") None
  = Ret janet_wrap_nil.
Proof. vm_compute. reflexivity. Qed.

Example ex_match_lazy :
  cfun_str_match (bytes_of_string "hello world") (bytes_of_string "^h.-l") None
  = Ret (janet_wrap_array [janet_wrap_string (bytes_of_string "hel")]).
Proof. vm_compute. reflexivity. Qed.

Example ex_match_greedy :
  cfun_str_match (bytes_of_string "hello world") (bytes_of_string "^h.*l") None
  = Ret (janet_wrap_array [janet_wrap_string (bytes_of_string "hello worl")]).
Proof. vm_compute. reflexivity. Qed.

Example ex_match_optional :
  cfun_str_match (bytes_of_string "hello") (bytes_of_string "l?lo") None
  = Ret (janet_wrap_array [janet_wrap_string (bytes_of_string "llo")]).
Proof. vm_compute. reflexivity. Qed.

Example ex_match_frontier_end :
  cfun_str_match (bytes_of_string "hello world") (bytes_of_string "%f[%a]%a+$")
    None
  = Ret (janet_wrap_array [janet_wrap_string (bytes_of_string "world")]).
Proof. vm_compute. reflexivity. Qed.

Example ex_match_backreference :
  cfun_str_match (bytes_of_string "hello hello") (bytes_of_string "(h%a+) %1")
    None
  = Ret (janet_wrap_array [janet_wrap_string (bytes_of_string "hello")]).
Proof. vm_compute. reflexivity. Qed.

Example ex_match_negative_start :
  cfun_str_match (bytes_of_string "hello world") (bytes_of_string "[a-e]+")
    (Some (-5))
  = Ret (janet_wrap_array [janet_wrap_string (bytes_of_string "d")]).
Proof. vm_compute. reflexivity. Qed.

Example ex_match_at_end :
  cfun_str_match (bytes_of_string "hello") (bytes_of_string "x*") (Some 6)
  = Ret (janet_wrap_array [janet_wrap_string []])
  /\ cfun_str_match (bytes_of_string "hello") (bytes_of_string "x*") (Some 7)
     = Ret janet_wrap_nil.
Proof. split; vm_compute; reflexivity. Qed.

Example ex_match_unfinished_capture :
  cfun_str_match (bytes_of_string "abc") (bytes_of_string "(a") None
  = Panic unfinished_capture.
Proof. vm_compute. reflexivity. Qed.

Example ex_match_invalid_backreference :
  cfun_str_match (bytes_of_string "abc") (bytes_of_string "%1") None
  = Panic (invalid_capture_index 1).
Proof. vm_compute. reflexivity. Qed.

Example ex_match_unterminated_set :
  cfun_str_match (bytes_of_string "abc") (bytes_of_string "[ab") None
  = Panic malformed_pattern_missing_bracket
  /\ cfun_str_match (bytes_of_string "abc") (bytes_of_string "a%") None
     = Panic malformed_pattern_ends_with_esc.
Proof. split; vm_compute; reflexivity. Qed.

(** * The other functions on examples *)

Example ex_split_commas :
  cfun_string_split (bytes_of_string ",") (bytes_of_string "a,b,,c") None
  = Ret (janet_wrap_array
           [janet_wrap_string (bytes_of_string "a");
            janet_wrap_string (bytes_of_string "b");
            janet_wrap_string [];
            janet_wrap_string (bytes_of_string "c")]).
Proof. reflexivity. Qed.

Example ex_split_limit :
  cfun_string_split (bytes_of_string ",") (bytes_of_string "a,b,,c")
    (Some (0, Some 2))
  = Ret (janet_wrap_array
           [janet_wrap_string (bytes_of_string "a");
            janet_wrap_string (bytes_of_string "b");
            janet_wrap_string (bytes_of_string ",c")]).
Proof. reflexivity. Qed.

Example ex_split_start :
  cfun_string_split (bytes_of_string ",") (bytes_of_string "a,b,,c")
    (Some (2, None))
  = Ret (janet_wrap_array
           [janet_wrap_string (bytes_of_string "a,b");
            janet_wrap_string [];
            janet_wrap_string (bytes_of_string "c")]).
Proof. reflexivity. Qed.

Example ex_split_overlap :
  cfun_string_split (bytes_of_string "aa") (bytes_of_string "aaa") None
  = Fault.
Proof. reflexivity. Qed.

Example ex_join :
  cfun_string_join
    [janet_wrap_string (bytes_of_string "a");
     janet_wrap_string (bytes_of_string "b");
     janet_wrap_string []] (Some (bytes_of_string ", "))
  = Ret (inr (janet_wrap_string (bytes_of_string "a, b, "))).
Proof. reflexivity. Qed.

Example ex_join_not_bytes :
  cfun_string_join
    [janet_wrap_string (bytes_of_string "a"); janet_wrap_integer 3] None
  = Ret (inl (item_of_parts_is_not_a_byte_sequence 1 (janet_wrap_integer 3))).
Proof. reflexivity. Qed.

Example ex_repeat :
  cfun_string_repeat (bytes_of_string "ab") 3
  = Ret (inr (janet_wrap_string (bytes_of_string "ababab")))
  /\ cfun_string_repeat (bytes_of_string "ab") (-1)
     = Ret (inl expected_non_negative_number_of_repetitions)
  /\ cfun_string_repeat (bytes_of_string "ab") (2 ^ 30)
     = Ret (inl result_string_is_too_long).
Proof. repeat split; reflexivity. Qed.

Example ex_bytes :
  cfun_string_bytes (bytes_of_string "ab")
  = Ret [janet_wrap_integer 97; janet_wrap_integer 98]
  /\ cfun_string_frombytes [97; 353; -1] = Ret (janet_wrap_string [97; 97; 255]).
Proof. split; reflexivity. Qed.

Example ex_ascii_case :
  cfun_string_asciilower (bytes_of_string "Hello, World!@[`{")
  = Ret (janet_wrap_string (bytes_of_string "hello, world!@[`{"))
  /\ cfun_string_asciiupper (bytes_of_string "Hello, World!@[`{")
     = Ret (janet_wrap_string (bytes_of_string "HELLO, WORLD!@[`{")).
Proof. split; reflexivity. Qed.

Example ex_reverse :
  cfun_string_reverse (bytes_of_string "abc")
  = Ret (janet_wrap_string (bytes_of_string "cba")).
Proof. reflexivity. Qed.

Example ex_checkset :
  cfun_string_checkset (bytes_of_string "abc") (bytes_of_string "abcabc") None
  = Ret true
  /\ cfun_string_checkset (bytes_of_string "abc") (bytes_of_string "abd") None
     = Ret false
  /\ cfun_string_checkset (bytes_of_string "a") (bytes_of_string "i") None
     = Ret true
  /\ cfun_string_checkset (bytes_of_string "abc") (bytes_of_string "xh")
       (Some true) = Ret true
  /\ cfun_string_checkset (bytes_of_string "abc") (bytes_of_string "xy")
       (Some true) = Ret false.
Proof. repeat split; reflexivity. Qed.

Example ex_compare :
  janet_string_compare memcmp_difference (bytes_of_string "ab")
    (bytes_of_string "abc") = -1
  /\ janet_string_compare memcmp_difference (bytes_of_string "b")
       (bytes_of_string "abc") = 1
  /\ janet_string_compare memcmp_difference (bytes_of_string "abc")
       (bytes_of_string "abc") = 0.
Proof. repeat split; reflexivity. Qed.

(** * Proofs: the exact search *)

(** ** Reads, writes and slices *)

Lemma get_rd l k : 0 <= k < len l -> get l k = Ret (rd l k).
Proof.
  intros H. unfold get, rd, len in *.
  destruct (k <? 0) eqn:E; [lia|].
  rewrite (nth_error_nth' l 0) by lia. reflexivity.
Qed.

Lemma get_outside l k : ~ (0 <= k < len l) -> get l k = Fault.
Proof.
  intros H. unfold get, len in *.
  destruct (k <? 0) eqn:E; [reflexivity|].
  destruct (nth_error l (Z.to_nat k)) eqn:N; [|reflexivity].
  assert (nth_error l (Z.to_nat k) <> None) as N' by congruence.
  apply nth_error_Some in N'. lia.
Qed.

Lemma int32_overflow_fits ops z :
  INT32_MIN <= z <= INT32_MAX -> int32_overflow ops z = false.
Proof.
  intros H. unfold int32_overflow, int32.
  destruct (Z.leb_spec INT32_MIN z); [|lia].
  destruct (Z.leb_spec z INT32_MAX); [|lia].
  apply andb_false_r.
Qed.

Lemma int32_overflow_operand ops z : In z ops -> int32_overflow ops z = false.
Proof.
  intros H. unfold int32_overflow. destruct (int32 z) eqn:E.
  - apply andb_false_r.
  - assert (forallb int32 ops = false) as ->; [|reflexivity].
    apply not_true_is_false. intros Hall.
    rewrite forallb_forall in Hall. rewrite (Hall z H) in E. discriminate.
Qed.

Lemma get_pat_rd P k : 0 <= k < len P -> get_pat P k = Ret (rd P k).
Proof.
  intros H. unfold get_pat. rewrite get_rd.
  - unfold rd. now rewrite app_nth1 by (unfold len in H; lia).
  - unfold len in *. rewrite length_app. cbn [length]. lia.
Qed.

Lemma get_pat_end P : get_pat P (len P) = Ret 0.
Proof.
  unfold get_pat. rewrite get_rd.
  - unfold rd, len. rewrite Nat2Z.id, app_nth2, Nat.sub_diag by lia.
    reflexivity.
  - unfold len. rewrite length_app. cbn [length]. lia.
Qed.

Lemma get_pat_outside P k : ~ (0 <= k <= len P) -> get_pat P k = Fault.
Proof.
  intros H. unfold get_pat. apply get_outside.
  unfold len in *. rewrite length_app. cbn [length]. lia.
Qed.

Lemma length_upd {A} (l : list A) k v : length (upd l k v) = length l.
Proof.
  revert k; induction l as [|h t IH]; intros [|k]; simpl; auto.
Qed.

Lemma nth_upd l k v x :
  nth x (upd l k v) 0 = if Nat.eqb x k then (if Nat.ltb k (length l) then v else 0) else nth x l 0.
Proof.
  revert k x; induction l as [|h t IH]; intros k x.
  - cbn [upd length]. replace (Nat.ltb k 0) with false
      by (symmetry; apply Nat.ltb_ge; lia).
    destruct x; destruct (Nat.eqb _ k); reflexivity.
  - destruct k as [|k], x as [|x]; cbn [upd nth length Nat.eqb]; try reflexivity.
    rewrite IH. destruct (Nat.eqb x k); reflexivity.
Qed.

Lemma len_upd l k v : len (upd l k v) = len l.
Proof. unfold len. now rewrite length_upd. Qed.

Lemma rd_upd_same l k v : 0 <= k < len l -> rd (upd l (Z.to_nat k) v) k = v.
Proof.
  intros H. unfold rd, len in *. rewrite nth_upd, Nat.eqb_refl.
  destruct (Nat.ltb_spec (Z.to_nat k) (length l)); [reflexivity|lia].
Qed.

Lemma rd_upd_other l k v x :
  0 <= k -> 0 <= x -> x <> k -> rd (upd l (Z.to_nat k) v) x = rd l x.
Proof.
  intros Hk Hx Hne. unfold rd. rewrite nth_upd.
  destruct (Nat.eqb_spec (Z.to_nat x) (Z.to_nat k)); [lia|reflexivity].
Qed.

Lemma len_nonneg l : 0 <= len l.
Proof. unfold len; lia. Qed.

Lemma len_slice l a n :
  0 <= a -> 0 <= n -> a + n <= len l -> len (slice l a n) = n.
Proof.
  intros Ha Hn H. unfold slice, len in *.
  rewrite length_firstn, length_skipn. lia.
Qed.

Lemma rd_slice l a n x :
  0 <= a -> 0 <= x < n -> rd (slice l a n) x = rd l (a + x).
Proof.
  intros Ha Hx. unfold rd, slice.
  rewrite nth_firstn, nth_skipn.
  destruct (Nat.ltb_spec (Z.to_nat x) (Z.to_nat n)); [|lia].
  f_equal. lia.
Qed.

Lemma list_ext_rd (l1 l2 : list Z) :
  len l1 = len l2 -> (forall x, 0 <= x < len l1 -> rd l1 x = rd l2 x) -> l1 = l2.
Proof.
  intros Hl H. apply (nth_ext l1 l2 0 0).
  - unfold len in Hl. lia.
  - intros k Hk. specialize (H (Z.of_nat k)). unfold rd, len in H.
    rewrite Nat2Z.id in H. apply H. lia.
Qed.

Lemma occurs_at_iff P T o :
  occurs_at P T o <->
  0 <= o /\ o + len P <= len T /\
  forall x, 0 <= x < len P -> rd T (o + x) = rd P x.
Proof.
  pose proof (len_nonneg P) as HP.
  unfold occurs_at; split.
  - intros (H0 & H1 & H2). repeat split; auto.
    intros x Hx. rewrite <- (rd_slice T o (len P)) by lia. now rewrite H2.
  - intros (H0 & H1 & H2). repeat split; auto.
    apply list_ext_rd.
    + apply len_slice; lia.
    + intros x Hx. rewrite len_slice in Hx by lia.
      rewrite rd_slice by lia. now apply H2.
Qed.

Lemma occurs_atb_spec P T o : occurs_atb P T o = true <-> occurs_at P T o.
Proof.
  unfold occurs_atb, occurs_at.
  destruct (list_eq_dec Z.eq_dec (slice T o (len P)) P) as [E|E];
    rewrite ?andb_true_iff, ?Z.leb_le; intuition congruence.
Qed.

Lemma occurs_atb_false P T o : occurs_atb P T o = false <-> ~ occurs_at P T o.
Proof.
  rewrite <- occurs_atb_spec. destruct (occurs_atb P T o); intuition congruence.
Qed.

(** ** Borders *)

Lemma border_zero P L : 0 < L <= len P -> border P L 0.
Proof. intros H. unfold border. repeat split; try lia. Qed.

(** A border of a border is a border. *)
Lemma border_trans P L b c :
  border P L b -> border P b c -> border P L c.
Proof.
  intros (H1 & H2 & H3) (H4 & H5 & H6). unfold border.
  repeat split; try lia.
  intros x Hx. rewrite H6 by lia. rewrite H3 by lia. f_equal. lia.
Qed.

(** Two borders of the same prefix: the shorter is a border of the longer. *)
Lemma border_of_border P L b c :
  border P L b -> border P L c -> c < b -> border P b c.
Proof.
  intros (H1 & H2 & H3) (H4 & H5 & H6) Hlt. unfold border.
  repeat split; try lia.
  intros x Hx. rewrite H6 by lia. rewrite (H3 (b - c + x)) by lia. f_equal. lia.
Qed.

(** Dropping the last byte of a border of [P[0..L+1)]. *)
Lemma border_pred P L b :
  border P (L + 1) (b + 1) -> 0 <= b -> border P L b /\ rd P b = rd P L.
Proof.
  intros (H1 & H2 & H3) Hb. split.
  - unfold border. repeat split; try lia.
    intros x Hx. rewrite H3 by lia. f_equal. lia.
  - rewrite H3 by lia. f_equal. lia.
Qed.

Lemma border_succ P L b :
  border P L b -> L < len P -> rd P b = rd P L -> border P (L + 1) (b + 1).
Proof.
  intros (H1 & H2 & H3) HL E. unfold border. repeat split; try lia.
  intros x Hx. destruct (Z.eq_dec x b) as [->|Hne].
  - rewrite E. f_equal. lia.
  - rewrite H3 by lia. f_equal. lia.
Qed.

(** ** The failure table *)

Section Table.
Variable P : list Z.

Lemma kmp_init_fallback_spec lookup ci :
  table_upto P lookup ci -> 0 < ci < len P ->
  forall fuel cj, (Z.to_nat cj < fuel)%nat -> fallback_inv P ci cj ->
  exists j1, kmp_init_fallback fuel P lookup ci cj = Ret j1 /\
             fallback_inv P ci j1 /\ (j1 = 0 \/ rd P j1 = rd P ci).
Proof.
  intros [Hlen Htab] Hci. induction fuel as [|fuel IH]; intros cj Hf Hinv; [lia|].
  destruct Hinv as [Hb Hmax]. pose proof Hb as (Hb1 & Hb2 & Hb3).
  cbn [kmp_init_fallback]. destruct (Z.eqb_spec cj 0) as [->|Hnz].
  - exists 0. split; [reflexivity|]. split; [split; assumption|now left].
  - rewrite !get_rd by lia. cbn [bind].
    destruct (Z.eqb_spec (rd P cj) (rd P ci)) as [E|E].
    + exists cj. split; [reflexivity|]. split; [split; assumption|now right].
    + rewrite ?get_rd by lia. cbn [bind].
      destruct (Htab (cj - 1)) as [Hl Hlmax]; [lia|lia|].
      replace (cj - 1 + 1) with cj in * by lia.
      apply IH.
      * destruct Hl as (? & _). lia.
      * split.
        -- eapply border_trans; eauto.
        -- intros b Hbb Hgt.
           destruct (Z_lt_le_dec cj b) as [Hc|Hc]; [now apply Hmax|].
           destruct (Z.eq_dec b cj) as [->|Hne]; [assumption|].
           exfalso. assert (border P cj b) as Hbc
             by (eapply border_of_border; eauto; lia).
           apply Hlmax in Hbc. lia.
Qed.

Lemma kmp_init_loop_spec :
  forall fuel lookup ci cj,
    (Z.to_nat (len P - ci) < fuel)%nat ->
    0 < ci -> table_upto P lookup ci ->
    (ci < len P -> fallback_inv P ci cj) ->
    exists lookup', kmp_init_loop fuel P (len P) lookup ci cj = Ret lookup' /\
                    table_ok P lookup'.
Proof.
  induction fuel as [|fuel IH]; intros lookup ci cj Hf Hci Htab Hinv; [lia|].
  cbn [kmp_init_loop]. destruct (Z.ltb_spec ci (len P)) as [Hlt|Hge].
  - specialize (Hinv Hlt).
    destruct (kmp_init_fallback_spec lookup ci Htab (conj Hci Hlt)
                (S (Z.to_nat cj)) cj (Nat.lt_succ_diag_r _) Hinv)
      as (j1 & -> & [Hb1 Hm1] & Hj1).
    pose proof Hb1 as (Hb11 & Hb12 & Hb13).
    cbn [bind]. rewrite !get_rd by lia. cbn [bind].
    destruct Htab as [Hlen Htab].
    set (j2 := if rd P j1 =? rd P ci then j1 + 1 else j1).
    assert (maxborder P (ci + 1) j2) as Hj2.
    { unfold j2. destruct (Z.eqb_spec (rd P j1) (rd P ci)) as [E|E].
      - split.
        + apply border_succ; auto.
        + intros b' Hb'. destruct (Z_lt_le_dec b' 1) as [?|Hb1']; [lia|].
          replace b' with ((b' - 1) + 1) in Hb' by lia.
          apply border_pred in Hb'; [|lia]. destruct Hb' as [Hb' Eb'].
          destruct (Z_lt_le_dec j1 (b' - 1)) as [Hc|Hc]; [|lia].
          exfalso. eapply Hm1; eauto.
      - assert (j1 = 0) as -> by tauto.
        split.
        + apply border_zero. lia.
        + intros b' Hb'. destruct (Z_lt_le_dec b' 1) as [?|Hb1']; [lia|].
          replace b' with ((b' - 1) + 1) in Hb' by lia.
          apply border_pred in Hb'; [|lia]. destruct Hb' as [Hb' Eb'].
          destruct (Z.eq_dec (b' - 1) 0) as [E0|E0].
          * rewrite E0 in Eb'. contradiction.
          * exfalso. apply (Hm1 (b' - 1)); auto. lia. }
    unfold set. destruct ((0 <=? ci) && (ci <? len lookup)) eqn:Eb;
      [|rewrite andb_false_iff, Z.leb_gt, Z.ltb_ge in Eb; lia].
    cbn [bind]. apply IH; try lia.
    + split; [now rewrite len_upd|].
      intros k Hk Hk'. destruct (Z.eq_dec k ci) as [->|Hne].
      * rewrite rd_upd_same by lia. exact Hj2.
      * rewrite rd_upd_other by lia. apply Htab; lia.
    + intros Hlt'. split; [apply Hj2|].
      intros b Hb Hgt. destruct Hj2 as [_ Hmax]. apply Hmax in Hb. lia.
  - exists lookup. split; [reflexivity|].
    destruct Htab as [Hlen Htab]. split; auto.
    intros k Hk. apply Htab; lia.
Qed.

Lemma len_repeat_zero (k : Z) : 0 <= k -> len (repeat 0 (Z.to_nat k)) = k.
Proof. intros H. unfold len. rewrite repeat_length. lia. Qed.

Lemma rd_repeat_zero (k x : Z) : rd (repeat 0 (Z.to_nat k)) x = 0.
Proof.
  unfold rd. generalize (Z.to_nat x) as a, (Z.to_nat k) as c.
  intros a c; revert a; induction c; intros [|a]; simpl; auto.
Qed.

(** [kmp_init] returns, with the failure table of the pattern. *)
Lemma kmp_init_spec T :
  exists lookup',
    kmp_init T (len T) P (len P) =
      Ret {| i := 0; j := 0; textlen := len T; patlen := len P;
             lookup := lookup'; text := T; pat := P |} /\
    table_ok P lookup'.
Proof.
  pose proof (len_nonneg P) as HP.
  unfold kmp_init.
  destruct (kmp_init_loop_spec (S (Z.to_nat (len P)))
              (repeat 0 (Z.to_nat (len P))) 1 0) as (lk & E & Hok).
  - lia.
  - lia.
  - split; [now apply len_repeat_zero|].
    intros k Hk Hk'. assert (k = 0) as -> by lia.
    rewrite rd_repeat_zero. split.
    + apply border_zero. lia.
    + intros b' (Hb & _). lia.
  - intros H1. split.
    + apply border_zero. lia.
    + intros b (Hb & _) Hgt. lia.
  - rewrite E. cbn [bind]. eauto.
Qed.
End Table.

(** ** The scan *)

Section Scan.
Variables P T : list Z.

Lemma pmatch_prefix o e e' :
  pmatch P T o e' -> o <= e <= e' -> pmatch P T o e.
Proof.
  intros (H1 & H2 & H3 & H4) He. unfold pmatch.
  repeat split; try lia. intros x Hx. apply H4. lia.
Qed.

Lemma occurs_at_pmatch o : occurs_at P T o -> pmatch P T o (o + len P).
Proof.
  rewrite occurs_at_iff. intros (H1 & H2 & H3).
  pose proof (len_nonneg P). unfold pmatch.
  repeat split; try lia. intros x Hx. apply H3. lia.
Qed.

Lemma pmatch_border a o e :
  pmatch P T a e -> pmatch P T o e -> a < o -> border P (e - a) (e - o).
Proof.
  intros (A1 & A2 & A3 & A4) (B1 & B2 & B3 & B4) Hlt. unfold border.
  repeat split; try lia.
  intros x Hx. rewrite <- B4 by lia. rewrite <- A4 by lia. f_equal. lia.
Qed.

Lemma border_pmatch a e b :
  pmatch P T a e -> border P (e - a) b -> pmatch P T (e - b) e.
Proof.
  intros (A1 & A2 & A3 & A4) (B1 & B2 & B3). unfold pmatch.
  repeat split; try lia.
  intros x Hx. rewrite B3 by lia. rewrite <- A4 by lia. f_equal. lia.
Qed.

Lemma pmatch_extend o e :
  pmatch P T o e -> e < len T -> e - o < len P ->
  rd T e = rd P (e - o) -> pmatch P T o (e + 1).
Proof.
  intros (A1 & A2 & A3 & A4) H1 H2 E. unfold pmatch.
  repeat split; try lia.
  intros x Hx. destruct (Z.eq_dec x (e - o)) as [->|Hne].
  - rewrite <- E. f_equal. lia.
  - apply A4. lia.
Qed.

Lemma pmatch_last o e :
  pmatch P T o (e + 1) -> o <= e -> rd T e = rd P (e - o).
Proof.
  intros (A1 & A2 & A3 & A4) H. rewrite <- A4 by lia. f_equal. lia.
Qed.

Lemma pmatch_occurs o :
  pmatch P T o (o + len P) -> occurs_at P T o.
Proof.
  intros (A1 & A2 & A3 & A4). rewrite occurs_at_iff.
  repeat split; try lia. intros x Hx. apply A4. lia.
Qed.

Lemma cursor_inv_intro lo ci cj :
  0 <= cj < len P -> lo <= ci - cj -> 0 <= lo ->
  pmatch P T (ci - cj) ci ->
  (forall o, lo <= o < ci - cj -> ~ occurs_at P T o) ->
  (forall o, lo <= o < ci - cj -> ~ pmatch P T o (ci + 1)) ->
  cursor_inv P T lo ci cj.
Proof.
  intros H1 H2 H3 H4 H5 H6. unfold cursor_inv.
  split; [exact H1|]. split; [exact H2|]. split; [exact H3|].
  split; [exact H4|]. intros o Ho. split; [now apply H5|now apply H6].
Qed.

Variable st : kmp_state.
Hypothesis Hst : state_ok P T st.

Lemma kmp_next_loop_spec :
  forall fuel lo ci cj,
    cursor_inv P T lo ci cj ->
    (Z.to_nat (2 * (len T - ci) + cj) < fuel)%nat ->
    (kmp_next_loop fuel st ci cj = Ret (-1, st) /\
     forall o, lo <= o -> ~ occurs_at P T o)
    \/
    (exists o l,
        kmp_next_loop fuel st ci cj = Ret (o, set_cursor st (o + len P) l) /\
        leftmost_from P T lo o /\
        cursor_inv P T (o + 1) (o + len P) l).
Proof.
  destruct Hst as (Et & Ep & Etl & Epl & Hlen & Htab).
  induction fuel as [|fuel IH]; intros lo ci cj Hinv Hf; [lia|].
  destruct Hinv as (Hj & Hlo & Hlo0 & Hpm & Hno).
  pose proof Hpm as (M1 & M2 & M3 & M4).
  cbn [kmp_next_loop]. rewrite Etl, Et, Ep, Epl.
  destruct (Z.ltb_spec ci (len T)) as [Hlt|Hge].
  - rewrite get_rd, get_pat_rd by lia. cbn [bind].
    destruct (Z.eqb_spec (rd T ci) (rd P cj)) as [E|E].
    + assert (pmatch P T (ci - cj) (ci + 1)) as Hpm'.
      { apply pmatch_extend; auto; try lia.
        replace (ci - (ci - cj)) with cj by lia. exact E. }
      destruct (Z.eqb_spec cj (len P - 1)) as [Ej|Ej].
      * (* a hit *)
        right. rewrite ?get_rd by lia. cbn [bind].
        destruct (Htab cj) as [Hb Hmax]; [lia|].
        replace (cj + 1) with (len P) in * by lia.
        set (l := rd (lookup st) cj) in *.
        pose proof Hb as (Hb1 & Hb2 & Hb3).
        exists (ci - cj), l.
        replace (ci - cj + len P) with (ci + 1) by lia.
        split; [reflexivity|].
        assert (occurs_at P T (ci - cj)) as Hocc.
        { apply pmatch_occurs.
          replace (ci - cj + len P) with (ci + 1) by lia. exact Hpm'. }
        split.
        { split; [lia|]. split; [exact Hocc|].
          intros o' Ho'. apply Hno. lia. }
        assert (forall o', ci - cj < o' < ci + 1 - l ->
                           ~ pmatch P T o' (ci + 1)) as Hnp.
        { intros o' Ho' Hc.
          assert (border P (ci + 1 - (ci - cj)) (ci + 1 - o')) as Hbb
            by (apply pmatch_border; auto; lia).
          replace (ci + 1 - (ci - cj)) with (len P) in Hbb by lia.
          apply Hmax in Hbb. lia. }
        apply cursor_inv_intro; try lia.
        -- apply (border_pmatch (ci - cj)); auto.
           replace (ci + 1 - (ci - cj)) with (len P) by lia. exact Hb.
        -- intros o Ho Hc. apply occurs_at_pmatch in Hc.
           apply (Hnp o); [lia|]. eapply pmatch_prefix; eauto. lia.
        -- intros o Ho Hc. apply (Hnp o); [lia|].
           eapply pmatch_prefix; eauto. lia.
      * (* one more byte of the pattern *)
        destruct (IH lo (ci + 1) (cj + 1)) as [[E1 H1]|(o & l & E1 & H1)].
        -- apply cursor_inv_intro; try lia.
           ++ replace (ci + 1 - (cj + 1)) with (ci - cj) by lia. apply Hpm'.
           ++ intros o Ho. apply Hno. lia.
           ++ intros o Ho Hc. destruct (Hno o) as [_ Hn]; [lia|].
              apply Hn. eapply pmatch_prefix; eauto.
              destruct Hc as (? & ? & ? & ?). lia.
        -- lia.
        -- left. split; auto.
        -- right. exists o, l. auto.
    + destruct (Z.ltb_spec 0 cj) as [Hpos|Hzero].
      * (* fall back *)
        rewrite ?get_rd by lia. cbn [bind].
        destruct (Htab (cj - 1)) as [Hb Hmax]; [lia|].
        replace (cj - 1 + 1) with cj in * by lia.
        set (l := rd (lookup st) (cj - 1)) in *.
        pose proof Hb as (Hb1 & Hb2 & Hb3).
        assert (forall o, ci - cj <= o < ci - l ->
                          ~ pmatch P T o (ci + 1)) as Hnp.
        { intros o Ho Hc.
          destruct (Z.eq_dec o (ci - cj)) as [->|Hne].
          - apply pmatch_last in Hc; [|lia].
            replace (ci - (ci - cj)) with cj in Hc by lia. contradiction.
          - assert (pmatch P T o ci) as Hc'
              by (eapply pmatch_prefix; eauto; lia).
            assert (border P (ci - (ci - cj)) (ci - o)) as Hbb
              by (apply pmatch_border; auto; lia).
            replace (ci - (ci - cj)) with cj in Hbb by lia.
            apply Hmax in Hbb. lia. }
        destruct (IH lo ci l) as [[E1 H1]|(o & l' & E1 & H1)].
        -- apply cursor_inv_intro; try lia.
           ++ apply (border_pmatch (ci - cj)); auto.
              replace (ci - (ci - cj)) with cj by lia. exact Hb.
           ++ intros o Ho. destruct (Z_lt_le_dec o (ci - cj)) as [Hc|Hc];
                [apply Hno; lia|].
              intros Hocc. apply occurs_at_pmatch in Hocc.
              apply (Hnp o); [lia|]. eapply pmatch_prefix; eauto. lia.
           ++ intros o Ho. destruct (Z_lt_le_dec o (ci - cj)) as [Hc|Hc];
                [apply Hno; lia|]. apply Hnp. lia.
        -- lia.
        -- left. split; auto.
        -- right. exists o, l'. auto.
      * (* next byte of the text *)
        assert (cj = 0) as -> by lia.
        replace (ci - 0) with ci in * by lia.
        destruct (IH lo (ci + 1) 0) as [[E1 H1]|(o & l' & E1 & H1)].
        -- apply cursor_inv_intro; try lia.
           ++ unfold pmatch. repeat split; try lia; intros; lia.
           ++ intros o Ho.
              destruct (Z_lt_le_dec o ci) as [Hc|Hc]; [apply Hno; lia|].
              assert (o = ci) as -> by lia.
              rewrite occurs_at_iff. intros (_ & _ & Hc').
              specialize (Hc' 0). rewrite Z.add_0_r in Hc'.
              apply E, Hc'. lia.
           ++ intros o Ho. destruct (Z_lt_le_dec o ci) as [Hc|Hc].
              ** intros Hc'. destruct (Hno o) as [_ Hn]; [lia|].
                 apply Hn. eapply pmatch_prefix; eauto. lia.
              ** assert (o = ci) as -> by lia.
                 intros Hc'. destruct Hc' as (_ & _ & _ & Hc').
                 specialize (Hc' 0). rewrite Z.add_0_r in Hc'.
                 apply E, Hc'. lia.
        -- lia.
        -- left. split; auto.
        -- right. exists o, l'. auto.
  - left. split; [reflexivity|].
    intros o Ho. destruct (Z_lt_le_dec o (ci - cj)) as [Hc|Hc];
      [apply Hno; lia|].
    rewrite occurs_at_iff. intros (? & ? & _). lia.
Qed.
End Scan.

(** ** Enumerating occurrences *)

Lemma Zrange_S lo k : Zrange lo (S k) = lo :: Zrange (lo + 1) k.
Proof.
  unfold Zrange. cbn [seq map]. f_equal; [lia|].
  rewrite <- seq_shift, map_map. apply map_ext. intros a. lia.
Qed.

Lemma Zrange_ge lo k x : In x (Zrange lo k) -> lo <= x.
Proof.
  unfold Zrange. rewrite in_map_iff. intros (a & <- & _). lia.
Qed.

Lemma all_occurrences_step P T lo :
  lo <= len T ->
  all_occurrences P T lo =
    (if occurs_atb P T lo then [lo] else []) ++ all_occurrences P T (lo + 1).
Proof.
  intros H. unfold all_occurrences.
  replace (Z.to_nat (len T - lo + 1)) with (S (Z.to_nat (len T - (lo + 1) + 1)))
    by lia.
  rewrite Zrange_S. cbn [filter].
  destruct (occurs_atb P T lo); reflexivity.
Qed.

Lemma all_occurrences_none P T lo :
  (forall o, lo <= o -> ~ occurs_at P T o) -> all_occurrences P T lo = [].
Proof.
  intros H. unfold all_occurrences.
  generalize (Z.to_nat (len T - lo + 1)) as k. intros k.
  assert (forall x, In x (Zrange lo k) -> occurs_atb P T x = false) as Hall.
  { intros x Hx. apply occurs_atb_false, H. eapply Zrange_ge; eauto. }
  induction (Zrange lo k) as [|a l IH]; [reflexivity|].
  cbn [filter]. rewrite (Hall a) by (left; reflexivity).
  apply IH. intros x Hx. apply Hall. right; exact Hx.
Qed.

Lemma all_occurrences_leftmost P T lo o :
  leftmost_from P T lo o ->
  all_occurrences P T lo = o :: all_occurrences P T (o + 1).
Proof.
  intros (Hlo & Hocc & Hno).
  assert (o <= len T) as Hn.
  { destruct Hocc as (? & ? & _). pose proof (len_nonneg P). lia. }
  remember (Z.to_nat (o - lo)) as d eqn:Ed.
  revert lo Hlo Hno Ed. induction d as [|d IH]; intros lo Hlo Hno Ed.
  - assert (lo = o) as -> by lia.
    rewrite all_occurrences_step by lia.
    apply occurs_atb_spec in Hocc. rewrite Hocc. reflexivity.
  - rewrite all_occurrences_step by lia.
    assert (occurs_atb P T lo = false) as ->
      by (apply occurs_atb_false, Hno; lia).
    cbn [app]. apply IH; try lia. intros o' Ho'. apply Hno. lia.
Qed.

Lemma Zrange_In lo k x :
  In x (Zrange lo k) <-> lo <= x < lo + Z.of_nat k.
Proof.
  unfold Zrange. rewrite in_map_iff. split.
  - intros (a & <- & Ha). apply in_seq in Ha. lia.
  - intros Hx. exists (Z.to_nat (x - lo)). split; [lia|].
    apply in_seq. lia.
Qed.

(** [all_occurrences] lists exactly the occurrences from [s] on. *)
Lemma all_occurrences_In P T s o :
  In o (all_occurrences P T s) <-> s <= o /\ occurs_at P T o.
Proof.
  unfold all_occurrences. rewrite filter_In, Zrange_In, occurs_atb_spec.
  split; [intros [H1 H2]; split; [lia|exact H2]|].
  intros [H1 H2]. split; [|exact H2].
  destruct H2 as (H2 & H3 & _). pose proof (len_nonneg P). lia.
Qed.

Lemma Zrange_sorted lo k : StronglySorted Z.lt (Zrange lo k).
Proof.
  revert lo. induction k as [|k IH]; intros lo; [constructor|].
  rewrite Zrange_S. constructor; [apply IH|].
  apply Forall_forall. intros x Hx. apply Zrange_In in Hx. lia.
Qed.

Lemma filter_sorted (f : Z -> bool) l :
  StronglySorted Z.lt l -> StronglySorted Z.lt (filter f l).
Proof.
  induction 1 as [|a l Hs IH Ha]; cbn [filter]; [constructor|].
  destruct (f a); [|exact IH]. constructor; [exact IH|].
  apply Forall_forall. intros x Hx. apply filter_In in Hx.
  rewrite Forall_forall in Ha. apply Ha, Hx.
Qed.

(** ... in increasing order. *)
Lemma all_occurrences_sorted P T s :
  StronglySorted Z.lt (all_occurrences P T s).
Proof. apply filter_sorted, Zrange_sorted. Qed.

Lemma slice_all l : slice l 0 (len l) = l.
Proof.
  unfold slice, len. rewrite Nat2Z.id. cbn [Z.to_nat skipn].
  apply firstn_all.
Qed.

(** A cursor placed at [c] with [j = 0]. *)
Lemma cursor_inv_start P T c :
  P <> [] -> 0 <= c <= len T -> cursor_inv P T c c 0.
Proof.
  intros HP Hc. assert (0 < len P) as Hm.
  { unfold len. destruct P; [congruence|]. cbn [length]. lia. }
  apply cursor_inv_intro; try lia; try (intros; lia).
  unfold pmatch. repeat split; try lia; intros; lia.
Qed.

Lemma no_occurrence_past_end P T c :
  P <> [] -> len T <= c -> forall o, c <= o -> ~ occurs_at P T o.
Proof.
  intros HP Hc o Ho (_ & H & _).
  assert (0 < len P).
  { unfold len. destruct P; [congruence|]. cbn [length]. lia. }
  lia.
Qed.

(** ** One call of [kmp_next] *)

Section Next.
Variables P T : list Z.
Variable st : kmp_state.
Hypothesis Hst : state_ok P T st.

Lemma state_ok_set_cursor ci cj : state_ok P T (set_cursor st ci cj).
Proof. exact Hst. Qed.

Lemma kmp_next_spec lo ci cj :
  cursor_inv P T lo ci cj ->
  (kmp_next (set_cursor st ci cj) = Ret (-1, set_cursor st ci cj) /\
   forall o, lo <= o -> ~ occurs_at P T o)
  \/
  (exists o l,
      kmp_next (set_cursor st ci cj) = Ret (o, set_cursor st (o + len P) l) /\
      leftmost_from P T lo o /\ ci < o + len P /\
      cursor_inv P T (o + 1) (o + len P) l).
Proof.
  intros Hinv. unfold kmp_next.
  destruct Hst as (Et & Ep & Etl & Epl & Htab).
  destruct (kmp_next_loop_spec P T (set_cursor st ci cj)
              (state_ok_set_cursor ci cj)
              (kmp_next_fuel (set_cursor st ci cj)) lo ci cj Hinv)
    as [[E H]|(o & l & E & H & H')].
  - unfold kmp_next_fuel. cbn [set_cursor textlen i j]. rewrite Etl. lia.
  - left. split; assumption.
  - right. exists o, l. split; [exact E|]. split; [exact H|].
    split; [|exact H'].
    destruct Hinv as (Hj & _ & _ & _ & Hno).
    destruct H as (Hlo & Hocc & _).
    destruct (Z_lt_le_dec o (ci - cj)) as [Hc|Hc]; [|lia].
    exfalso. destruct (Hno o) as [Hn _]; [lia|]. exact (Hn Hocc).
Qed.

Lemma kmp_next_past_end c cj :
  len T <= c -> kmp_next (set_cursor st c cj) = Ret (-1, set_cursor st c cj).
Proof.
  intros Hc. unfold kmp_next, kmp_next_fuel.
  cbn [set_cursor textlen i j kmp_next_loop].
  destruct Hst as (Et & Ep & Etl & Epl & Htab). rewrite Etl.
  destruct (Z.ltb_spec c (len T)); [lia|reflexivity].
Qed.

(** A search that starts at [c] with [j = 0]. *)
Lemma kmp_next_from c :
  P <> [] -> 0 <= c ->
  (kmp_next (set_cursor st c 0) = Ret (-1, set_cursor st c 0) /\
   forall o, c <= o -> ~ occurs_at P T o)
  \/
  (exists o l,
      kmp_next (set_cursor st c 0) = Ret (o, set_cursor st (o + len P) l) /\
      leftmost_from P T c o /\ c < o + len P /\
      cursor_inv P T (o + 1) (o + len P) l).
Proof.
  intros HP Hc. destruct (Z_lt_le_dec (len T) c) as [Hgt|Hle].
  - left. split; [apply kmp_next_past_end; lia|].
    apply no_occurrence_past_end; auto; lia.
  - apply kmp_next_spec. apply cursor_inv_start; auto; lia.
Qed.

(** ** [find-all] *)

Lemma findall_loop_spec :
  forall fuel lo ci cj array,
    cursor_inv P T lo ci cj ->
    (Z.to_nat (len T - ci) < fuel)%nat ->
    findall_loop fuel (set_cursor st ci cj) array =
      Ret (array ++ map janet_wrap_integer (all_occurrences P T lo)).
Proof.
  induction fuel as [|fuel IH]; intros lo ci cj array Hinv Hf; [lia|].
  cbn [findall_loop].
  destruct (kmp_next_spec lo ci cj Hinv)
    as [[E H]|(o & l & E & Hleft & Hadv & Hinv')]; rewrite E; cbn [bind].
  - cbn [Z.geb Z.compare]. rewrite all_occurrences_none by exact H.
    cbn [map]. now rewrite app_nil_r.
  - assert (0 <= o) as Ho by (destruct Hleft as (_ & (? & _) & _); lia).
    destruct (Z.geb_spec o 0) as [_|?]; [|lia].
    pose proof Hleft as (Hl1 & Hocc & Hl3).
    assert (o + len P <= len T) by (destruct Hocc as (_ & ? & _); lia).
    rewrite (IH (o + 1) (o + len P) l); [|exact Hinv'|lia].
    rewrite (all_occurrences_leftmost P T lo o) by exact Hleft.
    cbn [map]. rewrite <- app_assoc. reflexivity.
Qed.
End Next.

Lemma nonempty_len (P : list Z) : P <> [] -> 0 < len P.
Proof. unfold len. destruct P; [congruence|]. cbn [length]. lia. Qed.

Lemma leftmost_from_unique P T s o o' :
  leftmost_from P T s o -> leftmost_from P T s o' -> o = o'.
Proof.
  intros (H1 & H2 & H3) (H1' & H2' & H3').
  destruct (Z_lt_le_dec o o') as [Hc|Hc]; [exfalso; apply (H3' o); auto; lia|].
  destruct (Z_lt_le_dec o' o) as [Hc'|Hc']; [exfalso; apply (H3 o'); auto; lia|].
  lia.
Qed.

Lemma findsetup_spec P T s :
  0 <= s ->
  exists st, state_ok P T st /\ findsetup P T (Some s) = Ret (set_cursor st s 0).
Proof.
  intros Hs. destruct (kmp_init_spec P T) as (lk & E & Hok).
  eexists. split; [|unfold findsetup].
  2:{ destruct (Z.ltb_spec s 0); [lia|]. cbn [bind]. rewrite E. cbn [bind].
      reflexivity. }
  unfold state_ok. cbn. auto.
Qed.

Lemma replacesetup_spec P S T s :
  0 <= s ->
  exists st, state_ok P T st /\
    replacesetup P S T (Some s) =
      Ret {| kmp := set_cursor st s 0; subst := S; substlen := len S |}.
Proof.
  intros Hs. destruct (kmp_init_spec P T) as (lk & E & Hok).
  eexists. split; [|unfold replacesetup].
  2:{ destruct (Z.ltb_spec s 0); [lia|]. cbn [bind]. rewrite E. cbn [bind].
      reflexivity. }
  unfold state_ok. cbn. auto.
Qed.

(** With an empty pattern, [pat[0]] is the 0 after the pattern, and no
    comparison is the last of a pattern: [kmp_next] reports no hit. *)
Lemma kmp_next_loop_empty_no_hit T st :
  state_ok [] T st ->
  forall fuel ci cj o st',
    0 <= cj ->
    kmp_next_loop fuel st ci cj = Ret (o, st') -> o = -1 /\ st' = st.
Proof.
  intros (Et & Ep & Etl & Epl & Hlen & Htab).
  induction fuel as [|fuel IH]; intros ci cj o st' Hj H; [discriminate|].
  cbn [kmp_next_loop] in H. rewrite Epl in H.
  destruct (ci <? textlen st); [|injection H as <- <-; auto].
  destruct (get (text st) ci) as [a| | |]; try discriminate.
  destruct (get_pat (pat st) cj) as [b| | |]; try discriminate.
  cbn [bind] in H. destruct (a =? b).
  - destruct (Z.eqb_spec cj (len [] - 1)) as [E|_].
    + change (len []) with 0 in E. lia.
    + apply IH in H; [exact H|lia].
  - destruct (Z.ltb_spec 0 cj) as [Hpos|_].
    + rewrite get_outside in H by (change (len []) with 0 in Hlen; lia).
      discriminate.
    + apply IH in H; [exact H|lia].
Qed.

(** On a text without zero byte it runs to the end of the text. *)
Lemma kmp_next_loop_empty_zero_free T st :
  state_ok [] T st ->
  forall fuel ci,
    0 <= ci ->
    (forall x, ci <= x < len T -> rd T x <> 0) ->
    (Z.to_nat (len T - ci) < fuel)%nat ->
    kmp_next_loop fuel st ci 0 = Ret (-1, st).
Proof.
  intros (Et & Ep & Etl & Epl & Hlen & Htab).
  induction fuel as [|fuel IH]; intros ci Hci Hz Hf; [lia|].
  cbn [kmp_next_loop]. rewrite Etl, Et, Ep.
  destruct (Z.ltb_spec ci (len T)) as [Hlt|Hge]; [|reflexivity].
  rewrite get_rd by lia. change (get_pat [] 0) with (@Ret Z 0). cbn [bind].
  destruct (Z.eqb_spec (rd T ci) 0) as [E|_];
    [exfalso; apply (Hz ci); [lia|exact E]|].
  cbn [Z.ltb Z.compare]. apply IH; [lia| |lia].
  intros x Hx. apply Hz. lia.
Qed.

Lemma kmp_next_empty_no_hit T st c cj o st' :
  state_ok [] T st -> 0 <= cj ->
  kmp_next (set_cursor st c cj) = Ret (o, st') ->
  o = -1 /\ st' = set_cursor st c cj.
Proof.
  intros Hst Hj H. unfold kmp_next in H.
  apply (kmp_next_loop_empty_no_hit T) in H; auto.
Qed.

Lemma kmp_next_empty_zero_free T st c :
  state_ok [] T st -> 0 <= c ->
  (forall x, c <= x < len T -> rd T x <> 0) ->
  kmp_next (set_cursor st c 0) = Ret (-1, set_cursor st c 0).
Proof.
  intros Hst Hc Hz. pose proof Hst as (_ & _ & Etl & _).
  unfold kmp_next, kmp_next_fuel. cbn [set_cursor textlen i j].
  apply (kmp_next_loop_empty_zero_free T); auto.
  rewrite Etl. lia.
Qed.

(** An absent start offset is the start offset 0. *)
Lemma default_start patt sub str :
  cfun_string_find patt str None = cfun_string_find patt str (Some 0)
  /\ cfun_string_findall patt str None = cfun_string_findall patt str (Some 0)
  /\ cfun_string_replace patt sub str None
     = cfun_string_replace patt sub str (Some 0)
  /\ cfun_string_replaceall patt sub str None
     = cfun_string_replaceall patt sub str (Some 0).
Proof. repeat split; reflexivity. Qed.

(** ** [find] *)

Lemma find_nonempty P T s :
  P <> [] -> 0 <= s ->
  (cfun_string_find P T (Some s) = Ret janet_wrap_nil /\
   forall o, s <= o -> ~ occurs_at P T o)
  \/
  (exists o, cfun_string_find P T (Some s) = Ret (janet_wrap_integer o) /\
             leftmost_from P T s o).
Proof.
  intros HP Hs. destruct (findsetup_spec P T s Hs) as (st & Hst & E).
  unfold cfun_string_find. rewrite E. cbn [bind].
  destruct (kmp_next_from P T st Hst s HP Hs)
    as [[E' H]|(o & l & E' & Hleft & _)]; rewrite E'; cbn [bind fst].
  - left. split; [reflexivity|exact H].
  - right. exists o. split; [|exact Hleft].
    destruct Hleft as (_ & (Ho & _) & _).
    destruct (Z.ltb_spec o 0); [lia|reflexivity].
Qed.

(** [find] with the empty pattern returns no offset. *)
Lemma find_empty_no_offset T s o :
  0 <= s -> cfun_string_find [] T (Some s) <> Ret (janet_wrap_integer o).
Proof.
  intros Hs H. destruct (findsetup_spec [] T s Hs) as (st & Hst & E).
  unfold cfun_string_find in H. rewrite E in H. cbn [bind] in H.
  destruct (kmp_next (set_cursor st s 0)) as [[o' st']| | |] eqn:En;
    try discriminate.
  apply (kmp_next_empty_no_hit T) in En; [|exact Hst|lia].
  destruct En as [-> _]. discriminate.
Qed.

Lemma find_empty_zero_free T s :
  0 <= s -> (forall x, s <= x < len T -> rd T x <> 0) ->
  cfun_string_find [] T (Some s) = Ret janet_wrap_nil.
Proof.
  intros Hs Hz. destruct (findsetup_spec [] T s Hs) as (st & Hst & E).
  unfold cfun_string_find. rewrite E. cbn [bind].
  now rewrite (kmp_next_empty_zero_free T st s Hst Hs Hz).
Qed.

Lemma slice_eq_occurs P T o :
  P <> [] -> 0 <= o -> slice T o (len P) = P -> occurs_at P T o.
Proof.
  intros HP Ho E. pose proof (nonempty_len P HP) as Hm.
  split; [exact Ho|]. split; [|exact E].
  apply (f_equal (@length Z)) in E. unfold slice in E.
  rewrite length_firstn, length_skipn in E. unfold len in *. lia.
Qed.

(** C3. [find] returns the leftmost occurrence at or after the start: an
    offset it returns is at or after the start, the pattern occurs there
    and at no earlier offset from the start on; when the pattern occurs
    nowhere from the start on, the result is nil; and for a non-empty
    pattern the leftmost occurrence is what [find] returns.
    [find("ab", "aabab", 0) = 1]. *)
Theorem find_leftmost_occurrence :
  forall (P T : list Z) (s : Z), 0 <= s ->
    (forall o, cfun_string_find P T (Some s) = Ret (janet_wrap_integer o) ->
               s <= o /\ slice T o (len P) = P /\
               forall o', s <= o' < o -> slice T o' (len P) <> P)
    /\ ((forall o, s <= o -> ~ occurs_at P T o) ->
        cfun_string_find P T (Some s) = Ret janet_wrap_nil)
    /\ (P <> [] -> forall o, leftmost_from P T s o ->
        cfun_string_find P T (Some s) = Ret (janet_wrap_integer o))
    /\ cfun_string_find (bytes_of_string "ab") (bytes_of_string "aabab")
         (Some 0) = Ret (janet_wrap_integer 1).
Proof.
  intros P T s Hs.
  assert (P = [] \/ P <> []) as [->|HP]
    by (destruct P; [left; reflexivity|right; congruence]).
  - split; [|split; [|split]].
    + intros o H. exfalso. exact (find_empty_no_offset T s o Hs H).
    + intros Hno. apply find_empty_zero_free; [exact Hs|].
      intros x Hx. exfalso. apply (Hno s); [lia|].
      unfold occurs_at, slice. cbn. repeat split; lia.
    + congruence.
    + reflexivity.
  - destruct (find_nonempty P T s HP Hs) as [[E Hno]|(o & E & Hleft)];
      rewrite E; (split; [|split; [|split]]); try reflexivity.
    + discriminate.
    + intros _ o' Hleft. exfalso. destruct Hleft as (H1 & H2 & _).
      exact (Hno o' H1 H2).
    + intros o' H. injection H as <-.
      destruct Hleft as (H1 & (_ & _ & H2) & H3).
      split; [exact H1|]. split; [exact H2|].
      intros o'' Ho'' Hc. apply (H3 o'' Ho'').
      apply slice_eq_occurs; [exact HP|lia|exact Hc].
    + intros Hno. exfalso. destruct Hleft as (H1 & H2 & _).
      exact (Hno o H1 H2).
    + intros _ o' Hleft'.
      now rewrite (leftmost_from_unique _ _ _ _ _ Hleft Hleft').
Qed.

Lemma find_leftmost_occurrence_witness :
  0 <= 1
  /\ slice [97; 97; 98; 97; 98] 1 (len [97; 98]) = [97; 98]
  /\ forall o', 0 <= o' < 1 ->
                slice [97; 97; 98; 97; 98] o' (len [97; 98]) <> [97; 98].
Proof.
  exact (proj1 (find_leftmost_occurrence [97; 98] [97; 97; 98; 97; 98] 0
                  ltac:(lia)) 1 eq_refl).
Defined.

Lemma len_app (a b : list Z) : len (a ++ b) = len a + len b.
Proof. unfold len. rewrite length_app. lia. Qed.

Lemma len_cons (a : Z) (l : list Z) : len (a :: l) = len l + 1.
Proof. unfold len. cbn [length]. lia. Qed.

(** A hit leaves the cursor just past the last byte of the occurrence, in
    the automaton state the failure table gives for the whole pattern. *)
Lemma kmp_next_loop_hit :
  forall fuel st ci cj o st',
    kmp_next_loop fuel st ci cj = Ret (o, st') -> 0 <= o ->
    st' = set_cursor st (o + patlen st) (j st') /\
    get (lookup st) (patlen st - 1) = Ret (j st').
Proof.
  induction fuel as [|fuel IH]; intros st ci cj o st' H Ho; [discriminate|].
  cbn [kmp_next_loop] in H.
  destruct (ci <? textlen st); [|injection H as <- <-; lia].
  destruct (get (text st) ci) as [a| | |]; try discriminate.
  destruct (get_pat (pat st) cj) as [b| | |]; try discriminate.
  cbn [bind] in H. destruct (a =? b).
  - destruct (Z.eqb_spec cj (patlen st - 1)) as [E|E].
    + destruct (get (lookup st) cj) as [l| | |] eqn:El; try discriminate.
      cbn [bind] in H. injection H as <- <-. cbn [set_cursor j].
      split; [f_equal; lia|]. rewrite <- E. exact El.
    + eapply IH; eauto.
  - destruct (0 <? cj).
    + destruct (get (lookup st) (cj - 1)) as [l| | |]; try discriminate.
      cbn [bind] in H. eapply IH; eauto.
    + eapply IH; eauto.
Qed.

(** ** [find-all] *)

Lemma findall_nonempty P T s :
  P <> [] -> 0 <= s ->
  cfun_string_findall P T (Some s) =
    Ret (janet_wrap_array (map janet_wrap_integer (all_occurrences P T s))).
Proof.
  intros HP Hs. destruct (findsetup_spec P T s Hs) as (st & Hst & E).
  unfold cfun_string_findall. rewrite E. cbn [bind].
  destruct (Z_lt_le_dec (len T) s) as [Hgt|Hle].
  - cbn [findall_loop]. rewrite (kmp_next_past_end P T st Hst s 0) by lia.
    cbn [bind]. cbn [Z.geb Z.compare].
    rewrite all_occurrences_none; [reflexivity|].
    apply no_occurrence_past_end; auto; lia.
  - rewrite (findall_loop_spec P T st Hst (S (length T)) s s 0 []).
    + reflexivity.
    + apply cursor_inv_start; auto; lia.
    + unfold len. lia.
Qed.

(** C1. [find-all] keeps calling [kmp_next] on one cursor: a hit at [o]
    leaves the cursor at [o + patlen] in the automaton state
    [lookup[patlen - 1]] (not [0]), and that cursor is what the next call
    resumes from.  For a non-empty pattern the result is therefore every
    offset from the start on where the pattern occurs, overlapping ones
    included, in increasing order; [find_all("aba", "ababa", 0) = [0, 2]]. *)
Theorem find_all_overlapping :
  forall (P T : list Z) (s : Z), 0 <= s ->
    (forall st o st',
        kmp_next st = Ret (o, st') -> 0 <= o ->
        st' = set_cursor st (o + patlen st) (j st') /\
        get (lookup st) (patlen st - 1) = Ret (j st'))
    /\ (forall fuel st array,
        findall_loop (S fuel) st array =
          (r <- kmp_next st;;
           if fst r >=? 0
           then findall_loop fuel (snd r) (array ++ [janet_wrap_integer (fst r)])
           else Ret array))
    /\ (P <> [] ->
        cfun_string_findall P T (Some s) =
          Ret (janet_wrap_array
                 (map janet_wrap_integer (all_occurrences P T s))))
    /\ (forall o, In o (all_occurrences P T s) <-> s <= o /\ occurs_at P T o)
    /\ StronglySorted Z.lt (all_occurrences P T s)
    /\ cfun_string_findall (bytes_of_string "aba") (bytes_of_string "ababa")
         (Some 0)
       = Ret (janet_wrap_array [janet_wrap_integer 0; janet_wrap_integer 2]).
Proof.
  intros P T s Hs. split; [|split; [|split; [|split; [|split]]]].
  4:{ intros o. apply all_occurrences_In. }
  4:{ apply all_occurrences_sorted. }
  - intros st o st' H Ho. unfold kmp_next in H.
    eapply kmp_next_loop_hit; eauto.
  - intros fuel st array. cbn [findall_loop].
    destruct (kmp_next st) as [[o st']| | |]; reflexivity.
  - intros HP. now apply findall_nonempty.
  - reflexivity.
Qed.

Lemma find_all_overlapping_witness :
  cfun_string_findall [97; 97] [97; 97; 97; 97] (Some 1) =
    Ret (janet_wrap_array
           (map janet_wrap_integer (all_occurrences [97; 97] [97; 97; 97; 97] 1))).
Proof.
  refine (proj1 (proj2 (proj2 (find_all_overlapping [97; 97] [97; 97; 97; 97] 1
                                 ltac:(lia)))) _).
  discriminate.
Defined.

(** ** [replace] *)

Lemma replace_nonempty P S T s :
  P <> [] -> 0 <= s ->
  ((forall o, s <= o -> ~ occurs_at P T o) ->
   cfun_string_replace P S T (Some s) = Ret (janet_wrap_string T))
  /\
  (forall o, leftmost_from P T s o ->
   cfun_string_replace P S T (Some s) =
     if int32_overflow [len T; len P; len S] (len T - len P + len S)
     then Fault
     else
       Ret (janet_wrap_string
              (slice T 0 o ++ S ++ slice T (o + len P) (len T - o - len P)))).
Proof.
  intros HP Hs. destruct (replacesetup_spec P S T s Hs) as (st & Hst & E).
  pose proof Hst as (Et & Ep & Etl & Epl & Htab).
  unfold cfun_string_replace. rewrite E. cbn [bind kmp subst substlen].
  cbn [set_cursor text textlen patlen]. rewrite Et, Etl, Epl.
  destruct (kmp_next_from P T st Hst s HP Hs)
    as [[E' H]|(o & l & E' & Hleft & _)]; rewrite E'; cbn [bind fst].
  - split.
    + intros _. cbn. now rewrite slice_all.
    + intros o (H1 & H2 & _). exfalso. exact (H o H1 H2).
  - pose proof Hleft as (H1 & H2 & _).
    assert (0 <= o) as Ho by (destruct H2; lia).
    destruct (Z.ltb_spec o 0); [lia|]. rewrite slice_all. split.
    + intros Hno. exfalso. exact (Hno o H1 H2).
    + intros o' Hleft'.
      now rewrite (leftmost_from_unique _ _ _ _ _ Hleft' Hleft).
Qed.

(** C7 (as the code has it). For a non-empty pattern, [replace] returns
    the text unchanged when the pattern does not occur at or after the
    start, and otherwise, when the length [len T - len P + len S] of the
    result is at most [INT32_MAX], the bytes before the first occurrence,
    the substitute, and the bytes after the occurrence. *)
Theorem replace_first_occurrence :
  forall (P S T : list Z) (s : Z),
    P <> [] -> 0 <= s ->
    ((forall o, s <= o -> ~ occurs_at P T o) ->
     cfun_string_replace P S T (Some s) = Ret (janet_wrap_string T))
    /\
    (forall o, leftmost_from P T s o ->
     len T - len P + len S <= INT32_MAX ->
     cfun_string_replace P S T (Some s) =
       Ret (janet_wrap_string
              (slice T 0 o ++ S ++ slice T (o + len P) (len T - o - len P)))).
Proof.
  intros P S T s HP Hs. destruct (replace_nonempty P S T s HP Hs) as [H1 H2].
  split; [exact H1|]. intros o Hleft Hfit. rewrite (H2 o Hleft).
  rewrite int32_overflow_fits; [reflexivity|].
  destruct Hleft as (_ & (Ho & Hle & _) & _).
  pose proof (len_nonneg S). unfold INT32_MIN. lia.
Qed.

Lemma replace_first_occurrence_witness :
  ((forall o, 0 <= o -> ~ occurs_at [97; 110] [98; 97; 110; 97; 110; 97] o) ->
   cfun_string_replace [97; 110] [88] [98; 97; 110; 97; 110; 97] (Some 0)
   = Ret (janet_wrap_string [98; 97; 110; 97; 110; 97]))
  /\
  (forall o, leftmost_from [97; 110] [98; 97; 110; 97; 110; 97] 0 o ->
   len [98; 97; 110; 97; 110; 97] - len [97; 110] + len [88] <= INT32_MAX ->
   cfun_string_replace [97; 110] [88] [98; 97; 110; 97; 110; 97] (Some 0) =
     Ret (janet_wrap_string
            (slice [98; 97; 110; 97; 110; 97] 0 o ++ [88]
             ++ slice [98; 97; 110; 97; 110; 97] (o + len [97; 110])
                  (len [98; 97; 110; 97; 110; 97] - o - len [97; 110])))).
Proof.
  apply (replace_first_occurrence [97; 110] [88] [98; 97; 110; 97; 110; 97] 0).
  - discriminate.
  - lia.
Defined.

(** C7 fails for the empty pattern: it occurs at offset 0 of the empty
    text, the leftmost occurrence from 0 on, yet [replace] returns the text
    unchanged and not the substitute. *)
Lemma replace_empty_pattern_counterexample :
  leftmost_from [] [] 0 0
  /\ cfun_string_replace [] [88] [] (Some 0) = Ret (janet_wrap_string [])
  /\ ~ replace_claim [] [88] [] 0.
Proof.
  assert (leftmost_from [] [] 0 0) as Hl.
  { split; [lia|]. split; [|intros; lia].
    unfold occurs_at. cbn. repeat split; lia. }
  split; [exact Hl|]. split; [reflexivity|].
  intros [_ H]. specialize (H 0 Hl). vm_compute in H. discriminate.
Qed.

(** ** [replace-all] *)

Section ReplaceAll.
Variables P S T : list Z.
Variable st : kmp_state.
Hypothesis Hst : state_ok P T st.
Hypothesis HP : P <> [].
Variable rs : replace_state.
Hypothesis Hsub : subst rs = S.
Hypothesis Hsublen : substlen rs = len S.

Lemma replaceall_loop_spec :
  forall fuel c b last,
    0 <= last <= c -> last <= len T ->
    (Z.to_nat (len T - c) < fuel)%nat ->
    exists occs b' last',
      nonoverlapping P T c occs /\
      replaceall_loop fuel rs (set_cursor st c 0) b last = Ret (b', last') /\
      b' ++ slice T last' (len T - last') =
        b ++ splice T S (len P) last occs /\
      len (splice T S (len P) last occs) =
        len T - last - len occs * len P + len occs * len S.
Proof.
  pose proof Hst as (Et & Ep & Etl & Epl & Htab).
  pose proof (nonempty_len P HP) as Hm.
  induction fuel as [|fuel IH]; intros c b last Hl Hn Hf; [lia|].
  cbn [replaceall_loop].
  destruct (kmp_next_from P T st Hst c HP ltac:(lia))
    as [[E H]|(o & l & E & Hleft & Hadv & _)]; rewrite E; cbn [bind].
  - cbn [Z.geb Z.compare]. exists [], b, last.
    split; [now constructor|]. split; [reflexivity|].
    split; [reflexivity|]. cbn [splice]. rewrite len_slice by lia.
    change (len (@nil Z)) with 0. lia.
  - pose proof Hleft as (H1 & (Ho & Hon & _) & _).
    destruct (Z.geb_spec o 0); [|lia].
    cbn [set_cursor text patlen kmp_seti]. rewrite Et, Epl, Hsub, Hsublen.
    rewrite slice_all.
    destruct (IH (o + len P) ((b ++ slice T last (o - last)) ++ S) (o + len P))
      as (rest & b' & last' & Hrest & Eloop & Hb & Hlen); try lia.
    change (set_cursor (set_cursor st (o + len P) l) (o + len P) 0)
      with (set_cursor st (o + len P) 0).
    exists (o :: rest), b', last'.
    split; [econstructor; eauto|]. split; [exact Eloop|].
    split.
    + rewrite Hb. cbn [splice]. now rewrite <- !app_assoc.
    + cbn [splice]. rewrite !len_app, Hlen, len_slice, len_cons by lia. lia.
Qed.
End ReplaceAll.

Lemma replace_all_nonempty P S T s :
  P <> [] -> 0 <= s ->
  exists occs result,
    nonoverlapping P T s occs /\
    result = splice T S (len P) 0 occs /\
    len result = len T - len occs * len P + len occs * len S /\
    cfun_string_replaceall P S T (Some s)
    = buffer_string [len T; len P; len S] result.
Proof.
  intros HP Hs. destruct (replacesetup_spec P S T s Hs) as (st & Hst & E).
  pose proof Hst as (Et & Ep & Etl & Epl & Htab).
  unfold cfun_string_replaceall. rewrite E. cbn [bind kmp].
  destruct (replaceall_loop_spec P S T st Hst HP
              {| kmp := set_cursor st s 0; subst := S; substlen := len S |}
              eq_refl eq_refl (Datatypes.S (length T)) s [] 0)
    as (occs & b' & last' & Hocc & Eloop & Hb & Hlen).
  - lia.
  - apply len_nonneg.
  - unfold len. lia.
  - exists occs, (splice T S (len P) 0 occs).
    split; [exact Hocc|]. split; [reflexivity|].
    split; [rewrite Hlen; lia|]. rewrite Eloop. cbn [bind].
    cbn [set_cursor text textlen patlen substlen]. rewrite Et, Etl, Epl, Hb.
    reflexivity.
Qed.

Lemma buffer_string_fits ops b :
  len b <= INT32_MAX -> buffer_string ops b = Ret (janet_wrap_string b).
Proof.
  intros H. unfold buffer_string. rewrite int32_overflow_fits; [reflexivity|].
  pose proof (len_nonneg b). unfold INT32_MIN. lia.
Qed.

Lemma buffer_string_operand ops b :
  In (len b) ops -> buffer_string ops b = Ret (janet_wrap_string b).
Proof.
  intros H. unfold buffer_string. now rewrite int32_overflow_operand.
Qed.

(** ** The empty pattern *)

Lemma findall_empty_zero_free T s :
  0 <= s -> (forall x, s <= x < len T -> rd T x <> 0) ->
  cfun_string_findall [] T (Some s) = Ret (janet_wrap_array []).
Proof.
  intros Hs Hz. destruct (findsetup_spec [] T s Hs) as (st & Hst & E).
  unfold cfun_string_findall. rewrite E. cbn [bind findall_loop].
  now rewrite (kmp_next_empty_zero_free T st s Hst Hs Hz).
Qed.

Lemma replace_empty_zero_free S T s :
  0 <= s -> (forall x, s <= x < len T -> rd T x <> 0) ->
  cfun_string_replace [] S T (Some s) = Ret (janet_wrap_string T).
Proof.
  intros Hs Hz. destruct (replacesetup_spec [] S T s Hs) as (st & Hst & E).
  pose proof Hst as (Et & _ & Etl & _).
  unfold cfun_string_replace. rewrite E. cbn [bind kmp].
  rewrite (kmp_next_empty_zero_free T st s Hst Hs Hz).
  cbn [bind fst Z.ltb Z.compare].
  cbn [set_cursor text textlen]. now rewrite Et, Etl, slice_all.
Qed.

Lemma replaceall_empty_zero_free S T s :
  0 <= s -> (forall x, s <= x < len T -> rd T x <> 0) ->
  cfun_string_replaceall [] S T (Some s) = Ret (janet_wrap_string T).
Proof.
  intros Hs Hz. destruct (replacesetup_spec [] S T s Hs) as (st & Hst & E).
  pose proof Hst as (Et & _ & Etl & Epl & _).
  unfold cfun_string_replaceall. rewrite E. cbn [bind kmp replaceall_loop].
  rewrite (kmp_next_empty_zero_free T st s Hst Hs Hz).
  cbn [bind Z.geb Z.compare].
  cbn [set_cursor text textlen patlen substlen app]. rewrite Et, Etl.
  replace (len T - 0) with (len T) by lia. rewrite slice_all.
  apply buffer_string_operand. now left.
Qed.

(** The non-overlapping occurrences from [s] are one list. *)
Lemma nonoverlapping_unique P T s l l' :
  nonoverlapping P T s l -> nonoverlapping P T s l' -> l = l'.
Proof.
  intros H. revert l'.
  induction H as [s Hn|s o rest Hleft Hrest IH]; intros l' H'.
  - inversion H' as [|s' o' rest' Hleft' Hrest']; subst; [reflexivity|].
    exfalso. destruct Hleft' as (H1 & H2 & _). exact (Hn o' H1 H2).
  - inversion H' as [s' Hn'|s' o' rest' Hleft' Hrest']; subst.
    + exfalso. destruct Hleft as (H1 & H2 & _). exact (Hn' o H1 H2).
    + pose proof (leftmost_from_unique _ _ _ _ _ Hleft Hleft') as <-.
      f_equal. now apply IH.
Qed.

(** C2 (as the code has it). For a non-empty pattern, [replace-all]
    replaces exactly the occurrences a left-to-right scan meets when it
    resumes just past the end of each hit with [j = 0] (the
    non-overlapping occurrences) and copies every other byte: the string
    so made has length [len T - n * len P + n * len S] for [n] such
    occurrences, and it is what [replace-all] returns when that length is
    at most [INT32_MAX];
    [replace_all("a", "X", "banana") = "bXnXnX"]. *)
Theorem replace_all_nonoverlapping :
  forall (P S T : list Z) (s : Z),
    P <> [] -> 0 <= s ->
    (exists occs result,
        nonoverlapping P T s occs
        /\ result = splice T S (len P) 0 occs
        /\ len result = len T - len occs * len P + len occs * len S
        /\ (len result <= INT32_MAX ->
            cfun_string_replaceall P S T (Some s)
            = Ret (janet_wrap_string result)))
    /\ (forall l l',
          nonoverlapping P T s l -> nonoverlapping P T s l' -> l = l')
    /\ (forall st c, i (kmp_seti st c) = c /\ j (kmp_seti st c) = 0)
    /\ cfun_string_replaceall (bytes_of_string "a") (bytes_of_string "X")
         (bytes_of_string "banana") None
       = Ret (janet_wrap_string (bytes_of_string "bXnXnX")).
Proof.
  intros P S T s HP Hs. split.
  { destruct (replace_all_nonempty P S T s HP Hs)
      as (occs & result & Hocc & Hr & Hlen & E).
    exists occs, result. repeat split; auto.
    intros Hfit. rewrite E. now apply buffer_string_fits. }
  split; [apply nonoverlapping_unique|].
  split; [intros st c; split; reflexivity|reflexivity].
Qed.

Lemma replace_all_nonoverlapping_witness :
  exists occs result,
    nonoverlapping [97; 97] [97; 97; 97; 97; 97] 0 occs
    /\ result = splice [97; 97; 97; 97; 97] [88] (len [97; 97]) 0 occs
    /\ len result
       = len [97; 97; 97; 97; 97] - len occs * len [97; 97]
         + len occs * len [88]
    /\ (len result <= INT32_MAX ->
        cfun_string_replaceall [97; 97] [88] [97; 97; 97; 97; 97] (Some 0)
        = Ret (janet_wrap_string result)).
Proof.
  refine (proj1 (replace_all_nonoverlapping [97; 97] [88] [97; 97; 97; 97; 97] 0 _ _)).
  - discriminate.
  - lia.
Defined.

(** C2 fails for the empty pattern: in the empty text it occurs at offset
    0, and [replace-all] returns the text unchanged.  Nothing was
    replaced, the length is not that of one or more replacements, and a
    scan that resumes at the end of each hit would never run out of
    occurrences, so no list of non-overlapping occurrences exists. *)
Lemma replace_all_empty_pattern_counterexample :
  occurs_at [] [] 0
  /\ cfun_string_replaceall [] [88] [] (Some 0) = Ret (janet_wrap_string [])
  /\ (forall n, 1 <= n -> len [] <> len [] - n * len [] + n * len [88])
  /\ ~ replace_all_claim [] [88] [] 0.
Proof.
  assert (occurs_at [] [] 0) as Ho
    by (unfold occurs_at; cbn; repeat split; lia).
  split; [exact Ho|]. split; [reflexivity|]. split.
  { intros n Hn. unfold len. cbn [length]. lia. }
  intros (occs & result & Hocc & _).
  assert (forall s l, nonoverlapping [] [] s l -> s = 0 -> False) as Hno.
  { induction 1 as [s Hn|s o rest Hleft Hrest IH]; intros ->.
    - exact (Hn 0 ltac:(lia) Ho).
    - apply IH. destruct Hleft as (H1 & (H2 & H3 & _) & _).
      unfold len in *. cbn [length] in *. lia. }
  exact (Hno 0 occs Hocc eq_refl).
Qed.

(** * Proofs: the pattern matcher *)

(** ** States *)

Lemma bind_ret_inv {A B} (m : outcome A) (k : A -> outcome B) b :
  bind m k = Ret b -> exists a, m = Ret a /\ k a = Ret b.
Proof. destruct m; cbn; try discriminate. eauto. Qed.

Lemma nth_upd_gen {A} (l : list A) k v x d :
  nth x (upd l k v) d =
    if Nat.eqb x k && Nat.ltb k (length l) then v else nth x l d.
Proof.
  revert k x; induction l as [|h t IH]; intros k x.
  - cbn [upd length]. replace (Nat.ltb k 0) with false
      by (symmetry; apply Nat.ltb_ge; lia).
    rewrite andb_false_r. reflexivity.
  - destruct k as [|k], x as [|x]; cbn [upd nth length Nat.eqb]; try reflexivity.
    rewrite IH. reflexivity.
Qed.

Lemma get_set_capture_other ms l c x :
  0 <= l -> 0 <= x -> x <> l ->
  get_capture (set_capture ms l c) x = get_capture ms x.
Proof.
  intros Hl Hx Hne. unfold get_capture, set_capture. cbn [capture].
  rewrite nth_upd_gen.
  destruct (Nat.eqb_spec (Z.to_nat x) (Z.to_nat l)); [lia|reflexivity].
Qed.

Lemma get_set_capture_same ms l c :
  get_capture (set_capture ms l c) l = c \/
  get_capture (set_capture ms l c) l = get_capture ms l.
Proof.
  unfold get_capture, set_capture. cbn [capture]. rewrite nth_upd_gen.
  destruct (_ && _); auto.
Qed.

Lemma same_frame_refl ms : same_frame ms ms.
Proof. unfold same_frame; auto. Qed.

Lemma same_frame_trans a b c :
  same_frame a b -> same_frame b c -> same_frame a c.
Proof. unfold same_frame. intuition congruence. Qed.

Lemma same_captures_refl ms : same_captures ms ms.
Proof. unfold same_captures; auto. Qed.

Lemma same_captures_trans a b c :
  same_captures a b -> same_captures b c -> same_captures a c.
Proof.
  intros [H1 H2] [H3 H4]. split; [congruence|].
  intros l Hl. rewrite H4 by lia. now apply H2.
Qed.

Lemma in_budget_same ms ms' n :
  same_frame ms ms' -> same_captures ms ms' -> in_budget ms n -> in_budget ms' n.
Proof.
  intros (_ & _ & _ & Hd & _) [Hl _] (H1 & H2 & H3). unfold in_budget.
  rewrite Hd, Hl. auto.
Qed.

Lemma in_budget_weaken ms n m : in_budget ms n -> n <= m -> in_budget ms m.
Proof. unfold in_budget. intuition lia. Qed.

Lemma capture_to_close_loop_spec subject_caps :
  forall n l,
    capture_to_close_loop subject_caps n = Ret l ->
    0 <= l < Z.of_nat n /\ clen (get_capture subject_caps l) = CAP_UNFINISHED.
Proof.
  induction n as [|n IH]; intros l H; [discriminate|].
  cbn [capture_to_close_loop] in H.
  destruct (Z.eqb_spec (clen (get_capture subject_caps (Z.of_nat n))) CAP_UNFINISHED)
    as [E|E].
  - injection H as <-. split; [lia|exact E].
  - apply IH in H. destruct H. split; [lia|assumption].
Qed.

Lemma capture_to_close_spec ms l :
  capture_to_close ms = Ret l ->
  0 <= l < level ms /\ clen (get_capture ms l) = CAP_UNFINISHED.
Proof.
  unfold capture_to_close. intros H.
  apply capture_to_close_loop_spec in H. destruct H. split; [lia|assumption].
Qed.

Lemma get_capture_set_level ms l x :
  get_capture (set_level ms l) x = get_capture ms x.
Proof. reflexivity. Qed.

Lemma get_capture_set_matchdepth ms d x :
  get_capture (set_matchdepth ms d) x = get_capture ms x.
Proof. reflexivity. Qed.

Lemma get_set_capture_eq ms l c :
  get_capture (set_capture ms l c) l =
    if Nat.ltb (Z.to_nat l) (length (capture ms)) then c else get_capture ms l.
Proof.
  unfold get_capture, set_capture. cbn [capture]. rewrite nth_upd_gen.
  now rewrite Nat.eqb_refl.
Qed.

Lemma same_frame_set_capture ms l c : same_frame ms (set_capture ms l c).
Proof.
  unfold same_frame. cbn [set_capture src_init src_end p_end matchdepth capture].
  rewrite length_upd. auto.
Qed.

Lemma same_frame_set_level ms l : same_frame ms (set_level ms l).
Proof. unfold same_frame. cbn. auto. Qed.

Lemma capture_eta (c : capture_t) : {| init := init c; clen := clen c |} = c.
Proof. destruct c; reflexivity. Qed.

(** ** What a call leaves behind *)

Section Post.
Variables subject pattern : list Z.
Variable rec : MatchState -> Z -> Z -> outcome match_result.
Hypothesis Hrec : match_post rec.

Lemma start_capture_post ms s p what res ms' :
  start_capture rec ms s p what = Ret (res, ms') ->
  same_frame ms ms' /\
  (in_budget ms 254 -> res = None -> same_captures ms ms').
Proof.
  unfold start_capture. destruct (level ms >=? MAXCAPTURES); [discriminate|].
  intros H. apply bind_ret_inv in H. destruct H as ([r ms2] & E & H).
  apply Hrec in E. destruct E as [Hf Hc].
  assert (same_frame ms ms2) as Hf'.
  { eapply same_frame_trans; [|exact Hf].
    eapply same_frame_trans; [apply same_frame_set_capture|].
    apply same_frame_set_level. }
  destruct r as [e|]; injection H as <- <-.
  - split; [exact Hf'|discriminate].
  - split; [eapply same_frame_trans; [exact Hf'|apply same_frame_set_level]|].
    intros (H1 & H2 & H3) _.
    destruct Hc as [Hl Hc]; [|reflexivity|].
    { unfold in_budget. cbn [set_level set_capture level matchdepth].
      rewrite Z.mod_small by lia. lia. }
    cbn [set_level set_capture level] in Hl, Hc.
    rewrite Z.mod_small in Hl, Hc by lia.
    split.
    + cbn [set_level level]. rewrite Hl.
      replace (level ms + 1 - 1) with (level ms) by lia.
      apply Z.mod_small. lia.
    + intros l Hl'. rewrite get_capture_set_level, Hc by lia.
      rewrite get_capture_set_level. apply get_set_capture_other; lia.
Qed.

Lemma end_capture_post ms s p res ms' :
  end_capture rec ms s p = Ret (res, ms') ->
  same_frame ms ms' /\
  (in_budget ms 255 -> res = None -> same_captures ms ms').
Proof.
  unfold end_capture. intros H.
  apply bind_ret_inv in H. destruct H as (l & El & H).
  apply capture_to_close_spec in El. destruct El as [Hl Hu].
  apply bind_ret_inv in H. destruct H as ([r ms2] & E & H).
  apply Hrec in E. destruct E as [Hf Hc].
  assert (same_frame ms ms2) as Hf'.
  { eapply same_frame_trans; [apply same_frame_set_capture|exact Hf]. }
  destruct r as [e|]; injection H as <- <-.
  - split; [exact Hf'|discriminate].
  - split; [eapply same_frame_trans; [exact Hf'|apply same_frame_set_capture]|].
    intros Hb _.
    destruct Hc as [Hlv Hc]; [exact Hb|reflexivity|].
    cbn [set_capture level] in Hlv, Hc.
    split; [exact Hlv|].
    intros x Hx. destruct (Z.eq_dec x l) as [->|Hne].
    + pose proof (Hc l Hl) as Hcl.
      rewrite get_set_capture_eq in Hcl |- *.
      destruct Hf' as (_ & _ & _ & _ & Hlen). rewrite Hlen.
      destruct (Nat.ltb (Z.to_nat l) (length (capture ms))).
      * rewrite Hcl. cbn [init]. rewrite <- Hu. apply capture_eta.
      * exact Hcl.
    + rewrite get_set_capture_other by lia.
      rewrite Hc by lia. now rewrite get_set_capture_other by lia.
Qed.

Lemma post_compose ms ms2 ms' (res : option Z) n :
  same_frame ms ms2 ->
  (in_budget ms n -> same_captures ms ms2) ->
  same_frame ms2 ms' /\ (in_budget ms2 n -> res = None -> same_captures ms2 ms') ->
  same_frame ms ms' /\ (in_budget ms n -> res = None -> same_captures ms ms').
Proof.
  intros Hf Hc [Hf' Hc']. split; [eapply same_frame_trans; eauto|].
  intros Hb Hn. specialize (Hc Hb).
  eapply same_captures_trans; [exact Hc|].
  apply Hc'; [|exact Hn]. eapply in_budget_same; eauto.
Qed.

Lemma max_expand_try_post :
  forall n ms s ep res ms',
    max_expand_try rec n ms s ep = Ret (res, ms') ->
    same_frame ms ms' /\
    (in_budget ms 255 -> res = None -> same_captures ms ms').
Proof.
  induction n as [|n IH]; intros ms s ep res ms' H; cbn [max_expand_try] in H.
  - injection H as <- <-. split; [apply same_frame_refl|].
    intros; apply same_captures_refl.
  - apply bind_ret_inv in H. destruct H as ([[e|] ms2] & E & H).
    + injection H as <- <-. apply Hrec in E. destruct E as [Hf _].
      split; [exact Hf|discriminate].
    + apply Hrec in E. destruct E as [Hf Hc].
      eapply post_compose; [exact Hf|auto|]. eapply IH; eauto.
Qed.

Lemma max_expand_post ms s p ep res ms' :
  max_expand subject pattern rec ms s p ep = Ret (res, ms') ->
  same_frame ms ms' /\
  (in_budget ms 255 -> res = None -> same_captures ms ms').
Proof.
  unfold max_expand. intros H.
  apply bind_ret_inv in H. destruct H as (i & _ & H).
  eapply max_expand_try_post; eauto.
Qed.

Lemma min_expand_loop_post :
  forall fuel ms s p ep res ms',
    min_expand_loop subject pattern rec fuel ms s p ep = Ret (res, ms') ->
    same_frame ms ms' /\
    (in_budget ms 255 -> res = None -> same_captures ms ms').
Proof.
  induction fuel as [|fuel IH]; intros ms s p ep res ms' H;
    cbn [min_expand_loop] in H; [discriminate|].
  apply bind_ret_inv in H. destruct H as ([[e|] ms2] & E & H).
  - injection H as <- <-. apply Hrec in E. destruct E as [Hf _].
    split; [exact Hf|discriminate].
  - apply Hrec in E. destruct E as [Hf Hc].
    apply bind_ret_inv in H. destruct H as (m & _ & H).
    destruct m.
    + eapply post_compose; [exact Hf|auto|]. eapply IH; eauto.
    + injection H as <- <-. split; [exact Hf|auto].
Qed.

Lemma min_expand_post ms s p ep res ms' :
  min_expand subject pattern rec ms s p ep = Ret (res, ms') ->
  same_frame ms ms' /\
  (in_budget ms 255 -> res = None -> same_captures ms ms').
Proof. unfold min_expand. apply min_expand_loop_post. Qed.

Lemma post_weaken ms ms' (res : option Z) :
  same_frame ms ms' /\ (in_budget ms 255 -> res = None -> same_captures ms ms') ->
  same_frame ms ms' /\ (in_budget ms 254 -> res = None -> same_captures ms ms').
Proof.
  intros [Hf Hc]. split; [exact Hf|]. intros Hb. apply Hc.
  eapply in_budget_weaken; eauto. lia.
Qed.

Lemma post_refl ms (res : option Z) n :
  same_frame ms ms /\ (in_budget ms n -> res = None -> same_captures ms ms).
Proof.
  split; [apply same_frame_refl|]. intros; apply same_captures_refl.
Qed.

Ltac step H :=
  match type of H with
  | (if ?b then _ else _) = Ret _ => destruct b eqn:?
  | bind ?m _ = Ret _ =>
      let E := fresh "E" in
      destruct m eqn:E; cbn [bind] in H; [|discriminate H..]
  | match ?x with Some _ => _ | None => _ end = Ret _ => destruct x eqn:?
  | match ?x with (_, _) => _ end = Ret _ => destruct x eqn:?
  | Panic _ = Ret _ => discriminate H
  end.

Lemma match_body_post :
  forall fuel ms s p res ms',
    match_body subject pattern rec fuel ms s p = Ret (res, ms') ->
    same_frame ms ms' /\
    (in_budget ms 254 -> res = None -> same_captures ms ms').
Proof.
  induction fuel as [|fuel IH]; intros ms s p res ms' H;
    cbn [match_body] in H; [discriminate|].
  repeat step H;
    try (injection H as <- <-; apply post_refl);
    try (eapply IH; eassumption);
    try (eapply start_capture_post; eassumption);
    try (apply post_weaken; eapply end_capture_post; eassumption);
    try (apply post_weaken; eapply max_expand_post; eassumption);
    try (apply post_weaken; eapply min_expand_post; eassumption).
  - injection H as <- <-. match goal with E : rec _ _ _ = _ |- _ =>
      apply Hrec in E; destruct E as [Hf _] end.
    split; [exact Hf|discriminate].
  - match goal with E : rec _ _ _ = _ |- _ =>
      apply Hrec in E; destruct E as [Hf Hc] end.
    eapply post_compose; [exact Hf| |eapply IH; eassumption].
    intros Hb. apply Hc; [|reflexivity]. eapply in_budget_weaken; eauto. lia.
Qed.
End Post.

Section MatchPost.
Variables subject pattern : list Z.

Lemma match_post_match_ : forall d, match_post (match_ subject pattern d).
Proof.
  induction d as [|d IH]; intros ms s p res ms' H; cbn [match_] in H;
    [discriminate|].
  destruct (Z.eqb_spec (matchdepth ms) 0) as [E0|E0]; [discriminate|].
  apply bind_ret_inv in H. destruct H as ([r ms2] & E & H).
  injection H as <- <-.
  apply (match_body_post subject pattern _ IH) in E. destruct E as [Hf Hc].
  destruct Hf as (F1 & F2 & F3 & F4 & F5).
  cbn [set_matchdepth src_init src_end p_end matchdepth capture] in *.
  split.
  - unfold same_frame.
    cbn [set_matchdepth src_init src_end p_end matchdepth capture].
    repeat split; try assumption. lia.
  - intros (H1 & H2 & H3) Hn. destruct Hc as [Hl Hc']; [|exact Hn|].
    + unfold in_budget. cbn [set_matchdepth level matchdepth]. lia.
    + split; [exact Hl|exact Hc'].
Qed.
End MatchPost.

(** ** No call raises "matchdepth error" but [reprepstate] *)

Lemma nde_bind {A B} (m : outcome A) (k : A -> outcome B) :
  no_depth_error m -> (forall a, no_depth_error (k a)) ->
  no_depth_error (bind m k).
Proof.
  unfold no_depth_error. destruct m; cbn [bind]; auto; congruence.
Qed.

Lemma nde_ret {A} (a : A) : no_depth_error (Ret a).
Proof. discriminate. Qed.

Ltac nde_step :=
  match goal with
  | |- no_depth_error (Ret _) => apply nde_ret
  | |- no_depth_error (Panic _) => discriminate
  | |- no_depth_error OutOfFuel => discriminate
  | |- no_depth_error Fault => discriminate
  | |- no_depth_error (bind _ _) => apply nde_bind; [|intros]
  | |- no_depth_error (if ?b then _ else _) => destruct b
  | |- no_depth_error (match ?x with Some _ => _ | None => _ end) => destruct x
  | |- no_depth_error (match ?x with (_, _) => _ end) => destruct x
  | |- no_depth_error (let (_, _) := ?x in _) => destruct x
  | H : forall _, _ |- _ => solve [apply H]
  end.

Section NoDepthError.
Variables subject pattern : list Z.

Lemma nde_check_capture ms l : no_depth_error (check_capture ms l).
Proof. unfold check_capture. repeat nde_step. Qed.

Lemma nde_capture_to_close ms : no_depth_error (capture_to_close ms).
Proof.
  unfold capture_to_close. induction (Z.to_nat (level ms)) as [|n IH];
    cbn [capture_to_close_loop]; repeat nde_step; try exact IH.
Qed.

Lemma nde_classend ms p : no_depth_error (classend pattern ms p).
Proof.
  assert (forall fuel q, no_depth_error (classend_loop pattern fuel ms q)) as Hl.
  { induction fuel as [|fuel IH]; intros q; cbn [classend_loop];
      repeat nde_step. }
  unfold classend. repeat nde_step.
Qed.

Lemma nde_matchbracketclass c p ec :
  no_depth_error (matchbracketclass pattern c p ec).
Proof.
  assert (forall fuel q sig,
             no_depth_error (matchbracketclass_loop pattern fuel c q ec sig)) as Hl.
  { induction fuel as [|fuel IH]; intros q sig; cbn [matchbracketclass_loop];
      repeat nde_step. }
  unfold matchbracketclass. destruct (_ =? _); apply Hl.
Qed.

Lemma nde_singlematch ms s p ep :
  no_depth_error (singlematch subject pattern ms s p ep).
Proof.
  unfold singlematch. repeat nde_step. apply nde_matchbracketclass.
Qed.

Lemma nde_matchbalance ms s p :
  no_depth_error (matchbalance subject pattern ms s p).
Proof.
  assert (forall fuel q b e cont,
             no_depth_error (matchbalance_loop subject fuel ms q b e cont)) as Hl.
  { induction fuel as [|fuel IH]; intros q b e cont; cbn [matchbalance_loop];
      repeat nde_step. }
  unfold matchbalance. repeat nde_step.
Qed.

Lemma nde_match_capture ms s l :
  no_depth_error (match_capture subject ms s l).
Proof.
  unfold match_capture. apply nde_bind; [apply nde_check_capture|intros].
  repeat nde_step.
Qed.

Section NoDepthErrorOpen.
Variable rec : MatchState -> Z -> Z -> outcome match_result.
Hypothesis Hrec : forall ms s p, no_depth_error (rec ms s p).

Lemma nde_max_expand ms s p ep :
  no_depth_error (max_expand subject pattern rec ms s p ep).
Proof.
  unfold max_expand. apply nde_bind.
  - assert (forall n i, no_depth_error
              (max_expand_count subject pattern n ms s p ep i)) as Hl;
      [|apply Hl].
    induction n as [|n IH]; intros i; cbn [max_expand_count];
      [discriminate|].
    apply nde_bind; [apply nde_singlematch|intros [|]]; [apply IH|apply nde_ret].
  - intros i. generalize (Z.to_nat (i + 1)). intros n. revert ms.
    induction n as [|n IH]; intros ms; cbn [max_expand_try];
      repeat nde_step.
Qed.

Lemma nde_min_expand ms s p ep :
  no_depth_error (min_expand subject pattern rec ms s p ep).
Proof.
  unfold min_expand. generalize (S (S (Z.to_nat (src_end ms - s)))).
  intros n. revert ms s. induction n as [|n IH]; intros ms s;
    cbn [min_expand_loop]; [discriminate|].
  apply nde_bind; [apply Hrec|]. intros [[e|] ms2]; [apply nde_ret|].
  apply nde_bind; [apply nde_singlematch|]. intros [|];
    [apply IH|apply nde_ret].
Qed.

Lemma nde_start_capture ms s p what :
  no_depth_error (start_capture rec ms s p what).
Proof. unfold start_capture. repeat nde_step. Qed.

Lemma nde_end_capture ms s p :
  no_depth_error (end_capture rec ms s p).
Proof.
  unfold end_capture. apply nde_bind; [apply nde_capture_to_close|intros].
  repeat nde_step.
Qed.

Lemma nde_match_body :
  forall fuel ms s p,
    no_depth_error (match_body subject pattern rec fuel ms s p).
Proof.
  induction fuel as [|fuel IH]; intros ms s p; cbn [match_body];
    [discriminate|].
  repeat first
    [ apply nde_start_capture | apply nde_end_capture
    | apply nde_max_expand | apply nde_min_expand
    | apply nde_matchbalance | apply nde_match_capture
    | apply nde_classend | apply nde_singlematch
    | apply nde_matchbracketclass | apply IH | apply Hrec
    | nde_step ].
Qed.
End NoDepthErrorOpen.

Lemma nde_match_ : forall d ms s p, no_depth_error (match_ subject pattern d ms s p).
Proof.
  induction d as [|d IH]; intros ms s p; cbn [match_]; [discriminate|].
  destruct (_ =? _); [discriminate|].
  apply nde_bind; [apply nde_match_body; exact IH|].
  intros [r ms2]. apply nde_ret.
Qed.

Lemma nde_push_captures ms s e captures :
  no_depth_error (push_captures subject ms s e captures).
Proof.
  unfold push_captures.
  assert (forall n i captures, no_depth_error
            (push_captures_loop subject n ms i s e captures)) as Hl;
    [|apply Hl].
  induction n as [|n IH]; intros i captures';
    cbn [push_captures_loop]; [apply nde_ret|].
  apply nde_bind; [|intros; apply IH].
  unfold push_onecapture. repeat nde_step.
Qed.

Lemma nde_str_match_loop :
  forall fuel ms s1 p anchor,
    matchdepth ms = MAXCCALLS ->
    no_depth_error (str_match_loop subject pattern fuel ms s1 p anchor).
Proof.
  induction fuel as [|fuel IH]; intros ms s1 p anchor Hd;
    cbn [str_match_loop]; [discriminate|].
  unfold reprepstate. cbn [set_level matchdepth]. rewrite Hd, Z.eqb_refl.
  cbn [negb bind].
  destruct (match_ subject pattern _ _ s1 p) as [[r ms2]| | |] eqn:E;
    cbn [bind]; try discriminate.
  - apply match_post_match_ in E. destruct E as [(_ & _ & _ & Hm & _) _].
    cbn [set_level matchdepth] in Hm.
    destruct r as [e|].
    + apply nde_bind; [apply nde_push_captures|intros; apply nde_ret].
    + destruct (_ && _); [|apply nde_ret]. apply IH. congruence.
  - pose proof (nde_match_ (S (Z.to_nat MAXCCALLS))
                  (set_level ms 0) s1 p) as Hn.
    unfold no_depth_error in *. cbn [set_level] in *. congruence.
Qed.
End NoDepthError.

Lemma cfun_str_match_no_depth_error subject pattern start :
  cfun_str_match subject pattern start <> Panic matchdepth_error.
Proof.
  unfold cfun_str_match. destruct (_ >? _); [discriminate|].
  apply nde_str_match_loop. reflexivity.
Qed.

(** ** The frontier assertion *)

Lemma matchbracketclass_loop_total pattern c ec :
  forall fuel p sig,
    (Z.to_nat (ec - p) < fuel)%nat ->
    exists b, matchbracketclass_loop pattern fuel c p ec sig = Ret b.
Proof.
  induction fuel as [|fuel IH]; intros p sig Hf; [lia|].
  cbn [matchbracketclass_loop].
  destruct (Z.ltb_spec (p + 1) ec); [|eauto].
  destruct (_ =? CHAR_ESC).
  - destruct (match_class _ _); [eauto|]. apply IH. lia.
  - destruct (_ && _).
    + destruct (_ && _); [eauto|]. apply IH. lia.
    + destruct (_ =? c); [eauto|]. apply IH. lia.
Qed.

Lemma matchbracketclass_total pattern c p ec :
  exists b, matchbracketclass pattern c p ec = Ret b.
Proof.
  unfold matchbracketclass. destruct (_ =? _);
    apply matchbracketclass_loop_total; lia.
Qed.

Lemma classend_frame pattern ms ms' p :
  p_end ms' = p_end ms -> classend pattern ms' p = classend pattern ms p.
Proof.
  intros E.
  assert (forall fuel q, classend_loop pattern fuel ms' q
                         = classend_loop pattern fuel ms q) as Hl.
  { induction fuel as [|fuel IH]; intros q; cbn [classend_loop];
      [reflexivity|]. rewrite E, IH. reflexivity. }
  unfold classend. rewrite E, Hl. reflexivity.
Qed.

(** ** Entries of [capture] at or above [level] are never read *)

Lemma state_equiv_refl ms : state_equiv ms ms.
Proof. split; [apply same_frame_refl|apply same_captures_refl]. Qed.

Lemma result_equiv_ret r m1 m2 :
  state_equiv m1 m2 -> result_equiv (Ret (r, m1)) (Ret (r, m2)).
Proof. intros H. split; [reflexivity|exact H]. Qed.

Section Indep.
Variables subject pattern : list Z.
Variables ms1 ms2 : MatchState.
Hypothesis Heq : state_equiv ms1 ms2.

Lemma equiv_src_init : src_init ms2 = src_init ms1.
Proof. apply Heq. Qed.
Lemma equiv_src_end : src_end ms2 = src_end ms1.
Proof. apply Heq. Qed.
Lemma equiv_p_end : p_end ms2 = p_end ms1.
Proof. apply Heq. Qed.
Lemma equiv_matchdepth : matchdepth ms2 = matchdepth ms1.
Proof. apply Heq. Qed.
Lemma equiv_level : level ms2 = level ms1.
Proof. apply Heq. Qed.
Lemma equiv_length : length (capture ms2) = length (capture ms1).
Proof. apply Heq. Qed.
Lemma equiv_get l : 0 <= l < level ms1 -> get_capture ms2 l = get_capture ms1 l.
Proof. apply Heq. Qed.

Lemma classend_equiv p : classend pattern ms2 p = classend pattern ms1 p.
Proof. apply classend_frame, equiv_p_end. Qed.

Lemma singlematch_equiv s p ep :
  singlematch subject pattern ms2 s p ep = singlematch subject pattern ms1 s p ep.
Proof. unfold singlematch. now rewrite equiv_src_end. Qed.

Lemma matchbalance_equiv s p :
  matchbalance subject pattern ms2 s p = matchbalance subject pattern ms1 s p.
Proof.
  assert (forall fuel q b e cont,
             matchbalance_loop subject fuel ms2 q b e cont
             = matchbalance_loop subject fuel ms1 q b e cont) as Hl.
  { induction fuel as [|fuel IH]; intros q b e cont; cbn [matchbalance_loop];
      [reflexivity|]. rewrite equiv_src_end, !IH. reflexivity. }
  unfold matchbalance. rewrite equiv_p_end, equiv_src_end, Hl. reflexivity.
Qed.

Lemma check_capture_equiv l : check_capture ms2 l = check_capture ms1 l.
Proof.
  unfold check_capture. rewrite equiv_level.
  destruct (Z.ltb_spec (l - ch "1") 0); [reflexivity|].
  destruct (Z.geb_spec (l - ch "1") (level ms1)); [reflexivity|].
  rewrite equiv_get by lia. reflexivity.
Qed.

Lemma capture_to_close_equiv : capture_to_close ms2 = capture_to_close ms1.
Proof.
  unfold capture_to_close. rewrite equiv_level.
  assert (forall n, Z.of_nat n <= level ms1 ->
                    capture_to_close_loop ms2 n = capture_to_close_loop ms1 n)
    as Hl.
  { induction n as [|n IH]; intros Hn; cbn [capture_to_close_loop];
      [reflexivity|]. rewrite equiv_get, IH by lia. reflexivity. }
  destruct (Z.to_nat (level ms1)) eqn:En; [reflexivity|].
  apply Hl. lia.
Qed.

Lemma match_capture_equiv s l :
  match_capture subject ms2 s l = match_capture subject ms1 s l.
Proof.
  unfold match_capture. rewrite check_capture_equiv.
  destruct (check_capture ms1 l) as [l'| | |] eqn:E; try reflexivity.
  cbn [bind]. unfold check_capture in E.
  destruct (Z.ltb_spec (l - ch "1") 0); [discriminate|].
  destruct (Z.geb_spec (l - ch "1") (level ms1)); [discriminate|].
  cbn [orb] in E. destruct (_ =? _); [discriminate|]. injection E as <-.
  rewrite equiv_get, equiv_src_end by lia. reflexivity.
Qed.

Lemma max_expand_count_equiv fuel s p ep i :
  max_expand_count subject pattern fuel ms2 s p ep i
  = max_expand_count subject pattern fuel ms1 s p ep i.
Proof.
  revert i. induction fuel as [|fuel IH]; intros i; cbn [max_expand_count];
    [reflexivity|]. rewrite singlematch_equiv, !IH. reflexivity.
Qed.

Lemma state_equiv_set_capture l c :
  0 <= l -> state_equiv (set_capture ms1 l c) (set_capture ms2 l c).
Proof.
  intros Hl. destruct Heq as [(F1 & F2 & F3 & F4 & F5) [L1 L2]].
  split.
  - unfold same_frame.
    cbn [set_capture src_init src_end p_end matchdepth capture].
    rewrite !length_upd. auto.
  - split; [exact L1|]. cbn [set_capture level]. intros x Hx.
    destruct (Z.eq_dec x l) as [->|Hne].
    + rewrite !get_set_capture_eq, F5, L2 by lia. reflexivity.
    + rewrite !get_set_capture_other by lia. now apply L2.
Qed.

Lemma state_equiv_push s what :
  0 <= level ms1 ->
  state_equiv
    (set_level (set_capture ms1 (level ms1) {| init := s; clen := what |})
       (level ms1 + 1))
    (set_level (set_capture ms2 (level ms2) {| init := s; clen := what |})
       (level ms2 + 1)).
Proof.
  intros Hl. destruct Heq as [(F1 & F2 & F3 & F4 & F5) [L1 L2]].
  rewrite L1. split.
  - unfold same_frame.
    cbn [set_level set_capture src_init src_end p_end matchdepth capture].
    rewrite !length_upd. auto.
  - split; [reflexivity|]. cbn [set_level set_capture level]. intros x Hx.
    pose proof (Z.mod_le (level ms1 + 1) 256 ltac:(lia) ltac:(lia)) as Hm.
    rewrite !get_capture_set_level.
    destruct (Z.eq_dec x (level ms1)) as [->|Hne].
    + rewrite !get_set_capture_eq, F5.
      destruct (Nat.ltb_spec (Z.to_nat (level ms1)) (length (capture ms1)));
        [reflexivity|].
      unfold get_capture. rewrite !nth_overflow by lia. reflexivity.
    + rewrite !get_set_capture_other by lia. apply L2. lia.
Qed.
End Indep.

Lemma result_equiv_bind (o1 o2 : outcome match_result)
    (k1 k2 : match_result -> outcome match_result) :
  result_equiv o1 o2 ->
  (forall r m1 m2,
      o1 = Ret (r, m1) -> o2 = Ret (r, m2) -> state_equiv m1 m2 ->
      result_equiv (k1 (r, m1)) (k2 (r, m2))) ->
  result_equiv (bind o1 k1) (bind o2 k2).
Proof.
  intros H Hk.
  destruct o1 as [[r1 m1]| | |], o2 as [[r2 m2]| | |]; cbn in H |- *;
    try contradiction; try assumption.
  destruct H as [-> H]. now apply Hk.
Qed.

Lemma state_equiv_set_matchdepth ms1 ms2 d1 d2 :
  state_equiv ms1 ms2 -> d1 = d2 ->
  state_equiv (set_matchdepth ms1 d1) (set_matchdepth ms2 d2).
Proof.
  intros [(F1 & F2 & F3 & F4 & F5) [L1 L2]] ->. split.
  - unfold same_frame. cbn. auto.
  - split; [exact L1|exact L2].
Qed.

Section IndepOpen.
Variables subject pattern : list Z.
Variable rec : MatchState -> Z -> Z -> outcome match_result.
Hypothesis Hpost : match_post rec.
Hypothesis Hindep : match_indep rec.

Lemma start_capture_indep ms1 ms2 s p what :
  state_equiv ms1 ms2 -> in_budget ms1 254 ->
  result_equiv (start_capture rec ms1 s p what)
               (start_capture rec ms2 s p what).
Proof.
  intros Heq (B1 & B2 & B3). unfold start_capture.
  rewrite (equiv_level ms1 ms2 Heq) at 1.
  destruct (level ms1 >=? MAXCAPTURES); [reflexivity|].
  pose proof (state_equiv_push ms1 ms2 Heq s what B1) as Hpush.
  apply result_equiv_bind.
  - apply Hindep; [exact Hpush|].
    unfold in_budget. cbn [set_level set_capture level matchdepth].
    rewrite Z.mod_small by lia. lia.
  - intros r m1 m2 E1 E2 Hm. destruct r as [e|];
      [now apply result_equiv_ret|].
    apply result_equiv_ret.
    apply Hpost in E1. destruct E1 as [_ E1].
    destruct E1 as [Hl _]; [|reflexivity|].
    { unfold in_budget. cbn [set_level set_capture level matchdepth].
      rewrite Z.mod_small by lia. lia. }
    cbn [set_level set_capture level] in Hl.
    rewrite Z.mod_small in Hl by lia.
    destruct Hm as [(F1 & F2 & F3 & F4 & F5) [L1 L2]]. split.
    + unfold same_frame. cbn. auto.
    + cbn [set_level level]. rewrite L1. split; [reflexivity|].
      intros x Hx. rewrite !get_capture_set_level. apply L2.
      cbn [set_level level] in Hx. rewrite Hl in Hx.
      replace (level ms1 + 1 - 1) with (level ms1) in Hx by lia.
      rewrite Z.mod_small in Hx by lia. lia.
Qed.

Lemma end_capture_indep ms1 ms2 s p :
  state_equiv ms1 ms2 -> in_budget ms1 255 ->
  result_equiv (end_capture rec ms1 s p) (end_capture rec ms2 s p).
Proof.
  intros Heq Hb. unfold end_capture.
  rewrite (capture_to_close_equiv ms1 ms2 Heq).
  destruct (capture_to_close ms1) as [l| | |] eqn:El; cbn [bind];
    try reflexivity.
  apply capture_to_close_spec in El. destruct El as [Hl Hu].
  rewrite (equiv_get ms1 ms2 Heq l Hl).
  apply result_equiv_bind.
  - apply Hindep; [apply state_equiv_set_capture; [exact Heq|lia]|].
    exact Hb.
  - intros r m1 m2 E1 E2 Hm. destruct r as [e|];
      [now apply result_equiv_ret|].
    apply result_equiv_ret.
    apply Hpost in E1. destruct E1 as [_ E1].
    destruct E1 as [Hlv _]; [exact Hb|reflexivity|].
    cbn [set_capture level] in Hlv.
    rewrite (equiv_get m1 m2 Hm l) by lia.
    apply state_equiv_set_capture; [exact Hm|lia].
Qed.

Lemma max_expand_try_indep :
  forall n ms1 ms2 s ep,
    state_equiv ms1 ms2 -> in_budget ms1 255 ->
    result_equiv (max_expand_try rec n ms1 s ep)
                 (max_expand_try rec n ms2 s ep).
Proof.
  induction n as [|n IH]; intros ms1 ms2 s ep Heq Hb; cbn [max_expand_try].
  - now apply result_equiv_ret.
  - apply result_equiv_bind; [now apply Hindep|].
    intros r m1 m2 E1 E2 Hm. destruct r as [e|];
      [now apply result_equiv_ret|].
    apply IH; [exact Hm|].
    apply Hpost in E1. destruct E1 as [Hf Hc].
    eapply in_budget_same; eauto.
Qed.

Lemma max_expand_indep ms1 ms2 s p ep :
  state_equiv ms1 ms2 -> in_budget ms1 255 ->
  result_equiv (max_expand subject pattern rec ms1 s p ep)
               (max_expand subject pattern rec ms2 s p ep).
Proof.
  intros Heq Hb. unfold max_expand.
  rewrite (equiv_src_end ms1 ms2 Heq),
    (max_expand_count_equiv subject pattern ms1 ms2 Heq).
  destruct (max_expand_count _ _ _ ms1 _ _ _ _) as [i| | |]; cbn [bind];
    try reflexivity.
  now apply max_expand_try_indep.
Qed.

Lemma min_expand_loop_indep :
  forall fuel ms1 ms2 s p ep,
    state_equiv ms1 ms2 -> in_budget ms1 255 ->
    result_equiv (min_expand_loop subject pattern rec fuel ms1 s p ep)
                 (min_expand_loop subject pattern rec fuel ms2 s p ep).
Proof.
  induction fuel as [|fuel IH]; intros ms1 ms2 s p ep Heq Hb;
    cbn [min_expand_loop]; [exact I|].
  apply result_equiv_bind; [now apply Hindep|].
  intros r m1 m2 E1 E2 Hm. destruct r as [e|];
    [now apply result_equiv_ret|].
  rewrite (singlematch_equiv subject pattern m1 m2 Hm).
  destruct (singlematch _ _ m1 _ _ _) as [[|]| | |]; cbn [bind];
    try reflexivity.
  - apply IH; [exact Hm|].
    apply Hpost in E1. destruct E1 as [Hf Hc].
    eapply in_budget_same; eauto.
  - now apply result_equiv_ret.
Qed.

Lemma min_expand_indep ms1 ms2 s p ep :
  state_equiv ms1 ms2 -> in_budget ms1 255 ->
  result_equiv (min_expand subject pattern rec ms1 s p ep)
               (min_expand subject pattern rec ms2 s p ep).
Proof.
  intros Heq Hb. unfold min_expand. rewrite (equiv_src_end ms1 ms2 Heq).
  now apply min_expand_loop_indep.
Qed.

Lemma match_body_indep :
  forall fuel ms1 ms2 s p,
    state_equiv ms1 ms2 -> in_budget ms1 254 ->
    result_equiv (match_body subject pattern rec fuel ms1 s p)
                 (match_body subject pattern rec fuel ms2 s p).
Proof.
  induction fuel as [|fuel IH]; intros ms1 ms2 s p Heq Hb;
    cbn [match_body]; [exact I|].
  assert (in_budget ms1 255) as Hb' by (eapply in_budget_weaken; eauto; lia).
  rewrite (equiv_p_end ms1 ms2 Heq), (equiv_src_end ms1 ms2 Heq),
    (equiv_src_init ms1 ms2 Heq).
  repeat first
    [ progress rewrite ?(classend_equiv pattern ms1 ms2 Heq),
        ?(singlematch_equiv subject pattern ms1 ms2 Heq),
        ?(matchbalance_equiv subject pattern ms1 ms2 Heq),
        ?(match_capture_equiv subject ms1 ms2 Heq)
    | match goal with
    | |- result_equiv (Ret (?r, ms1)) (Ret (?r, ms2)) =>
        now apply result_equiv_ret
    | |- result_equiv (Panic _) (Panic _) => reflexivity
    | |- result_equiv Fault Fault => exact I
    | |- result_equiv OutOfFuel OutOfFuel => exact I
    | |- result_equiv (match_body _ _ _ fuel _ _ _)
                      (match_body _ _ _ fuel _ _ _) => now apply IH
    | |- result_equiv (start_capture _ _ _ _ _) _ =>
        now apply start_capture_indep
    | |- result_equiv (end_capture _ _ _ _) _ =>
        now apply end_capture_indep
    | |- result_equiv (max_expand _ _ _ _ _ _ _) _ =>
        now apply max_expand_indep
    | |- result_equiv (min_expand _ _ _ _ _ _ _) _ =>
        now apply min_expand_indep
    | |- result_equiv (if ?b then _ else _) (if ?b then _ else _) =>
        destruct b
    | |- result_equiv (bind (rec _ _ _) _) (bind (rec _ _ _) _) =>
        apply result_equiv_bind; [now apply Hindep|];
        let r := fresh "r" in
        let m1 := fresh "m1" in
        let m2 := fresh "m2" in
        let E1 := fresh "E1" in
        let E2 := fresh "E2" in
        let Hm := fresh "Hm" in
        intros r m1 m2 E1 E2 Hm; destruct r as [?|];
        [now apply result_equiv_ret|];
        apply IH; [exact Hm|];
        apply Hpost in E1; destruct E1 as [? ?];
        eapply in_budget_same; eauto
    | |- result_equiv (bind ?m _) (bind ?m _) =>
        destruct m; cbn [bind]
    | |- result_equiv (match ?x with Some _ => _ | None => _ end)
                      (match ?x with Some _ => _ | None => _ end) =>
        destruct x
    end ].
Qed.
End IndepOpen.

Section IndepMatch.
Variables subject pattern : list Z.

Lemma match_indep_match_ : forall d, match_indep (match_ subject pattern d).
Proof.
  induction d as [|d IH]; intros ms1 ms2 s p Heq Hb; cbn [match_];
    [exact I|].
  rewrite (equiv_matchdepth ms1 ms2 Heq).
  destruct (Z.eqb_spec (matchdepth ms1) 0); [reflexivity|].
  cbn [set_matchdepth p_end]. rewrite (equiv_p_end ms1 ms2 Heq).
  pose proof (match_body_indep subject pattern _
                (match_post_match_ subject pattern d) IH
                (S (Z.to_nat (p_end ms1 - p)))
                (set_matchdepth ms1 (matchdepth ms1 - 1))
                (set_matchdepth ms2 (matchdepth ms1 - 1)) s p) as H.
  destruct Hb as (B1 & B2 & B3).
  specialize (H (state_equiv_set_matchdepth _ _ _ _ Heq eq_refl)).
  specialize (H ltac:(unfold in_budget; cbn [set_matchdepth level matchdepth]; lia)).
  destruct (match_body _ _ _ _ (set_matchdepth ms1 _) _ _) as [[r1 m1]| | |],
           (match_body _ _ _ _ (set_matchdepth ms2 _) _ _) as [[r2 m2]| | |];
    cbn in H |- *; try contradiction; try assumption.
  destruct H as [-> H]. split; [reflexivity|].
  apply state_equiv_set_matchdepth; [exact H|].
  f_equal. symmetry. apply H.
Qed.
End IndepMatch.

(** ** The fuel is enough *)

Lemma has_fuel_bind {A B} (m : outcome A) (k : A -> outcome B) :
  has_fuel m -> (forall a, m = Ret a -> has_fuel (k a)) -> has_fuel (bind m k).
Proof.
  unfold has_fuel. destruct m; cbn [bind]; auto; congruence.
Qed.

Lemma has_fuel_ret {A} (a : A) : has_fuel (Ret a).
Proof. discriminate. Qed.

Lemma has_fuel_panic {A} e : has_fuel (@Panic A e).
Proof. discriminate. Qed.

Lemma rd_nonzero_in_range (l : list Z) (k : Z) :
  0 <= k -> rd l k <> 0 -> k < len l.
Proof.
  intros Hk H. destruct (Z_lt_le_dec k (len l)) as [?|Hge]; [assumption|].
  exfalso. apply H. unfold rd. apply nth_overflow. unfold len in Hge. lia.
Qed.

Lemma eqb_ch_nonzero x (c : ascii) :
  (x =? ch c) = true -> ch c <> 0 -> x <> 0.
Proof. intros H Hc. apply Z.eqb_eq in H. congruence. Qed.

Section Fuel.
Variables subject pattern : list Z.

Lemma classend_loop_bounds ms :
  forall fuel p,
    in_pattern pattern ms p -> (Z.to_nat (p_end ms - p) < fuel)%nat ->
    has_fuel (classend_loop pattern fuel ms p) /\
    forall r, classend_loop pattern fuel ms p = Ret r -> p < r <= p_end ms.
Proof.
  induction fuel as [|fuel IH]; intros p [He Hp] Hf; [lia|].
  cbn [classend_loop].
  destruct (Z.eqb_spec p (p_end ms)) as [E|E];
    [split; [discriminate|discriminate]|].
  set (p2 := if (rd pattern p =? CHAR_ESC) && (p + 1 <? p_end ms)
             then p + 1 + 1 else p + 1).
  assert (p < p2 <= p_end ms) as Hp2.
  { unfold p2. destruct (rd pattern p =? CHAR_ESC); cbn [andb]; [|lia].
    destruct (Z.ltb_spec (p + 1) (p_end ms)); lia. }
  destruct (Z.eqb_spec (rd pattern p2) (ch "]")) as [Eb|Eb]; cbn [negb].
  - split; [discriminate|]. intros r H. injection H as <-.
    assert (p2 < len pattern); [|lia].
    apply rd_nonzero_in_range; [lia|]. rewrite Eb. discriminate.
  - destruct (IH p2) as [H1 H2]; [split; [exact He|lia]|lia|].
    split; [exact H1|]. intros r H. apply H2 in H. lia.
Qed.

Lemma classend_bounds ms p :
  in_pattern pattern ms p -> p < p_end ms ->
  has_fuel (classend pattern ms p) /\
  forall ep, classend pattern ms p = Ret ep -> p < ep <= p_end ms.
Proof.
  intros [He Hp] Hlt. unfold classend.
  destruct (rd pattern p =? CHAR_ESC).
  - destruct (Z.eqb_spec (p + 1) (p_end ms));
      [split; discriminate|].
    split; [discriminate|]. intros ep H. injection H as <-. lia.
  - destruct (rd pattern p =? ch "[").
    + set (p1 := if rd pattern (p + 1) =? ch "^" then p + 1 + 1 else p + 1).
      assert (p < p1 <= p_end ms) as Hp1.
      { unfold p1. destruct (Z.eqb_spec (rd pattern (p + 1)) (ch "^")) as [E|E];
          [|lia].
        assert (p + 1 < len pattern); [|lia].
        apply rd_nonzero_in_range; [lia|]. rewrite E. discriminate. }
      destruct (classend_loop_bounds ms (S (Z.to_nat (p_end ms - p1))) p1)
        as [H1 H2]; [split; [exact He|lia]|lia|].
      split; [exact H1|]. intros ep H. apply H2 in H. lia.
    + split; [discriminate|]. intros ep H. injection H as <-. lia.
Qed.

Lemma has_fuel_singlematch ms s p ep :
  has_fuel (singlematch subject pattern ms s p ep).
Proof.
  unfold singlematch. destruct (_ >=? _); [discriminate|].
  destruct (_ =? ch "."); [discriminate|].
  destruct (_ =? CHAR_ESC); [discriminate|].
  destruct (_ =? ch "["); [|discriminate].
  destruct (matchbracketclass_total pattern (rd subject s) p (ep - 1))
    as (b & ->). discriminate.
Qed.

Lemma singlematch_true ms s p ep :
  singlematch subject pattern ms s p ep = Ret true -> s < src_end ms.
Proof.
  unfold singlematch. destruct (Z.geb_spec s (src_end ms)); [discriminate|].
  lia.
Qed.

Lemma has_fuel_matchbalance ms s p :
  has_fuel (matchbalance subject pattern ms s p).
Proof.
  assert (forall fuel q b e cont,
             (Z.to_nat (src_end ms - q) < fuel)%nat ->
             has_fuel (matchbalance_loop subject fuel ms q b e cont)) as Hl.
  { induction fuel as [|fuel IH]; intros q b e cont Hf; [lia|].
    cbn [matchbalance_loop].
    destruct (Z.ltb_spec (q + 1) (src_end ms)); [|discriminate].
    destruct (_ =? e).
    - destruct (_ =? 0); [discriminate|]. apply IH. lia.
    - destruct (_ =? b); apply IH; lia. }
  unfold matchbalance. destruct (_ >=? _); [discriminate|].
  destruct (negb _); [discriminate|]. apply Hl. lia.
Qed.

Lemma matchbalance_bounds ms s p r :
  matchbalance subject pattern ms s p = Ret r -> p + 2 <= p_end ms.
Proof.
  unfold matchbalance. destruct (Z.geb_spec p (p_end ms - 1)); [discriminate|].
  lia.
Qed.

Lemma has_fuel_match_capture ms s l :
  has_fuel (match_capture subject ms s l).
Proof.
  unfold match_capture, check_capture.
  destruct (_ || _); cbn [bind]; [discriminate|].
  destruct (_ >=? _); [|discriminate].
  destruct (list_eq_dec _ _ _); discriminate.
Qed.

Lemma has_fuel_max_expand_count ms s p ep :
  forall fuel i,
    (Z.to_nat (src_end ms - (s + i)) < fuel)%nat ->
    has_fuel (max_expand_count subject pattern fuel ms s p ep i).
Proof.
  induction fuel as [|fuel IH]; intros i Hf; [lia|].
  cbn [max_expand_count].
  apply has_fuel_bind; [apply has_fuel_singlematch|].
  intros [|] E; [|discriminate].
  apply singlematch_true in E. apply IH. lia.
Qed.

Section FuelOpen.
Variable rec : MatchState -> Z -> Z -> outcome match_result.
Variable D : Z.
Hypothesis Hpost : match_post rec.
Hypothesis Htotal : rec_total pattern rec D.

Lemma in_pattern_frame ms ms' p :
  same_frame ms ms' -> in_pattern pattern ms p -> in_pattern pattern ms' p.
Proof.
  intros (_ & _ & F3 & _) [H1 H2]. unfold in_pattern. rewrite F3. auto.
Qed.

Lemma depth_frame ms ms' :
  same_frame ms ms' -> 0 <= matchdepth ms <= D -> 0 <= matchdepth ms' <= D.
Proof. intros (_ & _ & _ & F4 & _) H. now rewrite F4. Qed.

Lemma has_fuel_max_expand_try :
  forall n ms s ep,
    0 <= matchdepth ms <= D -> in_pattern pattern ms (ep + 1) ->
    has_fuel (max_expand_try rec n ms s ep).
Proof.
  induction n as [|n IH]; intros ms s ep Hd Hp; cbn [max_expand_try];
    [discriminate|].
  apply has_fuel_bind; [now apply Htotal|].
  intros [[e|] ms2] E; [discriminate|].
  apply Hpost in E. destruct E as [Hf _].
  apply IH; [eapply depth_frame; eauto|eapply in_pattern_frame; eauto].
Qed.

Lemma has_fuel_max_expand ms s p ep :
  0 <= matchdepth ms <= D -> in_pattern pattern ms (ep + 1) ->
  has_fuel (max_expand subject pattern rec ms s p ep).
Proof.
  intros Hd Hp. unfold max_expand. apply has_fuel_bind.
  - apply has_fuel_max_expand_count. lia.
  - intros i _. now apply has_fuel_max_expand_try.
Qed.

Lemma has_fuel_min_expand_loop :
  forall fuel ms s p ep,
    0 <= matchdepth ms <= D -> in_pattern pattern ms (ep + 1) ->
    (Z.to_nat (src_end ms - s) + 1 < fuel)%nat ->
    has_fuel (min_expand_loop subject pattern rec fuel ms s p ep).
Proof.
  induction fuel as [|fuel IH]; intros ms s p ep Hd Hp Hf; [lia|].
  cbn [min_expand_loop].
  apply has_fuel_bind; [now apply Htotal|].
  intros [[e|] ms2] E; [discriminate|].
  apply Hpost in E. destruct E as [Hfr _].
  apply has_fuel_bind; [apply has_fuel_singlematch|].
  intros [|] Es; [|discriminate].
  apply singlematch_true in Es.
  pose proof Hfr as (_ & F2 & _).
  apply IH; [eapply depth_frame; eauto|eapply in_pattern_frame; eauto|].
  rewrite F2 in *. lia.
Qed.

Lemma has_fuel_min_expand ms s p ep :
  0 <= matchdepth ms <= D -> in_pattern pattern ms (ep + 1) ->
  has_fuel (min_expand subject pattern rec ms s p ep).
Proof.
  intros Hd Hp. unfold min_expand. apply has_fuel_min_expand_loop; auto.
  lia.
Qed.

Lemma has_fuel_start_capture ms s p what :
  0 <= matchdepth ms <= D -> in_pattern pattern ms p ->
  has_fuel (start_capture rec ms s p what).
Proof.
  intros Hd Hp. unfold start_capture.
  destruct (_ >=? _); [discriminate|].
  apply has_fuel_bind; [now apply Htotal|].
  intros [[e|] ms2] _; discriminate.
Qed.

Lemma has_fuel_end_capture ms s p :
  0 <= matchdepth ms <= D -> in_pattern pattern ms p ->
  has_fuel (end_capture rec ms s p).
Proof.
  intros Hd Hp. unfold end_capture.
  apply has_fuel_bind.
  - unfold capture_to_close.
    induction (Z.to_nat (level ms)) as [|n IH];
      cbn [capture_to_close_loop]; [discriminate|].
    destruct (_ =? _); [discriminate|exact IH].
  - intros l _. apply has_fuel_bind; [now apply Htotal|].
    intros [[e|] ms2] _; discriminate.
Qed.

Lemma next_in_pattern ms p (c : ascii) :
  in_pattern pattern ms p -> (rd pattern p =? ch c) = true -> ch c <> 0 ->
  in_pattern pattern ms (p + 1).
Proof.
  intros [He Hp] E Hc. split; [exact He|].
  assert (p < len pattern); [|lia].
  apply rd_nonzero_in_range; [lia|]. eapply eqb_ch_nonzero; eauto.
Qed.

Lemma has_fuel_match_body :
  forall fuel ms s p,
    0 <= matchdepth ms <= D -> in_pattern pattern ms p ->
    (Z.to_nat (p_end ms - p) < fuel)%nat ->
    has_fuel (match_body subject pattern rec fuel ms s p).
Proof.
  induction fuel as [|fuel IH]; intros ms s p Hd Hp Hf; [lia|].
  cbn [match_body]. pose proof Hp as [He Hpp].
  destruct (Z.eqb_spec p (p_end ms)) as [E|E]; cbn [negb];
    [|]; [discriminate|].
  assert (in_pattern pattern ms (p + 1)) as Hp1 by (split; [exact He|lia]).
  destruct (rd pattern p =? ch "(") eqn:Eo.
  { destruct (rd pattern (p + 1) =? ch ")") eqn:Ec.
    - apply has_fuel_start_capture; [exact Hd|].
      replace (p + 2) with (p + 1 + 1) by lia.
      eapply next_in_pattern; eauto. discriminate.
    - now apply has_fuel_start_capture. }
  destruct (rd pattern p =? ch ")").
  { now apply has_fuel_end_capture. }
  destruct ((rd pattern p =? ch "$") && (p + 1 =? p_end ms)).
  { discriminate. }
  destruct ((rd pattern p =? CHAR_ESC) && (rd pattern (p + 1) =? ch "b")).
  { apply has_fuel_bind; [apply has_fuel_matchbalance|].
    intros [s'|] Eb; [|discriminate].
    apply matchbalance_bounds in Eb.
    apply IH; [exact Hd|split; [exact He|lia]|lia]. }
  destruct ((rd pattern p =? CHAR_ESC) && (rd pattern (p + 1) =? ch "f"))
    eqn:Ef.
  { apply andb_true_iff in Ef. destruct Ef as [_ Ef].
    assert (in_pattern pattern ms (p + 2)) as Hp2.
    { replace (p + 2) with (p + 1 + 1) by lia.
      eapply next_in_pattern; eauto. discriminate. }
    destruct (rd pattern (p + 2) =? ch "[") eqn:Eb; cbn [negb];
      [|discriminate].
    assert (p + 2 < p_end ms) as Hlt.
    { destruct (next_in_pattern ms (p + 2) _ Hp2 Eb ltac:(discriminate)).
      lia. }
    destruct (classend_bounds ms (p + 2) Hp2 Hlt) as [H1 H2].
    apply has_fuel_bind; [exact H1|]. intros ep Eep. apply H2 in Eep.
    destruct (matchbracketclass_total pattern
                (if s =? src_init ms then 0 else rd subject (s - 1))
                (p + 2) (ep - 1)) as (b0 & ->). cbn [bind].
    destruct b0; [discriminate|].
    destruct (matchbracketclass_total pattern (rd subject s)
                (p + 2) (ep - 1)) as (b1 & ->). cbn [bind].
    destruct b1; [|discriminate].
    apply IH; [exact Hd|split; [exact He|lia]|lia]. }
  destruct ((rd pattern p =? CHAR_ESC) && isdigit (rd pattern (p + 1)))
    eqn:Edig.
  { apply has_fuel_bind; [apply has_fuel_match_capture|].
    intros [s'|] _; [|discriminate].
    apply andb_true_iff in Edig. destruct Edig as [_ Edig].
    assert (p + 1 < len pattern) as Hlt.
    { apply rd_nonzero_in_range; [lia|]. intros E0. rewrite E0 in Edig.
      discriminate. }
    apply IH; [exact Hd|split; [exact He|lia]|lia]. }
  destruct (classend_bounds ms p Hp ltac:(lia)) as [H1 H2].
  apply has_fuel_bind; [exact H1|]. intros ep Eep. apply H2 in Eep.
  apply has_fuel_bind; [apply has_fuel_singlematch|]. intros m _.
  assert (forall c : ascii, (rd pattern ep =? ch c) = true -> ch c <> 0 ->
                            in_pattern pattern ms (ep + 1)) as Hnext.
  { intros c Ec Hc. eapply next_in_pattern; eauto. split; [exact He|lia]. }
  destruct m; cbn [negb].
  - destruct (rd pattern ep =? ch "?") eqn:Eq.
    { specialize (Hnext _ Eq ltac:(discriminate)).
      apply has_fuel_bind; [now apply Htotal|].
      intros [[e|] ms2] E2; [discriminate|].
      apply Hpost in E2. destruct E2 as [Hfr _].
      pose proof Hfr as (_ & _ & F3 & _).
      apply IH; [eapply depth_frame; eauto|eapply in_pattern_frame; eauto|].
      rewrite F3. destruct Hnext. lia. }
    destruct (rd pattern ep =? ch "+") eqn:Epl.
    { apply has_fuel_max_expand; [exact Hd|].
      apply (Hnext _ Epl). discriminate. }
    destruct (rd pattern ep =? ch "*") eqn:Est.
    { apply has_fuel_max_expand; [exact Hd|].
      apply (Hnext _ Est). discriminate. }
    destruct (rd pattern ep =? ch "-") eqn:Emi.
    { apply has_fuel_min_expand; [exact Hd|].
      apply (Hnext _ Emi). discriminate. }
    apply IH; [exact Hd|split; [exact He|lia]|lia].
  - destruct (rd pattern ep =? ch "*") eqn:Est; cbn [orb].
    { pose proof (Hnext _ Est ltac:(discriminate)) as [_ Hn].
      apply IH; [exact Hd|split; [exact He|lia]|lia]. }
    destruct (rd pattern ep =? ch "?") eqn:Eq; cbn [orb].
    { pose proof (Hnext _ Eq ltac:(discriminate)) as [_ Hn].
      apply IH; [exact Hd|split; [exact He|lia]|lia]. }
    destruct (rd pattern ep =? ch "-") eqn:Emi; [|discriminate].
    pose proof (Hnext _ Emi ltac:(discriminate)) as [_ Hn].
    apply IH; [exact Hd|split; [exact He|lia]|lia].
Qed.
End FuelOpen.

Lemma has_fuel_match_ :
  forall d, rec_total pattern (match_ subject pattern d) (Z.of_nat d - 1).
Proof.
  induction d as [|d IH]; intros ms s p Hd Hp; [lia|].
  cbn [match_]. destruct (Z.eqb_spec (matchdepth ms) 0); [discriminate|].
  apply has_fuel_bind.
  - apply (has_fuel_match_body _ (Z.of_nat d - 1)
             (match_post_match_ subject pattern d) IH).
    + cbn [set_matchdepth matchdepth]. lia.
    + exact Hp.
    + cbn [set_matchdepth p_end]. lia.
  - intros [r ms2] _. discriminate.
Qed.

Lemma has_fuel_push_captures ms s e captures :
  has_fuel (push_captures subject ms s e captures).
Proof.
  unfold push_captures.
  assert (forall n i c, has_fuel (push_captures_loop subject n ms i s e c))
    as Hl; [|apply Hl].
  induction n as [|n IH]; intros i c; cbn [push_captures_loop];
    [discriminate|].
  apply has_fuel_bind; [|intros; apply IH].
  unfold push_onecapture.
  repeat match goal with |- has_fuel (if ?b then _ else _) => destruct b end;
    discriminate.
Qed.

Lemma has_fuel_str_match_loop :
  forall fuel ms s1 p anchor,
    matchdepth ms = MAXCCALLS -> in_pattern pattern ms p ->
    (Z.to_nat (src_end ms - s1) < fuel)%nat ->
    has_fuel (str_match_loop subject pattern fuel ms s1 p anchor).
Proof.
  induction fuel as [|fuel IH]; intros ms s1 p anchor Hd Hp Hf; [lia|].
  cbn [str_match_loop]. unfold reprepstate.
  cbn [set_level matchdepth]. rewrite Hd, Z.eqb_refl. cbn [negb bind].
  apply has_fuel_bind.
  - apply has_fuel_match_.
    + change (matchdepth (set_level ms 0)) with (matchdepth ms).
      rewrite Hd. unfold MAXCCALLS. lia.
    + exact Hp.
  - intros [[e|] ms2] E.
    + apply has_fuel_bind; [apply has_fuel_push_captures|discriminate].
    + apply match_post_match_ in E. destruct E as [(F1 & F2 & F3 & F4 & F5) _].
      cbn [set_level src_init src_end p_end matchdepth] in *.
      destruct (Z.ltb_spec s1 (src_end ms2)); cbn [andb]; [|discriminate].
      destruct anchor; cbn [negb]; [discriminate|].
      apply IH; [congruence| |lia].
      destruct Hp as [H1 H2]. split; congruence.
Qed.
End Fuel.

(** [cfun_str_match] never runs out of the fuel its loops are given. *)
Lemma cfun_str_match_has_fuel subject pattern start :
  cfun_str_match subject pattern start <> OutOfFuel.
Proof.
  unfold cfun_str_match. destruct (_ >? _); [discriminate|].
  pose proof (len_nonneg pattern) as Hl.
  apply has_fuel_str_match_loop.
  - reflexivity.
  - unfold in_pattern. cbn [prepstate p_end].
    destruct (Z.eqb_spec (rd pattern 0) (ch "^")) as [E|E].
    + assert (0 < len pattern).
      { apply rd_nonzero_in_range; [lia|]. rewrite E. discriminate. }
      lia.
    + lia.
  - cbn [prepstate src_end]. lia.
Qed.

(** * The claims about the pattern matcher *)

(** C5. Every call of [match] that returns, with a match or without,
    leaves [matchdepth] as it found it, having run its body one below; a
    call entered with the budget spent raises "pattern too complex";
    [reprepstate] raises "matchdepth error" unless the budget is
    [MAXCCALLS = 200], which never happens between the attempts of
    [cfun_str_match].  A call made at a pattern position with a budget
    below [d] does not run out of the fuel [d]. *)
Theorem matchdepth_budget :
  forall (subject pattern : list Z),
    (forall d ms s p res ms',
        match_ subject pattern d ms s p = Ret (res, ms') ->
        matchdepth ms' = matchdepth ms)
    /\ (forall d ms s p,
          matchdepth ms = 0 ->
          match_ subject pattern (S d) ms s p = Panic pattern_too_complex)
    /\ (forall d ms s p,
          matchdepth ms <> 0 ->
          match_ subject pattern (S d) ms s p =
            (r <- match_body subject pattern (match_ subject pattern d)
                    (S (Z.to_nat (p_end ms - p)))
                    (set_matchdepth ms (matchdepth ms - 1)) s p;;
             Ret (fst r, set_matchdepth (snd r) (matchdepth (snd r) + 1))))
    /\ (forall ms,
          reprepstate ms =
            if matchdepth ms =? MAXCCALLS then Ret (set_level ms 0)
            else Panic matchdepth_error)
    /\ (forall ls lp p, matchdepth (prepstate ls lp p) = 200)
    /\ (forall start,
          cfun_str_match subject pattern start <> Panic matchdepth_error)
    /\ (forall d ms s p,
          0 <= matchdepth ms < Z.of_nat d -> in_pattern pattern ms p ->
          match_ subject pattern d ms s p <> OutOfFuel)
    /\ message pattern_too_complex = "pattern too complex"%string
    /\ message matchdepth_error = "matchdepth error"%string
    /\ cfun_str_match [] (repeat (ch "(") 200) None = Panic pattern_too_complex.
Proof.
  intros subject pattern. repeat apply conj.
  - intros d ms s p res ms' H. apply match_post_match_ in H.
    destruct H as [(_ & _ & _ & H & _) _]. exact H.
  - intros d ms s p H. cbn [match_]. rewrite H. reflexivity.
  - intros d ms s p H. cbn [match_].
    destruct (Z.eqb_spec (matchdepth ms) 0) as [E|E]; [contradiction|].
    cbn [set_matchdepth p_end].
    destruct (match_body _ _ _ _ _ _ _) as [[r ms2]| | |]; reflexivity.
  - intros ms. unfold reprepstate. cbn [set_level matchdepth].
    destruct (matchdepth ms =? MAXCCALLS); reflexivity.
  - reflexivity.
  - intros start. apply cfun_str_match_no_depth_error.
  - intros d ms s p Hd Hp.
    apply (has_fuel_match_ subject pattern d ms s p); [lia|exact Hp].
  - reflexivity.
  - reflexivity.
  - vm_compute. reflexivity.
Qed.

Lemma capture_to_close_loop_latest ms :
  forall n l,
    capture_to_close_loop ms n = Ret l ->
    forall l', l < l' < Z.of_nat n -> clen (get_capture ms l') <> CAP_UNFINISHED.
Proof.
  induction n as [|n IH]; intros l H l' Hl'; [discriminate|].
  cbn [capture_to_close_loop] in H.
  destruct (Z.eqb_spec (clen (get_capture ms (Z.of_nat n))) CAP_UNFINISHED)
    as [E|E].
  - injection H as <-. lia.
  - destruct (Z.eq_dec l' (Z.of_nat n)) as [->|Hne]; [exact E|].
    eapply IH; eauto. lia.
Qed.

(** C4. Captures are speculative. At an opening parenthesis [match] calls
    [start_capture], which stores [(s, CAP_UNFINISHED)] at index [level]
    and runs the rest of the pattern with [level + 1]; at a closing
    parenthesis it calls [end_capture], which picks the highest index
    below [level] whose capture is unfinished and stores its length; when
    the rest of the pattern fails, [level] is decremented, respectively
    the length is reset to [CAP_UNFINISHED].  So a probe that fails
    returns with [level] and every capture below [level] as it found them,
    as long as [level] cannot wrap around ([level + matchdepth <= 255],
    which holds in the fresh state and is passed on to the call an opening
    parenthesis makes).  On ["12-34"], ["(%d+)-(%d+)"] closes both its
    captures; on ["aab"], ["(a)b"] opens and closes a capture at offset 0,
    drops it when ['b'] fails there, and returns the one made at offset
    1. *)
Theorem capture_lifecycle :
  forall (subject pattern : list Z),
    (forall rec ms s p what,
        level ms < MAXCAPTURES ->
        start_capture rec ms s p what =
          (r <- rec (set_level
                       (set_capture ms (level ms) {| init := s; clen := what |})
                       (level ms + 1)) s p;;
           match r with
           | (None, ms') => Ret (None, set_level ms' (level ms' - 1))
           | (Some res, ms') => Ret (Some res, ms')
           end))
    /\ (forall rec fuel ms s p,
          p <> p_end ms -> rd pattern p = ch "(" -> rd pattern (p + 1) <> ch ")" ->
          match_body subject pattern rec (S fuel) ms s p =
            start_capture rec ms s (p + 1) CAP_UNFINISHED)
    /\ (forall rec fuel ms s p,
          p <> p_end ms -> rd pattern p = ch ")" ->
          match_body subject pattern rec (S fuel) ms s p =
            end_capture rec ms s (p + 1))
    /\ (forall ms l,
          capture_to_close ms = Ret l ->
          0 <= l < level ms /\ clen (get_capture ms l) = CAP_UNFINISHED /\
          forall l', l < l' < level ms ->
                     clen (get_capture ms l') <> CAP_UNFINISHED)
    /\ (forall rec ms s p l,
          capture_to_close ms = Ret l ->
          end_capture rec ms s p =
            (r <- rec (set_capture ms l
                         {| init := init (get_capture ms l);
                            clen := s - init (get_capture ms l) |}) s p;;
             match r with
             | (None, ms') =>
                 Ret (None,
                      set_capture ms' l
                        {| init := init (get_capture ms' l);
                           clen := CAP_UNFINISHED |})
             | (Some res, ms') => Ret (Some res, ms')
             end))
    /\ (forall d ms s p ms',
          in_budget ms 255 ->
          match_ subject pattern d ms s p = Ret (None, ms') ->
          same_captures ms ms')
    /\ (forall d ms s p what ms',
          in_budget ms 254 ->
          start_capture (match_ subject pattern d) ms s p what = Ret (None, ms') ->
          same_captures ms ms')
    /\ (forall d ms s p ms',
          in_budget ms 255 ->
          end_capture (match_ subject pattern d) ms s p = Ret (None, ms') ->
          same_captures ms ms')
    /\ (forall ls lp p, in_budget (prepstate ls lp p) 255)
    /\ (forall ms c,
          in_budget ms 255 -> matchdepth ms <> 0 ->
          in_budget
            (set_level
               (set_capture (set_matchdepth ms (matchdepth ms - 1)) (level ms) c)
               (level ms + 1)) 255)
    /\ cfun_str_match (bytes_of_string "12-34")
         (bytes_of_string "(%d+)-(%d+)") None
       = Ret (janet_wrap_array
                [janet_wrap_string (bytes_of_string "12");
                 janet_wrap_string (bytes_of_string "34")])
    /\ cfun_str_match (bytes_of_string "aab") (bytes_of_string "(a)b") None
       = Ret (janet_wrap_array [janet_wrap_string (bytes_of_string "a")]).
Proof.
  intros subject pattern. repeat apply conj.
  - intros rec ms s p what H. unfold start_capture.
    destruct (Z.geb_spec (level ms) MAXCAPTURES); [lia|reflexivity].
  - intros rec fuel ms s p Hp Hc Hc1. cbn [match_body].
    destruct (Z.eqb_spec p (p_end ms)); [contradiction|]. cbn [negb].
    rewrite Hc, Z.eqb_refl.
    destruct (Z.eqb_spec (rd pattern (p + 1)) (ch ")")); [contradiction|].
    reflexivity.
  - intros rec fuel ms s p Hp Hc. cbn [match_body].
    destruct (Z.eqb_spec p (p_end ms)); [contradiction|]. cbn [negb].
    rewrite Hc. change (ch ")" =? ch "(") with false.
    now rewrite Z.eqb_refl.
  - intros ms l H. pose proof (capture_to_close_spec ms l H) as [H1 H2].
    split; [exact H1|]. split; [exact H2|].
    intros l' Hl'. unfold capture_to_close in H.
    apply (capture_to_close_loop_latest ms _ l H). lia.
  - intros rec ms s p l H. unfold end_capture. rewrite H. reflexivity.
  - intros d ms s p ms' Hb H. apply match_post_match_ in H.
    destruct H as [_ H]. now apply H.
  - intros d ms s p what ms' Hb H.
    apply (start_capture_post _ (match_post_match_ subject pattern d)) in H.
    destruct H as [_ H]. now apply H.
  - intros d ms s p ms' Hb H.
    apply (end_capture_post _ (match_post_match_ subject pattern d)) in H.
    destruct H as [_ H]. now apply H.
  - intros ls lp p. unfold in_budget.
    cbn [prepstate level matchdepth]. unfold MAXCCALLS. lia.
  - intros ms c (H1 & H2 & H3) Hd. unfold in_budget.
    cbn [set_level set_capture set_matchdepth level matchdepth].
    rewrite Z.mod_small by lia. lia.
  - vm_compute. reflexivity.
  - vm_compute. reflexivity.
Qed.

(** ** The start offset *)

Ltac pows :=
  pose proof (eq_refl : 2 ^ 31 = 2147483648);
  pose proof (eq_refl : 2 ^ 32 = 4294967296);
  pose proof (eq_refl : 2 ^ 64 = 18446744073709551616).

Lemma to_size_t_small z : 0 <= z < 2 ^ 64 -> to_size_t z = z.
Proof. intros H. unfold to_size_t. now apply Z.mod_small. Qed.

Lemma to_size_t_neg z : - 2 ^ 64 <= z < 0 -> to_size_t z = z + 2 ^ 64.
Proof.
  intros H. unfold to_size_t. symmetry.
  apply (Z.mod_unique z (2 ^ 64) (-1)); lia.
Qed.

Lemma to_int_small z : - 2 ^ 31 <= z < 2 ^ 31 -> to_int z = z.
Proof. intros H. pows. unfold to_int. rewrite Z.mod_small; lia. Qed.

Lemma posrelatI_spec n ls :
  - 2 ^ 31 <= n < 2 ^ 31 -> 0 <= ls < 2 ^ 31 ->
  posrelatI n ls =
    if 0 <? n then n
    else if n =? 0 then 1
    else if n <? - ls then 1
    else ls + n + 1.
Proof.
  intros Hn Hl. pows. unfold posrelatI. rewrite to_int_small by lia.
  destruct (Z.gtb_spec n 0), (Z.ltb_spec 0 n); try lia.
  - apply to_size_t_small. lia.
  - destruct (Z.eqb_spec n 0); [reflexivity|].
    destruct (Z.ltb_spec n (- ls)); [reflexivity|].
    rewrite (to_size_t_neg n) by lia.
    unfold to_size_t. symmetry.
    apply (Z.mod_unique _ (2 ^ 64) 1); lia.
Qed.

(** C9. The optional one-based start of [match]: 0 stands for 1; [-k]
    with [k <= len] stands for [len - k + 1]; [-k] with [k > len] is
    clipped to 1; a positive value stands for itself.  When the zero-based
    start this gives lies beyond the end of the subject the result is nil
    whatever the pattern; otherwise the attempts start there. *)
Theorem match_start_offset :
  forall (subject pattern : list Z) (n : Z),
    - 2 ^ 31 <= n < 2 ^ 31 -> len subject < 2 ^ 31 ->
    (n = 0 -> posrelatI n (len subject) = 1)
    /\ (forall k, n = - k -> 0 < k <= len subject ->
                  posrelatI n (len subject) = len subject - k + 1)
    /\ (forall k, n = - k -> len subject < k -> posrelatI n (len subject) = 1)
    /\ (0 < n -> posrelatI n (len subject) = n)
    /\ str_match_init (len subject) (Some n) = posrelatI n (len subject) - 1
    /\ (len subject < posrelatI n (len subject) - 1 ->
        cfun_str_match subject pattern (Some n) = Ret janet_wrap_nil)
    /\ (posrelatI n (len subject) - 1 <= len subject ->
        cfun_str_match subject pattern (Some n) =
          let anchor := rd pattern 0 =? ch "^" in
          let p := if anchor then 1 else 0 in
          let s1 := posrelatI n (len subject) - 1 in
          str_match_loop subject pattern
            (S (Z.to_nat (len subject - s1)))
            (prepstate (len subject)
               (if anchor then len pattern - 1 else len pattern) p)
            s1 p anchor).
Proof.
  intros subject pattern n Hn Hl. pows.
  pose proof (len_nonneg subject) as Hl0.
  pose proof (posrelatI_spec n (len subject) Hn ltac:(lia)) as E.
  assert (1 <= posrelatI n (len subject) < 2 ^ 32) as Hr.
  { rewrite E. destruct (Z.ltb_spec 0 n); [lia|].
    destruct (Z.eqb_spec n 0); [lia|].
    destruct (Z.ltb_spec n (- len subject)); lia. }
  assert (str_match_init (len subject) (Some n)
          = posrelatI n (len subject) - 1) as Ei.
  { unfold str_match_init. apply to_size_t_small. lia. }
  repeat apply conj.
  - intros ->. rewrite E. reflexivity.
  - intros k -> Hk. rewrite E.
    destruct (Z.ltb_spec 0 (- k)); [lia|].
    destruct (Z.eqb_spec (- k) 0); [lia|].
    destruct (Z.ltb_spec (- k) (- len subject)); lia.
  - intros k -> Hk. rewrite E.
    destruct (Z.ltb_spec 0 (- k)); [lia|].
    destruct (Z.eqb_spec (- k) 0); [lia|].
    destruct (Z.ltb_spec (- k) (- len subject)); lia.
  - intros Hp. rewrite E. destruct (Z.ltb_spec 0 n); lia.
  - exact Ei.
  - intros Hp. unfold cfun_str_match. rewrite Ei.
    destruct (Z.gtb_spec (posrelatI n (len subject) - 1) (len subject));
      [reflexivity|lia].
  - intros Hp. unfold cfun_str_match. rewrite Ei.
    destruct (Z.gtb_spec (posrelatI n (len subject) - 1) (len subject));
      [lia|reflexivity].
Qed.

Lemma match_start_offset_witness :
  posrelatI (-2) (len [104; 105; 33]) = len [104; 105; 33] - 2 + 1.
Proof.
  refine (proj1 (proj2 (match_start_offset [104; 105; 33] [] (-2) _ _))
            2 eq_refl _); pows; cbn; lia.
Defined.

(** ** Malformed [%b] and [%f] *)

Lemma str_match_loop_first subject pattern fuel ms s1 p anchor e :
  matchdepth ms = MAXCCALLS ->
  match_body subject pattern
    (match_ subject pattern (Z.to_nat MAXCCALLS))
    (S (Z.to_nat (p_end ms - p)))
    (set_matchdepth (set_level ms 0) (MAXCCALLS - 1)) s1 p = Panic e ->
  str_match_loop subject pattern (S fuel) ms s1 p anchor = Panic e.
Proof.
  intros Hd H. cbn [str_match_loop]. unfold reprepstate.
  cbn [set_level matchdepth]. rewrite Hd, Z.eqb_refl. cbn [negb bind match_].
  cbn [set_level matchdepth p_end set_matchdepth] in *. rewrite Hd.
  change (MAXCCALLS =? 0) with false. cbv iota.
  rewrite H. reflexivity.
Qed.

Lemma len_cons2 a b (l : list Z) : len (a :: b :: l) = 2 + len l.
Proof. unfold len. cbn [length]. lia. Qed.

(** C6. Whatever the subject, when an attempt is made (the start is not
    beyond the end of the subject), a pattern that is ["%b"] followed by
    fewer than two bytes raises the error of [matchbalance], and a pattern
    that is ["%f"] followed by anything but ['['] raises the error of the
    frontier case; neither gives nil. The texts are those of the source,
    which [janet_panic] does not format: they keep the two ['%'] written
    there, "malformed pattern (missing arguments to '%%b')" and
    "missing '[' after '%%f' in pattern". *)
Theorem malformed_balance_frontier :
  forall (subject rest : list Z) (start : option Z),
    str_match_init (len subject) start <= len subject ->
    (len rest < 2 ->
     cfun_str_match subject (bytes_of_string "%b" ++ rest) start
     = Panic malformed_pattern_missing_arguments_to_b)
    /\ (rd rest 0 <> ch "[" ->
        cfun_str_match subject (bytes_of_string "%f" ++ rest) start
        = Panic missing_bracket_after_f)
    /\ message malformed_pattern_missing_arguments_to_b
       = "malformed pattern (missing arguments to '%%b')"%string
    /\ message missing_bracket_after_f
       = "missing '[' after '%%f' in pattern"%string.
Proof.
  intros subject rest start Hs.
  pose proof (len_nonneg rest) as Hr.
  split; [|split; [|split; reflexivity]].
  - intros Hlen. unfold cfun_str_match.
    destruct (Z.gtb_spec (str_match_init (len subject) start) (len subject));
      [lia|].
    change (bytes_of_string "%b" ++ rest) with (37 :: 98 :: rest).
    change (rd (37 :: 98 :: rest) 0 =? ch "^") with false. cbv iota.
    apply str_match_loop_first; [reflexivity|].
    cbn [prepstate set_level set_matchdepth p_end match_body].
    rewrite len_cons2.
    destruct (Z.eqb_spec 0 (0 + (2 + len rest))) as [E|_]; [lia|].
    cbn [negb].
    change (rd (37 :: 98 :: rest) 0) with 37.
    change (rd (37 :: 98 :: rest) (0 + 1)) with 98.
    change (37 =? ch "(") with false. change (37 =? ch ")") with false.
    change (37 =? ch "$") with false. change (37 =? CHAR_ESC) with true.
    change (98 =? ch "b") with true. cbn [andb]. cbv iota.
    unfold matchbalance.
    cbn [p_end set_matchdepth set_level prepstate].
    destruct (Z.geb_spec (0 + 2) (0 + (2 + len rest) - 1)) as [_|E]; [|lia].
    reflexivity.
  - intros Hne. unfold cfun_str_match.
    destruct (Z.gtb_spec (str_match_init (len subject) start) (len subject));
      [lia|].
    change (bytes_of_string "%f" ++ rest) with (37 :: 102 :: rest).
    change (rd (37 :: 102 :: rest) 0 =? ch "^") with false. cbv iota.
    apply str_match_loop_first; [reflexivity|].
    cbn [prepstate set_level set_matchdepth p_end match_body].
    rewrite len_cons2.
    destruct (Z.eqb_spec 0 (0 + (2 + len rest))) as [E|_]; [lia|].
    cbn [negb].
    change (rd (37 :: 102 :: rest) 0) with 37.
    change (rd (37 :: 102 :: rest) (0 + 1)) with 102.
    change (37 =? ch "(") with false. change (37 =? ch ")") with false.
    change (37 =? ch "$") with false. change (37 =? CHAR_ESC) with true.
    change (102 =? ch "b") with false. change (102 =? ch "f") with true.
    cbn [andb]. cbv iota.
    change (rd (37 :: 102 :: rest) (0 + 2)) with (rd rest 0).
    destruct (Z.eqb_spec (rd rest 0) (ch "[")) as [E|_]; [contradiction|].
    reflexivity.
Qed.

Lemma malformed_balance_frontier_witness :
  cfun_str_match [104; 105] (bytes_of_string "%b" ++ [40]) (Some 3)
  = Panic malformed_pattern_missing_arguments_to_b.
Proof.
  refine (proj1 (malformed_balance_frontier [104; 105] [40] (Some 3) _) _).
  - vm_compute. discriminate.
  - vm_compute. reflexivity.
Defined.

(** C10. At the first byte of the subject ([s == src_init]) the frontier
    [%f[set]] takes 0 for the previous byte: the assertion holds, and
    matching goes on with what follows the set at the same offset, exactly
    when 0 is outside the set and the byte at [s] is inside it; otherwise
    the match fails.  When the set ends the pattern, [match] returns [s]
    in the first case and [NULL] in the second. *)
Theorem frontier_at_subject_start :
  forall (subject pattern : list Z)
         (rec : MatchState -> Z -> Z -> outcome match_result)
         (fuel : nat) (ms : MatchState) (p ep : Z),
    p <> p_end ms ->
    rd pattern p = CHAR_ESC -> rd pattern (p + 1) = ch "f" ->
    rd pattern (p + 2) = ch "[" ->
    classend pattern ms (p + 2) = Ret ep ->
    exists b0 b1,
      matchbracketclass pattern 0 (p + 2) (ep - 1) = Ret b0 /\
      matchbracketclass pattern (rd subject (src_init ms)) (p + 2) (ep - 1)
        = Ret b1 /\
      match_body subject pattern rec (S fuel) ms (src_init ms) p =
        (if negb b0 && b1
         then match_body subject pattern rec fuel ms (src_init ms) ep
         else Ret (None, ms)) /\
      (ep = p_end ms -> matchdepth ms <> 0 ->
       forall d, exists ms',
         match_ subject pattern (S d) ms (src_init ms) p =
           Ret (if negb b0 && b1 then Some (src_init ms) else None, ms')).
Proof.
  intros subject pattern rec fuel ms p ep Hp Hc Hc1 Hc2 Hce.
  destruct (matchbracketclass_total pattern 0 (p + 2) (ep - 1)) as (b0 & E0).
  destruct (matchbracketclass_total pattern (rd subject (src_init ms))
              (p + 2) (ep - 1)) as (b1 & E1).
  exists b0, b1. split; [exact E0|]. split; [exact E1|].
  assert (forall rec' fuel' ms',
             p_end ms' = p_end ms -> src_init ms' = src_init ms ->
             match_body subject pattern rec' (S fuel') ms' (src_init ms) p =
               (if negb b0 && b1
                then match_body subject pattern rec' fuel' ms' (src_init ms) ep
                else Ret (None, ms'))) as Hbody.
  { intros rec' fuel' ms' Ep Ei. cbn [match_body]. rewrite Ep.
    destruct (Z.eqb_spec p (p_end ms)); [contradiction|]. cbn [negb].
    rewrite Hc, Hc1, Hc2.
    change (CHAR_ESC =? ch "(") with false.
    change (CHAR_ESC =? ch ")") with false.
    change (CHAR_ESC =? ch "$") with false.
    change (CHAR_ESC =? CHAR_ESC) with true.
    change (ch "f" =? ch "b") with false.
    change (ch "f" =? ch "f") with true.
    change (ch "[" =? ch "[") with true.
    cbn [andb negb]. cbv iota.
    rewrite (classend_frame pattern ms ms' (p + 2) Ep), Hce. cbn [bind].
    rewrite Ei, Z.eqb_refl, E0. cbn [bind].
    destruct b0; cbn [negb andb]; [reflexivity|].
    rewrite E1. cbn [bind]. destruct b1; reflexivity. }
  split; [apply Hbody; reflexivity|].
  intros Eep Hd d. cbn [match_].
  destruct (Z.eqb_spec (matchdepth ms) 0); [contradiction|].
  cbn [set_matchdepth p_end].
  assert (p < ep) as Hlt.
  { unfold classend in Hce. rewrite Hc2 in Hce.
    change (ch "[" =? CHAR_ESC) with false in Hce.
    change (ch "[" =? ch "[") with true in Hce. cbv iota in Hce.
    assert (forall fuel' q r, classend_loop pattern fuel' ms q = Ret r -> q < r) as Hl.
    { induction fuel' as [|fuel' IH]; intros q r H; [discriminate|].
      cbn [classend_loop] in H.
      destruct (q =? p_end ms); [discriminate|].
      assert (q + 1 <= if (rd pattern q =? CHAR_ESC) && (q + 1 <? p_end ms)
                       then q + 1 + 1 else q + 1) as Hq
        by (destruct ((rd pattern q =? CHAR_ESC) && (q + 1 <? p_end ms)); lia).
      revert H Hq. generalize (if (rd pattern q =? CHAR_ESC) && (q + 1 <? p_end ms)
                       then q + 1 + 1 else q + 1). intros q' H Hq.
      destruct (negb (rd pattern q' =? ch "]")).
      - apply IH in H. lia.
      - injection H as <-. lia. }
    apply Hl in Hce. destruct (_ =? ch "^"); cbv iota in Hce; lia. }
  replace (Z.to_nat (p_end ms - p)) with (S (Z.to_nat (p_end ms - p - 1)))
    by lia.
  rewrite (Hbody _ _ (set_matchdepth ms (matchdepth ms - 1)) eq_refl eq_refl).
  destruct (negb b0 && b1).
  - cbn [match_body set_matchdepth p_end]. rewrite Eep, Z.eqb_refl.
    cbn [negb bind]. eauto.
  - cbn [bind]. eauto.
Qed.

Lemma frontier_at_subject_start_witness :
  exists b0 b1,
    matchbracketclass (bytes_of_string "%f[%a]") 0 (0 + 2) (6 - 1) = Ret b0 /\
    matchbracketclass (bytes_of_string "%f[%a]")
      (rd (bytes_of_string "hi") (src_init (prepstate 2 6 0))) (0 + 2) (6 - 1)
      = Ret b1 /\
    match_body (bytes_of_string "hi") (bytes_of_string "%f[%a]")
      (match_ (bytes_of_string "hi") (bytes_of_string "%f[%a]") 0) 3
      (prepstate 2 6 0) (src_init (prepstate 2 6 0)) 0 =
      (if negb b0 && b1
       then match_body (bytes_of_string "hi") (bytes_of_string "%f[%a]")
              (match_ (bytes_of_string "hi") (bytes_of_string "%f[%a]") 0) 2
              (prepstate 2 6 0) (src_init (prepstate 2 6 0)) 6
       else Ret (None, prepstate 2 6 0)) /\
    (6 = p_end (prepstate 2 6 0) -> matchdepth (prepstate 2 6 0) <> 0 ->
     forall d, exists ms',
       match_ (bytes_of_string "hi") (bytes_of_string "%f[%a]") (S d)
         (prepstate 2 6 0) (src_init (prepstate 2 6 0)) 0 =
         Ret (if negb b0 && b1 then Some (src_init (prepstate 2 6 0)) else None,
              ms')).
Proof.
  apply (frontier_at_subject_start (bytes_of_string "hi")
           (bytes_of_string "%f[%a]")
           (match_ (bytes_of_string "hi") (bytes_of_string "%f[%a]") 0)
           2 (prepstate 2 6 0) 0 6).
  - vm_compute. discriminate.
  - reflexivity.
  - reflexivity.
  - reflexivity.
  - reflexivity.
Defined.

(** ** Sliding the start offset *)

Lemma push_captures_equiv subject ms1 ms2 s e captures :
  state_equiv ms1 ms2 ->
  push_captures subject ms2 s e captures = push_captures subject ms1 s e captures.
Proof.
  intros Heq. unfold push_captures. rewrite (equiv_level ms1 ms2 Heq).
  assert (forall n i c, 0 <= i ->
             push_captures_loop subject n ms2 i s e c
             = push_captures_loop subject n ms1 i s e c) as Hl.
  { induction n as [|n IH]; intros i c Hi; cbn [push_captures_loop];
      [reflexivity|].
    assert (push_onecapture subject ms2 i s e c
            = push_onecapture subject ms1 i s e c) as ->.
    { unfold push_onecapture. rewrite (equiv_level ms1 ms2 Heq).
      destruct (Z.geb_spec i (level ms1)); [reflexivity|].
      rewrite (equiv_get ms1 ms2 Heq i), (equiv_src_init ms1 ms2 Heq) by lia.
      reflexivity. }
    destruct (push_onecapture subject ms1 i s e c); cbn [bind]; try reflexivity.
    apply IH. lia. }
  apply Hl. lia.
Qed.

Section Slide.
Variables subject pattern : list Z.
Variables ls lp p : Z.

Let P0 := prepstate ls lp p.
Let att k := attempt subject pattern ls lp p k.

Lemma str_match_loop_step fuel ms s1 anchor :
  same_frame P0 ms ->
  (exists m0,
      att s1 = Ret (None, m0) /\
      if (s1 <? ls) && negb anchor
      then exists ms1,
          same_frame P0 ms1 /\
          str_match_loop subject pattern (S fuel) ms s1 p anchor
          = str_match_loop subject pattern fuel ms1 (s1 + 1) p anchor
      else str_match_loop subject pattern (S fuel) ms s1 p anchor
           = Ret janet_wrap_nil)
  \/
  ((forall m0, att s1 <> Ret (None, m0)) /\
   str_match_loop subject pattern (S fuel) ms s1 p anchor
   = answer subject s1 (att s1)).
Proof.
  intros Hf. pose proof Hf as (F1 & F2 & F3 & F4 & F5).
  cbn [str_match_loop].
  assert (reprepstate ms = Ret (set_level ms 0)) as ->.
  { unfold reprepstate. cbn [set_level matchdepth]. rewrite F4. reflexivity. }
  cbn [bind].
  assert (state_equiv P0 (set_level ms 0)) as Heq.
  { split.
    - unfold same_frame. cbn [set_level src_init src_end p_end matchdepth capture].
      auto.
    - split; [reflexivity|]. intros l Hl. cbn in Hl. lia. }
  pose proof (match_indep_match_ subject pattern (S (Z.to_nat MAXCCALLS))
                P0 (set_level ms 0) s1 p Heq
                ltac:(unfold in_budget, P0; cbn [prepstate level matchdepth];
                      unfold MAXCCALLS; lia)) as Hr.
  change (match_ subject pattern (S (Z.to_nat MAXCCALLS)) P0 s1 p)
    with (att s1) in Hr.
  destruct (match_ subject pattern (S (Z.to_nat MAXCCALLS))
              (set_level ms 0) s1 p) as [[r1 m1]| | |] eqn:Em;
    destruct (att s1) as [[r0 m0]| | |] eqn:Et;
    cbn [result_equiv] in Hr; try contradiction.
  - destruct Hr as [<- Hm]. cbn [bind]. destruct r0 as [e|].
    + right. split; [discriminate|]. unfold answer. cbn [bind].
      now rewrite (push_captures_equiv subject m0 m1 s1 e [] Hm).
    + left. exists m0. split; [reflexivity|].
      apply match_post_match_ in Em. destruct Em as [Hf1 _].
      assert (same_frame P0 m1) as Hf'.
      { eapply same_frame_trans; [|exact Hf1].
        unfold same_frame.
        cbn [src_init src_end p_end matchdepth capture]. auto. }
      replace (src_end m1) with ls by (symmetry; apply Hf').
      destruct ((s1 <? ls) && negb anchor); [|reflexivity].
      exists m1. split; [exact Hf'|reflexivity].
  - right. split; [discriminate|]. subst. reflexivity.
  - right. split; [discriminate|]. reflexivity.
  - right. split; [discriminate|]. reflexivity.
Qed.

Lemma str_match_loop_anchor fuel ms s1 :
  same_frame P0 ms ->
  str_match_loop subject pattern (S fuel) ms s1 p true
  = answer subject s1 (att s1).
Proof.
  intros Hf.
  destruct (str_match_loop_step fuel ms s1 true Hf)
    as [(m0 & E & H)|[_ H]]; [|exact H].
  rewrite andb_false_r in H. rewrite H, E. reflexivity.
Qed.

Lemma str_match_loop_slide :
  forall fuel ms s1 m,
    same_frame P0 ms ->
    s1 <= m <= ls -> (Z.to_nat (ls - s1) < fuel)%nat ->
    (forall k, s1 <= k < m -> exists ms', att k = Ret (None, ms')) ->
    ((forall ms', att m <> Ret (None, ms')) ->
     str_match_loop subject pattern fuel ms s1 p false
     = answer subject m (att m))
    /\ (m = ls -> (exists ms', att m = Ret (None, ms')) ->
        str_match_loop subject pattern fuel ms s1 p false
        = Ret janet_wrap_nil).
Proof.
  induction fuel as [|fuel IH]; intros ms s1 m Hf Hm Hfuel Hfail; [lia|].
  destruct (str_match_loop_step fuel ms s1 false Hf)
    as [(m0 & E & H)|[Hne H]].
  - rewrite andb_true_r in H.
    destruct (Z.ltb_spec s1 ls) as [Hlt|Hge].
    + destruct H as (ms1 & Hf1 & ->).
      destruct (Z.eq_dec s1 m) as [->|Hne].
      * split; [intros Hn; exfalso; exact (Hn m0 E)|lia].
      * apply IH; auto; try lia. intros k Hk. apply Hfail. lia.
    + assert (s1 = m) as -> by lia. split.
      * intros Hn. exfalso. exact (Hn m0 E).
      * intros _ _. exact H.
  - destruct (Z.eq_dec s1 m) as [->|Hne'].
    + split; [intros _; exact H|].
      intros _ (ms' & E). exfalso. exact (Hne ms' E).
    + exfalso. destruct (Hfail s1 ltac:(lia)) as (ms' & E).
      exact (Hne ms' E).
Qed.
End Slide.

Lemma str_match_init_nonneg ls start : 0 <= str_match_init ls start.
Proof.
  unfold str_match_init. destruct start; [|lia].
  unfold to_size_t. apply Z.mod_pos_bound. lia.
Qed.

(** C8. [match] tries the start offset, then every later offset up to and
    including the one just past the last byte, and answers with the first
    attempt that does not fail (its captures, or its error); when every
    one of them fails the answer is nil.  When the pattern begins with
    ['^'] the answer is that of the single attempt at the start offset.
    No attempt, and no run of the loop, is cut short by the fuel. *)
Theorem match_slides_start :
  forall (subject pattern : list Z) (start : option Z),
    let ls := len subject in
    let init := str_match_init ls start in
    let anchor := rd pattern 0 =? ch "^" in
    let p := if anchor then 1 else 0 in
    let lp := if anchor then len pattern - 1 else len pattern in
    let att := attempt subject pattern ls lp p in
    init <= ls ->
    (anchor = true ->
     cfun_str_match subject pattern start = answer subject init (att init))
    /\ (anchor = false ->
        (forall k, init <= k <= ls -> exists ms', att k = Ret (None, ms')) ->
        cfun_str_match subject pattern start = Ret janet_wrap_nil)
    /\ (anchor = false ->
        forall m, init <= m <= ls ->
          (forall k, init <= k < m -> exists ms', att k = Ret (None, ms')) ->
          (forall ms', att m <> Ret (None, ms')) ->
          cfun_str_match subject pattern start = answer subject m (att m))
    /\ (forall k, att k <> OutOfFuel)
    /\ cfun_str_match subject pattern start <> OutOfFuel.
Proof.
  intros subject pattern start ls init anchor p lp att Hinit.
  pose proof (str_match_init_nonneg ls start) as H0. fold init in H0.
  assert (cfun_str_match subject pattern start =
          str_match_loop subject pattern (S (Z.to_nat (ls - init)))
            (prepstate ls lp p) init p anchor) as ->.
  { unfold cfun_str_match. fold ls. fold init.
    destruct (Z.gtb_spec init ls); [lia|]. reflexivity. }
  assert (in_pattern pattern (prepstate ls lp p) p) as Hpat.
  { pose proof (len_nonneg pattern) as Hl.
    unfold in_pattern, p, lp, anchor. cbn [prepstate p_end].
    destruct (Z.eqb_spec (rd pattern 0) (ch "^")) as [E|E]; [|lia].
    assert (0 < len pattern); [|lia].
    apply rd_nonzero_in_range; [lia|]. rewrite E. discriminate. }
  split; [|split; [|split; [|split]]].
  4:{ intros k. unfold att, attempt.
      apply (has_fuel_match_ subject pattern (S (Z.to_nat MAXCCALLS)));
        [|exact Hpat].
      cbn [prepstate matchdepth]. unfold MAXCCALLS. lia. }
  4:{ apply has_fuel_str_match_loop;
        [reflexivity|exact Hpat|cbn [prepstate src_end]; lia]. }
  - intros ->. apply str_match_loop_anchor. apply same_frame_refl.
  - intros -> Hall.
    apply (str_match_loop_slide subject pattern ls lp p
             (S (Z.to_nat (ls - init))) (prepstate ls lp p) init ls);
      try lia; auto using same_frame_refl.
    + intros k Hk. apply Hall. lia.
    + apply Hall. lia.
  - intros -> m Hm Hfail Hne.
    apply (str_match_loop_slide subject pattern ls lp p
             (S (Z.to_nat (ls - init))) (prepstate ls lp p) init m);
      try lia; auto using same_frame_refl.
Qed.

Lemma match_slides_start_witness :
  cfun_str_match (bytes_of_string "xab") (bytes_of_string "ab") None
  = answer (bytes_of_string "xab") 1
      (attempt (bytes_of_string "xab") (bytes_of_string "ab") 3 2 0 1).
Proof.
  refine (proj1 (proj2 (proj2 (match_slides_start (bytes_of_string "xab")
                                 (bytes_of_string "ab") None _)))
            eq_refl 1 _ _ _).
  - vm_compute. discriminate.
  - vm_compute. split; discriminate.
  - intros k Hk. assert (k = 0) as ->.
    { change (str_match_init (len (bytes_of_string "xab")) None) with 0 in Hk.
      lia. }
    eexists. vm_compute. reflexivity.
  - intros ms'. vm_compute. discriminate.
Defined.

(** * Proofs: the other functions *)

(** ** Buffers *)

Lemma upd_app_mid {A} (a : list A) x b v :
  upd (a ++ x :: b) (length a) v = a ++ v :: b.
Proof. induction a as [|h t IH]; cbn [app length upd]; [|rewrite IH]; reflexivity. Qed.

Lemma get_app_mid a c b : get (a ++ c :: b) (len a) = Ret c.
Proof.
  unfold get, len. destruct (Z.ltb_spec (Z.of_nat (length a)) 0); [lia|].
  rewrite Nat2Z.id, nth_error_app2, Nat.sub_diag by lia. reflexivity.
Qed.

Lemma set_app_mid a x b v : set (a ++ x :: b) (len a) v = Ret (a ++ v :: b).
Proof.
  unfold set. rewrite len_app, len_cons. unfold len at 1 2 3.
  destruct (Z.leb_spec 0 (Z.of_nat (length a))); [|lia].
  destruct (Z.ltb_spec (Z.of_nat (length a))
              (Z.of_nat (length a) + (len b + 1)));
    [|pose proof (len_nonneg b); lia].
  cbn [andb]. unfold len. now rewrite Nat2Z.id, upd_app_mid.
Qed.

Lemma load_app_mid {A} (a : list A) c b :
  load (a ++ c :: b) (Z.of_nat (length a)) = Ret c.
Proof.
  unfold load. destruct (Z.ltb_spec (Z.of_nat (length a)) 0); [lia|].
  rewrite Nat2Z.id, nth_error_app2, Nat.sub_diag by lia. reflexivity.
Qed.

Lemma store_app_mid {A} (a : list A) x b v :
  store (a ++ x :: b) (Z.of_nat (length a)) v = Ret (a ++ v :: b).
Proof.
  unfold store. rewrite length_app. cbn [length].
  destruct (Z.leb_spec 0 (Z.of_nat (length a))); [|lia].
  destruct (Z.ltb_spec (Z.of_nat (length a))
              (Z.of_nat (length a + S (length b)))); [|lia].
  cbn [andb]. now rewrite Nat2Z.id, upd_app_mid.
Qed.

Lemma slice_whole l : slice l 0 (len l) = l.
Proof. apply slice_all. Qed.

(** A copy of the whole of [src] over the span [pad] of the buffer. *)
Lemma memcpy_app_mid a pad b src :
  len pad = len src ->
  memcpy (a ++ pad ++ b) (len a) src 0 (len src) = Ret (a ++ src ++ b).
Proof.
  intros Hl. unfold memcpy. rewrite !len_app.
  pose proof (len_nonneg a). pose proof (len_nonneg src).
  pose proof (len_nonneg b).
  destruct (Z.leb_spec 0 (len src)); [|lia].
  destruct (Z.leb_spec 0 (len a)); [|lia].
  destruct (Z.leb_spec (len a + len src) (len a + (len pad + len b))); [|lia].
  destruct (Z.leb_spec 0 0); [|lia].
  destruct (Z.leb_spec (0 + len src) (len src)); [|lia].
  cbn [andb]. rewrite slice_all. f_equal.
  unfold len in *. rewrite Nat2Z.id.
  rewrite firstn_app, Nat.sub_diag, firstn_all. cbn [firstn].
  rewrite app_nil_r. f_equal. f_equal.
  replace (Z.to_nat (Z.of_nat (length a) + Z.of_nat (length src)))
    with (length a + length pad)%nat by lia.
  rewrite skipn_app, skipn_all2 by lia. cbn [app].
  replace (length a + length pad - length a)%nat with (length pad) by lia.
  rewrite skipn_app, skipn_all, Nat.sub_diag. reflexivity.
Qed.

Lemma janet_string_begin_app n m :
  janet_string_begin (Z.of_nat (n + m))
  = repeat 0 n ++ repeat 0 m.
Proof. unfold janet_string_begin. now rewrite Nat2Z.id, repeat_app. Qed.

Lemma janet_string_begin_len (l : list Z) :
  janet_string_begin (len l) = repeat 0 (length l).
Proof. unfold janet_string_begin, len. now rewrite Nat2Z.id. Qed.

Lemma len_repeat (x : Z) n : len (repeat x n) = Z.of_nat n.
Proof. unfold len. now rewrite repeat_length. Qed.

(** [janet_string] copies a span that lies in the view. *)
Lemma janet_string_slice buf a n :
  0 <= a -> 0 <= n -> a + n <= len buf ->
  janet_string buf a n = Ret (slice buf a n).
Proof.
  intros Ha Hn Hle. unfold janet_string, memcpy, janet_string_begin.
  rewrite len_repeat.
  destruct (Z.leb_spec 0 n); [|lia]. destruct (Z.leb_spec 0 0); [|lia].
  destruct (Z.leb_spec (0 + n) (Z.of_nat (Z.to_nat n))); [|lia].
  destruct (Z.leb_spec 0 a); [|lia].
  destruct (Z.leb_spec (a + n) (len buf)); [|lia].
  cbn [andb]. cbn [Z.to_nat firstn app].
  rewrite skipn_all2 by (rewrite repeat_length; lia).
  now rewrite app_nil_r.
Qed.

Lemma janet_string_negative buf a n : n < 0 -> janet_string buf a n = Fault.
Proof.
  intros Hn. unfold janet_string, memcpy.
  destruct (Z.leb_spec 0 n); [lia|]. reflexivity.
Qed.

(** ** [bytes] and [from-bytes] *)

Lemma bytes_loop_spec :
  forall v2 v1 done pad,
    length done = length v1 -> length pad = length v2 ->
    bytes_loop (length v2) (v1 ++ v2) (done ++ pad) (len v1)
    = Ret (done ++ map janet_wrap_integer v2).
Proof.
  induction v2 as [|c v2 IH]; intros v1 done pad Hd Hp.
  - destruct pad; [|discriminate]. reflexivity.
  - destruct pad as [|x pad]; [discriminate|]. cbn [length bytes_loop].
    rewrite get_app_mid. cbn [bind].
    unfold len. rewrite <- Hd, store_app_mid. cbn [bind].
    replace (Z.of_nat (length done) + 1) with (len (v1 ++ [c]))
      by (rewrite len_app; unfold len; cbn [length]; lia).
    replace (v1 ++ c :: v2) with ((v1 ++ [c]) ++ v2)
      by (now rewrite <- app_assoc).
    replace (done ++ janet_wrap_integer c :: pad)
      with ((done ++ [janet_wrap_integer c]) ++ pad)
      by (now rewrite <- app_assoc).
    rewrite IH.
    + now rewrite <- app_assoc.
    + rewrite !length_app. cbn [length]. lia.
    + cbn [length] in Hp. lia.
Qed.

Lemma cfun_string_bytes_spec view :
  cfun_string_bytes view = Ret (map janet_wrap_integer view).
Proof.
  unfold cfun_string_bytes.
  apply (bytes_loop_spec view [] [] (janet_tuple_begin (len view))).
  - reflexivity.
  - unfold janet_tuple_begin, len. now rewrite Nat2Z.id, repeat_length.
Qed.

Lemma frombytes_loop_spec :
  forall v2 v1 done pad,
    length done = length v1 -> length pad = length v2 ->
    frombytes_loop (length v2) (v1 ++ v2) (done ++ pad) (len v1)
    = Ret (done ++ map (fun c => Z.land c 255) v2).
Proof.
  induction v2 as [|c v2 IH]; intros v1 done pad Hd Hp.
  - destruct pad; [|discriminate]. reflexivity.
  - destruct pad as [|x pad]; [discriminate|]. cbn [length frombytes_loop].
    rewrite get_app_mid. cbn [bind].
    replace (len v1) with (len done) by (unfold len; lia).
    rewrite set_app_mid. cbn [bind].
    replace (len done + 1) with (len (v1 ++ [c]))
      by (rewrite len_app; unfold len; cbn [length]; lia).
    replace (v1 ++ c :: v2) with ((v1 ++ [c]) ++ v2)
      by (now rewrite <- app_assoc).
    replace (done ++ Z.land c 255 :: pad)
      with ((done ++ [Z.land c 255]) ++ pad)
      by (now rewrite <- app_assoc).
    rewrite IH.
    + now rewrite <- app_assoc.
    + rewrite !length_app. cbn [length]. lia.
    + cbn [length] in Hp. lia.
Qed.

Lemma cfun_string_frombytes_spec argv :
  cfun_string_frombytes argv
  = Ret (janet_wrap_string (map (fun c => Z.land c 255) argv)).
Proof.
  unfold cfun_string_frombytes. rewrite janet_string_begin_len.
  pose proof (frombytes_loop_spec argv [] [] (repeat 0 (length argv))
                eq_refl (repeat_length _ _)) as H.
  cbn [app] in H. change (len []) with 0 in H. rewrite H. reflexivity.
Qed.

Lemma land_255 c : Z.land c 255 = c mod 256.
Proof. change 255 with (Z.ones 8). now rewrite Z.land_ones by lia. Qed.

(** ** [ascii-lower] and [ascii-upper] *)

Lemma asciilower_loop_spec :
  forall v2 v1 done pad,
    length done = length v1 -> length pad = length v2 ->
    asciilower_loop (length v2) (v1 ++ v2) (done ++ pad) (len v1)
    = Ret (done ++ map ascii_lower v2).
Proof.
  induction v2 as [|c v2 IH]; intros v1 done pad Hd Hp.
  - destruct pad; [|discriminate]. reflexivity.
  - destruct pad as [|x pad]; [discriminate|]. cbn [length asciilower_loop].
    rewrite get_app_mid. cbn [bind].
    replace (len v1) with (len done) by (unfold len; lia).
    assert ((if (c >=? 65) && (c <=? 90)
             then set (done ++ x :: pad) (len done) ((c + 32) mod 256)
             else set (done ++ x :: pad) (len done) c)
            = Ret (done ++ ascii_lower c :: pad)) as ->.
    { unfold ascii_lower. rewrite Z.geb_leb.
      destruct (Z.leb_spec 65 c), (Z.leb_spec c 90); cbn [andb];
        rewrite set_app_mid; try reflexivity.
      rewrite Z.mod_small by lia. reflexivity. }
    cbn [bind].
    replace (len done + 1) with (len (v1 ++ [c]))
      by (rewrite len_app; unfold len; cbn [length]; lia).
    replace (v1 ++ c :: v2) with ((v1 ++ [c]) ++ v2)
      by (now rewrite <- app_assoc).
    replace (done ++ ascii_lower c :: pad)
      with ((done ++ [ascii_lower c]) ++ pad)
      by (now rewrite <- app_assoc).
    rewrite IH.
    + now rewrite <- app_assoc.
    + rewrite !length_app. cbn [length]. lia.
    + cbn [length] in Hp. lia.
Qed.

Lemma cfun_string_asciilower_spec view :
  cfun_string_asciilower view = Ret (janet_wrap_string (map ascii_lower view)).
Proof.
  unfold cfun_string_asciilower. rewrite janet_string_begin_len.
  pose proof (asciilower_loop_spec view [] [] (repeat 0 (length view))
                eq_refl (repeat_length _ _)) as H.
  cbn [app] in H. change (len []) with 0 in H. rewrite H. reflexivity.
Qed.

Lemma asciiupper_loop_spec :
  forall v2 v1 done pad,
    length done = length v1 -> length pad = length v2 ->
    asciiupper_loop (length v2) (v1 ++ v2) (done ++ pad) (len v1)
    = Ret (done ++ map ascii_upper v2).
Proof.
  induction v2 as [|c v2 IH]; intros v1 done pad Hd Hp.
  - destruct pad; [|discriminate]. reflexivity.
  - destruct pad as [|x pad]; [discriminate|]. cbn [length asciiupper_loop].
    rewrite get_app_mid. cbn [bind].
    replace (len v1) with (len done) by (unfold len; lia).
    assert ((if (c >=? 97) && (c <=? 122)
             then set (done ++ x :: pad) (len done) ((c - 32) mod 256)
             else set (done ++ x :: pad) (len done) c)
            = Ret (done ++ ascii_upper c :: pad)) as ->.
    { unfold ascii_upper. rewrite Z.geb_leb.
      destruct (Z.leb_spec 97 c), (Z.leb_spec c 122); cbn [andb];
        rewrite set_app_mid; try reflexivity.
      rewrite Z.mod_small by lia. reflexivity. }
    cbn [bind].
    replace (len done + 1) with (len (v1 ++ [c]))
      by (rewrite len_app; unfold len; cbn [length]; lia).
    replace (v1 ++ c :: v2) with ((v1 ++ [c]) ++ v2)
      by (now rewrite <- app_assoc).
    replace (done ++ ascii_upper c :: pad)
      with ((done ++ [ascii_upper c]) ++ pad)
      by (now rewrite <- app_assoc).
    rewrite IH.
    + now rewrite <- app_assoc.
    + rewrite !length_app. cbn [length]. lia.
    + cbn [length] in Hp. lia.
Qed.

Lemma cfun_string_asciiupper_spec view :
  cfun_string_asciiupper view = Ret (janet_wrap_string (map ascii_upper view)).
Proof.
  unfold cfun_string_asciiupper. rewrite janet_string_begin_len.
  pose proof (asciiupper_loop_spec view [] [] (repeat 0 (length view))
                eq_refl (repeat_length _ _)) as H.
  cbn [app] in H. change (len []) with 0 in H. rewrite H. reflexivity.
Qed.

Lemma ascii_lower_lower c : ascii_lower (ascii_lower c) = ascii_lower c.
Proof.
  unfold ascii_lower.
  destruct (Z.leb_spec 65 c), (Z.leb_spec c 90); cbn [andb];
    try (destruct (Z.leb_spec 65 c), (Z.leb_spec c 90); cbn [andb]; lia).
  destruct (Z.leb_spec 65 (c + 32)), (Z.leb_spec (c + 32) 90); cbn [andb]; lia.
Qed.

Lemma ascii_upper_upper c : ascii_upper (ascii_upper c) = ascii_upper c.
Proof.
  unfold ascii_upper.
  destruct (Z.leb_spec 97 c), (Z.leb_spec c 122); cbn [andb];
    try (destruct (Z.leb_spec 97 c), (Z.leb_spec c 122); cbn [andb]; lia).
  destruct (Z.leb_spec 97 (c - 32)), (Z.leb_spec (c - 32) 122); cbn [andb]; lia.
Qed.

Lemma ascii_lower_upper c : ascii_lower (ascii_upper c) = ascii_lower c.
Proof.
  unfold ascii_lower, ascii_upper.
  destruct (Z.leb_spec 97 c), (Z.leb_spec c 122); cbn [andb];
    try reflexivity.
  destruct (Z.leb_spec 65 (c - 32)), (Z.leb_spec (c - 32) 90),
    (Z.leb_spec 65 c), (Z.leb_spec c 90); cbn [andb]; lia.
Qed.

Lemma ascii_upper_lower c : ascii_upper (ascii_lower c) = ascii_upper c.
Proof.
  unfold ascii_lower, ascii_upper.
  destruct (Z.leb_spec 65 c), (Z.leb_spec c 90); cbn [andb];
    try reflexivity.
  destruct (Z.leb_spec 97 (c + 32)), (Z.leb_spec (c + 32) 122),
    (Z.leb_spec 97 c), (Z.leb_spec c 122); cbn [andb]; lia.
Qed.

(** ** [reverse] *)

Lemma reverse_loop_spec :
  forall v1 v2 done pad,
    length pad = length v1 ->
    reverse_loop (length v1) (v1 ++ v2) (done ++ pad) (len done) (len v1 - 1)
    = Ret (done ++ rev v1).
Proof.
  induction v1 as [|c v1 IH] using rev_ind; intros v2 done pad Hp.
  - destruct pad; [|discriminate]. reflexivity.
  - rewrite length_app in Hp |- *. cbn [length] in Hp |- *.
    destruct pad as [|x pad]; [cbn [length] in Hp; lia|].
    rewrite Nat.add_1_r. cbn [reverse_loop].
    rewrite len_app, <- app_assoc. cbn [app].
    replace (len v1 + len [c] - 1) with (len v1)
      by (unfold len; cbn [length]; lia).
    rewrite get_app_mid. cbn [bind]. rewrite set_app_mid. cbn [bind].
    replace (len done + 1) with (len (done ++ [c]))
      by (rewrite len_app; unfold len; cbn [length]; lia).
    replace (done ++ c :: pad) with ((done ++ [c]) ++ pad)
      by (now rewrite <- app_assoc).
    rewrite IH by (cbn [length] in Hp; lia).
    rewrite rev_app_distr, <- app_assoc. reflexivity.
Qed.

Lemma cfun_string_reverse_spec view :
  cfun_string_reverse view = Ret (janet_wrap_string (rev view)).
Proof.
  unfold cfun_string_reverse. rewrite janet_string_begin_len.
  pose proof (reverse_loop_spec view [] [] (repeat 0 (length view))
                (repeat_length _ _)) as H.
  rewrite app_nil_r in H. cbn [app] in H.
  change (len []) with 0 in H. rewrite H. reflexivity.
Qed.

(** ** [repeat] *)

Lemma concat_repeat_nil {A} n : concat (repeat (@nil A) n) = [].
Proof. induction n as [|n IH]; cbn [repeat concat app]; auto. Qed.

(** A copy of the whole of [src] at the start of the unwritten part of a
    buffer. *)
Lemma memcpy_zeros a src k :
  (length src <= k)%nat ->
  memcpy (a ++ repeat 0 k) (len a) src 0 (len src)
  = Ret (a ++ src ++ repeat 0 (k - length src)).
Proof.
  intros Hk.
  replace k with (length src + (k - length src))%nat at 1 by lia.
  rewrite repeat_app. apply memcpy_app_mid. unfold len.
  now rewrite repeat_length.
Qed.

Lemma repeat_loop_spec view :
  0 < len view ->
  forall n fuel done,
    (n < fuel)%nat ->
    repeat_loop fuel view (done ++ repeat 0 (n * length view)) (len done)
      (len done + Z.of_nat n * len view)
    = Ret (done ++ concat (repeat view n)).
Proof.
  intros Hv. induction n as [|n IH]; intros fuel done Hf;
    (destruct fuel as [|fuel]; [lia|]); cbn [repeat_loop].
  - destruct (Z.ltb_spec (len done) (len done + Z.of_nat 0 * len view)); [lia|].
    reflexivity.
  - destruct (Z.ltb_spec (len done) (len done + Z.of_nat (S n) * len view));
      [|nia].
    rewrite memcpy_zeros by (cbn [Nat.mul]; lia). cbn [bind].
    replace (S n * length view - length view)%nat with (n * length view)%nat
      by (cbn [Nat.mul]; lia).
    replace (len done + len view) with (len (done ++ view))
      by (now rewrite len_app).
    replace (len done + Z.of_nat (S n) * len view)
      with (len (done ++ view) + Z.of_nat n * len view)
      by (rewrite len_app; lia).
    rewrite app_assoc, IH by lia.
    cbn [repeat concat]. now rewrite <- !app_assoc.
Qed.

Lemma cfun_string_repeat_spec view rep :
  cfun_string_repeat view rep =
    Ret (if rep <? 0 then inl expected_non_negative_number_of_repetitions
         else if rep * len view >? INT32_MAX
              then inl result_string_is_too_long
              else inr (janet_wrap_string
                          (concat (repeat view (Z.to_nat rep))))).
Proof.
  unfold cfun_string_repeat. destruct (Z.ltb_spec rep 0); [reflexivity|].
  destruct (Z.eqb_spec rep 0) as [->|Hne]; [reflexivity|].
  destruct (rep * len view >? INT32_MAX); [reflexivity|].
  pose proof (len_nonneg view) as Hv.
  destruct (Z.eq_dec (len view) 0) as [E|E].
  - assert (view = []) as -> by (destruct view; [reflexivity|discriminate]).
    change (len []) with 0. rewrite Z.mul_0_r.
    destruct (Z.to_nat rep) as [|n] eqn:En; [lia|].
    cbn [repeat_loop Z.ltb Z.compare bind]. rewrite concat_repeat_nil.
    reflexivity.
  - pose proof (repeat_loop_spec view ltac:(lia) (Z.to_nat rep)
                  (S (Z.to_nat rep)) [] ltac:(lia)) as Hr.
    cbn [app] in Hr. change (len []) with 0 in Hr.
    replace (0 + Z.of_nat (Z.to_nat rep) * len view) with (rep * len view)
      in Hr by lia.
    replace (janet_string_begin (rep * len view))
      with (repeat 0 (Z.to_nat rep * length view)).
    + rewrite Hr. reflexivity.
    + unfold janet_string_begin, len. f_equal. lia.
Qed.

(** ** [join] *)

Lemma intercalate_snoc sep ps x :
  intercalate sep (ps ++ [x]) =
    match ps with
    | [] => x
    | _ :: _ => intercalate sep ps ++ sep ++ x
    end.
Proof.
  induction ps as [|a ps IH]; [reflexivity|].
  cbn [app]. cbn [intercalate]. fold (intercalate sep (ps ++ [x])).
  fold (intercalate sep ps). rewrite IH.
  destruct ps as [|b q]; [reflexivity|].
  cbn [app]. now rewrite <- !app_assoc.
Qed.

Lemma len_intercalate_snoc sep ps x :
  len (intercalate sep (ps ++ [x])) =
    len (intercalate sep ps)
    + (if Z.of_nat (length ps) =? 0 then 0 else len sep) + len x.
Proof.
  rewrite intercalate_snoc. destruct ps as [|a ps].
  - cbn. lia.
  - rewrite !len_app. cbn [length].
    destruct (Z.eqb_spec (Z.of_nat (S (length ps))) 0); lia.
Qed.

Lemma len_intercalate_app sep ps1 ps2 :
  len (intercalate sep ps1) <= len (intercalate sep (ps1 ++ ps2)).
Proof.
  induction ps2 as [|x ps2 IH] using rev_ind.
  - rewrite app_nil_r. lia.
  - rewrite app_assoc, len_intercalate_snoc.
    pose proof (len_nonneg sep). pose proof (len_nonneg x).
    destruct (Z.of_nat (length (ps1 ++ ps2)) =? 0); lia.
Qed.

Lemma join_check_strings sep :
  forall ps2 ps1 tail m,
    len (intercalate sep ps1) <= INT32_MAX ->
    join_check (length ps2 + m)
      (map janet_wrap_string (ps1 ++ ps2) ++ tail) (len sep)
      (Z.of_nat (length ps1)) (len (intercalate sep ps1))
    = if len (intercalate sep (ps1 ++ ps2)) >? INT32_MAX
      then Ret (inl result_string_too_long)
      else join_check m (map janet_wrap_string (ps1 ++ ps2) ++ tail) (len sep)
             (Z.of_nat (length (ps1 ++ ps2)))
             (len (intercalate sep (ps1 ++ ps2))).
Proof.
  induction ps2 as [|x ps2 IH]; intros ps1 tail m Hle.
  - rewrite app_nil_r. cbn [length Nat.add].
    destruct (Z.gtb_spec (len (intercalate sep ps1)) INT32_MAX); [lia|].
    reflexivity.
  - cbn [length Nat.add join_check].
    rewrite map_app. cbn [map]. rewrite <- app_assoc. cbn [app].
    rewrite <- (length_map janet_wrap_string ps1) at 1.
    rewrite load_app_mid. cbn [bind janet_bytes_view].
    rewrite ?length_map.
    pose proof (len_intercalate_snoc sep ps1 x) as Hs.
    assert ((if negb (Z.of_nat (length ps1) =? 0)
             then len (intercalate sep ps1) + len sep
             else len (intercalate sep ps1)) + len x
            = len (intercalate sep (ps1 ++ [x]))) as ->.
    { rewrite Hs. destruct (Z.of_nat (length ps1) =? 0); cbn [negb]; lia. }
    pose proof (len_intercalate_app sep (ps1 ++ [x]) ps2) as Hm.
    rewrite <- app_assoc in Hm. cbn [app] in Hm.
    destruct (Z.gtb_spec (len (intercalate sep (ps1 ++ [x]))) INT32_MAX)
      as [Hgt|Hle'].
    + destruct (Z.gtb_spec (len (intercalate sep (ps1 ++ x :: ps2))) INT32_MAX);
        [reflexivity|lia].
    + specialize (IH (ps1 ++ [x]) tail m Hle').
      rewrite <- !app_assoc in IH. cbn [app] in IH.
      rewrite map_app in IH. cbn [map] in IH.
      rewrite <- app_assoc in IH. cbn [app] in IH.
      rewrite length_app in IH. cbn [length] in IH.
      replace (Z.of_nat (length ps1) + 1)
        with (Z.of_nat (length ps1 + 1)) by lia.
      rewrite IH. reflexivity.
Qed.

Lemma join_fill_strings sep :
  forall ps2 ps1 k,
    (length (intercalate sep ps1) + k
     = length (intercalate sep (ps1 ++ ps2)))%nat ->
    join_fill (length ps2) (map janet_wrap_string (ps1 ++ ps2)) sep
      (intercalate sep ps1 ++ repeat 0 k)
      (Z.of_nat (length ps1)) (len (intercalate sep ps1))
    = Ret (intercalate sep (ps1 ++ ps2)).
Proof.
  induction ps2 as [|x ps2 IH]; intros ps1 k Hk.
  - rewrite app_nil_r in *. assert (k = 0)%nat as -> by lia.
    cbn [length join_fill repeat]. now rewrite app_nil_r.
  - cbn [length join_fill].
    pose proof (len_intercalate_snoc sep ps1 x) as Hs.
    pose proof (len_intercalate_app sep (ps1 ++ [x]) ps2) as Hm.
    rewrite <- app_assoc in Hm. cbn [app] in Hm.
    assert (Z.of_nat (length (intercalate sep ps1)) + Z.of_nat k
            = len (intercalate sep (ps1 ++ x :: ps2))) as Hk'
        by (unfold len; lia).
    fold (len (intercalate sep ps1)) in Hk'.
    pose proof (len_nonneg sep) as Hsep. pose proof (len_nonneg x) as Hx.
    set (pre := if Z.of_nat (length ps1) =? 0 then intercalate sep ps1
                else intercalate sep ps1 ++ sep).
    assert (intercalate sep (ps1 ++ [x]) = pre ++ x) as Hpre.
    { rewrite intercalate_snoc. unfold pre. destruct ps1 as [|a q].
      - reflexivity.
      - cbn [length]. destruct (Z.eqb_spec (Z.of_nat (S (length q))) 0); [lia|].
        now rewrite <- app_assoc. }
    assert (len pre = len (intercalate sep (ps1 ++ [x])) - len x) as Hlpre
        by (rewrite Hpre, len_app; lia).
    assert ((if negb (Z.of_nat (length ps1) =? 0)
             then buf' <- memcpy (intercalate sep ps1 ++ repeat 0 k)
                            (len (intercalate sep ps1)) sep 0 (len sep);;
                  Ret (buf', len (intercalate sep ps1) + len sep)
             else Ret (intercalate sep ps1 ++ repeat 0 k,
                       len (intercalate sep ps1)))
            = Ret (pre ++ repeat 0 (Z.to_nat (len x) + (length (intercalate sep (ps1 ++ x :: ps2)) - length (intercalate sep (ps1 ++ [x])))),
                   len pre)) as ->.
    { unfold pre. destruct (Z.eqb_spec (Z.of_nat (length ps1)) 0) as [E|E];
        cbn [negb].
      - f_equal. f_equal. f_equal. f_equal. unfold len in *. lia.
      - rewrite memcpy_zeros by (unfold len in *; lia). cbn [bind].
        rewrite len_app, <- app_assoc. f_equal. f_equal. f_equal. f_equal.
        f_equal. unfold len in *. lia. }
    cbn [bind]. rewrite map_app. cbn [map].
    rewrite <- (length_map janet_wrap_string ps1) at 1.
    rewrite load_app_mid. cbn [bind janet_bytes_view].
    rewrite memcpy_zeros by (unfold len; lia). cbn [bind].
    replace (Z.to_nat (len x)
             + (length (intercalate sep (ps1 ++ x :: ps2))
                - length (intercalate sep (ps1 ++ [x]))) - length x)%nat
      with (length (intercalate sep (ps1 ++ x :: ps2))
            - length (intercalate sep (ps1 ++ [x])))%nat
      by (unfold len; lia).
    rewrite app_assoc, <- Hpre.
    replace (len pre + len x) with (len (intercalate sep (ps1 ++ [x])))
      by lia.
    specialize (IH (ps1 ++ [x])
                  (length (intercalate sep (ps1 ++ x :: ps2))
                   - length (intercalate sep (ps1 ++ [x])))%nat).
    rewrite <- !app_assoc in IH. cbn [app] in IH.
    rewrite map_app in IH. cbn [map] in IH.
    rewrite length_app in IH. cbn [length] in IH.
    replace (Z.of_nat (length ps1) + 1)
      with (Z.of_nat (length ps1 + 1)) by lia.
    apply IH. unfold len in *. lia.
Qed.

Lemma cfun_string_join_strings ps joiner :
  cfun_string_join (map janet_wrap_string ps) joiner =
    Ret (if len (intercalate (joiner_bytes joiner) ps) >? INT32_MAX
         then inl result_string_too_long
         else inr (janet_wrap_string (intercalate (joiner_bytes joiner) ps))).
Proof.
  unfold cfun_string_join. fold (joiner_bytes joiner).
  set (sep := joiner_bytes joiner). rewrite length_map.
  pose proof (join_check_strings sep ps [] [] 0%nat) as H.
  cbn [app length intercalate] in H. rewrite !app_nil_r, Nat.add_0_r in H.
  change (len []) with 0 in H. change (Z.of_nat 0) with 0 in H.
  rewrite H by (unfold INT32_MAX; lia).
  destruct (len (intercalate sep ps) >? INT32_MAX); [reflexivity|].
  cbn [join_check bind].
  pose proof (join_fill_strings sep ps [] (length (intercalate sep ps))
                eq_refl) as F.
  cbn [app length intercalate] in F.
  change (len []) with 0 in F. change (Z.of_nat 0) with 0 in F.
  rewrite janet_string_begin_len, F. reflexivity.
Qed.

Lemma cfun_string_join_bad_item ps x rest joiner :
  janet_bytes_view x = None ->
  len (intercalate (joiner_bytes joiner) ps) <= INT32_MAX ->
  cfun_string_join (map janet_wrap_string ps ++ x :: rest) joiner =
    Ret (inl (item_of_parts_is_not_a_byte_sequence (Z.of_nat (length ps)) x)).
Proof.
  intros Hx Hle. unfold cfun_string_join. fold (joiner_bytes joiner).
  set (sep := joiner_bytes joiner) in *.
  rewrite length_app, length_map. cbn [length].
  pose proof (join_check_strings sep ps [] (x :: rest) (S (length rest))) as H.
  cbn [app length intercalate] in H.
  change (len []) with 0 in H. change (Z.of_nat 0) with 0 in H.
  rewrite H by (unfold INT32_MAX; lia).
  destruct (Z.gtb_spec (len (intercalate sep ps)) INT32_MAX); [lia|].
  cbn [join_check].
  rewrite <- (length_map janet_wrap_string ps) at 1.
  rewrite load_app_mid. cbn [bind]. rewrite Hx, ?length_map. reflexivity.
Qed.

(** ** [split] *)

Lemma janet_string_cases buf a n :
  janet_string buf a n = Fault \/ exists r, janet_string buf a n = Ret r.
Proof.
  unfold janet_string, memcpy.
  destruct (_ && _); [right; eexists; reflexivity|left; reflexivity].
Qed.

Lemma limited_nil limit : limited limit [] = [].
Proof. unfold limited. destruct (limit <? 0); [|rewrite firstn_nil]; reflexivity. Qed.

Lemma limited_zero occs : limited 0 occs = [].
Proof. reflexivity. Qed.

Lemma limited_cons limit o rest :
  limit <> 0 -> limited limit (o :: rest) = o :: limited (limit - 1) rest.
Proof.
  intros Hne. unfold limited.
  destruct (Z.ltb_spec limit 0), (Z.ltb_spec (limit - 1) 0); try lia;
    [reflexivity|].
  replace (Z.to_nat limit) with (S (Z.to_nat (limit - 1))) by lia.
  reflexivity.
Qed.

Section Split.
Variables P T : list Z.
Variable st : kmp_state.
Hypothesis Hst : state_ok P T st.
Hypothesis HP : P <> [].

(** The end of [cfun_string_split], after the loop. *)
Let finish (r : outcome (list Janet * Z)) : outcome (list Janet) :=
  r' <- r;;
  piece <- janet_string T (snd r') (len T - snd r');;
  Ret (fst r' ++ [janet_wrap_string piece]).

Lemma split_loop_spec :
  forall fuel lo ci cj array limit last,
    cursor_inv P T lo ci cj ->
    (Z.to_nat (len T - ci) < fuel)%nat ->
    0 <= last <= len T ->
    (forall o, lo <= o -> occurs_at P T o -> last <= o) ->
    no_overlap P T lo ->
    (limit < 0 -> INT32_MIN <= limit - (len T - lo)) ->
    finish (split_loop fuel (set_cursor st ci cj) array limit last)
    = Ret (array ++ map janet_wrap_string
                      (pieces T (len P) last
                         (limited limit (all_occurrences P T lo)))).
Proof.
  pose proof Hst as (Et & Ep & Etl & Epl & Htab).
  pose proof (nonempty_len P HP) as Hm.
  induction fuel as [|fuel IH];
    intros lo ci cj array limit last Hinv Hf Hl Hlast Hno Hlim; [lia|].
  cbn [split_loop].
  destruct (kmp_next_spec P T st Hst lo ci cj Hinv)
    as [[E H]|(o & l & E & Hleft & Hadv & Hinv')]; rewrite E; cbn [bind].
  - cbn [Z.geb Z.compare]. unfold finish. cbn [bind fst snd].
    rewrite janet_string_slice by lia. cbn [bind].
    rewrite all_occurrences_none by exact H. rewrite limited_nil.
    reflexivity.
  - pose proof Hleft as (Hlo & Hocc & _).
    pose proof Hocc as (Ho & Hon & _).
    destruct (Z.geb_spec o 0); [|lia].
    rewrite (all_occurrences_leftmost P T lo o) by exact Hleft.
    destruct (Z.eqb_spec limit INT32_MIN) as [Emin|_].
    { exfalso. unfold INT32_MIN in *. lia. }
    destruct (Z.eqb_spec limit 0) as [->|Hne]; cbn [negb].
    + unfold finish. cbn [bind fst snd].
      rewrite janet_string_slice by lia. reflexivity.
    + cbn [set_cursor text patlen]. rewrite Et, Epl.
      rewrite janet_string_slice by (pose proof (Hlast o Hlo Hocc); lia).
      cbn [bind].
      change (set_cursor st (o + len P) l)
        with (set_cursor st (o + len P) l).
      rewrite (IH (o + 1) (o + len P) l); try lia.
      * rewrite limited_cons by exact Hne. cbn [pieces map].
        now rewrite <- app_assoc.
      * exact Hinv'.
      * intros o' Ho' Hocc'. apply (Hno o o'); auto; lia.
      * intros a b Ha Hab Hoa Hob. apply (Hno a b); auto; lia.
Qed.

(** Once an occurrence begins before [lastindex], the next hit asks for
    a string of negative length. *)
Lemma split_loop_behind :
  forall fuel lo ci cj array limit last o',
    cursor_inv P T lo ci cj ->
    limit < 0 ->
    lo <= o' -> o' < last -> occurs_at P T o' ->
    fuel <> O ->
    split_loop fuel (set_cursor st ci cj) array limit last = Fault.
Proof.
  pose proof Hst as (Et & Ep & Etl & Epl & Htab).
  intros fuel lo ci cj array limit last o' Hinv Hlim Hlo Hlt Hocc Hf.
  destruct fuel as [|fuel]; [congruence|]. cbn [split_loop].
  destruct (kmp_next_spec P T st Hst lo ci cj Hinv)
    as [[E H]|(o & l & E & Hleft & Hadv & Hinv')]; rewrite E; cbn [bind].
  - exfalso. exact (H o' Hlo Hocc).
  - pose proof Hleft as (Hlo1 & (Ho & _) & Hfirst).
    destruct (Z.geb_spec o 0); [|lia].
    destruct (limit =? INT32_MIN); [reflexivity|].
    destruct (Z.eqb_spec limit 0); [lia|]. cbn [negb].
    assert (o <= o') as Hle.
    { destruct (Z_lt_le_dec o' o) as [Hc|Hc]; [|exact Hc].
      exfalso. apply (Hfirst o'); auto; lia. }
    rewrite janet_string_negative by lia. reflexivity.
Qed.

Lemma split_loop_overlap :
  forall fuel lo ci cj array limit last o o',
    cursor_inv P T lo ci cj ->
    (Z.to_nat (len T - ci) < fuel)%nat ->
    limit < 0 ->
    lo <= o -> o < o' -> o' < o + len P ->
    occurs_at P T o -> occurs_at P T o' ->
    split_loop fuel (set_cursor st ci cj) array limit last = Fault.
Proof.
  pose proof Hst as (Et & Ep & Etl & Epl & Htab).
  pose proof (nonempty_len P HP) as Hm.
  induction fuel as [|fuel IH];
    intros lo ci cj array limit last o o' Hinv Hf Hlim Hlo Hoo Hov Hocc Hocc';
    [lia|].
  cbn [split_loop].
  destruct (kmp_next_spec P T st Hst lo ci cj Hinv)
    as [[E H]|(o1 & l & E & Hleft & Hadv & Hinv')]; rewrite E; cbn [bind].
  - exfalso. exact (H o Hlo Hocc).
  - pose proof Hleft as (Hlo1 & (Ho1 & Hon1 & _) & Hfirst).
    destruct (Z.geb_spec o1 0); [|lia].
    destruct (limit =? INT32_MIN); [reflexivity|].
    destruct (Z.eqb_spec limit 0); [lia|]. cbn [negb].
    destruct (janet_string_cases (text (set_cursor st (o1 + len P) l)) last
                (o1 - last)) as [->|(r & ->)]; [reflexivity|].
    cbn [bind]. cbn [set_cursor patlen]. rewrite Epl.
    assert (o1 <= o) as Hle.
    { destruct (Z_lt_le_dec o o1) as [Hc|Hc]; [|exact Hc].
      exfalso. apply (Hfirst o); auto; lia. }
    destruct (Z.eq_dec o1 o) as [->|Hne].
    + apply (split_loop_behind fuel (o + 1) (o + len P) l _ _ _ o');
        auto; lia.
    + apply (IH (o1 + 1) (o1 + len P) l _ _ _ o o'); auto; lia.
Qed.
End Split.

Lemma all_occurrences_past_end P T s :
  P <> [] -> len T < s -> all_occurrences P T s = [].
Proof.
  intros HP Hs. apply all_occurrences_none.
  apply no_occurrence_past_end; auto; lia.
Qed.

Lemma cfun_string_split_nonempty P T s olimit :
  P <> [] -> 0 <= s -> no_overlap P T s ->
  (split_limit olimit < 0 -> INT32_MIN <= split_limit olimit - len T) ->
  cfun_string_split P T (Some (s, olimit)) =
    Ret (janet_wrap_array
           (map janet_wrap_string
              (pieces T (len P) 0
                 (limited (split_limit olimit) (all_occurrences P T s))))).
Proof.
  intros HP Hs Hno Hlim.
  destruct (findsetup_spec P T s Hs) as (st & Hst & E).
  pose proof Hst as (Et & Ep & Etl & Epl & Htab).
  unfold cfun_string_split. cbn [option_map fst]. rewrite E. cbn [bind].
  assert (match olimit with Some l => l | None => -1 end = split_limit olimit)
    as Elim by reflexivity.
  assert (forall r : outcome (list Janet * Z),
             (r' <- r;;
              (let (array, lastindex) := r' in
               piece <- janet_string (text (set_cursor st s 0)) lastindex
                          (textlen (set_cursor st s 0) - lastindex);;
               Ret (janet_wrap_array (array ++ [janet_wrap_string piece]))))
             = (a <- (r' <- r;;
                      piece <- janet_string T (snd r') (len T - snd r');;
                      Ret (fst r' ++ [janet_wrap_string piece]));;
                Ret (janet_wrap_array a))) as Hshape.
  { intros [[array lastindex]| | |]; cbn [bind fst snd set_cursor text textlen];
      try reflexivity.
    rewrite Et, Etl. destruct (janet_string T lastindex (len T - lastindex));
      reflexivity. }
  rewrite Hshape. clear Hshape. fold (split_limit olimit).
  pose proof (len_nonneg T) as HT.
  destruct (Z_lt_le_dec (len T) s) as [Hgt|Hle].
  - cbn [split_loop]. rewrite (kmp_next_past_end P T st Hst s 0) by lia.
    cbn [bind]. cbn [Z.geb Z.compare bind fst snd].
    rewrite janet_string_slice by lia. cbn [bind app].
    rewrite all_occurrences_past_end, limited_nil by auto. reflexivity.
  - pose proof (split_loop_spec P T st Hst HP (S (length T)) s s 0 []
                  (split_limit olimit) 0) as Hspec.
    cbv beta zeta in Hspec. rewrite Hspec.
    + reflexivity.
    + apply cursor_inv_start; auto; lia.
    + unfold len. lia.
    + lia.
    + intros o Ho (Ho' & _). lia.
    + exact Hno.
    + intros Hl. specialize (Hlim Hl). lia.
Qed.

Lemma cfun_string_split_overlap P T s olimit o o' :
  P <> [] -> 0 <= s -> split_limit olimit < 0 ->
  s <= o -> o < o' -> o' < o + len P ->
  occurs_at P T o -> occurs_at P T o' ->
  cfun_string_split P T (Some (s, olimit)) = Fault.
Proof.
  intros HP Hs Hlim Hso Hoo Hov Hocc Hocc'.
  destruct (findsetup_spec P T s Hs) as (st & Hst & E).
  unfold cfun_string_split. cbn [option_map fst]. rewrite E. cbn [bind].
  assert (match olimit with Some l => l | None => -1 end = split_limit olimit)
    as -> by reflexivity.
  pose proof Hocc as (_ & Hon & _). pose proof (nonempty_len P HP).
  rewrite (split_loop_overlap P T st Hst HP (S (length T)) s s 0 []
             (split_limit olimit) 0 o o'); auto.
  - apply cursor_inv_start; auto; lia.
  - unfold len in *. lia.
Qed.

(** ** [split] and [join] *)

Lemma firstn_plus {A} n m (l : list A) :
  firstn (n + m) l = firstn n l ++ firstn m (skipn n l).
Proof.
  revert l. induction n as [|n IH]; intros l; [reflexivity|].
  destruct l as [|a l]; cbn [Nat.add firstn skipn app].
  - now rewrite firstn_nil.
  - now rewrite IH.
Qed.

Lemma slice_app T a n m :
  0 <= a -> 0 <= n -> 0 <= m ->
  slice T a (n + m) = slice T a n ++ slice T (a + n) m.
Proof.
  intros Ha Hn Hm. unfold slice.
  rewrite Z2Nat.inj_add, firstn_plus by lia. f_equal.
  rewrite skipn_skipn. f_equal. f_equal. lia.
Qed.

Section Pieces.
Variables P T : list Z.




Lemma pieces_nonempty m : forall occs last, pieces T m last occs <> [].
Proof. intros [|o rest] last; discriminate. Qed.

End Pieces.

Lemma cfun_string_split_default P T :
  cfun_string_split P T None = cfun_string_split P T (Some (0, None)).
Proof. reflexivity. Qed.


(** ** [check-set] *)

Lemma byte_index c : 0 <= c < 256 -> 0 <= Z.shiftr c 5 < 8.
Proof.
  intros H. rewrite Z.shiftr_div_pow2 by lia. change (2 ^ 5) with 32.
  split; [apply Z.div_pos; lia|apply Z.div_lt_upper_bound; lia].
Qed.

Lemma byte_bit c : 0 <= Z.land c 7 < 8.
Proof.
  change 7 with (Z.ones 3). rewrite Z.land_ones by lia.
  change (2 ^ 3) with 8. apply Z.mod_pos_bound. lia.
Qed.

Lemma testbit_mask b n : 0 <= b -> Z.testbit (Z.shiftl 1 b) n = (b =? n).
Proof.
  intros Hb. rewrite Z.shiftl_1_l. now apply Z.pow2_bits_eqb.
Qed.

Lemma land_mask_zero w b :
  0 <= b -> (Z.land w (Z.shiftl 1 b) =? 0) = negb (Z.testbit w b).
Proof.
  intros Hb. destruct (Z.testbit w b) eqn:E; cbn [negb].
  - apply Z.eqb_neq. intros H.
    apply (f_equal (fun z => Z.testbit z b)) in H.
    rewrite Z.land_spec, E, testbit_mask, Z.eqb_refl, Z.bits_0 in H by lia.
    discriminate.
  - apply Z.eqb_eq. apply Z.bits_inj'. intros n Hn.
    rewrite Z.land_spec, testbit_mask, Z.bits_0 by lia.
    destruct (Z.eqb_spec b n) as [->|]; [now rewrite E|apply andb_false_r].
Qed.

Lemma bit_in_app c l1 l2 : bit_in c (l1 ++ l2) = bit_in c l1 || bit_in c l2.
Proof. unfold bit_in. apply existsb_app. Qed.

Lemma set_in_range l k v :
  0 <= k < len l -> set l k v = Ret (upd l (Z.to_nat k) v).
Proof.
  intros H. unfold set.
  destruct (Z.leb_spec 0 k); [|lia]. destruct (Z.ltb_spec k (len l)); [|lia].
  reflexivity.
Qed.

Lemma checkset_populate_spec :
  forall rest done bitset,
    len bitset = 8 -> is_bytes rest ->
    (forall c, 0 <= c < 256 -> member bitset c = bit_in c done) ->
    exists bitset',
      checkset_populate (length rest) (done ++ rest) bitset (len done)
      = Ret bitset'
      /\ len bitset' = 8
      /\ forall c, 0 <= c < 256 -> member bitset' c = bit_in c (done ++ rest).
Proof.
  induction rest as [|c0 rest IH]; intros done bitset Hl Hb Hinv.
  - exists bitset. rewrite app_nil_r. auto.
  - inversion Hb as [|? ? Hc0 Hrest]; subst. cbn [length checkset_populate].
    rewrite get_app_mid. cbn [bind].
    pose proof (byte_index c0 Hc0) as Hi. pose proof (byte_bit c0) as Hbit.
    rewrite get_rd by lia. cbn [bind].
    rewrite set_in_range by lia. cbn [bind].
    replace (len done + 1) with (len (done ++ [c0]))
      by (rewrite len_app; unfold len; cbn [length]; lia).
    replace (done ++ c0 :: rest) with ((done ++ [c0]) ++ rest)
      by (now rewrite <- app_assoc).
    apply IH; [now rewrite len_upd|exact Hrest|].
    intros c Hc. rewrite bit_in_app. unfold bit_in at 2.
    cbn [existsb]. rewrite orb_false_r. rewrite <- (Hinv c Hc).
    unfold member, same_bit.
    pose proof (byte_index c Hc) as Hci. pose proof (byte_bit c) as Hcb.
    destruct (Z.eqb_spec (Z.shiftr c 5) (Z.shiftr c0 5)) as [E|E].
    + rewrite E, rd_upd_same by lia.
      rewrite Z.lor_spec, testbit_mask by lia. cbn [andb].
      now rewrite (Z.eqb_sym (Z.land c0 7)).
    + rewrite rd_upd_other by lia. cbn [andb]. now rewrite orb_false_r.
Qed.

Lemma testbit_lnot_mod w b :
  0 <= b < 32 -> Z.testbit (Z.lnot w mod 2 ^ 32) b = negb (Z.testbit w b).
Proof.
  intros Hb. rewrite Z.mod_pow2_bits_low by lia. apply Z.lnot_spec. lia.
Qed.

Lemma checkset_invert_spec bitset :
  len bitset = 8 ->
  exists bitset',
    checkset_invert 8 bitset 0 = Ret bitset'
    /\ len bitset' = 8
    /\ forall c, 0 <= c < 256 -> member bitset' c = negb (member bitset c).
Proof.
  intros Hl.
  destruct bitset as [|w0 [|w1 [|w2 [|w3 [|w4 [|w5 [|w6 [|w7 [|w8 r]]]]]]]]];
    try discriminate.
  2:{ unfold len in Hl. cbn [length] in Hl. lia. }
  eexists. split; [reflexivity|]. split; [reflexivity|].
  intros c Hc. unfold member.
  pose proof (byte_index c Hc) as Hi. pose proof (byte_bit c) as Hb.
  assert (Z.shiftr c 5 = 0 \/ Z.shiftr c 5 = 1 \/ Z.shiftr c 5 = 2
          \/ Z.shiftr c 5 = 3 \/ Z.shiftr c 5 = 4 \/ Z.shiftr c 5 = 5
          \/ Z.shiftr c 5 = 6 \/ Z.shiftr c 5 = 7) as Hcase by lia.
  destruct Hcase as [E|[E|[E|[E|[E|[E|[E|E]]]]]]]; rewrite E;
    apply testbit_lnot_mod; lia.
Qed.

Lemma checkset_check_spec bitset :
  len bitset = 8 ->
  forall rest done,
    is_bytes rest ->
    checkset_check (length rest) (done ++ rest) bitset (len done)
    = Ret (forallb (member bitset) rest).
Proof.
  intros Hl. induction rest as [|c0 rest IH]; intros done Hb; [reflexivity|].
  inversion Hb as [|? ? Hc0 Hrest]; subst. cbn [length checkset_check].
  rewrite get_app_mid. cbn [bind].
  pose proof (byte_index c0 Hc0) as Hi. pose proof (byte_bit c0) as Hbit.
  rewrite get_rd by lia. cbn [bind].
  rewrite land_mask_zero by lia. cbn [forallb]. fold (member bitset c0).
  destruct (member bitset c0); cbn [negb andb]; [|reflexivity].
  replace (len done + 1) with (len (done ++ [c0]))
    by (rewrite len_app; unfold len; cbn [length]; lia).
  replace (done ++ c0 :: rest) with ((done ++ [c0]) ++ rest)
    by (now rewrite <- app_assoc).
  now apply IH.
Qed.

Lemma forallb_bytes_ext (f g : Z -> bool) l :
  is_bytes l -> (forall c, 0 <= c < 256 -> f c = g c) ->
  forallb f l = forallb g l.
Proof.
  intros Hb Hfg. induction Hb as [|c l Hc Hl IH]; [reflexivity|].
  cbn [forallb]. now rewrite Hfg, IH.
Qed.

Lemma cfun_string_checkset_spec cset str invert :
  is_bytes cset -> is_bytes str ->
  cfun_string_checkset cset str invert =
    Ret (forallb (fun c => if inverted invert then negb (bit_in c cset)
                           else bit_in c cset) str).
Proof.
  intros Hc Hs. unfold cfun_string_checkset.
  assert (forall c, 0 <= c < 256 ->
             member [0; 0; 0; 0; 0; 0; 0; 0] c = bit_in c []) as H0.
  { intros c Hcb. unfold member, bit_in. cbn [existsb].
    pose proof (byte_index c Hcb) as Hi.
    assert (rd [0; 0; 0; 0; 0; 0; 0; 0] (Z.shiftr c 5) = 0) as ->.
    { unfold rd. destruct (Z.to_nat (Z.shiftr c 5)) as [|[|[|[|[|[|[|[|n]]]]]]]];
        try reflexivity. now destruct n. }
    apply Z.bits_0. }
  destruct (checkset_populate_spec cset [] [0; 0; 0; 0; 0; 0; 0; 0]
              eq_refl Hc H0) as (b1 & E1 & L1 & M1).
  cbn [app] in E1, M1. change (len []) with 0 in E1. rewrite E1. cbn [bind].
  assert (exists b2,
             match invert with
             | Some true => checkset_invert 8 b1 0
             | _ => Ret b1
             end = Ret b2
             /\ len b2 = 8
             /\ forall c, 0 <= c < 256 ->
                  member b2 c = if inverted invert then negb (bit_in c cset)
                                else bit_in c cset) as (b2 & E2 & L2 & M2).
  { destruct invert as [[|]|]; cbn [inverted]; try solve [exists b1; auto].
    destruct (checkset_invert_spec b1 L1) as (b2 & E2 & L2 & M2).
    exists b2. split; [exact E2|]. split; [exact L2|].
    intros c Hcb. now rewrite M2, M1. }
  rewrite E2. cbn [bind].
  pose proof (checkset_check_spec b2 L2 str [] Hs) as H.
  cbn [app] in H. change (len []) with 0 in H. rewrite H.
  f_equal. apply forallb_bytes_ext; auto.
Qed.

(** Two bytes that differ in bits 3 and 4 only have the same bit. *)
Lemma same_bit_lxor c s :
  In (Z.lxor c s) [8; 16; 24] -> same_bit c s = true.
Proof.
  intros Hx.
  assert (forall n, 0 <= n -> n <> 3 -> n <> 4 ->
            Z.testbit (Z.lxor c s) n = false) as Hbits.
  { intros n Hn H3 H4.
    destruct (Z_lt_le_dec n 5) as [Hlt|Hge].
    - assert (n = 0 \/ n = 1 \/ n = 2) as [->|[->| ->]] by lia;
        destruct Hx as [<-|[<-|[<-|[]]]]; reflexivity.
    - apply Z.bits_above_log2.
      + destruct Hx as [<-|[<-|[<-|[]]]]; lia.
      + destruct Hx as [<-|[<-|[<-|[]]]]; cbn; lia. }
  assert (forall n, 0 <= n -> n <> 3 -> n <> 4 ->
            Z.testbit c n = Z.testbit s n) as Heq.
  { intros n Hn H3 H4. specialize (Hbits n Hn H3 H4).
    rewrite Z.lxor_spec in Hbits.
    destruct (Z.testbit c n), (Z.testbit s n); auto; discriminate. }
  unfold same_bit. apply andb_true_iff. split; apply Z.eqb_eq.
  - apply Z.bits_inj'. intros n Hn. rewrite !Z.shiftr_spec by lia.
    apply Heq; lia.
  - apply Z.bits_inj'. intros n Hn. rewrite !Z.land_spec.
    destruct (Z_lt_le_dec n 3) as [Hlt|Hge].
    + rewrite Heq by lia. reflexivity.
    + replace (Z.testbit 7 n) with false; [now rewrite !andb_false_r|].
      symmetry. apply Z.bits_above_log2; [lia|]. cbn. lia.
Qed.

(** ** Comparison *)

Lemma lex_lt_irrefl a : ~ lex_lt a a.
Proof.
  induction a as [|x a IH]; cbn [lex_lt]; [tauto|].
  intros [H|[_ H]]; [lia|auto].
Qed.

Lemma lex_lt_asym a : forall b, lex_lt a b -> ~ lex_lt b a.
Proof.
  induction a as [|x a IH]; intros [|y b]; cbn [lex_lt]; try tauto.
  intros [H|[-> H]] [H'|[E' H']]; try lia. exact (IH b H H').
Qed.

Lemma lex_lt_trans a : forall b c, lex_lt a b -> lex_lt b c -> lex_lt a c.
Proof.
  induction a as [|x a IH]; intros [|y b] [|z c]; cbn [lex_lt]; try tauto.
  intros [H|[-> H]] [H'|[-> H']]; try (left; lia).
  right. split; [reflexivity|]. exact (IH b c H H').
Qed.

Lemma lex_lt_total a : forall b, lex_lt a b \/ a = b \/ lex_lt b a.
Proof.
  induction a as [|x a IH]; intros [|y b]; cbn [lex_lt]; auto.
  destruct (Z.lt_trichotomy x y) as [H|[->|H]]; auto.
  destruct (IH b) as [H|[->|H]]; auto.
Qed.

(** The first difference of two strings over their common length, and
    the lengths when there is none, order them lexicographically. *)
Lemma first_difference_lex a :
  forall b,
    let d := first_difference a b (Nat.min (length a) (length b)) in
    (d < 0 -> lex_lt a b) /\ (0 < d -> lex_lt b a) /\
    (d = 0 ->
     ((length a < length b)%nat -> lex_lt a b) /\
     (length a = length b -> a = b) /\
     ((length b < length a)%nat -> lex_lt b a)).
Proof.
  induction a as [|x a IH]; intros [|y b]; cbn [length Nat.min first_difference lex_lt];
    try (repeat split; intros; try lia; auto; discriminate).
  destruct (Z.eqb_spec x y) as [->|Hne].
  - destruct (IH b) as (H1 & H2 & H3). repeat split; intros.
    + right. auto.
    + right. auto.
    + right. split; [reflexivity|]. apply H3; auto; lia.
    + f_equal. apply H3; auto; lia.
    + right. split; [reflexivity|]. apply H3; auto; lia.
  - repeat split; intros; try lia; left; lia.
Qed.

Section Compare.
Variable memcmp : list Z -> list Z -> Z -> Z.
Hypothesis Hmemcmp : memcmp_spec memcmp.

Lemma janet_string_compare_forward a b :
  let r := janet_string_compare memcmp a b in
  (r < 0 -> lex_lt a b) /\ (r = 0 -> a = b) /\ (0 < r -> lex_lt b a).
Proof.
  unfold janet_string_compare.
  set (n := if len a >? len b then len b else len a).
  assert (Z.to_nat n = Nat.min (length a) (length b)) as En.
  { unfold n, len. destruct (Z.gtb_spec (Z.of_nat (length a))
                               (Z.of_nat (length b))); lia. }
  assert (0 <= n <= len a /\ n <= len b) as (Hn1 & Hn2).
  { unfold n. pose proof (len_nonneg a). pose proof (len_nonneg b).
    destruct (Z.gtb_spec (len a) (len b)); lia. }
  pose proof (Hmemcmp a b n Hn1 Hn2) as Hs. rewrite En in Hs.
  destruct (first_difference_lex a b) as (H1 & H2 & H3).
  set (d := first_difference a b (Nat.min (length a) (length b))) in *.
  destruct (Z.eqb_spec (memcmp a b n) 0) as [E|E]; cbn [negb].
  - rewrite E in Hs. cbn [Z.sgn] in Hs.
    assert (d = 0) as Hd by (destruct d; cbn in Hs; congruence).
    destruct (H3 Hd) as (L1 & L2 & L3).
    destruct (Z.eqb_spec (len a) (len b)) as [El|El].
    + repeat split; intros; try lia. apply L2. unfold len in El. lia.
    + destruct (Z.ltb_spec (len a) (len b)); repeat split; intros; try lia.
      * apply L1. unfold len in *. lia.
      * apply L3. unfold len in *. lia.
  - repeat split; intros Hr.
    + apply H1. destruct (memcmp a b n), d; cbn in Hs; try lia; congruence.
    + congruence.
    + apply H2. destruct (memcmp a b n), d; cbn in Hs; try lia; congruence.
Qed.

Lemma janet_string_compare_lex a b :
  (janet_string_compare memcmp a b < 0 <-> lex_lt a b)
  /\ (janet_string_compare memcmp a b = 0 <-> a = b)
  /\ (0 < janet_string_compare memcmp a b <-> lex_lt b a).
Proof.
  destruct (janet_string_compare_forward a b) as (F1 & F2 & F3).
  set (r := janet_string_compare memcmp a b) in *.
  repeat split; auto; intros H.
  - destruct (Z.lt_trichotomy r 0) as [Hr|[Hr|Hr]]; [exact Hr| |].
    + exfalso. rewrite (F2 Hr) in H. exact (lex_lt_irrefl _ H).
    + exfalso. exact (lex_lt_asym _ _ H (F3 Hr)).
  - destruct (Z.lt_trichotomy r 0) as [Hr|[Hr|Hr]]; [|exact Hr|].
    + exfalso. subst b. exact (lex_lt_irrefl _ (F1 Hr)).
    + exfalso. subst b. exact (lex_lt_irrefl _ (F3 Hr)).
  - destruct (Z.lt_trichotomy r 0) as [Hr|[Hr|Hr]]; [| |exact Hr].
    + exfalso. exact (lex_lt_asym _ _ H (F1 Hr)).
    + exfalso. rewrite (F2 Hr) in H. exact (lex_lt_irrefl _ H).
Qed.

Lemma janet_string_compare_antisym a b :
  Z.sgn (janet_string_compare memcmp b a)
  = - Z.sgn (janet_string_compare memcmp a b).
Proof.
  destruct (janet_string_compare_lex a b) as (A1 & A2 & A3).
  destruct (janet_string_compare_lex b a) as (B1 & B2 & B3).
  destruct (Z.lt_trichotomy (janet_string_compare memcmp a b) 0)
    as [Hr|[Hr|Hr]].
  - assert (0 < janet_string_compare memcmp b a) by (apply B3, A1, Hr).
    rewrite (Z.sgn_neg _ Hr), Z.sgn_pos by lia. reflexivity.
  - assert (janet_string_compare memcmp b a = 0) as E
        by (apply B2; symmetry; apply A2, Hr).
    rewrite Hr, E. reflexivity.
  - assert (janet_string_compare memcmp b a < 0) by (apply B1, A3, Hr).
    rewrite (Z.sgn_pos _ Hr), Z.sgn_neg by lia. reflexivity.
Qed.

Lemma janet_string_compare_trans a b c :
  janet_string_compare memcmp a b <= 0 ->
  janet_string_compare memcmp b c <= 0 ->
  janet_string_compare memcmp a c <= 0.
Proof.
  destruct (janet_string_compare_lex a b) as (A1 & A2 & A3).
  destruct (janet_string_compare_lex b c) as (B1 & B2 & B3).
  destruct (janet_string_compare_lex a c) as (C1 & C2 & C3).
  intros Hab Hbc.
  destruct (Z_le_gt_dec (janet_string_compare memcmp a c) 0) as [H|H];
    [exact H|exfalso].
  assert (lex_lt c a) as Hca by (apply C3; lia).
  assert (lex_lt a b \/ a = b) as [Hl| ->]
      by (destruct (Z.eq_dec (janet_string_compare memcmp a b) 0);
          [right; apply A2; auto|left; apply A1; lia]).
  - assert (lex_lt b c \/ b = c) as [Hl'| ->]
        by (destruct (Z.eq_dec (janet_string_compare memcmp b c) 0);
            [right; apply B2; auto|left; apply B1; lia]).
    + exact (lex_lt_asym _ _ (lex_lt_trans _ _ _ Hl Hl') Hca).
    + exact (lex_lt_asym _ _ Hl Hca).
  - assert (lex_lt b c \/ b = c) as [Hl'| ->]
        by (destruct (Z.eq_dec (janet_string_compare memcmp b c) 0);
            [right; apply B2; auto|left; apply B1; lia]).
    + exact (lex_lt_asym _ _ Hl' Hca).
    + exact (lex_lt_irrefl _ Hca).
Qed.

Lemma first_difference_same a : forall n, first_difference a a n = 0.
Proof.
  induction a as [|x a IH]; intros [|n]; cbn [first_difference]; auto.
  now rewrite Z.eqb_refl.
Qed.

Lemma janet_string_equal_spec lhs rhs :
  (address lhs = address rhs -> data lhs = data rhs) ->
  (data lhs = data rhs -> hash lhs = hash rhs) ->
  janet_string_equal memcmp lhs rhs
  = if list_eq_dec Z.eq_dec (data lhs) (data rhs) then 1 else 0.
Proof.
  intros Haddr Hhash. unfold janet_string_equal, janet_string_equalconst.
  destruct (Z.eqb_spec (address lhs) (address rhs)) as [E|E].
  { destruct (list_eq_dec Z.eq_dec (data lhs) (data rhs)); auto.
    exfalso. auto. }
  destruct (Z.eqb_spec (hash lhs) (hash rhs)) as [Eh|Eh]; cbn [negb orb].
  2:{ destruct (list_eq_dec Z.eq_dec (data lhs) (data rhs)); auto.
      exfalso. auto. }
  destruct (Z.eqb_spec (len (data lhs)) (len (data rhs))) as [El|El];
    cbn [negb].
  2:{ destruct (list_eq_dec Z.eq_dec (data lhs) (data rhs)) as [Ed|]; auto.
      exfalso. rewrite Ed in El. auto. }
  pose proof (Hmemcmp (data lhs) (data rhs) (len (data rhs))
                ltac:(pose proof (len_nonneg (data rhs)); lia)
                ltac:(lia)) as Hs.
  destruct (first_difference_lex (data lhs) (data rhs)) as (H1 & H2 & H3).
  replace (Z.to_nat (len (data rhs)))
    with (Nat.min (length (data lhs)) (length (data rhs))) in Hs
    by (unfold len in *; lia).
  set (d := first_difference (data lhs) (data rhs)
              (Nat.min (length (data lhs)) (length (data rhs)))) in *.
  destruct (list_eq_dec Z.eq_dec (data lhs) (data rhs)) as [Ed|Ed].
  - assert (d = 0) as Hd
        by (unfold d; rewrite Ed; apply first_difference_same).
    rewrite Hd in Hs. cbn [Z.sgn] in Hs.
    destruct (memcmp (data lhs) (data rhs) (len (data rhs)));
      cbn in Hs; try discriminate. reflexivity.
  - destruct (Z.eqb_spec (memcmp (data lhs) (data rhs) (len (data rhs))) 0)
      as [E0|E0]; [|reflexivity].
    exfalso. rewrite E0 in Hs. cbn [Z.sgn] in Hs.
    assert (d = 0) as Hd by (destruct d; cbn in Hs; congruence).
    apply Ed. apply (H3 Hd). unfold len in El. lia.
Qed.
End Compare.

Lemma memcmp_difference_spec : memcmp_spec memcmp_difference.
Proof. intros a b n _ _. reflexivity. Qed.

(** ** More on the exact search *)

(** Putting the pattern back where it was changes nothing. *)
Lemma splice_pattern P T :
  forall s occs,
    nonoverlapping P T s occs ->
    forall last, 0 <= last <= s -> last <= len T ->
      splice T P (len P) last occs = slice T last (len T - last).
Proof.
  pose proof (len_nonneg P) as Hm.
  induction 1 as [s Hn|s o rest Hleft Hrest IH]; intros last Hl Hle;
    [reflexivity|].
  cbn [splice]. destruct Hleft as (Hso & (Ho & Hon & Hsl) & _).
  rewrite IH by lia.
  replace (len T - last)
    with ((o - last) + (len P + (len T - (o + len P)))) by lia.
  rewrite slice_app by lia. rewrite slice_app by lia.
  replace (last + (o - last)) with o by lia. now rewrite Hsl.
Qed.

Lemma replace_same P T s :
  P <> [] -> 0 <= s ->
  cfun_string_replace P P T (Some s) = Ret (janet_wrap_string T).
Proof.
  intros HP Hs. destruct (replace_nonempty P P T s HP Hs) as [H1 H2].
  destruct (find_nonempty P T s HP Hs) as [[_ Hno]|(o & _ & Hleft)].
  - now apply H1.
  - rewrite (H2 o Hleft).
    replace (len T - len P + len P) with (len T) by lia.
    rewrite int32_overflow_operand by (now left).
    destruct Hleft as (_ & (Ho & Hon & Hsl) & _).
    pose proof (len_nonneg P) as Hm. do 2 f_equal.
    transitivity (slice T 0 (o + (len P + (len T - (o + len P))))).
    2:{ replace (o + (len P + (len T - (o + len P)))) with (len T) by lia.
        apply slice_all. }
    rewrite slice_app by lia. rewrite slice_app by lia.
    replace (0 + o) with o by lia. rewrite Hsl.
    replace (len T - o - len P) with (len T - (o + len P)) by lia.
    reflexivity.
Qed.

Lemma replaceall_same P T s :
  P <> [] -> 0 <= s ->
  cfun_string_replaceall P P T (Some s) = Ret (janet_wrap_string T).
Proof.
  intros HP Hs.
  destruct (replace_all_nonempty P P T s HP Hs)
    as (occs & result & Hocc & -> & _ & E).
  rewrite E, (splice_pattern P T s occs Hocc 0)
    by (pose proof (len_nonneg T); lia).
  replace (len T - 0) with (len T) by lia. rewrite slice_all.
  apply buffer_string_operand. now left.
Qed.

(** [find] answers with the first offset of [find-all]. *)
Lemma find_first_of_findall P T s :
  P <> [] -> 0 <= s ->
  cfun_string_find P T (Some s) =
    Ret (match all_occurrences P T s with
         | [] => janet_wrap_nil
         | o :: _ => janet_wrap_integer o
         end).
Proof.
  intros HP Hs.
  destruct (find_nonempty P T s HP Hs) as [[E Hno]|(o & E & Hleft)]; rewrite E.
  - now rewrite all_occurrences_none.
  - now rewrite (all_occurrences_leftmost P T s o Hleft).
Qed.

(** ** A start offset at or past the end *)

Section PastEnd.
Variables P T : list Z.
Variable s : Z.
Hypothesis Hs : len T <= s.

Lemma start_nonneg : 0 <= s.
Proof. pose proof (len_nonneg T). lia. Qed.

Lemma find_past_end : cfun_string_find P T (Some s) = Ret janet_wrap_nil.
Proof.
  destruct (findsetup_spec P T s start_nonneg) as (st & Hst & E).
  unfold cfun_string_find. rewrite E. cbn [bind].
  now rewrite (kmp_next_past_end P T st Hst s 0 Hs).
Qed.

Lemma findall_past_end :
  cfun_string_findall P T (Some s) = Ret (janet_wrap_array []).
Proof.
  destruct (findsetup_spec P T s start_nonneg) as (st & Hst & E).
  unfold cfun_string_findall. rewrite E. cbn [bind findall_loop].
  now rewrite (kmp_next_past_end P T st Hst s 0 Hs).
Qed.

Lemma replace_past_end S :
  cfun_string_replace P S T (Some s) = Ret (janet_wrap_string T).
Proof.
  destruct (replacesetup_spec P S T s start_nonneg) as (st & Hst & E).
  pose proof Hst as (Et & _ & Etl & _).
  unfold cfun_string_replace. rewrite E. cbn [bind kmp].
  rewrite (kmp_next_past_end P T st Hst s 0 Hs).
  cbn [bind fst Z.ltb Z.compare set_cursor text textlen].
  now rewrite Et, Etl, slice_all.
Qed.

Lemma replaceall_past_end S :
  cfun_string_replaceall P S T (Some s) = Ret (janet_wrap_string T).
Proof.
  destruct (replacesetup_spec P S T s start_nonneg) as (st & Hst & E).
  pose proof Hst as (Et & _ & Etl & _).
  unfold cfun_string_replaceall. rewrite E. cbn [bind kmp replaceall_loop].
  rewrite (kmp_next_past_end P T st Hst s 0 Hs).
  cbn [bind Z.geb Z.compare set_cursor text textlen app].
  rewrite Et, Etl. replace (len T - 0) with (len T) by lia.
  rewrite slice_all. apply buffer_string_operand. now left.
Qed.

Lemma split_past_end olimit :
  cfun_string_split P T (Some (s, olimit)) =
    Ret (janet_wrap_array [janet_wrap_string T]).
Proof.
  destruct (findsetup_spec P T s start_nonneg) as (st & Hst & E).
  pose proof Hst as (Et & _ & Etl & _).
  unfold cfun_string_split. cbn [option_map fst]. rewrite E.
  cbn [bind split_loop].
  rewrite (kmp_next_past_end P T st Hst s 0 Hs).
  cbn [bind Z.geb Z.compare set_cursor text textlen app].
  rewrite Et, Etl. replace (len T - 0) with (len T) by lia.
  rewrite janet_string_slice by (pose proof (len_nonneg T); lia).
  cbn [bind]. now rewrite slice_all.
Qed.
End PastEnd.

(** ** The empty pattern *)

Lemma split_empty_zero_free T s olimit :
  0 <= s -> (forall x, s <= x < len T -> rd T x <> 0) ->
  cfun_string_split [] T (Some (s, olimit)) =
    Ret (janet_wrap_array [janet_wrap_string T]).
Proof.
  intros Hs Hz. destruct (findsetup_spec [] T s Hs) as (st & Hst & E).
  pose proof Hst as (Et & _ & Etl & _).
  unfold cfun_string_split. cbn [option_map fst]. rewrite E.
  cbn [bind split_loop].
  rewrite (kmp_next_empty_zero_free T st s Hst Hs Hz).
  cbn [bind Z.geb Z.compare set_cursor text textlen app].
  rewrite Et, Etl. replace (len T - 0) with (len T) by lia.
  rewrite janet_string_slice by (pose proof (len_nonneg T); lia).
  cbn [bind]. now rewrite slice_all.
Qed.

(** ** Patterns without magic characters *)

Lemma plain_inv c :
  plain c = true ->
  (c =? ch "^") = false /\ (c =? ch "$") = false /\ (c =? ch "*") = false
  /\ (c =? ch "+") = false /\ (c =? ch "?") = false /\ (c =? ch ".") = false
  /\ (c =? ch "(") = false /\ (c =? ch ")") = false /\ (c =? ch "[") = false
  /\ (c =? ch "%") = false /\ (c =? ch "-") = false.
Proof.
  unfold plain. rewrite negb_true_iff, !orb_false_iff. tauto.
Qed.

Lemma rd_outside (l : list Z) k : len l <= k -> rd l k = 0.
Proof. intros H. unfold rd, len in *. apply nth_overflow. lia. Qed.

Lemma rd_plain (pattern : list Z) p k :
  0 <= p ->
  (forall x, p <= x < len pattern -> plain (rd pattern x) = true) ->
  p <= k -> plain (rd pattern k) = true.
Proof.
  intros Hp Hall Hk. destruct (Z_lt_le_dec k (len pattern)) as [H|H].
  - apply Hall. lia.
  - rewrite rd_outside by lia. reflexivity.
Qed.

Section Plain.
Variables subject pattern : list Z.
Variable rec : MatchState -> Z -> Z -> outcome match_result.

(** On plain bytes [match] is a comparison byte by byte; it calls
    nothing back. *)
Lemma match_body_plain :
  forall fuel ms s p,
    p_end ms = len pattern -> 0 <= p <= len pattern ->
    (forall x, p <= x < len pattern -> plain (rd pattern x) = true) ->
    (Z.to_nat (len pattern - p) < fuel)%nat ->
    match_body subject pattern rec fuel ms s p =
      Ret (if literal_at subject pattern (src_end ms)
                (Z.to_nat (len pattern - p)) s p
           then Some (s + (len pattern - p)) else None, ms).
Proof.
  induction fuel as [|fuel IH]; intros ms s p He Hp Hall Hf; [lia|].
  cbn [match_body]. rewrite He.
  destruct (Z.eqb_spec p (len pattern)) as [->|Hne]; cbn [negb].
  { rewrite Z.sub_diag. cbn [Z.to_nat literal_at]. now rewrite Z.add_0_r. }
  destruct (plain_inv _ (Hall p ltac:(lia)))
    as (_ & E2 & _ & _ & _ & E6 & E7 & E8 & E9 & E10 & _).
  destruct (plain_inv _ (rd_plain pattern p (p + 1) ltac:(lia) Hall ltac:(lia)))
    as (_ & _ & F3 & F4 & F5 & _ & _ & _ & _ & _ & F11).
  rewrite E7, E8, E2. cbn [andb]. unfold CHAR_ESC. rewrite E10. cbn [andb].
  unfold classend, CHAR_ESC. rewrite E10, E9. cbn [bind].
  unfold singlematch, CHAR_ESC. rewrite E6, E10, E9.
  replace (Z.to_nat (len pattern - p))
    with (S (Z.to_nat (len pattern - (p + 1)))) by lia.
  cbn [literal_at]. rewrite Z.geb_leb.
  destruct (Z.leb_spec (src_end ms) s) as [Hge|Hlt].
  - destruct (Z.ltb_spec s (src_end ms)); [lia|]. cbn [bind negb andb].
    rewrite F3, F5, F11. reflexivity.
  - destruct (Z.ltb_spec s (src_end ms)); [|lia]. cbn [bind andb].
    destruct (rd pattern p =? rd subject s); cbn [negb andb].
    + rewrite F5, F4, F3, F11. rewrite IH; auto; try lia.
      * replace (s + 1 + (len pattern - (p + 1)))
          with (s + (len pattern - p)) by lia. reflexivity.
      * intros x Hx. apply Hall. lia.
    + rewrite F3, F5, F11. reflexivity.
Qed.
End Plain.

Lemma literal_at_spec subject pattern e :
  forall n s p,
    s <= e ->
    literal_at subject pattern e n s p = true <->
    s + Z.of_nat n <= e /\
    forall x, 0 <= x < Z.of_nat n -> rd pattern (p + x) = rd subject (s + x).
Proof.
  induction n as [|n IH]; intros s p Hs; cbn [literal_at].
  - split; [intros _; split; [lia|intros; lia]|reflexivity].
  - rewrite !andb_true_iff, Z.ltb_lt, Z.eqb_eq. split.
    + intros [[H1 H2] H3]. apply IH in H3; [|lia]. destruct H3 as [H3 H4].
      split; [lia|]. intros x Hx. destruct (Z.eq_dec x 0) as [->|Hne].
      * now rewrite !Z.add_0_r.
      * replace (p + x) with (p + 1 + (x - 1)) by lia.
        replace (s + x) with (s + 1 + (x - 1)) by lia. apply H4. lia.
    + intros [H1 H2]. split; [split; [lia|]|].
      * specialize (H2 0 ltac:(lia)). now rewrite !Z.add_0_r in H2.
      * apply IH; [lia|]. split; [lia|]. intros x Hx.
        replace (p + 1 + x) with (p + (x + 1)) by lia.
        replace (s + 1 + x) with (s + (x + 1)) by lia. apply H2. lia.
Qed.

(** One attempt with a pattern that is plain from [p0] on. *)
Lemma attempt_plain subject pattern p0 k :
  0 <= p0 <= len pattern ->
  (forall x, p0 <= x < len pattern -> plain (rd pattern x) = true) ->
  attempt subject pattern (len subject) (len pattern - p0) p0 k
  = Ret (if literal_at subject pattern (len subject)
              (Z.to_nat (len pattern - p0)) k p0
         then Some (k + (len pattern - p0)) else None,
         prepstate (len subject) (len pattern - p0) p0).
Proof.
  intros Hp Hall. unfold attempt. cbn [match_].
  change (matchdepth (prepstate (len subject) (len pattern - p0) p0) =? 0)
    with false. cbv iota.
  change (matchdepth (prepstate (len subject) (len pattern - p0) p0))
    with MAXCCALLS.
  assert (p_end (set_matchdepth
                   (prepstate (len subject) (len pattern - p0) p0)
                   (MAXCCALLS - 1)) = len pattern) as He
      by (cbn [p_end set_matchdepth prepstate]; lia).
  rewrite He, match_body_plain; auto.
Qed.

(** The answer when an attempt matched the bytes [L] at [k] and made no
    capture. *)
Lemma answer_whole_match subject L ls lp p k :
  slice subject k (len L) = L ->
  answer subject k (Ret (Some (k + len L), prepstate ls lp p))
  = Ret (janet_wrap_array [janet_wrap_string L]).
Proof.
  intros Hsl. unfold answer. cbn [bind].
  unfold push_captures. cbn [prepstate level Z.eqb].
  change (Z.to_nat 1) with 1%nat. cbn [push_captures_loop].
  unfold push_onecapture. cbn [level Z.geb Z.compare Z.eqb bind app].
  replace (k + len L - k) with (len L) by lia. now rewrite Hsl.
Qed.

Lemma all_occurrences_head P T s o rest :
  all_occurrences P T s = o :: rest -> leftmost_from P T s o.
Proof.
  intros E.
  assert (In o (all_occurrences P T s)) as Hin by (rewrite E; now left).
  apply all_occurrences_In in Hin. destruct Hin as [H1 H2].
  split; [exact H1|]. split; [exact H2|]. intros o' Ho' Hocc.
  assert (In o' (all_occurrences P T s)) as Hin'
      by (apply all_occurrences_In; split; [lia|exact Hocc]).
  pose proof (all_occurrences_sorted P T s) as Hs. rewrite E in Hs, Hin'.
  inversion Hs as [|? ? _ Hall]; subst. rewrite Forall_forall in Hall.
  destruct Hin' as [->|Hin']; [lia|]. specialize (Hall o' Hin'). lia.
Qed.

Lemma all_occurrences_nil P T s :
  all_occurrences P T s = [] -> forall o, s <= o -> ~ occurs_at P T o.
Proof.
  intros E o Ho Hocc.
  assert (In o (all_occurrences P T s)) as Hin
      by (apply all_occurrences_In; auto).
  now rewrite E in Hin.
Qed.

Lemma occurs_at_literal subject L p0 pattern k :
  0 <= k <= len subject -> 0 <= p0 ->
  (forall x, 0 <= x < len L -> rd pattern (p0 + x) = rd L x) ->
  literal_at subject pattern (len subject) (Z.to_nat (len L)) k p0 = true
  <-> occurs_at L subject k.
Proof.
  intros Hk Hp Hrd. pose proof (len_nonneg L) as HL.
  rewrite literal_at_spec, occurs_at_iff by lia.
  rewrite Z2Nat.id by lia. split.
  - intros [H1 H2]. split; [lia|]. split; [lia|].
    intros x Hx. rewrite <- Hrd by lia. symmetry. now apply H2.
  - intros (H1 & H2 & H3). split; [lia|].
    intros x Hx. rewrite Hrd by lia. symmetry. now apply H3.
Qed.

Lemma plain_pattern_rd L :
  plain_pattern L -> forall x, 0 <= x < len L -> plain (rd L x) = true.
Proof.
  intros H x Hx. unfold plain_pattern in H. rewrite Forall_forall in H.
  apply H. unfold rd. apply nth_In. unfold len in Hx. lia.
Qed.

Lemma plain_not_anchor L : plain_pattern L -> (rd L 0 =? ch "^") = false.
Proof.
  intros H. apply (plain_inv (rd L 0)).
  destruct L as [|c L]; [reflexivity|].
  inversion H; subst. assumption.
Qed.

(** [match] with a plain pattern. *)
Lemma cfun_str_match_plain subject L start :
  plain_pattern L ->
  cfun_str_match subject L start =
    Ret (match all_occurrences L subject
                 (str_match_init (len subject) start) with
         | [] => janet_wrap_nil
         | _ :: _ => janet_wrap_array [janet_wrap_string L]
         end).
Proof.
  intros HL. pose proof (plain_pattern_rd L HL) as Hrd.
  pose proof (len_nonneg L) as HlL. pose proof (len_nonneg subject) as Hls.
  set (init := str_match_init (len subject) start).
  pose proof (str_match_init_nonneg (len subject) start) as Hi. fold init in Hi.
  unfold cfun_str_match. fold init. rewrite (plain_not_anchor L HL).
  destruct (Z.gtb_spec init (len subject)) as [Hgt|Hle].
  { rewrite all_occurrences_none; [reflexivity|].
    intros o Ho (_ & H & _). lia. }
  assert (forall k, 0 <= k <= len subject ->
            attempt subject L (len subject) (len L) 0 k
            = Ret (if occurs_atb L subject k then Some (k + len L) else None,
                   prepstate (len subject) (len L) 0)) as Hatt.
  { intros k Hk.
    pose proof (attempt_plain subject L 0 k ltac:(lia)
                  ltac:(intros x Hx; apply Hrd; lia)) as H.
    rewrite Z.sub_0_r in H. rewrite H.
    pose proof (occurs_at_literal subject L 0 L k Hk ltac:(lia)
                  ltac:(intros; reflexivity)) as Hiff.
    rewrite <- occurs_atb_spec in Hiff.
    destruct (literal_at subject L (len subject) (Z.to_nat (len L)) k 0),
      (occurs_atb L subject k); try reflexivity.
    - destruct Hiff as [Hiff _]. specialize (Hiff eq_refl). discriminate.
    - destruct Hiff as [_ Hiff]. specialize (Hiff eq_refl). discriminate. }
  destruct (all_occurrences L subject init) as [|o rest] eqn:E.
  - pose proof (all_occurrences_nil _ _ _ E) as Hno.
    apply (str_match_loop_slide subject L (len subject) (len L) 0
             (S (Z.to_nat (len subject - init)))
             (prepstate (len subject) (len L) 0) init (len subject));
      try lia; auto using same_frame_refl.
    + intros k Hk. rewrite Hatt by lia.
      assert (occurs_atb L subject k = false) as ->
          by (apply occurs_atb_false, Hno; lia).
      eauto.
    + rewrite Hatt by lia.
      assert (occurs_atb L subject (len subject) = false) as ->
          by (apply occurs_atb_false, Hno; lia).
      eauto.
  - pose proof (all_occurrences_head _ _ _ _ _ E) as (Ho1 & Hocc & Hfirst).
    pose proof Hocc as (Ho & Hon & Hsl).
    rewrite (proj1 (str_match_loop_slide subject L (len subject) (len L) 0
             (S (Z.to_nat (len subject - init)))
             (prepstate (len subject) (len L) 0) init o
             (same_frame_refl _) ltac:(lia) ltac:(lia)
             ltac:(intros k Hk; rewrite Hatt by lia;
                   assert (occurs_atb L subject k = false) as ->
                     by (apply occurs_atb_false, Hfirst; lia);
                   eauto))).
    + rewrite Hatt by lia.
      assert (occurs_atb L subject o = true) as ->
          by (apply occurs_atb_spec, Hocc).
      now apply answer_whole_match.
    + intros ms'. rewrite Hatt by lia.
      assert (occurs_atb L subject o = true) as ->
          by (apply occurs_atb_spec, Hocc).
      discriminate.
Qed.

(** ** Anchors *)

Lemma rd_cons c (l : list Z) x : 0 <= x -> rd (c :: l) (1 + x) = rd l x.
Proof.
  intros Hx. unfold rd. replace (Z.to_nat (1 + x)) with (S (Z.to_nat x)) by lia.
  reflexivity.
Qed.

Lemma rd_app_left (a b : list Z) x : 0 <= x < len a -> rd (a ++ b) x = rd a x.
Proof. intros Hx. unfold rd, len in *. apply app_nth1. lia. Qed.

Lemma rd_app_at (a : list Z) c b : rd (a ++ c :: b) (len a) = c.
Proof.
  unfold rd, len. rewrite Nat2Z.id, app_nth2, Nat.sub_diag by lia. reflexivity.
Qed.

(** [match] with ['^'] and a plain pattern: one attempt, at the start. *)
Lemma cfun_str_match_anchored_plain subject L start :
  plain_pattern L ->
  cfun_str_match subject (ch "^" :: L) start =
    Ret (if occurs_atb L subject (str_match_init (len subject) start)
         then janet_wrap_array [janet_wrap_string L]
         else janet_wrap_nil).
Proof.
  intros HL. pose proof (plain_pattern_rd L HL) as Hrd.
  pose proof (len_nonneg L) as HlL. pose proof (len_nonneg subject) as Hls.
  set (init := str_match_init (len subject) start).
  pose proof (str_match_init_nonneg (len subject) start) as Hi. fold init in Hi.
  unfold cfun_str_match. fold init.
  change (rd (ch "^" :: L) 0 =? ch "^") with true. cbv iota.
  destruct (Z.gtb_spec init (len subject)) as [Hgt|Hle].
  { assert (occurs_atb L subject init = false) as ->; [|reflexivity].
    apply occurs_atb_false. intros (_ & H & _). lia. }
  rewrite (str_match_loop_anchor subject (ch "^" :: L) (len subject)
             (len (ch "^" :: L) - 1) 1) by apply same_frame_refl.
  pose proof (attempt_plain subject (ch "^" :: L) 1 init) as H.
  rewrite H; [|rewrite len_cons; lia|].
  all: rewrite len_cons; replace (len L + 1 - 1) with (len L) by lia.
  2:{ intros x Hx. replace x with (1 + (x - 1)) by lia.
      rewrite rd_cons by lia. apply Hrd. lia. }
  pose proof (occurs_at_literal subject L 1 (ch "^" :: L) init
                ltac:(lia) ltac:(lia)
                ltac:(intros x Hx; apply rd_cons; lia)) as Hiff.
  rewrite <- occurs_atb_spec in Hiff.
  destruct (literal_at subject (ch "^" :: L) (len subject)
              (Z.to_nat (len L)) init 1) eqn:El,
    (occurs_atb L subject init) eqn:Eo.
  - apply answer_whole_match. apply occurs_atb_spec in Eo. apply Eo.
  - destruct Hiff as [Hiff _]. specialize (Hiff eq_refl). discriminate.
  - destruct Hiff as [_ Hiff]. specialize (Hiff eq_refl). discriminate.
  - reflexivity.
Qed.

Section PlainPrefix.
Variables subject pattern : list Z.
Variable rec : MatchState -> Z -> Z -> outcome match_result.

(** A run of [n] plain bytes that no quantifier follows is compared
    byte by byte, and [match] goes on after it. *)
Lemma match_body_plain_prefix :
  forall n fuel ms s p,
    p_end ms = len pattern -> 0 <= p -> p + Z.of_nat n <= len pattern ->
    (forall x, p <= x < p + Z.of_nat n -> plain (rd pattern x) = true) ->
    let e := rd pattern (p + Z.of_nat n) in
    (e =? ch "*") || (e =? ch "+") || (e =? ch "?") || (e =? ch "-") = false ->
    match_body subject pattern rec (n + fuel) ms s p =
      if literal_at subject pattern (src_end ms) n s p
      then match_body subject pattern rec fuel ms
             (s + Z.of_nat n) (p + Z.of_nat n)
      else Ret (None, ms).
Proof.
  induction n as [|n IH]; intros fuel ms s p He Hp Hn Hall e Hq.
  { cbn [literal_at Nat.add]. now rewrite !Z.add_0_r. }
  cbn [Nat.add match_body]. rewrite He.
  destruct (Z.eqb_spec p (len pattern)) as [->|Hne]; [lia|]. cbn [negb].
  destruct (plain_inv _ (Hall p ltac:(lia)))
    as (_ & E2 & _ & _ & _ & E6 & E7 & E8 & E9 & E10 & _).
  assert ((rd pattern (p + 1) =? ch "*") = false
          /\ (rd pattern (p + 1) =? ch "+") = false
          /\ (rd pattern (p + 1) =? ch "?") = false
          /\ (rd pattern (p + 1) =? ch "-") = false) as (F3 & F4 & F5 & F11).
  { destruct n as [|n].
    - unfold e in Hq. change (Z.of_nat 1) with 1 in Hq.
      rewrite !orb_false_iff in Hq. tauto.
    - destruct (plain_inv _ (Hall (p + 1) ltac:(lia)))
        as (_ & _ & G3 & G4 & G5 & _ & _ & _ & _ & _ & G11). auto. }
  rewrite E7, E8, E2. cbn [andb]. unfold CHAR_ESC. rewrite E10. cbn [andb].
  unfold classend, CHAR_ESC. rewrite E10, E9. cbn [bind].
  unfold singlematch, CHAR_ESC. rewrite E6, E10, E9.
  cbn [literal_at]. rewrite Z.geb_leb.
  destruct (Z.leb_spec (src_end ms) s) as [Hge|Hlt].
  - destruct (Z.ltb_spec s (src_end ms)); [lia|]. cbn [bind negb andb].
    rewrite F3, F5, F11. reflexivity.
  - destruct (Z.ltb_spec s (src_end ms)); [|lia]. cbn [bind andb].
    destruct (rd pattern p =? rd subject s); cbn [negb andb].
    + rewrite F5, F4, F3, F11. rewrite IH; auto; try lia.
      * replace (s + 1 + Z.of_nat n) with (s + Z.of_nat (S n)) by lia.
        replace (p + 1 + Z.of_nat n) with (p + Z.of_nat (S n)) by lia.
        reflexivity.
      * intros x Hx. apply Hall. lia.
      * replace (p + 1 + Z.of_nat n) with (p + Z.of_nat (S n)) by lia.
        exact Hq.
    + rewrite F3, F5, F11. reflexivity.
Qed.
End PlainPrefix.

Lemma len_snoc (l : list Z) c : len (l ++ [c]) = len l + 1.
Proof. rewrite len_app. reflexivity. Qed.

(** One attempt with a plain pattern that ['$'] ends. *)
Lemma attempt_dollar subject L k :
  plain_pattern L -> 0 <= k <= len subject ->
  attempt subject (L ++ [ch "$"]) (len subject) (len L + 1) 0 k
  = Ret (if occurs_atb L subject k && (k + len L =? len subject)
         then Some (k + len L) else None,
         prepstate (len subject) (len L + 1) 0).
Proof.
  intros HL Hk. pose proof (plain_pattern_rd L HL) as Hrd.
  pose proof (len_nonneg L) as HlL.
  unfold attempt. cbn [match_].
  change (matchdepth (prepstate (len subject) (len L + 1) 0) =? 0)
    with false. cbv iota.
  change (matchdepth (prepstate (len subject) (len L + 1) 0))
    with MAXCCALLS.
  set (ms := set_matchdepth (prepstate (len subject) (len L + 1) 0)
               (MAXCCALLS - 1)).
  assert (p_end ms = len (L ++ [ch "$"])) as He
      by (rewrite len_snoc; reflexivity).
  replace (S (Z.to_nat (p_end ms - 0))) with (length L + 2)%nat
    by (rewrite He, len_snoc; unfold len; lia).
  rewrite match_body_plain_prefix; auto; try lia.
  - change (src_end ms) with (len subject).
    pose proof (occurs_at_literal subject L 0 (L ++ [ch "$"]) k Hk ltac:(lia)
                  ltac:(intros x Hx; apply rd_app_left; lia)) as Hiff.
    rewrite <- occurs_atb_spec in Hiff.
    replace (Z.to_nat (len L)) with (length L) in Hiff by (unfold len; lia).
    destruct (literal_at subject (L ++ [ch "$"]) (len subject) (length L) k 0)
      eqn:El, (occurs_atb L subject k) eqn:Eo; cbn [andb bind];
      try reflexivity.
    + cbn [match_body]. rewrite He, len_snoc.
      fold (len L). cbn [Z.add].
      destruct (Z.eqb_spec (len L) (len L + 1)); [lia|]. cbn [negb].
      rewrite rd_app_at.
      change (ch "$" =? ch "(") with false.
      change (ch "$" =? ch ")") with false.
      change (ch "$" =? ch "$") with true. cbv iota.
      rewrite Z.eqb_refl. cbn [andb bind].
      change (src_end ms) with (len subject).
      destruct (k + len L =? len subject); reflexivity.
    + destruct Hiff as [Hiff _]. specialize (Hiff eq_refl). discriminate.
    + destruct Hiff as [_ Hiff]. specialize (Hiff eq_refl). discriminate.
  - rewrite len_snoc. unfold len. lia.
  - intros x Hx. rewrite rd_app_left by (unfold len; lia).
    apply Hrd. unfold len. lia.
  - cbn [Z.add]. fold (len L). rewrite rd_app_at. reflexivity.
Qed.

(** [match] with a plain pattern and ['$']: the pattern has to end the
    subject. *)
Lemma cfun_str_match_plain_dollar subject L start :
  plain_pattern L ->
  cfun_str_match subject (L ++ [ch "$"]) start =
    Ret (if (str_match_init (len subject) start <=? len subject - len L)
            && occurs_atb L subject (len subject - len L)
         then janet_wrap_array [janet_wrap_string L]
         else janet_wrap_nil).
Proof.
  intros HL. pose proof (len_nonneg L) as HlL.
  pose proof (len_nonneg subject) as Hls.
  set (init := str_match_init (len subject) start).
  pose proof (str_match_init_nonneg (len subject) start) as Hi. fold init in Hi.
  unfold cfun_str_match. fold init.
  assert ((rd (L ++ [ch "$"]) 0 =? ch "^") = false) as ->.
  { destruct L as [|c L]; [reflexivity|]. cbn [app].
    inversion HL; subst. now apply (plain_inv c). }
  rewrite len_snoc.
  destruct (Z.gtb_spec init (len subject)) as [Hgt|Hle].
  { destruct (Z.leb_spec init (len subject - len L)); [lia|]. reflexivity. }
  set (m := len subject - len L).
  destruct ((init <=? m) && occurs_atb L subject m) eqn:Ec.
  - apply andb_true_iff in Ec. destruct Ec as [Hm Hocc].
    apply Z.leb_le in Hm. pose proof Hocc as Hocc'.
    apply occurs_atb_spec in Hocc'. destruct Hocc' as (Hm0 & _ & Hsl).
    rewrite (proj1 (str_match_loop_slide subject (L ++ [ch "$"]) (len subject)
             (len L + 1) 0 (S (Z.to_nat (len subject - init)))
             (prepstate (len subject) (len L + 1) 0) init m
             (same_frame_refl _) ltac:(unfold m; lia) ltac:(lia)
             ltac:(intros k Hk; rewrite attempt_dollar by (auto; unfold m in *; lia);
                   destruct (Z.eqb_spec (k + len L) (len subject));
                     [unfold m in *; lia|];
                   rewrite andb_false_r; eauto))).
    + rewrite attempt_dollar by (auto; unfold m; lia). rewrite Hocc.
      replace (m + len L =? len subject) with true
        by (symmetry; apply Z.eqb_eq; unfold m; lia).
      cbn [andb]. now apply answer_whole_match.
    + intros ms'. rewrite attempt_dollar by (auto; unfold m; lia).
      rewrite Hocc.
      replace (m + len L =? len subject) with true
        by (symmetry; apply Z.eqb_eq; unfold m; lia).
      discriminate.
  - assert (forall k, init <= k <= len subject ->
              attempt subject (L ++ [ch "$"]) (len subject) (len L + 1) 0 k
              = Ret (None, prepstate (len subject) (len L + 1) 0)) as Hfail.
    { intros k Hk. rewrite attempt_dollar by (auto; lia).
      destruct (Z.eqb_spec (k + len L) (len subject)) as [E|E];
        [|now rewrite andb_false_r].
      assert (k = m) as -> by (unfold m; lia).
      apply andb_false_iff in Ec. destruct Ec as [Ec|Ec].
      - apply Z.leb_gt in Ec. lia.
      - now rewrite Ec. }
    apply (str_match_loop_slide subject (L ++ [ch "$"]) (len subject)
             (len L + 1) 0 (S (Z.to_nat (len subject - init)))
             (prepstate (len subject) (len L + 1) 0) init (len subject));
      try lia; auto using same_frame_refl.
    + intros k Hk. rewrite Hfail by lia. eauto.
    + rewrite Hfail by lia. eauto.
Qed.

(** ** Backtracking and layouts *)

Lemma same_extent_refl ms : same_extent ms ms.
Proof. unfold same_extent. auto. Qed.

Lemma same_extent_trans a b c :
  same_extent a b -> same_extent b c -> same_extent a c.
Proof. unfold same_extent. intuition congruence. Qed.

Lemma same_extent_set_level ms0 ms l :
  same_extent ms0 ms -> same_extent ms0 (set_level ms l).
Proof. exact (fun H => H). Qed.

Lemma same_extent_set_capture ms0 ms l c :
  same_extent ms0 ms -> same_extent ms0 (set_capture ms l c).
Proof. exact (fun H => H). Qed.

Lemma same_extent_set_matchdepth ms0 ms d :
  same_extent ms0 ms -> same_extent ms0 (set_matchdepth ms d).
Proof. exact (fun H => H). Qed.

(** Two character constants that differ. *)
Ltac clash :=
  match goal with
  | H1 : ?x = ch _, H2 : ?x = ch _ |- _ =>
      exfalso; rewrite H1 in H2; vm_compute in H2; discriminate H2
  end.

Lemma quantifier_at_eqb pattern ep :
  let e := rd pattern ep in
  match quantifier_at pattern ep with
  | q_optional =>
      (e =? ch "?") = true /\ (e =? ch "+") = false
      /\ (e =? ch "*") = false /\ (e =? ch "-") = false
  | q_plus =>
      (e =? ch "?") = false /\ (e =? ch "+") = true
      /\ (e =? ch "*") = false /\ (e =? ch "-") = false
  | q_star =>
      (e =? ch "?") = false /\ (e =? ch "+") = false
      /\ (e =? ch "*") = true /\ (e =? ch "-") = false
  | q_minus =>
      (e =? ch "?") = false /\ (e =? ch "+") = false
      /\ (e =? ch "*") = false /\ (e =? ch "-") = true
  | q_one =>
      (e =? ch "?") = false /\ (e =? ch "+") = false
      /\ (e =? ch "*") = false /\ (e =? ch "-") = false
  end.
Proof.
  intros e. unfold quantifier_at. fold e.
  destruct (Z.eqb_spec e (ch "?")), (Z.eqb_spec e (ch "+")),
    (Z.eqb_spec e (ch "*")), (Z.eqb_spec e (ch "-"));
    try clash; repeat split; reflexivity.
Qed.

Section Extent.
Variables subject pattern : list Z.
Variables ms0 ms : MatchState.
Hypothesis Hext : same_extent ms0 ms.

Lemma extent_classend p : classend pattern ms p = classend pattern ms0 p.
Proof. apply classend_frame. apply Hext. Qed.

Lemma extent_singlematch s p ep :
  singlematch subject pattern ms s p ep
  = singlematch subject pattern ms0 s p ep.
Proof.
  destruct Hext as (_ & E & _). unfold singlematch. now rewrite E.
Qed.

Lemma extent_matchbalance s p :
  matchbalance subject pattern ms s p = matchbalance subject pattern ms0 s p.
Proof.
  destruct Hext as (_ & E & E').
  assert (forall fuel s b e cont,
             matchbalance_loop subject fuel ms s b e cont
             = matchbalance_loop subject fuel ms0 s b e cont) as Hl.
  { induction fuel as [|fuel IH]; intros s' b e cont;
      cbn [matchbalance_loop]; [reflexivity|].
    rewrite E, !IH. reflexivity. }
  unfold matchbalance. now rewrite E, E', Hl.
Qed.
End Extent.

Section Exact.
Variables subject pattern : list Z.
Variable ms0 : MatchState.
Hypothesis Hnb : no_backref pattern.

Local Abbreviation lays := (lays subject pattern ms0).
Local Abbreviation run := (run subject pattern ms0).
Local Abbreviation outcome_ok := (outcome_ok subject pattern ms0).
Local Abbreviation repeats_ok := (repeats_ok subject pattern ms0).

Lemma no_backref_item p : item_at pattern (p_end ms0) p <> i_backref.
Proof.
  unfold item_at.
  destruct (_ =? ch "("); [destruct (_ =? ch ")"); discriminate|].
  destruct (_ =? ch ")"); [discriminate|].
  destruct (_ && _); [discriminate|].
  destruct (_ && _); [discriminate|].
  destruct (_ && _); [discriminate|].
  destruct (Z.eqb_spec (rd pattern p) CHAR_ESC) as [E|E]; [|discriminate].
  cbn [andb].
  destruct (isdigit (rd pattern (p + 1))) eqn:Ed; [|discriminate].
  exfalso. destruct (Z_lt_le_dec p 0) as [Hneg|Hpos].
  - assert (rd pattern (p + 1) = rd pattern p) as E1.
    { unfold rd. f_equal. lia. }
    rewrite E1, E in Ed. discriminate.
  - rewrite (Hnb p Hpos E) in Ed. discriminate.
Qed.

(** A layout, read from its first item. *)
Lemma lays_inv p s e :
  lays p s e ->
  (p = p_end ms0 /\ e = s) \/
  (p <> p_end ms0 /\
   match item_at pattern (p_end ms0) p with
   | i_position => lays (p + 2) s e
   | i_open | i_close => lays (p + 1) s e
   | i_end => s = src_end ms0 /\ e = s
   | i_balance =>
       exists s', matchbalance subject pattern ms0 s (p + 2) = Ret (Some s')
                  /\ lays (p + 4) s' e
   | i_frontier =>
       exists ep,
         rd pattern (p + 2) = ch "["
         /\ classend pattern ms0 (p + 2) = Ret ep
         /\ matchbracketclass pattern (previous subject ms0 s) (p + 2)
              (ep - 1) = Ret false
         /\ matchbracketclass pattern (rd subject s) (p + 2) (ep - 1)
            = Ret true
         /\ lays ep s e
   | i_backref => False
   | i_single =>
       exists ep n,
         classend pattern ms0 p = Ret ep
         /\ allowed (quantifier_at pattern ep) n
         /\ run s p ep n
         /\ lays (after (quantifier_at pattern ep) ep) (s + n) e
   end).
Proof.
  intros H. destruct H as [s|p s e Hp K H|p s e Hp K H|p s e Hp K H
                          |p s Hp K H|p s s' e Hp K Hb H
                          |p ep s e Hp K H1 H2 H3 H4 H
                          |p ep n s e Hp K H1 H2 H3 H];
    [left; auto|right; split; [exact Hp|]; rewrite K; eauto 10..].
Qed.

Lemma run_zero s p ep : run s p ep 0.
Proof. intros k Hk. lia. Qed.

Lemma run_cons s p ep n :
  0 <= n ->
  singlematch subject pattern ms0 s p ep = Ret true ->
  run (s + 1) p ep n -> run s p ep (n + 1).
Proof.
  intros Hn H0 H k Hk. destruct (Z.eq_dec k 0) as [->|Hne].
  - now rewrite Z.add_0_r.
  - replace (s + k) with (s + 1 + (k - 1)) by lia. apply H. lia.
Qed.

Lemma run_tail s p ep n :
  1 <= n -> run s p ep n -> run (s + 1) p ep (n - 1).
Proof.
  intros Hn H k Hk. replace (s + 1 + k) with (s + (k + 1)) by lia.
  apply H. lia.
Qed.

Lemma run_head s p ep n :
  1 <= n -> run s p ep n -> singlematch subject pattern ms0 s p ep = Ret true.
Proof.
  intros Hn H. specialize (H 0 ltac:(lia)). now rewrite Z.add_0_r in H.
Qed.

Section Open.
Variable rec : MatchState -> Z -> Z -> outcome match_result.
Hypothesis Hrec : match_exact subject pattern ms0 rec.

Lemma max_expand_count_spec :
  forall fuel ms s p ep i0 i,
    same_extent ms0 ms ->
    max_expand_count subject pattern fuel ms s p ep i0 = Ret i ->
    i0 <= i
    /\ (forall k, i0 <= k < i ->
          singlematch subject pattern ms0 (s + k) p ep = Ret true)
    /\ singlematch subject pattern ms0 (s + i) p ep = Ret false.
Proof.
  induction fuel as [|fuel IH]; intros ms s p ep i0 i Hext H;
    cbn [max_expand_count] in H; [discriminate|].
  apply bind_ret_inv in H. destruct H as (m & Em & H).
  rewrite (extent_singlematch subject pattern ms0 ms Hext) in Em.
  destruct m.
  - apply IH in H; [|exact Hext]. destruct H as (H1 & H2 & H3).
    split; [lia|]. split; [|exact H3].
    intros k Hk. destruct (Z.eq_dec k i0) as [->|Hne]; [exact Em|].
    apply H2. lia.
  - injection H as <-. split; [lia|]. split; [intros; lia|exact Em].
Qed.

Lemma max_expand_try_spec :
  forall n ms s ep res ms',
    same_extent ms0 ms ->
    max_expand_try rec n ms s ep = Ret (res, ms') ->
    same_extent ms0 ms'
    /\ match res with
       | Some e => exists k, 0 <= k < Z.of_nat n /\ lays (ep + 1) (s + k) e
       | None => forall k e, 0 <= k < Z.of_nat n -> ~ lays (ep + 1) (s + k) e
       end.
Proof.
  induction n as [|n IH]; intros ms s ep res ms' Hext H;
    cbn [max_expand_try] in H.
  - injection H as <- <-. split; [exact Hext|]. intros; lia.
  - apply bind_ret_inv in H. destruct H as ([[e|] ms2] & E & H).
    + injection H as <- <-. apply Hrec in E; [|exact Hext].
      destruct E as [Hext' Hl]. split; [exact Hext'|].
      exists (Z.of_nat n). split; [lia|exact Hl].
    + apply Hrec in E; [|exact Hext]. destruct E as [Hext' Hl].
      apply IH in H; [|exact Hext']. destruct H as [Hext'' H].
      split; [exact Hext''|]. destruct res as [e|].
      * destruct H as (k & Hk & H). exists k. split; [lia|exact H].
      * intros k e Hk. destruct (Z.eq_dec k (Z.of_nat n)) as [->|Hne].
        -- apply Hl.
        -- apply H. lia.
Qed.

Lemma max_expand_spec ms s p ep res ms' :
  same_extent ms0 ms ->
  max_expand subject pattern rec ms s p ep = Ret (res, ms') ->
  same_extent ms0 ms' /\ repeats_ok res s p ep (ep + 1).
Proof.
  intros Hext H. unfold max_expand in H.
  apply bind_ret_inv in H. destruct H as (i & Ei & H).
  apply (max_expand_count_spec _ _ _ _ _ _ _ Hext) in Ei.
  destruct Ei as (Hi & Hrun & Hstop).
  apply max_expand_try_spec in H; [|exact Hext].
  destruct H as [Hext' H]. split; [exact Hext'|].
  destruct res as [e|]; cbn [repeats_ok].
  - destruct H as (k & Hk & H). exists k. split; [lia|].
    split; [|exact H]. intros x Hx. apply Hrun. lia.
  - intros n e Hn Hr. apply H.
    destruct (Z_lt_le_dec i n) as [Hlt|Hle]; [|lia].
    exfalso. specialize (Hr i ltac:(lia)). rewrite Hstop in Hr.
    discriminate.
Qed.

Lemma min_expand_loop_spec :
  forall fuel ms s p ep res ms',
    same_extent ms0 ms ->
    min_expand_loop subject pattern rec fuel ms s p ep = Ret (res, ms') ->
    same_extent ms0 ms' /\ repeats_ok res s p ep (ep + 1).
Proof.
  induction fuel as [|fuel IH]; intros ms s p ep res ms' Hext H;
    cbn [min_expand_loop] in H; [discriminate|].
  apply bind_ret_inv in H. destruct H as ([[e|] ms2] & E & H).
  - injection H as <- <-. apply Hrec in E; [|exact Hext].
    destruct E as [Hext' Hl]. split; [exact Hext'|].
    exists 0. split; [lia|]. split; [apply run_zero|].
    now rewrite Z.add_0_r.
  - apply Hrec in E; [|exact Hext]. destruct E as [Hext' Hl].
    cbn [outcome_ok] in Hl.
    apply bind_ret_inv in H. destruct H as (m & Em & H).
    rewrite (extent_singlematch subject pattern ms0 ms2 Hext') in Em.
    destruct m.
    + apply IH in H; [|exact Hext']. destruct H as [Hext'' H].
      split; [exact Hext''|]. destruct res as [e|]; cbn [repeats_ok] in *.
      * destruct H as (n & Hn & Hr & H). exists (n + 1).
        split; [lia|]. split; [now apply run_cons|].
        replace (s + (n + 1)) with (s + 1 + n) by lia. exact H.
      * intros n e Hn Hr. destruct (Z.eq_dec n 0) as [->|Hne].
        -- rewrite Z.add_0_r. apply Hl.
        -- replace (s + n) with (s + 1 + (n - 1)) by lia.
           apply H; [lia|]. apply run_tail; [lia|exact Hr].
    + injection H as <- <-. split; [exact Hext'|].
      cbn [repeats_ok]. intros n e Hn Hr.
      destruct (Z.eq_dec n 0) as [->|Hne].
      * rewrite Z.add_0_r. apply Hl.
      * exfalso. rewrite (run_head s p ep n ltac:(lia) Hr) in Em.
        discriminate.
Qed.

Lemma min_expand_spec ms s p ep res ms' :
  same_extent ms0 ms ->
  min_expand subject pattern rec ms s p ep = Ret (res, ms') ->
  same_extent ms0 ms' /\ repeats_ok res s p ep (ep + 1).
Proof. unfold min_expand. apply min_expand_loop_spec. Qed.

Lemma start_capture_spec ms s p what res ms' :
  same_extent ms0 ms ->
  start_capture rec ms s p what = Ret (res, ms') ->
  same_extent ms0 ms' /\ outcome_ok res p s.
Proof.
  intros Hext H. unfold start_capture in H.
  destruct (level ms >=? MAXCAPTURES); [discriminate|].
  apply bind_ret_inv in H. destruct H as ([r ms2] & E & H).
  apply Hrec in E; [|exact Hext]. destruct E as [Hext' Hl].
  destruct r as [e|]; injection H as <- <-; auto.
Qed.

Lemma end_capture_spec ms s p res ms' :
  same_extent ms0 ms ->
  end_capture rec ms s p = Ret (res, ms') ->
  same_extent ms0 ms' /\ outcome_ok res p s.
Proof.
  intros Hext H. unfold end_capture in H.
  apply bind_ret_inv in H. destruct H as (l & _ & H).
  apply bind_ret_inv in H. destruct H as ([r ms2] & E & H).
  apply Hrec in E; [|exact Hext]. destruct E as [Hext' Hl].
  destruct r as [e|]; injection H as <- <-; auto.
Qed.

(** [match], one case of its [switch] after the other. *)
Lemma match_body_unfold fuel ms s p :
  match_body subject pattern rec (S fuel) ms s p =
    if p =? p_end ms then Ret (Some s, ms)
    else
      match item_at pattern (p_end ms) p with
      | i_position => start_capture rec ms s (p + 2) CAP_POSITION
      | i_open => start_capture rec ms s (p + 1) CAP_UNFINISHED
      | i_close => end_capture rec ms s (p + 1)
      | i_end => Ret (if s =? src_end ms then Some s else None, ms)
      | i_balance =>
          r <- matchbalance subject pattern ms s (p + 2);;
          match r with
          | Some s' => match_body subject pattern rec fuel ms s' (p + 4)
          | None => Ret (None, ms)
          end
      | i_frontier =>
          if negb (rd pattern (p + 2) =? ch "[")
          then Panic missing_bracket_after_f
          else
            ep <- classend pattern ms (p + 2);;
            let previous :=
              if s =? src_init ms then 0 else rd subject (s - 1) in
            m1 <- matchbracketclass pattern previous (p + 2) (ep - 1);;
            if m1 then Ret (None, ms)
            else
              m2 <- matchbracketclass pattern (rd subject s) (p + 2)
                      (ep - 1);;
              if m2 then match_body subject pattern rec fuel ms s ep
              else Ret (None, ms)
      | i_backref =>
          r <- match_capture subject ms s (rd pattern (p + 1));;
          match r with
          | Some s' => match_body subject pattern rec fuel ms s' (p + 2)
          | None => Ret (None, ms)
          end
      | i_single =>
          ep <- classend pattern ms p;;
          m <- singlematch subject pattern ms s p ep;;
          match quantifier_at pattern ep with
          | q_optional =>
              if m then
                r <- rec ms (s + 1) (ep + 1);;
                match r with
                | (Some res, ms') => Ret (Some res, ms')
                | (None, ms') =>
                    match_body subject pattern rec fuel ms' s (ep + 1)
                end
              else match_body subject pattern rec fuel ms s (ep + 1)
          | q_plus =>
              if m then max_expand subject pattern rec ms (s + 1) p ep
              else Ret (None, ms)
          | q_star =>
              if m then max_expand subject pattern rec ms s p ep
              else match_body subject pattern rec fuel ms s (ep + 1)
          | q_minus =>
              if m then min_expand subject pattern rec ms s p ep
              else match_body subject pattern rec fuel ms s (ep + 1)
          | q_one =>
              if m then match_body subject pattern rec fuel ms (s + 1) ep
              else Ret (None, ms)
          end
      end.
Proof.
  cbn [match_body]. destruct (p =? p_end ms); [reflexivity|]. cbn [negb].
  unfold item_at.
  destruct (rd pattern p =? ch "(");
    [destruct (rd pattern (p + 1) =? ch ")"); reflexivity|].
  destruct (rd pattern p =? ch ")"); [reflexivity|].
  destruct ((rd pattern p =? ch "$") && (p + 1 =? p_end ms));
    [reflexivity|].
  destruct ((rd pattern p =? CHAR_ESC) && (rd pattern (p + 1) =? ch "b"));
    [reflexivity|].
  destruct ((rd pattern p =? CHAR_ESC) && (rd pattern (p + 1) =? ch "f"));
    [reflexivity|].
  destruct ((rd pattern p =? CHAR_ESC) && isdigit (rd pattern (p + 1)));
    [reflexivity|].
  destruct (classend pattern ms p) as [ep| | |]; cbn [bind];
    try reflexivity.
  destruct (singlematch subject pattern ms s p ep) as [m| | |];
    cbn [bind]; try reflexivity.
  pose proof (quantifier_at_eqb pattern ep) as Hq. cbv zeta in Hq.
  destruct (quantifier_at pattern ep);
    destruct Hq as (Q1 & Q2 & Q3 & Q4); destruct m; cbn [negb];
    rewrite ?Q1, ?Q2, ?Q3, ?Q4; reflexivity.
Qed.

Lemma match_body_exact :
  forall fuel ms s p res ms',
    same_extent ms0 ms ->
    match_body subject pattern rec fuel ms s p = Ret (res, ms') ->
    same_extent ms0 ms' /\ outcome_ok res p s.
Proof.
  induction fuel as [|fuel IH]; intros ms s p res ms' Hext H;
    [discriminate|].
  rewrite match_body_unfold in H.
  pose proof Hext as (Ei & Ee & Ep). rewrite Ep in H.
  destruct (Z.eqb_spec p (p_end ms0)) as [->|Hp].
  { injection H as <- <-. split; [exact Hext|]. constructor. }
  pose proof (no_backref_item p) as Hnb'.
  destruct (item_at pattern (p_end ms0) p) eqn:K.
  - (* "()" *)
    apply start_capture_spec in H; [|exact Hext].
    destruct H as [Hext' H]. split; [exact Hext'|].
    destruct res as [e|]; cbn [outcome_ok] in *.
    + now apply lays_position.
    + intros e Hl. apply lays_inv in Hl.
      destruct Hl as [[Hc _]|[_ Hl]]; [congruence|].
      rewrite K in Hl. exact (H e Hl).
  - (* "(" *)
    apply start_capture_spec in H; [|exact Hext].
    destruct H as [Hext' H]. split; [exact Hext'|].
    destruct res as [e|]; cbn [outcome_ok] in *.
    + now apply lays_open.
    + intros e Hl. apply lays_inv in Hl.
      destruct Hl as [[Hc _]|[_ Hl]]; [congruence|].
      rewrite K in Hl. exact (H e Hl).
  - (* ")" *)
    apply end_capture_spec in H; [|exact Hext].
    destruct H as [Hext' H]. split; [exact Hext'|].
    destruct res as [e|]; cbn [outcome_ok] in *.
    + now apply lays_close.
    + intros e Hl. apply lays_inv in Hl.
      destruct Hl as [[Hc _]|[_ Hl]]; [congruence|].
      rewrite K in Hl. exact (H e Hl).
  - (* "$" *)
    rewrite Ee in H. injection H as <- <-. split; [exact Hext|].
    destruct (Z.eqb_spec s (src_end ms0)) as [E|E]; cbn [outcome_ok].
    + now apply lays_end.
    + intros e Hl. apply lays_inv in Hl.
      destruct Hl as [[Hc _]|[_ Hl]]; [congruence|].
      rewrite K in Hl. destruct Hl. congruence.
  - (* "%b" *)
    rewrite (extent_matchbalance subject pattern ms0 ms Hext) in H.
    destruct (matchbalance subject pattern ms0 s (p + 2))
      as [[s'|]| | |] eqn:Eb; cbn [bind] in H; try discriminate.
    + apply IH in H; [|exact Hext]. destruct H as [Hext' H].
      split; [exact Hext'|]. destruct res as [e|]; cbn [outcome_ok] in *.
      * eapply lays_balance; eauto.
      * intros e Hl. apply lays_inv in Hl.
        destruct Hl as [[Hc _]|[_ Hl]]; [congruence|].
        rewrite K in Hl. destruct Hl as (s'' & E'' & Hl).
        assert (s'' = s') as -> by congruence. exact (H e Hl).
    + injection H as <- <-. split; [exact Hext|]. cbn [outcome_ok].
      intros e Hl. apply lays_inv in Hl.
      destruct Hl as [[Hc _]|[_ Hl]]; [congruence|].
      rewrite K in Hl. destruct Hl as (s'' & E'' & Hl). congruence.
  - (* "%f" *)
    destruct (Z.eqb_spec (rd pattern (p + 2)) (ch "[")) as [Eb|Eb];
      cbn [negb] in H; [|discriminate].
    rewrite (extent_classend pattern ms0 ms Hext) in H.
    destruct (classend pattern ms0 (p + 2)) as [ep| | |] eqn:Ec;
      cbn [bind] in H; try discriminate.
    rewrite Ei in H. fold (previous subject ms0 s) in H.
    destruct (matchbracketclass pattern (previous subject ms0 s) (p + 2)
                (ep - 1)) as [m1| | |] eqn:E1;
      cbn [bind] in H; try discriminate.
    destruct m1.
    { injection H as <- <-. split; [exact Hext|]. cbn [outcome_ok].
      intros e Hl. apply lays_inv in Hl.
      destruct Hl as [[Hc _]|[_ Hl]]; [congruence|].
      rewrite K in Hl. destruct Hl as (ep' & _ & Ec' & E1' & _).
      assert (ep' = ep) as -> by congruence. congruence. }
    destruct (matchbracketclass pattern (rd subject s) (p + 2) (ep - 1))
      as [m2| | |] eqn:E2; cbn [bind] in H; try discriminate.
    destruct m2.
    + apply IH in H; [|exact Hext]. destruct H as [Hext' H].
      split; [exact Hext'|]. destruct res as [e|]; cbn [outcome_ok] in *.
      * eapply lays_frontier; eauto.
      * intros e Hl. apply lays_inv in Hl.
        destruct Hl as [[Hc _]|[_ Hl]]; [congruence|].
        rewrite K in Hl. destruct Hl as (ep' & _ & Ec' & _ & _ & Hl).
        assert (ep' = ep) as -> by congruence. exact (H e Hl).
    + injection H as <- <-. split; [exact Hext|]. cbn [outcome_ok].
      intros e Hl. apply lays_inv in Hl.
      destruct Hl as [[Hc _]|[_ Hl]]; [congruence|].
      rewrite K in Hl. destruct Hl as (ep' & _ & Ec' & _ & E2' & _).
      assert (ep' = ep) as -> by congruence. congruence.
  - (* a back-reference *)
    congruence.
  - (* a single-character item *)
    rewrite (extent_classend pattern ms0 ms Hext) in H.
    destruct (classend pattern ms0 p) as [ep| | |] eqn:Ec;
      cbn [bind] in H; try discriminate.
    rewrite (extent_singlematch subject pattern ms0 ms Hext) in H.
    destruct (singlematch subject pattern ms0 s p ep) as [m| | |] eqn:Em;
      cbn [bind] in H; try discriminate.
    assert (forall e,
               lays p s e ->
               exists n, allowed (quantifier_at pattern ep) n
                         /\ run s p ep n
                         /\ lays (after (quantifier_at pattern ep) ep)
                              (s + n) e) as Hinv.
    { intros e Hl. apply lays_inv in Hl.
      destruct Hl as [[Hc _]|[_ Hl]]; [congruence|].
      rewrite K in Hl. destruct Hl as (ep' & n & Ec' & Hl).
      assert (ep' = ep) as -> by congruence. eauto. }
    assert (forall e n,
               allowed (quantifier_at pattern ep) n -> run s p ep n ->
               lays (after (quantifier_at pattern ep) ep) (s + n) e ->
               lays p s e) as Hintro
        by (intros e n Ha Hr Hl; eapply lays_items; eauto).
    assert (m = false -> forall n, 0 <= n -> run s p ep n -> n = 0)
      as Hstop.
    { intros -> n Hn Hr. destruct (Z.eq_dec n 0) as [|Hne]; [assumption|].
      rewrite (run_head s p ep n ltac:(lia) Hr) in Em. discriminate. }
    assert (m = true -> run s p ep 1) as Hone.
    { intros -> k Hk. assert (k = 0) as -> by lia.
      now rewrite Z.add_0_r. }
    destruct (quantifier_at pattern ep) eqn:Q; unfold after, allowed in *.
    + (* no suffix *)
      destruct m.
      * apply IH in H; [|exact Hext]. destruct H as [Hext' H].
        split; [exact Hext'|]. destruct res as [e|]; cbn [outcome_ok] in *.
        -- apply (Hintro e 1); auto. lia.
        -- intros e Hl. destruct (Hinv e Hl) as (n & [_ ->] & _ & Hl').
           exact (H e Hl').
      * injection H as <- <-. split; [exact Hext|]. cbn [outcome_ok].
        intros e Hl. destruct (Hinv e Hl) as (n & [Hn ->] & Hr & _).
        specialize (Hstop eq_refl 1 ltac:(lia) Hr). lia.
    + (* "?" *)
      destruct m.
      * apply bind_ret_inv in H. destruct H as ([[e1|] ms2] & E & H).
        -- injection H as <- <-. apply Hrec in E; [|exact Hext].
           destruct E as [Hext' Hl]. split; [exact Hext'|].
           cbn [outcome_ok] in *. apply (Hintro e1 1); auto. lia.
        -- apply Hrec in E; [|exact Hext]. destruct E as [Hext' Hl1].
           apply IH in H; [|exact Hext']. destruct H as [Hext'' H].
           split; [exact Hext''|].
           destruct res as [e|]; cbn [outcome_ok] in *.
           ++ apply (Hintro e 0); [lia|apply run_zero|].
              now rewrite Z.add_0_r.
           ++ intros e Hl. destruct (Hinv e Hl) as (n & [Hn Hn1] & _ & Hl').
              assert (n = 0 \/ n = 1) as [-> | ->] by lia.
              ** rewrite Z.add_0_r in Hl'. exact (H e Hl').
              ** exact (Hl1 e Hl').
      * apply IH in H; [|exact Hext]. destruct H as [Hext' H].
        split; [exact Hext'|]. destruct res as [e|]; cbn [outcome_ok] in *.
        -- apply (Hintro e 0); [lia|apply run_zero|].
           now rewrite Z.add_0_r.
        -- intros e Hl. destruct (Hinv e Hl) as (n & [Hn _] & Hr & Hl').
           rewrite (Hstop eq_refl n Hn Hr), Z.add_0_r in Hl'.
           exact (H e Hl').
    + (* "+" *)
      destruct m.
      * apply max_expand_spec in H; [|exact Hext].
        destruct H as [Hext' H]. split; [exact Hext'|].
        destruct res as [e|]; cbn [outcome_ok repeats_ok] in *.
        -- destruct H as (n & Hn & Hr & Hl).
           apply (Hintro e (n + 1)); [lia|apply run_cons; auto|].
           replace (s + (n + 1)) with (s + 1 + n) by lia. exact Hl.
        -- intros e Hl. destruct (Hinv e Hl) as (n & [Hn Hn1] & Hr & Hl').
           apply (H (n - 1) e); [lia|apply run_tail; auto|].
           replace (s + 1 + (n - 1)) with (s + n) by lia. exact Hl'.
      * injection H as <- <-. split; [exact Hext|]. cbn [outcome_ok].
        intros e Hl. destruct (Hinv e Hl) as (n & [Hn Hn1] & Hr & _).
        specialize (Hstop eq_refl n Hn Hr). lia.
    + (* "*" *)
      destruct m.
      * apply max_expand_spec in H; [|exact Hext].
        destruct H as [Hext' H]. split; [exact Hext'|].
        destruct res as [e|]; cbn [outcome_ok repeats_ok] in *.
        -- destruct H as (n & Hn & Hr & Hl). apply (Hintro e n); auto.
        -- intros e Hl. destruct (Hinv e Hl) as (n & [Hn _] & Hr & Hl').
           exact (H n e Hn Hr Hl').
      * apply IH in H; [|exact Hext]. destruct H as [Hext' H].
        split; [exact Hext'|]. destruct res as [e|]; cbn [outcome_ok] in *.
        -- apply (Hintro e 0); [lia|apply run_zero|].
           now rewrite Z.add_0_r.
        -- intros e Hl. destruct (Hinv e Hl) as (n & [Hn _] & Hr & Hl').
           rewrite (Hstop eq_refl n Hn Hr), Z.add_0_r in Hl'.
           exact (H e Hl').
    + (* "-" *)
      destruct m.
      * apply min_expand_spec in H; [|exact Hext].
        destruct H as [Hext' H]. split; [exact Hext'|].
        destruct res as [e|]; cbn [outcome_ok repeats_ok] in *.
        -- destruct H as (n & Hn & Hr & Hl). apply (Hintro e n); auto.
        -- intros e Hl. destruct (Hinv e Hl) as (n & [Hn _] & Hr & Hl').
           exact (H n e Hn Hr Hl').
      * apply IH in H; [|exact Hext]. destruct H as [Hext' H].
        split; [exact Hext'|]. destruct res as [e|]; cbn [outcome_ok] in *.
        -- apply (Hintro e 0); [lia|apply run_zero|].
           now rewrite Z.add_0_r.
        -- intros e Hl. destruct (Hinv e Hl) as (n & [Hn _] & Hr & Hl').
           rewrite (Hstop eq_refl n Hn Hr), Z.add_0_r in Hl'.
           exact (H e Hl').
Qed.
End Open.

Lemma match_exact_match_ :
  forall d, match_exact subject pattern ms0 (match_ subject pattern d).
Proof.
  induction d as [|d IH]; intros ms s p res ms' Hext H; cbn [match_] in H;
    [discriminate|].
  destruct (matchdepth ms =? 0); [discriminate|].
  apply bind_ret_inv in H. destruct H as ([r ms2] & E & H).
  injection H as <- <-.
  apply (match_body_exact _ IH) in E; [|exact Hext]. exact E.
Qed.
End Exact.

(** ** Patterns without captures *)

Lemma rd_in_or_zero (l : list Z) p : rd l p = 0 \/ In (rd l p) l.
Proof.
  unfold rd. destruct (nth_in_or_default (Z.to_nat p) l 0); auto.
Qed.

Lemma no_captures_rd pattern p :
  no_captures pattern -> rd pattern p <> ch "(".
Proof.
  intros Hnc E. destruct (rd_in_or_zero pattern p) as [H|H].
  - rewrite E in H. discriminate.
  - rewrite E in H. exact (Hnc H).
Qed.

Lemma no_backref_b_spec pattern :
  no_backref_b pattern = true -> no_backref pattern.
Proof.
  induction pattern as [|c rest IH]; intros H p Hp E.
  - unfold rd in E. destruct (Z.to_nat p); discriminate.
  - cbn [no_backref_b] in H. apply andb_prop in H. destruct H as [H1 H2].
    destruct (Z.eq_dec p 0) as [->|Hne].
    + change (rd (c :: rest) 0) with c in E.
      assert (rd (c :: rest) (0 + 1) = hd 0 rest) as ->
          by (destruct rest; reflexivity).
      rewrite E in H1. change (CHAR_ESC =? CHAR_ESC) with true in H1.
      cbn [negb orb] in H1. now apply negb_true_iff.
    + replace p with (1 + (p - 1)) in E by lia.
      rewrite rd_cons in E by lia.
      replace (p + 1) with (1 + (p - 1 + 1)) by lia.
      rewrite rd_cons by lia. apply (IH H2); [lia|exact E].
Qed.

Lemma item_at_no_open pattern pe p :
  no_captures pattern ->
  item_at pattern pe p <> i_position /\ item_at pattern pe p <> i_open.
Proof.
  intros Hnc. pose proof (no_captures_rd pattern p Hnc) as Hp.
  unfold item_at. destruct (Z.eqb_spec (rd pattern p) (ch "(")); [tauto|].
  destruct (_ =? ch ")"); [split; discriminate|].
  destruct (_ && _); [split; discriminate|].
  destruct (_ && _); [split; discriminate|].
  destruct (_ && _); [split; discriminate|].
  destruct (_ && _); split; discriminate.
Qed.

Section Level.
Variables subject pattern : list Z.
Hypothesis Hnc : no_captures pattern.

Section Open.
Variable rec : MatchState -> Z -> Z -> outcome match_result.
Hypothesis Hrec : keeps_level rec.

Lemma max_expand_try_level :
  forall n ms s ep res ms',
    max_expand_try rec n ms s ep = Ret (res, ms') -> level ms' = level ms.
Proof.
  induction n as [|n IH]; intros ms s ep res ms' H;
    cbn [max_expand_try] in H.
  - now injection H as <- <-.
  - apply bind_ret_inv in H. destruct H as ([[e|] ms2] & E & H);
      apply Hrec in E.
    + now injection H as <- <-.
    + apply IH in H. congruence.
Qed.

Lemma max_expand_level ms s p ep res ms' :
  max_expand subject pattern rec ms s p ep = Ret (res, ms') ->
  level ms' = level ms.
Proof.
  intros H. unfold max_expand in H.
  apply bind_ret_inv in H. destruct H as (i & _ & H).
  now apply max_expand_try_level in H.
Qed.

Lemma min_expand_loop_level :
  forall fuel ms s p ep res ms',
    min_expand_loop subject pattern rec fuel ms s p ep = Ret (res, ms') ->
    level ms' = level ms.
Proof.
  induction fuel as [|fuel IH]; intros ms s p ep res ms' H;
    cbn [min_expand_loop] in H; [discriminate|].
  apply bind_ret_inv in H. destruct H as ([[e|] ms2] & E & H);
    apply Hrec in E.
  - now injection H as <- <-.
  - apply bind_ret_inv in H. destruct H as ([|] & _ & H).
    + apply IH in H. congruence.
    + now injection H as <- <-.
Qed.

Lemma end_capture_level ms s p res ms' :
  end_capture rec ms s p = Ret (res, ms') -> level ms' = level ms.
Proof.
  intros H. unfold end_capture in H.
  apply bind_ret_inv in H. destruct H as (l & _ & H).
  apply bind_ret_inv in H. destruct H as ([[e|] ms2] & E & H);
    apply Hrec in E; injection H as <- <-; exact E.
Qed.

Lemma match_body_level :
  forall fuel ms s p res ms',
    match_body subject pattern rec fuel ms s p = Ret (res, ms') ->
    level ms' = level ms.
Proof.
  induction fuel as [|fuel IH]; intros ms s p res ms' H; [discriminate|].
  rewrite match_body_unfold in H.
  destruct (p =? p_end ms); [now injection H as <- <-|].
  destruct (item_at_no_open pattern (p_end ms) p Hnc) as [N1 N2].
  destruct (item_at pattern (p_end ms) p) eqn:K; try congruence.
  - now apply end_capture_level in H.
  - destruct (matchbalance subject pattern ms s (p + 2)) as [[s'|]| | |];
      cbn [bind] in H; try discriminate.
    + now apply IH in H.
    + now injection H as <- <-.
  - destruct (negb _); [discriminate|].
    destruct (classend pattern ms (p + 2)) as [ep| | |];
      cbn [bind] in H; try discriminate.
    destruct (matchbracketclass pattern _ (p + 2) (ep - 1)) as [[|]| | |];
      cbn [bind] in H; try discriminate.
    { now injection H as <- <-. }
    destruct (matchbracketclass pattern _ (p + 2) (ep - 1)) as [[|]| | |];
      cbn [bind] in H; try discriminate.
    + now apply IH in H.
    + now injection H as <- <-.
  - destruct (match_capture subject ms s _) as [[s'|]| | |];
      cbn [bind] in H; try discriminate.
    + now apply IH in H.
    + now injection H as <- <-.
  - destruct (classend pattern ms p) as [ep| | |];
      cbn [bind] in H; try discriminate.
    destruct (singlematch subject pattern ms s p ep) as [m| | |];
      cbn [bind] in H; try discriminate.
    destruct (quantifier_at pattern ep), m;
      try (now apply IH in H);
      try (now injection H as <- <-);
      try (now apply max_expand_level in H);
      try (now apply min_expand_loop_level in H).
    apply bind_ret_inv in H. destruct H as ([[e|] ms2] & E & H);
      apply Hrec in E.
    + now injection H as <- <-.
    + apply IH in H. congruence.
Qed.
End Open.

Lemma match_level : forall d, keeps_level (match_ subject pattern d).
Proof.
  induction d as [|d IH]; intros ms s p res ms' H; cbn [match_] in H;
    [discriminate|].
  destruct (matchdepth ms =? 0); [discriminate|].
  apply bind_ret_inv in H. destruct H as ([r ms2] & E & H).
  injection H as <- <-.
  apply (match_body_level _ IH) in E. exact E.
Qed.
End Level.

Lemma push_captures_whole subject ms s e :
  level ms = 0 ->
  push_captures subject ms s e []
  = Ret [janet_wrap_string (slice subject s (e - s))].
Proof.
  intros Hl. unfold push_captures. rewrite Hl. cbn [Z.eqb].
  change (Z.to_nat 1) with 1%nat. cbn [push_captures_loop].
  unfold push_onecapture. rewrite Hl. reflexivity.
Qed.

(** ** The loop of [match] and the layouts *)

Section Loop.
Variables subject pattern : list Z.
Variable ms0 : MatchState.
Hypothesis Hnb : no_backref pattern.
Variable p : Z.

Lemma str_match_loop_exact :
  forall fuel ms s1 anchor v,
    same_extent ms0 ms ->
    str_match_loop subject pattern fuel ms s1 p anchor = Ret v ->
    (exists k e ms1 ms' caps,
        s1 <= k <= Z.max s1 (src_end ms0)
        /\ (anchor = true -> k = s1)
        /\ lays subject pattern ms0 p k e
        /\ (forall k' e', s1 <= k' < k -> ~ lays subject pattern ms0 p k' e')
        /\ v = janet_wrap_array caps
        /\ level ms1 = 0
        /\ match_ subject pattern (S (Z.to_nat MAXCCALLS)) ms1 k p
           = Ret (Some e, ms')
        /\ push_captures subject ms' k e [] = Ret caps)
    \/ (v = janet_wrap_nil
        /\ forall k e, s1 <= k <= src_end ms0 -> (anchor = true -> k = s1) ->
             ~ lays subject pattern ms0 p k e).
Proof.
  induction fuel as [|fuel IH]; intros ms s1 anchor v Hext H;
    cbn [str_match_loop] in H; [discriminate|].
  apply bind_ret_inv in H. destruct H as (ms1 & E1 & H).
  unfold reprepstate in E1. destruct (negb _); [discriminate|].
  injection E1 as <-.
  apply bind_ret_inv in H. destruct H as ([[e|] ms'] & E & H).
  - apply bind_ret_inv in H. destruct H as (caps & Ec & H).
    injection H as <-. left.
    destruct (match_exact_match_ subject pattern ms0 Hnb _ _ _ _ _ _
                (same_extent_set_level ms0 ms 0 Hext) E) as [_ Hl].
    exists s1, e, (set_level ms 0), ms', caps.
    repeat split; auto; try lia.
  - destruct (match_exact_match_ subject pattern ms0 Hnb _ _ _ _ _ _
                (same_extent_set_level ms0 ms 0 Hext) E) as [Hext' Hl].
    cbn [outcome_ok] in Hl. pose proof Hext' as (_ & Ee & _).
    rewrite Ee in H.
    destruct (Z.ltb_spec s1 (src_end ms0)) as [Hlt|Hge];
      [destruct anchor|]; cbn [negb andb] in H.
    + injection H as <-. right. split; [reflexivity|].
      intros k e _ Ha. rewrite (Ha eq_refl). apply Hl.
    + apply IH in H; [|exact Hext'].
      destruct H as [(k & e & m1 & m' & caps & Hk & _ & H1 & H2 & H3)
                    |[-> Hn]].
      * left. exists k, e, m1, m', caps.
        split; [lia|]. split; [discriminate|]. split; [exact H1|].
        split; [|exact H3]. intros k' e' Hk'.
        destruct (Z.eq_dec k' s1) as [->|Hne]; [apply Hl|apply H2; lia].
      * right. split; [reflexivity|]. intros k e Hk _.
        destruct (Z.eq_dec k s1) as [->|Hne]; [apply Hl|].
        apply Hn; [lia|discriminate].
    + injection H as <-. right. split; [reflexivity|].
      intros k e Hk _. assert (k = s1) as -> by lia. apply Hl.
Qed.
End Loop.

Lemma cfun_str_match_exact subject pattern start v :
  no_backref pattern ->
  cfun_str_match subject pattern start = Ret v ->
  (exists k e ms1 ms' caps,
      tried subject pattern start k
      /\ layout subject pattern k e
      /\ (forall k' e', tried subject pattern start k' -> k' < k ->
            ~ layout subject pattern k' e')
      /\ v = janet_wrap_array caps
      /\ level ms1 = 0
      /\ match_ subject pattern (S (Z.to_nat MAXCCALLS)) ms1 k
           (if rd pattern 0 =? ch "^" then 1 else 0)
         = Ret (Some e, ms')
      /\ push_captures subject ms' k e [] = Ret caps)
  \/ (v = janet_wrap_nil
      /\ forall k e, tried subject pattern start k ->
           ~ layout subject pattern k e).
Proof.
  intros Hnb H. unfold cfun_str_match in H. cbv zeta in H.
  unfold tried, layout.
  set (i0 := str_match_init (len subject) start) in *.
  destruct (Z.gtb_spec i0 (len subject)) as [Hgt|Hle].
  { injection H as <-. right. split; [reflexivity|]. intros k e [Hk _]. lia. }
  set (ms0 := prepstate (len subject) (len pattern) 0).
  assert (same_extent ms0
            (prepstate (len subject)
               (if rd pattern 0 =? ch "^" then len pattern - 1
                else len pattern)
               (if rd pattern 0 =? ch "^" then 1 else 0))) as Hext.
  { unfold same_extent, ms0. cbn [src_init src_end p_end prepstate].
    destruct (rd pattern 0 =? ch "^"); repeat split; lia. }
  apply (str_match_loop_exact subject pattern ms0 Hnb) in H; [|exact Hext].
  change (src_end ms0) with (len subject) in H.
  rewrite Z.max_r in H by lia.
  destruct H as [(k & e & m1 & m' & caps & Hk & Ha & H1 & H2 & H3)|[-> Hn]].
  - left. exists k, e, m1, m', caps. split; [|split; [exact H1|]].
    + split; [exact Hk|]. intros E. apply Ha. now apply Z.eqb_eq.
    + split; [|exact H3]. intros k' e' [Hk' _] Hlt. apply H2. lia.
  - right. split; [reflexivity|]. intros k e [Hk Ha]. apply Hn; [exact Hk|].
    intros E. apply Ha. now apply Z.eqb_eq.
Qed.

(** ** Where a layout ends *)

Lemma matchbalance_loop_range subject ms :
  forall fuel s b e cont s',
    matchbalance_loop subject fuel ms s b e cont = Ret (Some s') ->
    s < s' <= src_end ms.
Proof.
  induction fuel as [|fuel IH]; intros s b e cont s' H;
    cbn [matchbalance_loop] in H; [discriminate|].
  destruct (Z.ltb_spec (s + 1) (src_end ms)); [|discriminate].
  destruct (_ =? e).
  - destruct (_ =? 0).
    + injection H as <-. lia.
    + apply IH in H. lia.
  - destruct (_ =? b); apply IH in H; lia.
Qed.

Lemma matchbalance_range subject pattern ms s p s' :
  matchbalance subject pattern ms s p = Ret (Some s') -> s < s' <= src_end ms.
Proof.
  unfold matchbalance. destruct (_ >=? _); [discriminate|].
  destruct (negb _); [discriminate|]. apply matchbalance_loop_range.
Qed.

Lemma lays_bounds subject pattern ms0 p s e :
  lays subject pattern ms0 p s e ->
  s <= src_end ms0 -> s <= e <= src_end ms0.
Proof.
  induction 1 as [s|p s e Hp K H IH|p s e Hp K H IH|p s e Hp K H IH
                 |p s Hp K H|p s s' e Hp K Hb H IH
                 |p ep s e Hp K H1 H2 H3 H4 H IH
                 |p ep n s e Hp K H1 H2 H3 H IH]; intros Hs; try lia; auto.
  - apply matchbalance_range in Hb. lia.
  - destruct H2 as [Hn _].
    assert (s + n <= src_end ms0) as Hsn.
    { destruct (Z.eq_dec n 0) as [->|Hne]; [lia|].
      specialize (H3 (n - 1) ltac:(lia)).
      apply singlematch_true in H3. lia. }
    specialize (IH Hsn). lia.
Qed.

(** ** Sets *)

Lemma rd_app_right (a b : list Z) k :
  0 <= k -> rd (a ++ b) (len a + k) = rd b k.
Proof.
  intros Hk. unfold rd, len. rewrite app_nth2 by lia. f_equal. lia.
Qed.

Lemma rd_hd (l : list Z) : rd l 0 = hd 0 l.
Proof. destruct l; reflexivity. Qed.

Lemma set_bytes_cons i items :
  set_bytes (i :: items) = item_bytes i ++ set_bytes items.
Proof. reflexivity. Qed.

Lemma matchbracketclass_loop_items c rest :
  forall items pre fuel p sig,
    set_ok items ->
    p + 1 = len pre ->
    (length (set_bytes items) < fuel)%nat ->
    matchbracketclass_loop (pre ++ set_bytes items ++ rest) fuel c p
      (len pre + len (set_bytes items)) sig
    = Ret (if existsb (in_item c) items then sig else negb sig).
Proof.
  induction items as [|i items IH]; intros pre fuel p sig Hok Hp Hf;
    (destruct fuel as [|fuel]; [lia|]); cbn [matchbracketclass_loop].
  - rewrite Hp. change (len (set_bytes [])) with 0.
    destruct (Z.ltb_spec (len pre) (len pre + 0)); [lia|reflexivity].
  - rewrite Hp, set_bytes_cons, len_app. pose proof (len_nonneg (set_bytes items)) as Hn.
    assert (forall k, 0 <= k ->
              rd (pre ++ (item_bytes i ++ set_bytes items) ++ rest)
                (len pre + k)
              = rd (item_bytes i ++ set_bytes items ++ rest) k) as Hrd.
    { intros k Hk. rewrite <- app_assoc. now apply rd_app_right. }
    assert (forall sig' q,
               q + 1 = len (pre ++ item_bytes i) ->
               matchbracketclass_loop
                 (pre ++ (item_bytes i ++ set_bytes items) ++ rest) fuel c q
                 (len pre + (len (item_bytes i) + len (set_bytes items))) sig'
               = Ret (if existsb (in_item c) items then sig'
                      else negb sig')) as Hnext.
    { intros sig' q Hq.
      replace (pre ++ (item_bytes i ++ set_bytes items) ++ rest)
        with ((pre ++ item_bytes i) ++ set_bytes items ++ rest)
        by (now rewrite <- !app_assoc).
      replace (len pre + (len (item_bytes i) + len (set_bytes items)))
        with (len (pre ++ item_bytes i) + len (set_bytes items))
        by (rewrite len_app; lia).
      apply IH; [destruct i; apply Hok|exact Hq|].
      rewrite set_bytes_cons, length_app in Hf. destruct i; cbn in Hf; lia. }
    rewrite len_app in Hnext.
    assert (rd (pre ++ (item_bytes i ++ set_bytes items) ++ rest) (len pre)
            = rd (item_bytes i ++ set_bytes items ++ rest) 0) as Hrd0.
    { rewrite <- (Hrd 0) by lia. f_equal. lia. }
    replace (len pre + 2 - 2) with (len pre) by lia.
    rewrite !Hrd by lia. rewrite !Hrd0.
    destruct i as [b|lo hi|cl]; cbn [item_bytes app existsb in_item] in *.
    + change (len [b]) with 1 in *.
      destruct Hok as (Hb & Hdash & Hok).
      destruct (Z.ltb_spec (len pre) (len pre + (1 + len (set_bytes items))));
        [|lia].
      change (rd (b :: set_bytes items ++ rest) 0) with b.
      destruct (Z.eqb_spec b CHAR_ESC) as [|_]; [contradiction|].
      assert ((rd (b :: set_bytes items ++ rest) 1 =? ch "-")
              && (len pre + 2 <? len pre + (1 + len (set_bytes items)))
              = false) as ->.
      { destruct (Z.ltb_spec (len pre + 2)
                    (len pre + (1 + len (set_bytes items)))) as [Hl|Hl];
          [|apply andb_false_r].
        rewrite andb_true_r. apply Z.eqb_neq.
        change (rd (b :: set_bytes items ++ rest) 1)
          with (rd (set_bytes items ++ rest) 0).
        rewrite rd_hd. destruct (set_bytes items) as [|x t] eqn:Es.
        - change (len []) with 0 in Hl. lia.
        - apply Hdash. lia. }
      destruct (b =? c); [reflexivity|]. apply Hnext. lia.
    + change (len [lo; ch "-"; hi]) with 3 in *.
      destruct Hok as (Hlo & Hok).
      destruct (Z.ltb_spec (len pre) (len pre + (3 + len (set_bytes items))));
        [|lia].
      change (rd (lo :: ch "-" :: hi :: set_bytes items ++ rest) 0) with lo.
      change (rd (lo :: ch "-" :: hi :: set_bytes items ++ rest) 1)
        with (ch "-").
      change (rd (lo :: ch "-" :: hi :: set_bytes items ++ rest) 2) with hi.
      destruct (Z.eqb_spec lo CHAR_ESC) as [|_]; [contradiction|].
      rewrite Z.eqb_refl.
      destruct (Z.ltb_spec (len pre + 2)
                  (len pre + (3 + len (set_bytes items)))); [|lia].
      cbn [andb].
      destruct ((lo <=? c) && (c <=? hi)); [reflexivity|].
      apply Hnext. lia.
    + change (len [CHAR_ESC; cl]) with 2 in *.
      destruct (Z.ltb_spec (len pre) (len pre + (2 + len (set_bytes items))));
        [|lia].
      change (rd (CHAR_ESC :: cl :: set_bytes items ++ rest) 0) with CHAR_ESC.
      rewrite Z.eqb_refl.
      change (rd (CHAR_ESC :: cl :: set_bytes items ++ rest) 1) with cl.
      destruct (match_class c cl); [reflexivity|].
      apply Hnext. lia.
Qed.

Lemma set_pattern_split pre (negated : bool) items rest :
  pre ++ set_pattern negated items ++ rest
  = (pre ++ ch "[" :: (if negated then [ch "^"] else []))
      ++ set_bytes items ++ ch "]" :: rest.
Proof.
  unfold set_pattern. destruct negated; cbn [app];
    rewrite <- !app_assoc; cbn [app]; rewrite <- ?app_assoc; reflexivity.
Qed.

Lemma len_set_pattern (negated : bool) items :
  len (set_pattern negated items)
  = 1 + (if negated then 1 else 0) + len (set_bytes items) + 1.
Proof.
  unfold set_pattern.
  change (ch "[" :: (if negated then [ch "^"] else [])
            ++ set_bytes items ++ [ch "]"])
    with ([ch "["] ++ (if negated then [ch "^"] else [])
            ++ set_bytes items ++ [ch "]"]).
  rewrite !len_app. destruct negated; unfold len; cbn [length]; lia.
Qed.

Lemma len_set_prefix pre (negated : bool) :
  len (pre ++ ch "[" :: (if negated then [ch "^"] else []))
  = len pre + 1 + (if negated then 1 else 0).
Proof. rewrite len_app. destruct negated; unfold len; cbn; lia. Qed.

Lemma matchbracketclass_set pre items rest c (negated : bool) :
  set_ok items ->
  (negated = false -> hd 0 (set_bytes items ++ [ch "]"]) <> ch "^") ->
  matchbracketclass (pre ++ set_pattern negated items ++ rest) c (len pre)
    (len pre + len (set_pattern negated items) - 1)
  = Ret (xorb negated (existsb (in_item c) items)).
Proof.
  intros Hok Hneg. unfold matchbracketclass.
  pose proof (len_nonneg (set_bytes items)) as Hn.
  pose proof (len_nonneg pre) as Hpre.
  rewrite set_pattern_split, len_set_pattern.
  pose proof (len_set_prefix pre negated) as Hl.
  replace (len pre + (1 + (if negated then 1 else 0) + len (set_bytes items) + 1)
           - 1)
    with (len (pre ++ ch "[" :: (if negated then [ch "^"] else []))
          + len (set_bytes items)) by lia.
  destruct negated; cbn [xorb] in *.
  - assert (rd ((pre ++ [ch "["; ch "^"]) ++ set_bytes items ++ ch "]" :: rest)
              (len pre + 1) = ch "^") as ->.
    { rewrite <- app_assoc. rewrite rd_app_right by lia. reflexivity. }
    rewrite Z.eqb_refl.
    rewrite matchbracketclass_loop_items; [|exact Hok|lia|].
    + now destruct (existsb _ _).
    + unfold len in *. lia.
  - assert ((rd ((pre ++ [ch "["]) ++ set_bytes items ++ ch "]" :: rest)
               (len pre + 1) =? ch "^") = false) as ->.
    { replace (len pre + 1) with (len (pre ++ [ch "["]) + 0) by lia.
      rewrite rd_app_right by lia. rewrite rd_hd. apply Z.eqb_neq.
      specialize (Hneg eq_refl). destruct (set_bytes items); exact Hneg. }
    rewrite matchbracketclass_loop_items; [|exact Hok|lia|].
    + now destruct (existsb _ _).
    + unfold len in *. lia.
Qed.

(** One item of a set in [classend]. *)
Lemma classend_loop_item ms i pre tail R :
  match i with
  | set_byte b => b <> CHAR_ESC
  | set_range lo _ => lo <> CHAR_ESC
  | set_class _ => True
  end ->
  range_closed i ->
  len pre + len (item_bytes i) < p_end ms ->
  (forall f,
      (Z.to_nat (p_end ms - (len pre + len (item_bytes i))) < f)%nat ->
      (if negb (rd (pre ++ item_bytes i ++ tail)
                  (len pre + len (item_bytes i)) =? ch "]")
       then classend_loop (pre ++ item_bytes i ++ tail) f ms
              (len pre + len (item_bytes i))
       else Ret (len pre + len (item_bytes i) + 1)) = Ret R) ->
  forall fuel,
    (Z.to_nat (p_end ms - len pre) < fuel)%nat ->
    classend_loop (pre ++ item_bytes i ++ tail) fuel ms (len pre) = Ret R.
Proof.
  intros Hi Hc Hpe Htail fuel Hf. pose proof (len_nonneg pre) as Hpre.
  assert (forall k, 0 <= k ->
            rd (pre ++ item_bytes i ++ tail) (len pre + k)
            = rd (item_bytes i ++ tail) k) as Hrd
      by (intros; now apply rd_app_right).
  assert (rd (pre ++ item_bytes i ++ tail) (len pre)
          = rd (item_bytes i ++ tail) 0) as Hrd0.
  { rewrite <- (Hrd 0) by lia. f_equal. lia. }
  destruct i as [b|lo hi|cl]; cbn [item_bytes app range_closed] in *.
  - change (len [b]) with 1 in *.
    destruct fuel as [|fuel]; [lia|]. cbn [classend_loop].
    destruct (Z.eqb_spec (len pre) (p_end ms)); [lia|].
    rewrite Hrd0. change (rd (b :: tail) 0) with b.
    destruct (Z.eqb_spec b CHAR_ESC) as [|_]; [contradiction|]. cbn [andb].
    apply Htail. lia.
  - change (len [lo; ch "-"; hi]) with 3 in *. destruct Hc as [Hh1 Hh2].
    destruct fuel as [|[|[|fuel]]]; try lia. cbn [classend_loop].
    destruct (Z.eqb_spec (len pre) (p_end ms)); [lia|].
    rewrite Hrd0. change (rd (lo :: ch "-" :: hi :: tail) 0) with lo.
    destruct (Z.eqb_spec lo CHAR_ESC) as [|_]; [contradiction|]. cbn [andb].
    rewrite (Hrd 1) by lia.
    change (rd (lo :: ch "-" :: hi :: tail) 1) with (ch "-").
    change (ch "-" =? ch "]") with false. cbn [negb].
    destruct (Z.eqb_spec (len pre + 1) (p_end ms)); [lia|].
    change (ch "-" =? CHAR_ESC) with false. cbn [andb].
    replace (len pre + 1 + 1) with (len pre + 2) by lia.
    rewrite (Hrd 2) by lia.
    change (rd (lo :: ch "-" :: hi :: tail) 2) with hi.
    destruct (Z.eqb_spec hi (ch "]")) as [|_]; [contradiction|]. cbn [negb].
    destruct (Z.eqb_spec (len pre + 2) (p_end ms)); [lia|].
    destruct (Z.eqb_spec hi CHAR_ESC) as [|_]; [contradiction|]. cbn [andb].
    replace (len pre + 2 + 1) with (len pre + 3) by lia.
    apply Htail. lia.
  - change (len [CHAR_ESC; cl]) with 2 in *.
    destruct fuel as [|fuel]; [lia|]. cbn [classend_loop].
    destruct (Z.eqb_spec (len pre) (p_end ms)); [lia|].
    rewrite Hrd0. change (rd (CHAR_ESC :: cl :: tail) 0) with CHAR_ESC.
    rewrite Z.eqb_refl.
    destruct (Z.ltb_spec (len pre + 1) (p_end ms)); [|lia]. cbn [andb].
    replace (len pre + 1 + 1) with (len pre + 2) by lia.
    apply Htail. lia.
Qed.

Lemma item_plain_of_set_ok i items :
  set_ok (i :: items) ->
  match i with
  | set_byte b => b <> CHAR_ESC
  | set_range lo _ => lo <> CHAR_ESC
  | set_class _ => True
  end /\ set_ok items.
Proof. destruct i; cbn [set_ok]; tauto. Qed.

(** The items of a set in [classend], from the first one on. *)
Lemma classend_loop_items ms rest :
  forall items i pre fuel,
    set_ok (i :: items) ->
    Forall range_closed (i :: items) ->
    Forall (fun j => hd 0 (item_bytes j) <> ch "]") items ->
    len pre + len (set_bytes (i :: items)) + 1 <= p_end ms ->
    (Z.to_nat (p_end ms - len pre) < fuel)%nat ->
    classend_loop (pre ++ set_bytes (i :: items) ++ ch "]" :: rest) fuel ms
      (len pre)
    = Ret (len pre + len (set_bytes (i :: items)) + 1).
Proof.
  induction items as [|j items IH]; intros i pre fuel Hok Hrc Hfb Hpe Hf;
    rewrite set_bytes_cons in *; rewrite len_app in *;
    rewrite <- app_assoc;
    destruct (item_plain_of_set_ok _ _ Hok) as [Hi Hok'];
    inversion Hrc as [|? ? Hci Hrc']; subst;
    pose proof (len_nonneg (item_bytes i)) as Hni;
    pose proof (len_nonneg pre) as Hpre.
  - change (set_bytes []) with (@nil Z) in *. change (len []) with 0 in *.
    cbn [app] in *.
    apply classend_loop_item; auto; try lia.
    intros f _.
    replace (pre ++ item_bytes i ++ ch "]" :: rest)
      with ((pre ++ item_bytes i) ++ ch "]" :: rest)
      by (now rewrite <- app_assoc).
    assert (rd ((pre ++ item_bytes i) ++ ch "]" :: rest)
              (len pre + len (item_bytes i)) = ch "]") as ->.
    { replace (len pre + len (item_bytes i))
        with (len (pre ++ item_bytes i) + 0) by (rewrite len_app; lia).
      rewrite rd_app_right by lia. reflexivity. }
    rewrite Z.eqb_refl. cbn [negb]. f_equal. lia.
  - inversion Hfb as [|? ? Hj Hfb']; subst.
    pose proof (len_nonneg (set_bytes (j :: items))) as Hn'.
    apply classend_loop_item; auto; try lia.
    intros f Hf'.
    replace (pre ++ item_bytes i ++ set_bytes (j :: items) ++ ch "]" :: rest)
      with ((pre ++ item_bytes i) ++ set_bytes (j :: items) ++ ch "]" :: rest)
      by (now rewrite <- app_assoc).
    replace (len pre + len (item_bytes i))
      with (len (pre ++ item_bytes i)) by (rewrite len_app; lia).
    assert (rd ((pre ++ item_bytes i) ++ set_bytes (j :: items)
                  ++ ch "]" :: rest) (len (pre ++ item_bytes i))
            = hd 0 (item_bytes j)) as ->.
    { rewrite <- (Z.add_0_r (len (pre ++ item_bytes i))).
      rewrite rd_app_right by lia. rewrite rd_hd, set_bytes_cons.
      destruct j; reflexivity. }
    destruct (Z.eqb_spec (hd 0 (item_bytes j)) (ch "]")) as [|_];
      [contradiction|]. cbn [negb].
    rewrite IH; auto.
    + f_equal. rewrite len_app. lia.
    + rewrite len_app. lia.
    + rewrite len_app. lia.
Qed.

Lemma classend_set ms pre (negated : bool) items rest :
  set_ok items ->
  set_closed items ->
  (negated = false -> hd 0 (set_bytes items ++ [ch "]"]) <> ch "^") ->
  len pre + len (set_pattern negated items) <= p_end ms ->
  classend (pre ++ set_pattern negated items ++ rest) ms (len pre)
  = Ret (len pre + len (set_pattern negated items)).
Proof.
  intros Hok (Hne & Hrc & Hfb) Hneg Hpe.
  destruct items as [|i items]; [contradiction|]. cbn [tl] in Hfb.
  pose proof (len_nonneg pre) as Hpre.
  pose proof (len_nonneg (set_bytes (i :: items))) as Hn.
  unfold classend.
  assert (rd (pre ++ set_pattern negated (i :: items) ++ rest) (len pre)
          = ch "[") as ->.
  { rewrite <- (Z.add_0_r (len pre)). rewrite rd_app_right by lia.
    reflexivity. }
  change (ch "[" =? CHAR_ESC) with false. rewrite Z.eqb_refl.
  rewrite set_pattern_split. rewrite len_set_pattern in *.
  pose proof (len_set_prefix pre negated) as Hl.
  destruct negated.
  - assert (rd ((pre ++ [ch "["; ch "^"]) ++ set_bytes (i :: items)
                  ++ ch "]" :: rest) (len pre + 1) = ch "^") as ->.
    { rewrite <- app_assoc. rewrite rd_app_right by lia. reflexivity. }
    rewrite Z.eqb_refl.
    replace (len pre + 1 + 1) with (len (pre ++ [ch "["; ch "^"])) by lia.
    rewrite classend_loop_items; auto; try lia.
    f_equal. lia.
  - assert ((rd ((pre ++ [ch "["]) ++ set_bytes (i :: items)
                   ++ ch "]" :: rest) (len pre + 1) =? ch "^") = false) as ->.
    { replace (len pre + 1) with (len (pre ++ [ch "["]) + 0) by lia.
      rewrite rd_app_right by lia. rewrite rd_hd. apply Z.eqb_neq.
      specialize (Hneg eq_refl). destruct (set_bytes (i :: items)); exact Hneg. }
    replace (len pre + 1) with (len (pre ++ [ch "["])) by lia.
    rewrite classend_loop_items; auto; try lia.
    f_equal. lia.
Qed.

Lemma singlematch_set subject ms pre (negated : bool) items rest s :
  set_ok items ->
  (negated = false -> hd 0 (set_bytes items ++ [ch "]"]) <> ch "^") ->
  singlematch subject (pre ++ set_pattern negated items ++ rest) ms s
    (len pre) (len pre + len (set_pattern negated items))
  = Ret (if s >=? src_end ms then false
         else xorb negated (existsb (in_item (rd subject s)) items)).
Proof.
  intros Hok Hneg. unfold singlematch.
  destruct (s >=? src_end ms); [reflexivity|].
  assert (rd (pre ++ set_pattern negated items ++ rest) (len pre)
          = ch "[") as ->.
  { rewrite <- (Z.add_0_r (len pre)). rewrite rd_app_right by lia.
    reflexivity. }
  change (ch "[" =? ch ".") with false.
  change (ch "[" =? CHAR_ESC) with false. rewrite Z.eqb_refl.
  now apply matchbracketclass_set.
Qed.

(** ** [replace-all] as [split] and [join] *)

(** The pieces around a list of offsets, with [S] between them. *)
Lemma intercalate_pieces_splice T S m :
  forall occs last,
    intercalate S (pieces T m last occs) = splice T S m last occs.
Proof.
  induction occs as [|o rest IH]; intros last; [reflexivity|].
  cbn [pieces splice intercalate].
  destruct (pieces T m (o + m) rest) as [|x q] eqn:E;
    [exfalso; exact (pieces_nonempty _ _ _ _ E)|].
  rewrite <- E. fold (intercalate S (pieces T m (o + m) rest)).
  now rewrite IH.
Qed.

Lemma all_occurrences_skip P T :
  forall d a,
    (forall o, a <= o < a + Z.of_nat d -> ~ occurs_at P T o) ->
    all_occurrences P T a = all_occurrences P T (a + Z.of_nat d).
Proof.
  induction d as [|d IH]; intros a Hno.
  - f_equal. lia.
  - destruct (Z_lt_le_dec (len T) a) as [Hgt|Hle].
    + rewrite !all_occurrences_none; [reflexivity| |];
        intros o Ho (H1 & H2 & _); pose proof (len_nonneg P); lia.
    + rewrite all_occurrences_step by lia.
      assert (occurs_atb P T a = false) as ->.
      { apply occurs_atb_false. apply Hno. lia. }
      cbn [app]. rewrite IH by (intros o Ho; apply Hno; lia).
      f_equal. lia.
Qed.

Lemma no_overlap_later P T s s' :
  s <= s' -> no_overlap P T s -> no_overlap P T s'.
Proof. intros Hs H o o' Ho. apply H. lia. Qed.

(** Without overlap, the occurrences a scan meets when it resumes after
    each one are all the occurrences. *)
Lemma nonoverlapping_all P T :
  P <> [] ->
  forall n s,
    length (all_occurrences P T s) = n ->
    no_overlap P T s ->
    nonoverlapping P T s (all_occurrences P T s).
Proof.
  intros HP. assert (0 < len P) as Hm by (destruct P; [contradiction|unfold len; cbn; lia]).
  induction n as [|n IH]; intros s Hn Hno.
  - destruct (all_occurrences P T s) eqn:E; [|discriminate].
    constructor. now apply all_occurrences_nil.
  - destruct (all_occurrences P T s) as [|o rest] eqn:E; [discriminate|].
    pose proof (all_occurrences_head _ _ _ _ _ E) as Hleft.
    rewrite (all_occurrences_leftmost _ _ _ _ Hleft) in E.
    injection E as <-.
    assert (all_occurrences P T (o + 1) = all_occurrences P T (o + len P))
      as Hskip.
    { replace (o + len P) with (o + 1 + Z.of_nat (Z.to_nat (len P - 1)))
        by lia.
      apply all_occurrences_skip. intros o' Ho' Hocc.
      destruct Hleft as (Hso & Hoo & _).
      specialize (Hno o o' Hso ltac:(lia) Hoo Hocc). lia. }
    rewrite Hskip in *. constructor; [exact Hleft|].
    apply IH; [cbn [length] in Hn; lia|].
    apply (no_overlap_later P T s); [|exact Hno].
    destruct Hleft as (Hso & _). lia.
Qed.

Lemma replaceall_split_join P S T s :
  P <> [] -> 0 <= s -> no_overlap P T s -> len T <= INT32_MAX ->
  exists parts result,
    cfun_string_split P T (Some (s, None)) = Ret (janet_wrap_array parts)
    /\ (len result <= INT32_MAX ->
        cfun_string_replaceall P S T (Some s)
        = Ret (janet_wrap_string result)
        /\ cfun_string_join parts (Some S)
           = Ret (inr (janet_wrap_string result)))
    /\ (INT32_MAX < len result ->
        cfun_string_join parts (Some S) = Ret (inl result_string_too_long)).
Proof.
  intros HP Hs Hno Hmax.
  destruct (replace_all_nonempty P S T s HP Hs)
    as (occs & result & Hocc & -> & _ & E).
  pose proof (nonoverlapping_all P T HP _ s eq_refl Hno) as Hall.
  pose proof (nonoverlapping_unique _ _ _ _ _ Hocc Hall) as ->.
  exists (map janet_wrap_string
            (pieces T (len P) 0 (all_occurrences P T s))),
    (splice T S (len P) 0 (all_occurrences P T s)).
  assert (cfun_string_join
            (map janet_wrap_string
               (pieces T (len P) 0 (all_occurrences P T s))) (Some S)
          = Ret (if len (splice T S (len P) 0 (all_occurrences P T s))
                    >? INT32_MAX
                 then inl result_string_too_long
                 else inr (janet_wrap_string
                             (splice T S (len P) 0
                                (all_occurrences P T s))))) as Hjoin.
  { rewrite cfun_string_join_strings. cbn [joiner_bytes].
    now rewrite intercalate_pieces_splice. }
  split; [|split].
  - rewrite cfun_string_split_nonempty; auto.
    cbn [split_limit]. unfold INT32_MIN, INT32_MAX in *. lia.
  - intros Hfit. split.
    + rewrite E. now apply buffer_string_fits.
    + rewrite Hjoin.
      destruct (Z.gtb_spec
                  (len (splice T S (len P) 0 (all_occurrences P T s)))
                  INT32_MAX); [lia|reflexivity].
  - intros Hbig. rewrite Hjoin.
    destruct (Z.gtb_spec
                (len (splice T S (len P) 0 (all_occurrences P T s)))
                INT32_MAX); [reflexivity|lia].
Qed.

(** * Further properties of the library *)

(** ** The exact search *)

(** X1. [kmp_init] returns for every pattern and text, with the cursor at
    [(0, 0)] and a failure table of one entry per pattern byte: entry [k]
    is the length of the longest proper border of [pat[0..=k]], that is
    the longest proper prefix of it that is also a suffix of it. *)
Theorem failure_table_longest_borders :
  forall P T : list Z,
    exists lookup',
      kmp_init T (len T) P (len P) =
        Ret {| i := 0; j := 0; textlen := len T; patlen := len P;
               lookup := lookup'; text := T; pat := P |}
      /\ len lookup' = len P
      /\ forall k, 0 <= k < len P -> maxborder P (k + 1) (rd lookup' k).
Proof.
  intros P T. destruct (kmp_init_spec P T) as (lk & E & Hl & Hk).
  exists lk. auto.
Qed.

(** X2. For a non-empty pattern, [find] answers with the first offset of
    the array [find-all] returns from the same start, and with nil when
    that array is empty. *)
Theorem find_is_first_of_find_all :
  forall (P T : list Z) (s : Z),
    P <> [] -> 0 <= s ->
    exists offsets,
      cfun_string_findall P T (Some s) =
        Ret (janet_wrap_array (map janet_wrap_integer offsets))
      /\ cfun_string_find P T (Some s) =
           Ret (match offsets with
                | [] => janet_wrap_nil
                | o :: _ => janet_wrap_integer o
                end).
Proof.
  intros P T s HP Hs. exists (all_occurrences P T s).
  split; [now apply findall_nonempty|now apply find_first_of_findall].
Qed.

Lemma find_is_first_of_find_all_witness :
  exists offsets,
    cfun_string_findall [97; 98] [98; 97; 98; 97; 98] (Some 0) =
      Ret (janet_wrap_array (map janet_wrap_integer offsets))
    /\ cfun_string_find [97; 98] [98; 97; 98; 97; 98] (Some 0) =
         Ret (match offsets with
              | [] => janet_wrap_nil
              | o :: _ => janet_wrap_integer o
              end).
Proof.
  apply (find_is_first_of_find_all [97; 98] [98; 97; 98; 97; 98] 0).
  - discriminate.
  - lia.
Defined.

(** X3. With a start offset at or past the end of the text, whatever the
    pattern (the empty one included), nothing is searched: [find] returns
    nil, [find-all] an empty array, [replace] and [replace-all] the text,
    and [split] the text as its one segment. *)
Theorem start_at_or_past_end :
  forall (P S T : list Z) (s : Z) (limit : option Z),
    len T <= s ->
    cfun_string_find P T (Some s) = Ret janet_wrap_nil
    /\ cfun_string_findall P T (Some s) = Ret (janet_wrap_array [])
    /\ cfun_string_replace P S T (Some s) = Ret (janet_wrap_string T)
    /\ cfun_string_replaceall P S T (Some s) = Ret (janet_wrap_string T)
    /\ cfun_string_split P T (Some (s, limit)) =
         Ret (janet_wrap_array [janet_wrap_string T]).
Proof.
  intros P S T s limit Hs.
  split; [now apply find_past_end|].
  split; [now apply findall_past_end|].
  split; [now apply replace_past_end|].
  split; [now apply replaceall_past_end|now apply split_past_end].
Qed.

Lemma start_at_or_past_end_witness :
  cfun_string_find [] [97; 98] (Some 2) = Ret janet_wrap_nil
  /\ cfun_string_findall [] [97; 98] (Some 2) = Ret (janet_wrap_array [])
  /\ cfun_string_replace [] [88] [97; 98] (Some 2)
     = Ret (janet_wrap_string [97; 98])
  /\ cfun_string_replaceall [] [88] [97; 98] (Some 2)
     = Ret (janet_wrap_string [97; 98])
  /\ cfun_string_split [] [97; 98] (Some (2, None)) =
       Ret (janet_wrap_array [janet_wrap_string [97; 98]]).
Proof.
  apply (start_at_or_past_end [] [88] [97; 98] 2 None).
  unfold len. cbn [length]. lia.
Defined.

(** X4. With the empty pattern, [kmp_next] compares the bytes of the text
    with the 0 that ends the pattern string and never meets the last byte
    of a pattern: [find] returns no offset, whatever the text, and on a
    text without zero byte from the start offset on, [find] returns nil,
    [find-all] no offset, [replace] and [replace-all] the text, and
    [split] the text as its one segment. *)
Theorem empty_pattern_finds_nothing :
  forall (S T : list Z) (s : Z) (limit : option Z),
    0 <= s ->
    (forall o, cfun_string_find [] T (Some s) <> Ret (janet_wrap_integer o))
    /\ ((forall x, s <= x < len T -> rd T x <> 0) ->
        cfun_string_find [] T (Some s) = Ret janet_wrap_nil
        /\ cfun_string_findall [] T (Some s) = Ret (janet_wrap_array [])
        /\ cfun_string_replace [] S T (Some s) = Ret (janet_wrap_string T)
        /\ cfun_string_replaceall [] S T (Some s) = Ret (janet_wrap_string T)
        /\ cfun_string_split [] T (Some (s, limit))
           = Ret (janet_wrap_array [janet_wrap_string T])).
Proof.
  intros S T s limit Hs. split.
  - intros o. now apply find_empty_no_offset.
  - intros Hz.
    rewrite find_empty_zero_free, findall_empty_zero_free,
      (replace_empty_zero_free S), (replaceall_empty_zero_free S),
      split_empty_zero_free by assumption.
    repeat split.
Qed.

Lemma empty_pattern_finds_nothing_witness :
  (forall o, cfun_string_find [] [97; 98] (Some 0) <> Ret (janet_wrap_integer o))
  /\ ((forall x, 0 <= x < len [97; 98] -> rd [97; 98] x <> 0) ->
      cfun_string_find [] [97; 98] (Some 0) = Ret janet_wrap_nil
      /\ cfun_string_findall [] [97; 98] (Some 0) = Ret (janet_wrap_array [])
      /\ cfun_string_replace [] [88] [97; 98] (Some 0)
         = Ret (janet_wrap_string [97; 98])
      /\ cfun_string_replaceall [] [88] [97; 98] (Some 0)
         = Ret (janet_wrap_string [97; 98])
      /\ cfun_string_split [] [97; 98] (Some (0, None))
         = Ret (janet_wrap_array [janet_wrap_string [97; 98]])).
Proof.
  apply (empty_pattern_finds_nothing [88] [97; 98] 0 None). lia.
Defined.

(** X5. Replacing a non-empty pattern by itself gives back the text, with
    [replace] as with [replace-all], from any start offset. *)
Theorem replace_pattern_by_itself :
  forall (P T : list Z) (s : Z),
    P <> [] -> 0 <= s ->
    cfun_string_replace P P T (Some s) = Ret (janet_wrap_string T)
    /\ cfun_string_replaceall P P T (Some s) = Ret (janet_wrap_string T).
Proof.
  intros P T s HP Hs.
  split; [now apply replace_same|now apply replaceall_same].
Qed.

Lemma replace_pattern_by_itself_witness :
  cfun_string_replace [97; 97] [97; 97] [97; 97; 97; 98; 97; 97] (Some 1)
  = Ret (janet_wrap_string [97; 97; 97; 98; 97; 97])
  /\ cfun_string_replaceall [97; 97] [97; 97] [97; 97; 97; 98; 97; 97] (Some 1)
     = Ret (janet_wrap_string [97; 97; 97; 98; 97; 97]).
Proof.
  apply (replace_pattern_by_itself [97; 97] [97; 97; 97; 98; 97; 97] 1).
  - discriminate.
  - lia.
Defined.

(** ** [split] and [join] *)

(** X6. When no two occurrences of a non-empty delimiter from the start
    offset on overlap, [split] returns the segments of the text between
    those occurrences, the first one from offset 0 whatever the start
    offset; a limit [n >= 0] lets the first [n] occurrences split and
    leaves the rest of the text as the last segment.  An absent start is
    the start 0 and an absent limit is [-1]. *)
Theorem split_segments :
  forall (P T : list Z) (s : Z) (limit : option Z),
    P <> [] -> 0 <= s -> no_overlap P T s ->
    (split_limit limit < 0 -> INT32_MIN <= split_limit limit - len T) ->
    cfun_string_split P T (Some (s, limit)) =
      Ret (janet_wrap_array
             (map janet_wrap_string
                (pieces T (len P) 0
                   (limited (split_limit limit) (all_occurrences P T s)))))
    /\ cfun_string_split P T None = cfun_string_split P T (Some (0, None)).
Proof.
  intros P T s limit HP Hs Hno Hlim.
  split; [now apply cfun_string_split_nonempty|reflexivity].
Qed.

Lemma split_segments_witness :
  cfun_string_split [44] [97; 44; 98; 44; 44; 99] (Some (0, Some 2)) =
    Ret (janet_wrap_array
           (map janet_wrap_string
              (pieces [97; 44; 98; 44; 44; 99] (len [44]) 0
                 (limited (split_limit (Some 2))
                    (all_occurrences [44] [97; 44; 98; 44; 44; 99] 0)))))
  /\ cfun_string_split [44] [97; 44; 98; 44; 44; 99] None
     = cfun_string_split [44] [97; 44; 98; 44; 44; 99] (Some (0, None)).
Proof.
  apply (split_segments [44] [97; 44; 98; 44; 44; 99] 0 (Some 2)).
  - discriminate.
  - lia.
  - intros o o' _ Hlt _ _. unfold len. cbn [length]. lia.
  - cbn [split_limit]. lia.
Defined.

(** X7. [split] leaves the cursor where [kmp_next] put it, in the middle
    of the occurrence it has just cut at.  When two occurrences of the
    delimiter from the start offset on overlap and the limit is absent or
    negative, a hit begins before the end of the one before it, and
    [janet_string] is asked for a segment of negative length. *)
Theorem split_overlapping_occurrences :
  forall (P T : list Z) (s : Z) (limit : option Z) (o o' : Z),
    P <> [] -> 0 <= s -> split_limit limit < 0 ->
    s <= o -> o < o' -> o' < o + len P ->
    occurs_at P T o -> occurs_at P T o' ->
    cfun_string_split P T (Some (s, limit)) = Fault.
Proof. exact cfun_string_split_overlap. Qed.

Lemma split_overlapping_occurrences_witness :
  cfun_string_split [97; 97] [97; 97; 97] (Some (0, None)) = Fault.
Proof.
  apply (split_overlapping_occurrences [97; 97] [97; 97; 97] 0 None 0 1).
  - discriminate.
  - lia.
  - cbn [split_limit]. lia.
  - lia.
  - lia.
  - unfold len. cbn [length]. lia.
  - unfold occurs_at, len. cbn [length]. repeat split; try lia.
  - unfold occurs_at, len. cbn [length]. repeat split; try lia.
Defined.



(** X9. [join] of strings returns the strings in order with the separator
    between each two of them (nothing between them when the separator is
    absent, the empty string for no part), unless the result would be
    longer than [INT32_MAX], which raises "result string too long". *)
Theorem join_intercalates :
  forall (parts : list (list Z)) (joiner : option (list Z)),
    cfun_string_join (map janet_wrap_string parts) joiner =
      Ret (if len (intercalate (joiner_bytes joiner) parts) >? INT32_MAX
           then inl result_string_too_long
           else inr (janet_wrap_string
                       (intercalate (joiner_bytes joiner) parts))).
Proof. exact cfun_string_join_strings. Qed.

(** X10. [join] panics at the first part that is not a byte sequence,
    with its index and the part, before it builds anything: the parts
    before it are strings whose joined length is within [INT32_MAX], the
    parts after it are not looked at. *)
Theorem join_rejects_first_non_bytes :
  forall (parts : list (list Z)) (x : Janet) (rest : list Janet)
         (joiner : option (list Z)),
    janet_bytes_view x = None ->
    len (intercalate (joiner_bytes joiner) parts) <= INT32_MAX ->
    cfun_string_join (map janet_wrap_string parts ++ x :: rest) joiner =
      Ret (inl (item_of_parts_is_not_a_byte_sequence
                  (Z.of_nat (length parts)) x)).
Proof. exact cfun_string_join_bad_item. Qed.

Lemma join_rejects_first_non_bytes_witness :
  cfun_string_join
    (map janet_wrap_string [[97]; [98]]
     ++ janet_wrap_integer 3 :: [janet_wrap_nil]) (Some [44]) =
    Ret (inl (item_of_parts_is_not_a_byte_sequence
                (Z.of_nat (length [[97]; [98]])) (janet_wrap_integer 3))).
Proof.
  apply (join_rejects_first_non_bytes [[97]; [98]] (janet_wrap_integer 3)
           [janet_wrap_nil] (Some [44])).
  - reflexivity.
  - vm_compute. discriminate.
Defined.

(** ** Byte utilities *)

(** X11. [repeat] raises "expected non-negative number of repetitions"
    for a negative count and "result string is too long" when count times
    length exceeds [INT32_MAX]; otherwise it returns the bytes
    concatenated count times, the empty string for a count of 0 or an
    empty view. *)
Theorem repeat_copies :
  forall (view : list Z) (rep : Z),
    cfun_string_repeat view rep =
      Ret (if rep <? 0 then inl expected_non_negative_number_of_repetitions
           else if rep * len view >? INT32_MAX
                then inl result_string_is_too_long
                else inr (janet_wrap_string
                            (concat (repeat view (Z.to_nat rep))))).
Proof. exact cfun_string_repeat_spec. Qed.

(** X12. [from-bytes] keeps of each integer its value modulo 256, a
    negative one included, so that the result is a string of as many
    bytes as there are arguments. *)
Theorem frombytes_coerces_modulo_256 :
  forall argv : list Z,
    cfun_string_frombytes argv =
      Ret (janet_wrap_string (map (fun c => c mod 256) argv))
    /\ is_bytes (map (fun c => c mod 256) argv)
    /\ len (map (fun c => c mod 256) argv) = len argv.
Proof.
  intros argv. rewrite cfun_string_frombytes_spec. split; [|split].
  - do 2 f_equal. apply map_ext. apply land_255.
  - unfold is_bytes. apply Forall_forall. intros x Hx.
    apply in_map_iff in Hx. destruct Hx as (c & <- & _).
    apply Z.mod_pos_bound. lia.
  - unfold len. now rewrite length_map.
Qed.

(** X13. [bytes] returns the byte values of the string in order, and
    [from-bytes] applied to those integers gives the string back. *)
Theorem bytes_frombytes_round_trip :
  forall view : list Z,
    is_bytes view ->
    cfun_string_bytes view = Ret (map janet_wrap_integer view)
    /\ cfun_string_frombytes view = Ret (janet_wrap_string view).
Proof.
  intros view Hb. split; [apply cfun_string_bytes_spec|].
  rewrite cfun_string_frombytes_spec. do 2 f_equal.
  induction Hb as [|c l Hc Hl IH]; [reflexivity|].
  cbn [map]. rewrite IH, land_255, Z.mod_small by lia. reflexivity.
Qed.

Lemma bytes_frombytes_round_trip_witness :
  cfun_string_bytes [0; 97; 255] = Ret (map janet_wrap_integer [0; 97; 255])
  /\ cfun_string_frombytes [0; 97; 255] = Ret (janet_wrap_string [0; 97; 255]).
Proof.
  apply (bytes_frombytes_round_trip [0; 97; 255]).
  repeat constructor; lia.
Defined.

(** X14. [ascii-lower] adds 32 to the bytes 65 to 90 and [ascii-upper]
    takes 32 off the bytes 97 to 122; every other byte, and the length,
    is kept.  Each is idempotent and undoes nothing of the other beyond
    the letters: lower of upper is lower, upper of lower is upper. *)
Theorem ascii_case_conversions :
  forall view : list Z,
    cfun_string_asciilower view
    = Ret (janet_wrap_string (map ascii_lower view))
    /\ cfun_string_asciiupper view
       = Ret (janet_wrap_string (map ascii_upper view))
    /\ cfun_string_asciilower (map ascii_lower view)
       = Ret (janet_wrap_string (map ascii_lower view))
    /\ cfun_string_asciiupper (map ascii_upper view)
       = Ret (janet_wrap_string (map ascii_upper view))
    /\ cfun_string_asciilower (map ascii_upper view)
       = Ret (janet_wrap_string (map ascii_lower view))
    /\ cfun_string_asciiupper (map ascii_lower view)
       = Ret (janet_wrap_string (map ascii_upper view)).
Proof.
  intros view.
  rewrite !cfun_string_asciilower_spec, !cfun_string_asciiupper_spec.
  rewrite !map_map.
  repeat split; do 2 f_equal; apply map_ext; intros c;
    auto using ascii_lower_lower, ascii_upper_upper, ascii_lower_upper,
      ascii_upper_lower.
Qed.

(** X15. [reverse] returns the bytes in the opposite order, and applied
    twice gives the string back. *)
Theorem reverse_reverses :
  forall view : list Z,
    cfun_string_reverse view = Ret (janet_wrap_string (rev view))
    /\ cfun_string_reverse (rev view) = Ret (janet_wrap_string view).
Proof.
  intros view. rewrite !cfun_string_reverse_spec, rev_involutive. auto.
Qed.

(** X16. [check-set] keeps one bit for the three high bits and the three
    low bits of a byte: bits 3 and 4 are not looked at.  It answers true
    exactly when every byte of [str] agrees on those six bits with some
    byte of the set (with no byte of the set, when the set is inverted);
    so a string made of bytes of the set always passes, and so does a
    byte that is not in the set but differs from one of its bytes in bits
    3 and 4 only. *)
Theorem check_set_compares_six_bits :
  forall (cset str : list Z) (invert : option bool),
    is_bytes cset -> is_bytes str ->
    cfun_string_checkset cset str invert =
      Ret (forallb (fun c => if inverted invert then negb (bit_in c cset)
                             else bit_in c cset) str)
    /\ ((forall c, In c str -> In c cset) ->
        cfun_string_checkset cset str None = Ret true)
    /\ ((forall c, In c str ->
           exists s, In s cset /\ In (Z.lxor c s) [8; 16; 24]) ->
        cfun_string_checkset cset str None = Ret true).
Proof.
  intros cset str invert Hc Hs.
  split; [now apply cfun_string_checkset_spec|].
  rewrite cfun_string_checkset_spec by assumption. cbn [inverted].
  split; intros H; f_equal; apply forallb_forall; intros c Hin;
    unfold bit_in; apply existsb_exists.
  - exists c. split; [now apply H|]. unfold same_bit.
    now rewrite !Z.eqb_refl.
  - destruct (H c Hin) as (s & Hs' & Hx). exists s. split; [exact Hs'|].
    now apply same_bit_lxor.
Qed.

Lemma check_set_compares_six_bits_witness :
  cfun_string_checkset [97] [105] None =
    Ret (forallb (fun c => if inverted None then negb (bit_in c [97])
                           else bit_in c [97]) [105])
  /\ ((forall c, In c [105] -> In c [97]) ->
      cfun_string_checkset [97] [105] None = Ret true)
  /\ ((forall c, In c [105] ->
         exists s, In s [97] /\ In (Z.lxor c s) [8; 16; 24]) ->
      cfun_string_checkset [97] [105] None = Ret true).
Proof.
  apply (check_set_compares_six_bits [97] [105] None);
    repeat constructor; lia.
Defined.

(** ** Comparison *)

(** X17. With a [memcmp] as the C standard has it, [janet_string_compare]
    orders strings lexicographically by their bytes, a proper prefix
    before the strings it begins: the result is negative exactly when the
    left string comes first, zero exactly when the two hold the same
    bytes, and positive exactly when the right string comes first. *)
Theorem string_compare_lexicographic :
  forall memcmp : list Z -> list Z -> Z -> Z,
    memcmp_spec memcmp ->
    forall a b : list Z,
      (janet_string_compare memcmp a b < 0 <-> lex_lt a b)
      /\ (janet_string_compare memcmp a b = 0 <-> a = b)
      /\ (0 < janet_string_compare memcmp a b <-> lex_lt b a).
Proof. exact janet_string_compare_lex. Qed.

Lemma string_compare_lexicographic_witness :
  (janet_string_compare memcmp_difference [97; 98] [97; 98; 99] < 0
   <-> lex_lt [97; 98] [97; 98; 99])
  /\ (janet_string_compare memcmp_difference [97; 98] [97; 98; 99] = 0
      <-> [97; 98] = [97; 98; 99])
  /\ (0 < janet_string_compare memcmp_difference [97; 98] [97; 98; 99]
      <-> lex_lt [97; 98; 99] [97; 98]).
Proof.
  apply (string_compare_lexicographic memcmp_difference).
  intros a b n _ _. reflexivity.
Defined.

(** X18. With such a [memcmp], [janet_string_compare] is a total order
    up to the sign of its result: swapping the arguments flips the sign,
    and "at most" is transitive. *)
Theorem string_compare_total_order :
  forall memcmp : list Z -> list Z -> Z -> Z,
    memcmp_spec memcmp ->
    forall a b c : list Z,
      Z.sgn (janet_string_compare memcmp b a)
      = - Z.sgn (janet_string_compare memcmp a b)
      /\ (janet_string_compare memcmp a b <= 0 ->
          janet_string_compare memcmp b c <= 0 ->
          janet_string_compare memcmp a c <= 0).
Proof.
  intros memcmp Hm a b c.
  split; [now apply janet_string_compare_antisym|].
  now apply janet_string_compare_trans.
Qed.

Lemma string_compare_total_order_witness :
  Z.sgn (janet_string_compare memcmp_difference [98] [97; 98])
  = - Z.sgn (janet_string_compare memcmp_difference [97; 98] [98])
  /\ (janet_string_compare memcmp_difference [97; 98] [98] <= 0 ->
      janet_string_compare memcmp_difference [98] [98; 0] <= 0 ->
      janet_string_compare memcmp_difference [97; 98] [98; 0] <= 0).
Proof.
  apply (string_compare_total_order memcmp_difference).
  intros a b n _ _. reflexivity.
Defined.

(** X19. [janet_string_equal] answers 1 when the two strings hold the
    same bytes and 0 otherwise, provided two strings at one address are
    one string and strings of the same bytes carry the same hash: the
    shortcuts on the address, the hash and the length never change the
    answer of the byte comparison. *)
Theorem string_equal_same_bytes :
  forall memcmp : list Z -> list Z -> Z -> Z,
    memcmp_spec memcmp ->
    forall lhs rhs : JanetStringHead,
      (address lhs = address rhs -> data lhs = data rhs) ->
      (data lhs = data rhs -> hash lhs = hash rhs) ->
      janet_string_equal memcmp lhs rhs
      = if list_eq_dec Z.eq_dec (data lhs) (data rhs) then 1 else 0.
Proof. exact janet_string_equal_spec. Qed.

Lemma string_equal_same_bytes_witness :
  janet_string_equal memcmp_difference
    {| address := 16; hash := 5; data := [97; 98] |}
    {| address := 48; hash := 5; data := [97; 98] |}
  = if list_eq_dec Z.eq_dec
         (data {| address := 16; hash := 5; data := [97; 98] |})
         (data {| address := 48; hash := 5; data := [97; 98] |})
    then 1 else 0.
Proof.
  apply (string_equal_same_bytes memcmp_difference).
  - intros a b n _ _. reflexivity.
  - reflexivity.
  - reflexivity.
Defined.

(** ** Patterns without magic characters *)

(** X20. With a pattern none of whose bytes is one of [^$*+?.()[%-],
    [match] is a substring search: it returns the pattern itself, as the
    one whole-match string, when the pattern occurs in the subject at or
    after the start offset, and nil otherwise; for a non-empty pattern it
    returns nil exactly when [find] does from the same offset. *)
Theorem match_plain_pattern :
  forall (subject L : list Z) (start : option Z),
    plain_pattern L ->
    cfun_str_match subject L start =
      Ret (match all_occurrences L subject
                   (str_match_init (len subject) start) with
           | [] => janet_wrap_nil
           | _ :: _ => janet_wrap_array [janet_wrap_string L]
           end)
    /\ (L <> [] ->
        (cfun_str_match subject L start = Ret janet_wrap_nil <->
         cfun_string_find L subject
           (Some (str_match_init (len subject) start)) = Ret janet_wrap_nil)).
Proof.
  intros subject L start HL.
  split; [now apply cfun_str_match_plain|]. intros Hne.
  rewrite cfun_str_match_plain by assumption.
  rewrite find_first_of_findall
    by (auto using str_match_init_nonneg).
  destruct (all_occurrences L subject (str_match_init (len subject) start));
    split; intros H; try reflexivity; discriminate.
Qed.

Lemma match_plain_pattern_witness :
  cfun_str_match [120; 97; 98; 97; 98] [97; 98] (Some 3) =
    Ret (match all_occurrences [97; 98] [120; 97; 98; 97; 98]
                 (str_match_init (len [120; 97; 98; 97; 98]) (Some 3)) with
         | [] => janet_wrap_nil
         | _ :: _ => janet_wrap_array [janet_wrap_string [97; 98]]
         end)
  /\ ([97; 98] <> [] ->
      (cfun_str_match [120; 97; 98; 97; 98] [97; 98] (Some 3)
       = Ret janet_wrap_nil <->
       cfun_string_find [97; 98] [120; 97; 98; 97; 98]
         (Some (str_match_init (len [120; 97; 98; 97; 98]) (Some 3)))
       = Ret janet_wrap_nil)).
Proof.
  apply (match_plain_pattern [120; 97; 98; 97; 98] [97; 98] (Some 3)).
  repeat constructor.
Defined.

(** X21. With ['^'] before such a pattern, [match] makes one attempt: it
    returns the pattern when the pattern occurs at the start offset
    itself, and nil otherwise. *)
Theorem match_anchored_plain_pattern :
  forall (subject L : list Z) (start : option Z),
    plain_pattern L ->
    cfun_str_match subject (ch "^" :: L) start =
      Ret (if occurs_atb L subject (str_match_init (len subject) start)
           then janet_wrap_array [janet_wrap_string L]
           else janet_wrap_nil).
Proof. exact cfun_str_match_anchored_plain. Qed.

Lemma match_anchored_plain_pattern_witness :
  cfun_str_match [120; 97; 98] (ch "^" :: [97; 98]) (Some 2) =
    Ret (if occurs_atb [97; 98] [120; 97; 98]
              (str_match_init (len [120; 97; 98]) (Some 2))
         then janet_wrap_array [janet_wrap_string [97; 98]]
         else janet_wrap_nil).
Proof.
  apply (match_anchored_plain_pattern [120; 97; 98] [97; 98] (Some 2)).
  repeat constructor.
Defined.

(** X22. With ['$'] after such a pattern, [match] returns the pattern
    when the subject ends with it and that occurrence begins at or after
    the start offset, and nil otherwise. *)
Theorem match_plain_pattern_at_end :
  forall (subject L : list Z) (start : option Z),
    plain_pattern L ->
    cfun_str_match subject (L ++ [ch "$"]) start =
      Ret (if (str_match_init (len subject) start <=? len subject - len L)
              && occurs_atb L subject (len subject - len L)
           then janet_wrap_array [janet_wrap_string L]
           else janet_wrap_nil).
Proof. exact cfun_str_match_plain_dollar. Qed.

Lemma match_plain_pattern_at_end_witness :
  cfun_str_match [97; 98; 120; 97; 98] ([97; 98] ++ [ch "$"]) None =
    Ret (if (str_match_init (len [97; 98; 120; 97; 98]) None
             <=? len [97; 98; 120; 97; 98] - len [97; 98])
            && occurs_atb [97; 98] [97; 98; 120; 97; 98]
                 (len [97; 98; 120; 97; 98] - len [97; 98])
         then janet_wrap_array [janet_wrap_string [97; 98]]
         else janet_wrap_nil).
Proof.
  apply (match_plain_pattern_at_end [97; 98; 120; 97; 98] [97; 98] None).
  repeat constructor.
Defined.

(** ** Backtracking and the layouts of a pattern *)

(** X23. When [match] returns captures for a pattern without
    back-reference, the pattern can be laid over the subject, item after
    item, from one of the offsets at which [match] may begin (the start
    offset alone after ['^'], any offset from it to the end otherwise),
    and from no earlier one: the backtracking finds the leftmost offset
    that has a layout. *)
Theorem match_found_has_leftmost_layout :
  forall (subject pattern : list Z) (start : option Z) (caps : list Janet),
    no_backref pattern ->
    cfun_str_match subject pattern start = Ret (janet_wrap_array caps) ->
    exists k e,
      tried subject pattern start k
      /\ layout subject pattern k e
      /\ (forall k' e',
             tried subject pattern start k' -> k' < k ->
             ~ layout subject pattern k' e').
Proof.
  intros subject pattern start caps Hnb H.
  destruct (cfun_str_match_exact subject pattern start _ Hnb H)
    as [(k & e & _ & _ & _ & Hk & Hl & Hleft & _)|[Hv _]];
    [|discriminate].
  exists k, e. auto.
Qed.

Lemma match_found_has_leftmost_layout_witness :
  exists k e,
    tried [120; 97; 97; 98] [40; 97; 42; 41; 98] None k
    /\ layout [120; 97; 97; 98] [40; 97; 42; 41; 98] k e
    /\ (forall k' e',
           tried [120; 97; 97; 98] [40; 97; 42; 41; 98] None k' -> k' < k ->
           ~ layout [120; 97; 97; 98] [40; 97; 42; 41; 98] k' e').
Proof.
  apply (match_found_has_leftmost_layout [120; 97; 97; 98]
           [40; 97; 42; 41; 98] None [janet_wrap_string [97; 97]]).
  - apply no_backref_b_spec. reflexivity.
  - vm_compute. reflexivity.
Defined.

(** X24. When [match] returns nil for a pattern without back-reference,
    the pattern can be laid over the subject from none of the offsets at
    which [match] may begin: the backtracking misses no layout, whatever
    the repetition counts it would need. *)
Theorem match_nil_has_no_layout :
  forall (subject pattern : list Z) (start : option Z),
    no_backref pattern ->
    cfun_str_match subject pattern start = Ret janet_wrap_nil ->
    forall k e,
      tried subject pattern start k -> ~ layout subject pattern k e.
Proof.
  intros subject pattern start Hnb H.
  destruct (cfun_str_match_exact subject pattern start _ Hnb H)
    as [(k & e & _ & _ & caps & _ & _ & _ & Hv & _)|[_ Hn]];
    [discriminate|exact Hn].
Qed.

Lemma match_nil_has_no_layout_witness :
  cfun_str_match [120; 121; 122] [37; 100; 43] None = Ret janet_wrap_nil
  /\ (forall k e,
         tried [120; 121; 122] [37; 100; 43] None k ->
         ~ layout [120; 121; 122] [37; 100; 43] k e).
Proof.
  split; [vm_compute; reflexivity|].
  apply (match_nil_has_no_layout [120; 121; 122] [37; 100; 43] None).
  - apply no_backref_b_spec. reflexivity.
  - vm_compute. reflexivity.
Defined.

(** X25. For a pattern without opening parenthesis and without
    back-reference,
    whatever [match] returns is either nil or the one string made of the
    bytes of the subject from [k] up to [e], where [k] is the leftmost
    offset [match] may begin at from which the pattern can be laid over
    the subject, [e] is the end of such a layout, and
    [k <= e <= len subject]. *)
Theorem match_without_captures_returns_layout :
  forall (subject pattern : list Z) (start : option Z) (v : Janet),
    no_captures pattern ->
    no_backref pattern ->
    cfun_str_match subject pattern start = Ret v ->
    v = janet_wrap_nil
    \/ exists k e,
         v = janet_wrap_array [janet_wrap_string (slice subject k (e - k))]
         /\ tried subject pattern start k
         /\ k <= e <= len subject
         /\ layout subject pattern k e
         /\ (forall k' e',
                tried subject pattern start k' -> k' < k ->
                ~ layout subject pattern k' e').
Proof.
  intros subject pattern start v Hnc Hnb H.
  destruct (cfun_str_match_exact subject pattern start _ Hnb H)
    as [(k & e & ms1 & ms' & caps & Hk & Hl & Hleft & -> & H0 & Em & Ec)
       |[Hv _]]; [right|left; exact Hv].
  apply (match_level subject pattern Hnc) in Em. rewrite H0 in Em.
  rewrite (push_captures_whole subject ms' k e Em) in Ec.
  injection Ec as <-. exists k, e. split; [reflexivity|].
  split; [exact Hk|]. split; [|split; [exact Hl|exact Hleft]].
  apply (lays_bounds _ _ _ _ _ _ Hl). apply Hk.
Qed.

Lemma match_without_captures_returns_layout_witness :
  janet_wrap_array [janet_wrap_string [49; 50]] = janet_wrap_nil
  \/ exists k e,
       janet_wrap_array [janet_wrap_string [49; 50]]
       = janet_wrap_array
           [janet_wrap_string (slice [120; 49; 50; 121] k (e - k))]
       /\ tried [120; 49; 50; 121] [37; 100; 43] None k
       /\ k <= e <= len [120; 49; 50; 121]
       /\ layout [120; 49; 50; 121] [37; 100; 43] k e
       /\ (forall k' e',
              tried [120; 49; 50; 121] [37; 100; 43] None k' -> k' < k ->
              ~ layout [120; 49; 50; 121] [37; 100; 43] k' e').
Proof.
  apply (match_without_captures_returns_layout [120; 49; 50; 121]
           [37; 100; 43] None).
  - intros [H|[H|[H|[]]]]; discriminate H.
  - apply no_backref_b_spec. reflexivity.
  - vm_compute. reflexivity.
Defined.

(** ** Sets *)

(** X26. [matchbracketclass] answers membership in the set that the bytes
    between the brackets write: for single bytes, ranges [lo-hi] and
    classes [%x] that read back as written, a byte is accepted by the
    set of these items exactly when one of the items holds it, and by the
    set that begins with ['^'] exactly when none does. *)
Theorem bracket_set_is_membership :
  forall (pre rest : list Z) (items : list set_item) (negated : bool) (c : Z),
    set_ok items ->
    (negated = false -> hd 0 (set_bytes items ++ [ch "]"]) <> ch "^") ->
    matchbracketclass (pre ++ set_pattern negated items ++ rest) c (len pre)
      (len pre + len (set_pattern negated items) - 1)
    = Ret (xorb negated (existsb (in_item c) items)).
Proof.
  intros pre rest items negated c Hok Hneg. now apply matchbracketclass_set.
Qed.

Lemma bracket_set_is_membership_witness :
  matchbracketclass
    ([120] ++ set_pattern true [set_range 97 122; set_byte 95; set_class 100]
       ++ [43]) 53 (len [120])
    (len [120]
     + len (set_pattern true [set_range 97 122; set_byte 95; set_class 100])
     - 1)
  = Ret (xorb true
           (existsb (in_item 53)
              [set_range 97 122; set_byte 95; set_class 100])).
Proof.
  apply (bracket_set_is_membership [120] [43]
           [set_range 97 122; set_byte 95; set_class 100] true 53).
  - cbn. repeat split; intros; discriminate.
  - discriminate.
Defined.

(** X27. For a set written in a pattern whose first closing bracket after
    the items is its own, [classend] returns the offset just past that
    bracket, and [singlematch] with this end accepts a byte of the subject
    exactly when the set holds it (when it does not, for a set that begins
    with ['^']); at the end of the subject it accepts nothing. *)
Theorem set_item_end_and_match :
  forall (subject pre rest : list Z) (items : list set_item) (negated : bool)
         (ms : MatchState),
    set_ok items ->
    set_closed items ->
    (negated = false -> hd 0 (set_bytes items ++ [ch "]"]) <> ch "^") ->
    len pre + len (set_pattern negated items) <= p_end ms ->
    let pattern := pre ++ set_pattern negated items ++ rest in
    let ep := len pre + len (set_pattern negated items) in
    classend pattern ms (len pre) = Ret ep
    /\ forall s,
         singlematch subject pattern ms s (len pre) ep
         = Ret (if s >=? src_end ms then false
                else xorb negated (existsb (in_item (rd subject s)) items)).
Proof.
  intros subject pre rest items negated ms Hok Hcl Hneg Hpe pattern ep.
  split; [now apply classend_set|].
  intros s. now apply singlematch_set.
Qed.

Lemma set_item_end_and_match_witness :
  classend ([120] ++ set_pattern false [set_byte 93; set_range 48 57] ++ [43])
    (prepstate 3 7 0) (len [120])
  = Ret (len [120] + len (set_pattern false [set_byte 93; set_range 48 57]))
  /\ forall s,
       singlematch [120; 93; 55]
         ([120] ++ set_pattern false [set_byte 93; set_range 48 57] ++ [43])
         (prepstate 3 7 0) s (len [120])
         (len [120] + len (set_pattern false [set_byte 93; set_range 48 57]))
       = Ret (if s >=? src_end (prepstate 3 7 0) then false
              else xorb false
                     (existsb (in_item (rd [120; 93; 55] s))
                        [set_byte 93; set_range 48 57])).
Proof.
  apply (set_item_end_and_match [120; 93; 55] [120] [43]
           [set_byte 93; set_range 48 57] false (prepstate 3 7 0)).
  - cbn. repeat split; intros; discriminate.
  - split; [discriminate|]. split.
    + repeat constructor; discriminate.
    + repeat constructor. discriminate.
  - intros _. discriminate.
  - vm_compute. discriminate.
Defined.

(** ** [replace-all], [split] and [join] *)

(** X28. When no two occurrences of the non-empty pattern overlap and
    the string that [replace-all] makes is at most [INT32_MAX] bytes long,
    [replace-all] returns it, and it is what [join] makes of the segments
    of [split] with the substitute as separator; for a longer string
    [join] answers "result string too long". *)
Theorem replace_all_is_split_then_join :
  forall (P S T : list Z) (s : Z),
    P <> [] -> 0 <= s -> no_overlap P T s -> len T <= INT32_MAX ->
    exists parts result,
      cfun_string_split P T (Some (s, None)) = Ret (janet_wrap_array parts)
      /\ (len result <= INT32_MAX ->
          cfun_string_replaceall P S T (Some s)
          = Ret (janet_wrap_string result)
          /\ cfun_string_join parts (Some S)
             = Ret (inr (janet_wrap_string result)))
      /\ (INT32_MAX < len result ->
          cfun_string_join parts (Some S)
          = Ret (inl result_string_too_long)).
Proof. exact replaceall_split_join. Qed.

Lemma replace_all_is_split_then_join_witness :
  exists parts result,
    cfun_string_split [44] [97; 44; 98; 44; 44; 99] (Some (0, None))
    = Ret (janet_wrap_array parts)
    /\ (len result <= INT32_MAX ->
        cfun_string_replaceall [44] [59; 32] [97; 44; 98; 44; 44; 99] (Some 0)
        = Ret (janet_wrap_string result)
        /\ cfun_string_join parts (Some [59; 32])
           = Ret (inr (janet_wrap_string result)))
    /\ (INT32_MAX < len result ->
        cfun_string_join parts (Some [59; 32])
        = Ret (inl result_string_too_long)).
Proof.
  apply (replace_all_is_split_then_join [44] [59; 32]
           [97; 44; 98; 44; 44; 99] 0).
  - discriminate.
  - lia.
  - intros o o' _ Hlt _ _. change (len [44]) with 1. lia.
  - vm_compute. discriminate.
Defined.
